(** * A shallow embedding of the Lox tree-walking interpreter

    The development follows the TypeScript sources phase by phase:
    tokens and syntax trees ([types.ts]), the scanner ([lexer.ts]), the
    parser ([parser.ts]), the resolver ([resolver.ts]), environments
    ([environment.ts]) and the evaluator ([interpreter.ts]).

    Conventions of the embedding.
    - JavaScript objects that are mutated after construction (environment
      frames, instance field maps, the interpreter, the scanner, the parser
      and the resolver) live in explicit state; a reference to such an object
      is its index in the store.
    - Objects that are never mutated after construction ([LoxFunction],
      [LoxClass], syntax tree nodes) are embedded by value together with the
      identity they received when they were allocated, because [===] on
      objects and [Map<Expr, number>] keys compare identities.
    - [undefined] is a first-class outcome of [Map.get] and of array reads
      out of range, so it is part of the value type.
    - Numbers are IEEE-754 binary64 values ([spec_float] with precision 53
      and maximal exponent 1024).
    - Loops and recursion that are not structural take a fuel argument;
      running out of fuel is a separate outcome. *)

From Stdlib Require Import ZArith Ascii String List Bool Lia SpecFloat.
From Stdlib Require Import DecimalString.
From stdpp Require Import gmap strings list.

Local Open Scope string_scope.
Local Open Scope nat_scope.
Local Set Warnings "-register-all".

(** ** Numbers *)

Definition number : Type := spec_float.

Module Num.
Definition prec : Z := 53.
Definition emax : Z := 1024.

Definition ofZ (z : Z) : number := binary_normalize prec emax z 0 false.
Definition add : number -> number -> number := SFadd prec emax.
Definition sub : number -> number -> number := SFsub prec emax.
Definition mul : number -> number -> number := SFmul prec emax.
Definition div : number -> number -> number := SFdiv prec emax.
Definition neg : number -> number := SFopp.
Definition eqb : number -> number -> bool := SFeqb.
Definition ltb : number -> number -> bool := SFltb.
Definition leb : number -> number -> bool := SFleb.

Definition NaN : number := S754_nan.
Definition zero : number := S754_zero false.
Definition negzero : number := S754_zero true.

(** [Object.is(value, -0)] *)
Definition isNegZero (x : number) : bool :=
  match x with S754_zero true => true | _ => false end.
End Num.

(** ** Characters and strings of the host *)

Definition chr (n : nat) : string := String (ascii_of_nat n) EmptyString.
Definition NUL : string := chr 0.
Definition TAB : string := chr 9.
Definition LF : string := chr 10.
Definition CR : string := chr 13.
Definition DQUOTE : string := chr 34.

(** [s.charAt(i)]: the empty string out of range. *)
Definition charAt (s : string) (i : nat) : string :=
  match String.get i s with
  | Some a => String a EmptyString
  | None => EmptyString
  end.

(** [s.substring(a, b)] for [a <= b <= s.length]; arguments beyond the length
    are clamped by [String.substring] as the host clamps them. *)
Definition substring (s : string) (a b : nat) : string :=
  String.substring a (b - a) s.

(** ** Tokens ([types.ts]) *)

Inductive TokenType : Type :=
  | T_and | T_class | T_else | T_false | T_for | T_fun | T_if | T_nil | T_or
  | T_print | T_return | T_super | T_this | T_true | T_var | T_while
  | T_left_paren | T_right_paren | T_left_brace | T_right_brace
  | T_comma | T_dot | T_minus | T_plus | T_semicolon | T_slash | T_star
  | T_bang | T_bang_equal | T_equal | T_equal_equal
  | T_greater | T_greater_equal | T_less | T_less_equal
  | T_identifier | T_string | T_number | T_eof.

#[global] Instance TokenType_eq_dec : EqDecision TokenType.
Proof. solve_decision. Defined.

Definition tt_eqb (a b : TokenType) : bool := bool_decide (a = b).

(** [string | number | undefined] *)
Inductive TokenLiteral : Type :=
  | TLundefined
  | TLstring (s : string)
  | TLnumber (n : number).

Record Token : Type := mkToken {
  type : TokenType;
  lexeme : string;
  literal : TokenLiteral;
  line : nat
}.

Definition keywords : list (string * TokenType) :=
  [ ("and", T_and); ("class", T_class); ("else", T_else); ("false", T_false);
    ("for", T_for); ("fun", T_fun); ("if", T_if); ("nil", T_nil);
    ("or", T_or); ("print", T_print); ("return", T_return);
    ("super", T_super); ("this", T_this); ("true", T_true); ("var", T_var);
    ("while", T_while) ].

(** [isKeyword(s)], returning the token type the keyword text denotes. *)
Fixpoint assoc_string {A} (l : list (string * A)) (s : string) : option A :=
  match l with
  | [] => None
  | (k, v) :: l' => if String.eqb k s then Some v else assoc_string l' s
  end.

Definition isKeyword (s : string) : option TokenType := assoc_string keywords s.

(** ** The error reporter ([run.ts])

    [report] writes one line to the error stream and sets [hadError]; the
    stream is kept as the list of reports, oldest first, and [hadError] is
    its non-emptiness. *)

Record Report : Type := mkReport {
  r_line : nat;
  r_where : string;
  r_message : string
}.

Definition report (ln : nat) (where_ message : string) (log : list Report)
  : list Report :=
  log ++ [mkReport ln where_ message].

(** [error(line: number, message)] *)
Definition error_line (ln : nat) (message : string) (log : list Report)
  : list Report :=
  report ln "" message log.

(** [error(token: Token, message)] *)
Definition error_token (token : Token) (message : string) (log : list Report)
  : list Report :=
  if tt_eqb (type token) T_eof
  then report (line token) " at end" message log
  else report (line token) (" at '" ++ lexeme token ++ "'") message log.

Definition hadError (log : list Report) : bool :=
  match log with [] => false | _ => true end.

(** ** The host's [Number.parseFloat] on the scanner's number lexemes

    The scanner passes decimal digits with an optional fraction part. The
    value is the decimal numeral rounded once, to nearest even, to binary64:
    the numeral [d1..dn.f1..fk] is the quotient of the integer [d1..dnf1..fk]
    by [10^k]. *)

Module ParseFloat.
Definition digitVal (a : ascii) : option Z :=
  let n := nat_of_ascii a in
  if (48 <=? n) && (n <=? 57) then Some (Z.of_nat (n - 48)) else None.

(** Reads the digits of [s] from [acc]; stops at the first other character
    and returns what is left. *)
Fixpoint digits (s : string) (acc : Z) (count : nat) : Z * nat * string :=
  match s with
  | EmptyString => (acc, count, s)
  | String a s' =>
      match digitVal a with
      | Some d => digits s' (acc * 10 + d)%Z (S count)
      | None => (acc, count, s)
      end
  end.

Definition ratio (m d : Z) : number :=
  match m, d with
  | Zpos pm, Zpos pd =>
      SFdiv Num.prec Num.emax (S754_finite false pm 0) (S754_finite false pd 0)
  | _, _ => S754_zero false
  end.

Definition parseFloat (s : string) : number :=
  let '(ip, n, rest) := digits s 0%Z 0 in
  match n with
  | 0 => S754_nan
  | _ =>
      match rest with
      | String "." frac =>
          let '(m, k, _) := digits frac ip 0 in
          match k with
          | 0 => Num.ofZ ip
          | _ => ratio m (10 ^ Z.of_nat k)%Z
          end
      | _ => Num.ofZ ip
      end
  end.
End ParseFloat.

(** ** The scanner ([lexer.ts]) *)

Module Scanner.

Record t : Type := mk {
  source : string;
  tokens : list Token;
  start : nat;
  current : nat;
  line : nat;
  log : list Report          (* the error stream written by [error] *)
}.

(** [new Scanner(source)], writing to an error stream that holds [log]. *)
Definition new (src : string) (lg : list Report) : t :=
  mk src [] 0 0 1 lg.

Definition set_start (n : nat) (sc : t) : t :=
  mk (source sc) (tokens sc) n (current sc) (line sc) (log sc).
Definition set_current (n : nat) (sc : t) : t :=
  mk (source sc) (tokens sc) (start sc) n (line sc) (log sc).
Definition set_line (n : nat) (sc : t) : t :=
  mk (source sc) (tokens sc) (start sc) (current sc) n (log sc).
Definition push_token (tok : Token) (sc : t) : t :=
  mk (source sc) (tokens sc ++ [tok]) (start sc) (current sc) (line sc) (log sc).
Definition error (ln : nat) (message : string) (sc : t) : t :=
  mk (source sc) (tokens sc) (start sc) (current sc) (line sc)
     (error_line ln message (log sc)).

(** [while (cond) body] with a bound on the number of iterations. *)
Fixpoint while (fuel : nat) (cond : t -> bool) (body : t -> t) (sc : t) : t :=
  match fuel with
  | 0 => sc
  | S fuel' => if cond sc then while fuel' cond body (body sc) else sc
  end.

(** The characters left to read; no loop of the scanner runs longer. *)
Definition remaining (sc : t) : nat := String.length (source sc) - current sc.

Definition isAtEnd (sc : t) : bool :=
  String.length (source sc) <=? current sc.

Definition isDigit (c : string) : bool :=
  String.leb "0" c && String.leb c "9".

Definition isAlpha (c : string) : bool :=
  (String.leb "a" c && String.leb c "z")
  || (String.leb "A" c && String.leb c "Z")
  || String.eqb c "_".

Definition isAlphaNumeric (c : string) : bool := isAlpha c || isDigit c.

Definition advance (sc : t) : string * t :=
  (charAt (source sc) (current sc), set_current (S (current sc)) sc).

Definition match_ (expected : string) (sc : t) : bool * t :=
  if isAtEnd sc then (false, sc)
  else if negb (String.eqb (charAt (source sc) (current sc)) expected)
  then (false, sc)
  else (true, set_current (S (current sc)) sc).

Definition peek (sc : t) : string :=
  if isAtEnd sc then NUL else charAt (source sc) (current sc).

Definition peekNext (sc : t) : string :=
  if String.length (source sc) <=? current sc + 1 then NUL
  else charAt (source sc) (current sc + 1).

Definition addToken (ty : TokenType) (lit : TokenLiteral) (sc : t) : t :=
  let text := substring (source sc) (start sc) (current sc) in
  push_token (mkToken ty text lit (line sc)) sc.

Definition number_ (sc : t) : t :=
  let sc := while (remaining sc) (fun s => isDigit (peek s))
                  (fun s => snd (advance s)) sc in
  let sc :=
    if String.eqb (peek sc) "." && isDigit (peekNext sc) then
      let sc := snd (advance sc) in
      while (remaining sc) (fun s => isDigit (peek s))
            (fun s => snd (advance s)) sc
    else sc in
  addToken T_number
    (TLnumber (ParseFloat.parseFloat
                 (substring (source sc) (start sc) (current sc)))) sc.

Definition identifier (sc : t) : t :=
  let sc := while (remaining sc) (fun s => isAlphaNumeric (peek s))
                  (fun s => snd (advance s)) sc in
  let text := substring (source sc) (start sc) (current sc) in
  let ty := match isKeyword text with
            | Some kw => kw
            | None => T_identifier
            end in
  addToken ty TLundefined sc.

Definition string_ (sc : t) : t :=
  let sc :=
    while (remaining sc)
      (fun s => negb (String.eqb (peek s) DQUOTE) && negb (isAtEnd s))
      (fun s =>
         let s := if String.eqb (peek s) LF then set_line (S (line s)) s
                  else s in
         snd (advance s))
      sc in
  if isAtEnd sc then error (line sc) "Unterminated string." sc
  else
    let sc := snd (advance sc) in
    let value := substring (source sc) (start sc + 1) (current sc - 1) in
    addToken T_string (TLstring value) sc.

Definition addToken2 (expected : string) (yes no : TokenType) (sc : t) : t :=
  let (m, sc) := match_ expected sc in
  addToken (if m then yes else no) TLundefined sc.

Definition scanToken (sc : t) : t :=
  let (c, sc) := advance sc in
  match c with
  | "(" => addToken T_left_paren TLundefined sc
  | ")" => addToken T_right_paren TLundefined sc
  | "{" => addToken T_left_brace TLundefined sc
  | "}" => addToken T_right_brace TLundefined sc
  | "," => addToken T_comma TLundefined sc
  | "." => addToken T_dot TLundefined sc
  | "-" => addToken T_minus TLundefined sc
  | "+" => addToken T_plus TLundefined sc
  | ";" => addToken T_semicolon TLundefined sc
  | "*" => addToken T_star TLundefined sc
  | "!" => addToken2 "=" T_bang_equal T_bang sc
  | "=" => addToken2 "=" T_equal_equal T_equal sc
  | "<" => addToken2 "=" T_less_equal T_less sc
  | ">" => addToken2 "=" T_greater_equal T_greater sc
  | "/" =>
      let (m, sc) := match_ "/" sc in
      if m then
        while (remaining sc)
          (fun s => negb (String.eqb (peek s) LF) && negb (isAtEnd s))
          (fun s => snd (advance s)) sc
      else addToken T_slash TLundefined sc
  | " " => sc
  | String "013"%char EmptyString => sc
  | String "009"%char EmptyString => sc
  | String "010"%char EmptyString => set_line (S (line sc)) sc
  | String "034"%char EmptyString => string_ sc
  | _ =>
      if isDigit c then number_ sc
      else if isAlpha c then identifier sc
      else error (line sc) "Unexpected character." sc
  end.

Definition scanTokens (sc : t) : t :=
  let sc :=
    while (S (remaining sc)) (fun s => negb (isAtEnd s))
      (fun s => scanToken (set_start (current s) s)) sc in
  push_token (mkToken T_eof "" TLundefined (line sc)) sc.

End Scanner.

(** ** Syntax trees ([types.ts])

    An expression object that the resolver may use as a key of the
    side-table carries [id], the identity the node got when the parser
    allocated it. *)

Inductive LiteralValue : Type :=
  | LVnumber (n : number)
  | LVstring (s : string)
  | LVbool (b : bool)
  | LVnull
  | LVundefined.

Record Variable_ : Type := mkVariable {
  var_id : nat;
  var_name : Token
}.

Inductive Expr : Type :=
  | EAssignment (id : nat) (name : Token) (value : Expr)
  | EBinary (left : Expr) (operator : Token) (right : Expr)
  | ECall (callee : Expr) (paren : Token) (arguments : list Expr)
  | EGet (object : Expr) (name : Token)
  | EGrouping (expression : Expr)
  | ELiteral (value : LiteralValue)
  | ELogical (left : Expr) (operator : Token) (right : Expr)
  | ESet (object : Expr) (name : Token) (value : Expr)
  | ESuper (id : nat) (keyword : Token) (method : Token)
  | EThis (id : nat) (keyword : Token)
  | EUnary (operator : Token) (right : Expr)
  | EVariable (v : Variable_).

Inductive Stmt : Type :=
  | SBlock (statements : list Stmt)
  | SClass (name : Token) (superclass : option Variable_)
           (methods : list FunctionStmt)
  | SExpression (expression : Expr)
  | SFunction (fn : FunctionStmt)
  | SIf (condition : Expr) (thenBranch : Stmt) (elseBranch : option Stmt)
  | SPrint (expression : Expr)
  | SReturn (keyword : Token) (value : option Expr)
  | SVar (name : Token) (initializer : option Expr)
  | SWhile (condition : Expr) (body : Stmt)
with FunctionStmt : Type :=
  | mkFunctionStmt (name : Token) (params : list Token) (body : list Stmt).

Definition fn_name (f : FunctionStmt) : Token :=
  match f with mkFunctionStmt n _ _ => n end.
Definition fn_params (f : FunctionStmt) : list Token :=
  match f with mkFunctionStmt _ p _ => p end.
Definition fn_body (f : FunctionStmt) : list Stmt :=
  match f with mkFunctionStmt _ _ b => b end.

(** ** State with exceptions

    A method that reads and writes the fields of [this] and may throw is a
    function from the state to an outcome and the state the method left
    behind. *)

Inductive Outcome (E A : Type) : Type :=
  | Normal (a : A)
  | Throw (e : E).
Arguments Normal {E A} a.
Arguments Throw {E A} e.

Definition ES (S E A : Type) : Type := S -> Outcome E A * S.

Definition ret {S E A} (a : A) : ES S E A := fun s => (Normal a, s).

Definition bind {S E A B} (m : ES S E A) (f : A -> ES S E B) : ES S E B :=
  fun s =>
    match m s with
    | (Normal a, s') => f a s'
    | (Throw e, s') => (Throw e, s')
    end.

Declare Scope es_scope.
Delimit Scope es_scope with es.
Notation "x ← y ; z" := (bind y (fun x => z))
  (at level 20, y at level 100, z at level 200, only parsing) : es_scope.
Notation "x ;; z" := (bind x (fun _ => z))
  (at level 100, z at level 200, only parsing, right associativity) : es_scope.
Local Open Scope es_scope.

Definition throw {S E A} (e : E) : ES S E A := fun s => (Throw e, s).
Definition get_state {S E} : ES S E S := fun s => (Normal s, s).
Definition gets {S E A} (f : S -> A) : ES S E A := fun s => (Normal (f s), s).
Definition modify {S E} (f : S -> S) : ES S E unit := fun s => (Normal tt, f s).

(** [try { m } catch (e) { handler e }] *)
Definition try_catch {S E A} (m : ES S E A) (handler : E -> ES S E A)
  : ES S E A :=
  fun s =>
    match m s with
    | (Normal a, s') => (Normal a, s')
    | (Throw e, s') => handler e s'
    end.

(** [try { m } finally { cleanup }], for a [cleanup] that does not throw. *)
Definition try_finally {S E A} (m : ES S E A) (cleanup : S -> S) : ES S E A :=
  fun s =>
    match m s with
    | (r, s') => (r, cleanup s')
    end.

(** [if (b) { m }] *)
Definition when_ {S E} (b : bool) (m : ES S E unit) : ES S E unit :=
  if b then m else ret tt.

(** A loop whose body says whether to go on ([inl]) or to leave ([inr]);
    [exhausted] is thrown when the bound on the iterations is reached. *)
Fixpoint loop {S E A} (exhausted : E) (fuel : nat)
    (step : A -> ES S E (A + A)) (a : A) : ES S E A :=
  match fuel with
  | 0 => throw exhausted
  | S fuel' =>
      r ← step a;
      match r with
      | inl a' => loop exhausted fuel' step a'
      | inr a' => ret a'
      end
  end.

(** ** The parser ([parser.ts]) *)

Module Parser.

(** What a method of the parser can throw: the [ParseError] sentinel, the
    host's [TypeError] for a property read on [undefined], and the bound on
    recursion and iteration. *)
Inductive Exc : Type := ParseError | TypeError | OutOfFuel.

Record t : Type := mk {
  tokens : list Token;
  current : nat;
  nextId : nat;            (* identity of the next expression node *)
  log : list Report        (* the error stream written by [error] *)
}.

Definition new (toks : list Token) (lg : list Report) : t := mk toks 0 0 lg.

Definition P : Type -> Type := ES t Exc.

Definition set_current (n : nat) (p : t) : t :=
  mk (tokens p) n (nextId p) (log p).

(** The identity of a node created by an object literal. *)
Definition fresh : P nat :=
  fun p : t => (Normal (nextId p), mk (tokens p) (current p) (S (nextId p)) (log p)).

(** The global [error(token, message)]. *)
Definition report_error (token : Token) (message : string) : P unit :=
  modify (fun p => mk (tokens p) (current p) (nextId p)
                      (error_token token message (log p))).

(** [this.tokens[this.current]], read through: every caller reads a
    property of the result, which throws on [undefined]. *)
Definition peek : P Token :=
  fun p : t => match tokens p !! current p with
           | Some tok => (Normal tok, p)
           | None => (Throw TypeError, p)
           end.

(** [this.tokens[this.current - 1]], [None] for [undefined]. *)
Definition previous_opt (p : t) : option Token :=
  match current p with
  | 0 => None
  | S i => tokens p !! i
  end.

(** [previous()] where the caller reads a property of the result. *)
Definition previous : P Token :=
  fun p : t => match previous_opt p with
           | Some tok => (Normal tok, p)
           | None => (Throw TypeError, p)
           end.

Definition isAtEnd : P bool :=
  tok ← peek; ret (tt_eqb (type tok) T_eof).

Definition advance : P (option Token) :=
  e ← isAtEnd;
  when_ (negb e) (modify (fun p => set_current (S (current p)) p));;
  gets previous_opt.

Definition check (ty : TokenType) : P bool :=
  e ← isAtEnd;
  if e then ret false
  else tok ← peek; ret (tt_eqb (type tok) ty).

Fixpoint match_ (types : list TokenType) : P bool :=
  match types with
  | [] => ret false
  | ty :: types' =>
      c ← check ty;
      if c then advance;; ret true else match_ types'
  end.

(** [this.error(token, message)]: reports and returns the sentinel. *)
Definition error (token : Token) (message : string) : P Exc :=
  report_error token message;; ret ParseError.

Definition consume (ty : TokenType) (message : string) : P Token :=
  c ← check ty;
  if c then
    r ← advance;
    match r with
    | Some tok => ret tok
    | None => throw TypeError
    end
  else
    tok ← peek;
    e ← error tok message;
    throw e.

Definition synchronize : P unit :=
  advance;;
  p ← get_state;
  loop OutOfFuel (S (length (tokens p) - current p))
    (fun _ : unit =>
       e ← isAtEnd;
       if e then ret (inr tt)
       else
         prev ← previous;
         if tt_eqb (type prev) T_semicolon then ret (inr tt)
         else
           tok ← peek;
           match type tok with
           | T_class | T_fun | T_var | T_for | T_if | T_while | T_print
           | T_return => ret (inr tt)
           | _ => advance;; ret (inl tt)
           end)
    tt.

(** The loop shared by the binary levels of the precedence ladder:
    [while (this.match(...ops)) { operator = previous(); right = next();
    expr = node(expr, operator, right) }]. *)
Definition binaryLevel (fuel : nat) (ops : list TokenType)
    (node : Expr -> Token -> Expr -> Expr) (next : P Expr) : P Expr :=
  expr ← next;
  loop OutOfFuel fuel
    (fun expr =>
       m ← match_ ops;
       if m then
         operator ← previous;
         right ← next;
         ret (inl (node expr operator right))
       else ret (inr expr))
    expr.

Definition literalOfToken (l : TokenLiteral) : LiteralValue :=
  match l with
  | TLundefined => LVundefined
  | TLstring s => LVstring s
  | TLnumber n => LVnumber n
  end.

Fixpoint expression (fuel : nat) : P Expr :=
  match fuel with
  | 0 => throw OutOfFuel
  | S n => assignment n
  end

with assignment (fuel : nat) : P Expr :=
  match fuel with
  | 0 => throw OutOfFuel
  | S n =>
      expr ← or_ n;
      m ← match_ [T_equal];
      if m then
        equals ← previous;
        value ← assignment n;
        match expr with
        | EVariable v =>
            i ← fresh; ret (EAssignment i (var_name v) value)
        | EGet object name => ret (ESet object name value)
        | _ =>
            report_error equals "Invalid assignment target.";;
            ret expr
        end
      else ret expr
  end

with or_ (fuel : nat) : P Expr :=
  match fuel with
  | 0 => throw OutOfFuel
  | S n => binaryLevel n [T_or] ELogical (and_ n)
  end

with and_ (fuel : nat) : P Expr :=
  match fuel with
  | 0 => throw OutOfFuel
  | S n => binaryLevel n [T_and] ELogical (equality n)
  end

with equality (fuel : nat) : P Expr :=
  match fuel with
  | 0 => throw OutOfFuel
  | S n => binaryLevel n [T_bang_equal; T_equal_equal] EBinary (comparison n)
  end

with comparison (fuel : nat) : P Expr :=
  match fuel with
  | 0 => throw OutOfFuel
  | S n =>
      binaryLevel n [T_greater; T_greater_equal; T_less; T_less_equal]
        EBinary (term n)
  end

with term (fuel : nat) : P Expr :=
  match fuel with
  | 0 => throw OutOfFuel
  | S n => binaryLevel n [T_minus; T_plus] EBinary (factor n)
  end

with factor (fuel : nat) : P Expr :=
  match fuel with
  | 0 => throw OutOfFuel
  | S n => binaryLevel n [T_slash; T_star] EBinary (unary n)
  end

with unary (fuel : nat) : P Expr :=
  match fuel with
  | 0 => throw OutOfFuel
  | S n =>
      m ← match_ [T_bang; T_minus];
      if m then
        operator ← previous;
        right ← unary n;
        ret (EUnary operator right)
      else call n
  end

with call (fuel : nat) : P Expr :=
  match fuel with
  | 0 => throw OutOfFuel
  | S n =>
      expr ← primary n;
      loop OutOfFuel n
        (fun expr =>
           m ← match_ [T_left_paren];
           if m then e ← finishCall n expr; ret (inl e)
           else
             m ← match_ [T_dot];
             if m then
               name ← consume T_identifier "Expect property name after '.'.";
               ret (inl (EGet expr name))
             else ret (inr expr))
        expr
  end

with finishCall (fuel : nat) (callee : Expr) : P Expr :=
  match fuel with
  | 0 => throw OutOfFuel
  | S n =>
      c ← check T_right_paren;
      args ←
        (if c then ret []
         else
           loop OutOfFuel n
             (fun args : list Expr =>
                when_ (255 <=? length args)
                  (tok ← peek;
                   error tok "Can't have more than 255 arguments.";;
                   ret tt);;
                e ← expression n;
                m ← match_ [T_comma];
                ret (if m then inl (args ++ [e])%list else inr (args ++ [e])%list))
             []);
      paren ← consume T_right_paren "Expect ')' after arguments.";
      ret (ECall callee paren args)
  end

with primary (fuel : nat) : P Expr :=
  match fuel with
  | 0 => throw OutOfFuel
  | S n =>
      m ← match_ [T_false];
      if m then ret (ELiteral (LVbool false)) else
      m ← match_ [T_true];
      if m then ret (ELiteral (LVbool true)) else
      m ← match_ [T_nil];
      if m then ret (ELiteral LVnull) else
      m ← match_ [T_number; T_string];
      if m then
        tok ← previous; ret (ELiteral (literalOfToken (literal tok)))
      else
      m ← match_ [T_super];
      if m then
        keyword ← previous;
        consume T_dot "Expect '.' after 'super'.";;
        method ← consume T_identifier "Expect superclass method name.";
        i ← fresh;
        ret (ESuper i keyword method)
      else
      m ← match_ [T_this];
      if m then
        keyword ← previous; i ← fresh; ret (EThis i keyword)
      else
      m ← match_ [T_identifier];
      if m then
        name ← previous; i ← fresh; ret (EVariable (mkVariable i name))
      else
      m ← match_ [T_left_paren];
      if m then
        expr ← expression n;
        consume T_right_paren "Expect ')' after expression.";;
        ret (EGrouping expr)
      else
        tok ← peek;
        e ← error tok "Expect expression.";
        throw e
  end.

Definition varDeclaration (fuel : nat) : P Stmt :=
  name ← consume T_identifier "Expect variable name.";
  m ← match_ [T_equal];
  initializer ← (if m then e ← expression fuel; ret (Some e) else ret None);
  consume T_semicolon "Expect ';' after variable declaration.";;
  ret (SVar name initializer).

Definition returnStatement (fuel : nat) : P Stmt :=
  keyword ← previous;
  c ← check T_semicolon;
  value ← (if negb c then e ← expression fuel; ret (Some e) else ret None);
  consume T_semicolon "Expect ';' after return value.";;
  ret (SReturn keyword value).

Definition printStatement (fuel : nat) : P Stmt :=
  value ← expression fuel;
  consume T_semicolon "Expect ';' after value.";;
  ret (SPrint value).

Definition expressionStatement (fuel : nat) : P Stmt :=
  expr ← expression fuel;
  consume T_semicolon "Expect ';' after expression.";;
  ret (SExpression expr).

(** The two kinds of [funcDeclaration]. *)
Inductive FunKind : Type := KFunction | KMethod.
Definition kindName (k : FunKind) : string :=
  match k with KFunction => "function" | KMethod => "method" end.

Fixpoint declaration (fuel : nat) : P (option Stmt) :=
  match fuel with
  | 0 => throw OutOfFuel
  | S n =>
      try_catch
        (m ← match_ [T_class];
         if m then s ← classDeclaration n; ret (Some s) else
         m ← match_ [T_fun];
         if m then f ← funcDeclaration n KFunction; ret (Some (SFunction f))
         else
         m ← match_ [T_var];
         if m then s ← varDeclaration n; ret (Some s) else
         s ← statement n; ret (Some s))
        (fun e =>
           match e with
           | ParseError => synchronize;; ret None
           | _ => throw e
           end)
  end

with classDeclaration (fuel : nat) : P Stmt :=
  match fuel with
  | 0 => throw OutOfFuel
  | S n =>
      name ← consume T_identifier "Expect class name.";
      m ← match_ [T_less];
      superclass ←
        (if m then
           consume T_identifier "Expect superclass name.";;
           prev ← previous;
           i ← fresh;
           ret (Some (mkVariable i prev))
         else ret None);
      consume T_left_brace "Expect '{' before class body.";;
      methods ←
        loop OutOfFuel n
          (fun methods : list FunctionStmt =>
             c ← check T_right_brace;
             e ← isAtEnd;
             if negb c && negb e then
               f ← funcDeclaration n KMethod;
               ret (inl (methods ++ [f])%list)
             else ret (inr methods))
          [];
      consume T_right_brace "Expect '}' after class body.";;
      ret (SClass name superclass methods)
  end

with funcDeclaration (fuel : nat) (kind : FunKind) : P FunctionStmt :=
  match fuel with
  | 0 => throw OutOfFuel
  | S n =>
      name ← consume T_identifier ("Expect " ++ kindName kind ++ " name.");
      consume T_left_paren ("Expect '(' after " ++ kindName kind ++ " name.");;
      c ← check T_right_paren;
      params ←
        (if c then ret []
         else
           loop OutOfFuel n
             (fun params : list Token =>
                when_ (255 <=? length params)
                  (tok ← peek;
                   error tok "Can't have more than 255 parameters.";;
                   ret tt);;
                param ← consume T_identifier "Expect parameter name.";
                m ← match_ [T_comma];
                ret (if m then inl (params ++ [param])%list
                     else inr (params ++ [param])%list))
             []);
      consume T_right_paren "Expect ')' after parameters.";;
      consume T_left_brace ("Expect '{' before " ++ kindName kind ++ " body.");;
      body ← block n;
      ret (mkFunctionStmt name params body)
  end

with statement (fuel : nat) : P Stmt :=
  match fuel with
  | 0 => throw OutOfFuel
  | S n =>
      m ← match_ [T_for];
      if m then forStatement n else
      m ← match_ [T_if];
      if m then ifStatement n else
      m ← match_ [T_print];
      if m then printStatement n else
      m ← match_ [T_return];
      if m then returnStatement n else
      m ← match_ [T_while];
      if m then whileStatement n else
      m ← match_ [T_left_brace];
      if m then stmts ← block n; ret (SBlock stmts) else
      expressionStatement n
  end

with block (fuel : nat) : P (list Stmt) :=
  match fuel with
  | 0 => throw OutOfFuel
  | S n =>
      statements ←
        loop OutOfFuel n
          (fun statements : list Stmt =>
             c ← check T_right_brace;
             e ← isAtEnd;
             if negb c && negb e then
               d ← declaration n;
               match d with
               | Some st => ret (inl (statements ++ [st])%list)
               | None => ret (inl statements)
               end
             else ret (inr statements))
          [];
      consume T_right_brace "Expect '}' after block.";;
      ret statements
  end

with forStatement (fuel : nat) : P Stmt :=
  match fuel with
  | 0 => throw OutOfFuel
  | S n =>
      consume T_left_paren "Expect '(' after 'for'.";;
      m ← match_ [T_semicolon];
      initializer ←
        (if m then ret None
         else
           m ← match_ [T_var];
           if m then s ← varDeclaration n; ret (Some s)
           else s ← expressionStatement n; ret (Some s));
      c ← check T_semicolon;
      condition ← (if negb c then e ← expression n; ret (Some e) else ret None);
      consume T_semicolon "Expect ';' after loop condition.";;
      c ← check T_right_paren;
      increment ← (if negb c then e ← expression n; ret (Some e) else ret None);
      consume T_right_paren "Expect ')' after for clauses.";;
      body ← statement n;
      let body :=
        match increment with
        | Some inc => SBlock [body; SExpression inc]
        | None => body
        end in
      let condition :=
        match condition with
        | Some c => c
        | None => ELiteral (LVbool true)
        end in
      let body := SWhile condition body in
      let body :=
        match initializer with
        | Some init => SBlock [init; body]
        | None => body
        end in
      ret body
  end

with ifStatement (fuel : nat) : P Stmt :=
  match fuel with
  | 0 => throw OutOfFuel
  | S n =>
      consume T_left_paren "Expect '(' after 'if'.";;
      condition ← expression n;
      consume T_right_paren "Expect ')' after if condition.";;
      thenBranch ← statement n;
      m ← match_ [T_else];
      elseBranch ← (if m then s ← statement n; ret (Some s) else ret None);
      ret (SIf condition thenBranch elseBranch)
  end

with whileStatement (fuel : nat) : P Stmt :=
  match fuel with
  | 0 => throw OutOfFuel
  | S n =>
      consume T_left_paren "Expect '(' after 'while'.";;
      condition ← expression n;
      consume T_right_paren "Expect ')' after condition.";;
      body ← statement n;
      ret (SWhile condition body)
  end.

Definition parse (fuel : nat) : P (list Stmt) :=
  loop OutOfFuel fuel
    (fun statements : list Stmt =>
       e ← isAtEnd;
       if negb e then
         d ← declaration fuel;
         match d with
         | Some st => ret (inl (statements ++ [st])%list)
         | None => ret (inl statements)
         end
       else ret (inr statements))
    [].

(** Recursion never goes deeper, and no loop runs longer, than this bound
    for the token list: every level of the grammar is entered at most once
    per token read. *)
Definition fuelFor (toks : list Token) : nat := 16 * S (length toks).

Definition parseTokens (toks : list Token) (lg : list Report)
  : Outcome Exc (list Stmt) * t :=
  parse (fuelFor toks) (new toks lg).

End Parser.

(** ** Runtime values ([interpreter.ts])

    [LoxFunction] and [LoxClass] objects have only [readonly] fields and the
    method table of a class is never written after the class is built, so
    they are values; [oid] is the identity of the object, which is what
    [===] compares. A [LoxInstance] and an [Environment] are mutable and
    are referred to by their index in the store. *)

Inductive LoxFunction : Type :=
  | mkLoxFunction (oid : nat) (declaration : FunctionStmt) (closure : nat)
                  (isInitializer : bool).

Inductive LoxClass : Type :=
  | mkLoxClass (oid : nat) (name : string) (superclass : option LoxClass)
               (methods : gmap string LoxFunction).

(** [type Value = null | boolean | string | number | Callable | LoxInstance],
    and [undefined], which [Map.get] and array reads produce and casts
    ([as Value]) let through. *)
Inductive Value : Type :=
  | VNull
  | VBool (b : bool)
  | VString (s : string)
  | VNumber (n : number)
  | VNative                       (* the [clock] object *)
  | VFunction (f : LoxFunction)
  | VClass (c : LoxClass)
  | VInstance (ref : nat)
  | VUndefined.

Definition fun_oid (f : LoxFunction) : nat :=
  match f with mkLoxFunction o _ _ _ => o end.
Definition fun_declaration (f : LoxFunction) : FunctionStmt :=
  match f with mkLoxFunction _ d _ _ => d end.
Definition fun_closure (f : LoxFunction) : nat :=
  match f with mkLoxFunction _ _ c _ => c end.
Definition fun_isInitializer (f : LoxFunction) : bool :=
  match f with mkLoxFunction _ _ _ i => i end.

Definition class_oid (c : LoxClass) : nat :=
  match c with mkLoxClass o _ _ _ => o end.
Definition class_name (c : LoxClass) : string :=
  match c with mkLoxClass _ n _ _ => n end.
Definition class_superclass (c : LoxClass) : option LoxClass :=
  match c with mkLoxClass _ _ s _ => s end.
Definition class_methods (c : LoxClass) : gmap string LoxFunction :=
  match c with mkLoxClass _ _ _ m => m end.

Definition is_undefined (v : Value) : bool :=
  match v with VUndefined => true | _ => false end.

(** [map.get(key)] of a [Map<string, Value>]: [undefined] when the key is
    absent. *)
Definition map_get (m : gmap string Value) (key : string) : Value :=
  match m !! key with
  | Some v => v
  | None => VUndefined
  end.

(** [map.has(key)] *)
Definition map_has {A} (m : gmap string A) (key : string) : bool :=
  match m !! key with
  | Some _ => true
  | None => false
  end.

(** What the evaluator can throw: [RuntimeError], the [Return] control
    signal, the host's [TypeError] for a property read on [null] or
    [undefined] or a call of a non-function, and the bound on recursion and
    iteration. *)
Inductive Exc : Type :=
  | RuntimeError (token : Token) (message : string)
  | Return (value : Value)
  | TypeError
  | OutOfFuel.

Record LoxInstance : Type := mkLoxInstance {
  klass : LoxClass;
  fields : gmap string Value
}.

(** [LoxClass.findMethod] *)
Fixpoint findMethod (c : LoxClass) (name : string) : option LoxFunction :=
  match c with
  | mkLoxClass _ _ superclass methods =>
      if map_has methods name then methods !! name
      else
        match superclass with
        | Some s => findMethod s name
        | None => None
        end
  end.

(** ** Environments ([environment.ts]) *)

Module Environment.

Record t : Type := mk {
  enclosing : option nat;
  values : gmap string Value
}.

(** The store of all frames; a frame is referred to by its index. *)
Abbreviation store := (list t).

(** [new Environment(enclosing)]: the store with the new frame and the
    reference to it. *)
Definition new (encl : option nat) (h : store) : nat * store :=
  (length h, (h ++ [mk encl ∅])%list).

(** [env.define(name, value)] *)
Definition define (env : nat) (name : string) (value : Value) (h : store)
  : store :=
  match h !! env with
  | Some f => <[env := mk (enclosing f) (<[name := value]> (values f))]> h
  | None => h
  end.

(** [env.get(name)]; every step goes to an older frame, so [fuel] above
    the number of frames is never used up. *)
Fixpoint get_from (fuel : nat) (h : store) (env : nat) (name : Token)
  : Outcome Exc Value :=
  match fuel with
  | 0 => Throw OutOfFuel
  | S fuel' =>
      match h !! env with
      | None => Throw TypeError
      | Some f =>
          let value := map_get (values f) (lexeme name) in
          if negb (is_undefined value) then Normal value
          else
            match enclosing f with
            | Some e => get_from fuel' h e name
            | None =>
                Throw (RuntimeError name
                         ("Undefined variable '" ++ lexeme name ++ "'."))
            end
      end
  end.

Definition get (h : store) (env : nat) (name : Token) : Outcome Exc Value :=
  get_from (S (length h)) h env name.

(** [env.assign(name, value)] *)
Fixpoint assign_from (fuel : nat) (h : store) (env : nat) (name : Token)
    (value : Value) : Outcome Exc unit * store :=
  match fuel with
  | 0 => (Throw OutOfFuel, h)
  | S fuel' =>
      match h !! env with
      | None => (Throw TypeError, h)
      | Some f =>
          if map_has (values f) (lexeme name)
          then (Normal tt, define env (lexeme name) value h)
          else
            match enclosing f with
            | Some e => assign_from fuel' h e name value
            | None =>
                (Throw (RuntimeError name
                          ("Undefined variable '" ++ lexeme name ++ "'.")),
                 h)
            end
      end
  end.

Definition assign (h : store) (env : nat) (name : Token) (value : Value)
  : Outcome Exc unit * store :=
  assign_from (S (length h)) h env name value.

(** [env.ancestor(distance)]: [Normal None] is [null], returned when the
    last step leaves the chain; a step from [null] throws. *)
Fixpoint ancestor (h : store) (env : option nat) (distance : nat)
  : Outcome Exc (option nat) :=
  match distance with
  | 0 => Normal env
  | S d =>
      match env with
      | None => Throw TypeError
      | Some e =>
          match h !! e with
          | None => Throw TypeError
          | Some f => ancestor h (enclosing f) d
          end
      end
  end.

(** [env.getAt(distance, name)] *)
Definition getAt (h : store) (env : nat) (distance : nat) (name : string)
  : Outcome Exc Value :=
  match ancestor h (Some env) distance with
  | Normal (Some a) =>
      match h !! a with
      | Some f => Normal (map_get (values f) name)
      | None => Throw TypeError
      end
  | Normal None => Throw TypeError
  | Throw e => Throw e
  end.

(** [env.assignAt(distance, name, value)] *)
Definition assignAt (h : store) (env : nat) (distance : nat) (name : Token)
    (value : Value) : Outcome Exc unit * store :=
  match ancestor h (Some env) distance with
  | Normal (Some a) =>
      match h !! a with
      | Some _ => (Normal tt, define a (lexeme name) value h)
      | None => (Throw TypeError, h)
      end
  | Normal None => (Throw TypeError, h)
  | Throw e => (Throw e, h)
  end.

End Environment.

(** ** The interpreter object ([interpreter.ts])

    The state holds the fields of [Interpreter] ([globals] is the frame at
    index 0, [environment] and [locals]), the stores of the mutable objects
    it reaches, and the streams it writes. *)

Module Interpreter.

Record t : Type := mk {
  envs : Environment.store;
  instances : list LoxInstance;
  environment : nat;
  locals : gmap nat nat;
  nextOid : nat;                  (* identity of the next object *)
  stdout : list string;           (* lines written by [console.log] *)
  stderr : list (string * nat);   (* [runtimeError]: message and line *)
  clockReads : nat                (* calls of [Date.now] so far *)
}.

Definition globals : nat := 0.

Definition set_envs (h : Environment.store) (i : t) : t :=
  mk h (instances i) (environment i) (locals i) (nextOid i) (stdout i)
     (stderr i) (clockReads i).
Definition set_instances (l : list LoxInstance) (i : t) : t :=
  mk (envs i) l (environment i) (locals i) (nextOid i) (stdout i)
     (stderr i) (clockReads i).
Definition set_environment (e : nat) (i : t) : t :=
  mk (envs i) (instances i) e (locals i) (nextOid i) (stdout i)
     (stderr i) (clockReads i).
Definition set_locals (l : gmap nat nat) (i : t) : t :=
  mk (envs i) (instances i) (environment i) l (nextOid i) (stdout i)
     (stderr i) (clockReads i).
Definition set_nextOid (n : nat) (i : t) : t :=
  mk (envs i) (instances i) (environment i) (locals i) n (stdout i)
     (stderr i) (clockReads i).
Definition set_stdout (o : list string) (i : t) : t :=
  mk (envs i) (instances i) (environment i) (locals i) (nextOid i) o
     (stderr i) (clockReads i).
Definition set_stderr (o : list (string * nat)) (i : t) : t :=
  mk (envs i) (instances i) (environment i) (locals i) (nextOid i)
     (stdout i) o (clockReads i).
Definition set_clockReads (n : nat) (i : t) : t :=
  mk (envs i) (instances i) (environment i) (locals i) (nextOid i)
     (stdout i) (stderr i) n.

(** [new Interpreter()] *)
Definition new : t :=
  mk [Environment.mk None {[ "clock" := VNative ]}] [] globals ∅ 0 [] [] 0.

(** [interpreter.resolve(expr, depth)]; the expression object is given by
    its identity. *)
Definition resolve (expr : nat) (depth : nat) (i : t) : t :=
  set_locals (<[expr := depth]> (locals i)) i.


(** *** Values *)

Definition isCallable (v : Value) : bool :=
  match v with
  | VNative | VFunction _ | VClass _ => true
  | _ => false
  end.

Definition isTruthy (value : Value) : bool :=
  match value with
  | VNull => false
  | VBool b => b
  | _ => true
  end.

(** [a === b] *)
Definition strictEquals (a b : Value) : bool :=
  match a, b with
  | VNull, VNull => true
  | VUndefined, VUndefined => true
  | VBool x, VBool y => Bool.eqb x y
  | VString x, VString y => String.eqb x y
  | VNumber x, VNumber y => Num.eqb x y
  | VNative, VNative => true
  | VFunction f, VFunction g => fun_oid f =? fun_oid g
  | VClass c, VClass d => class_oid c =? class_oid d
  | VInstance r, VInstance r' => r =? r'
  | _, _ => false
  end.

Definition is_null (v : Value) : bool :=
  match v with VNull => true | _ => false end.

Definition isEqual (a b : Value) : bool :=
  if is_null a && is_null b then true
  else if is_null a then false
  else strictEquals a b.

Definition checkNumberOperandError (operator : Token) : Exc :=
  RuntimeError operator "Operand must be a number.".

Definition checkNumberOperandsError (operator : Token) : Exc :=
  RuntimeError operator "Operands must be numbers.".

(** The decimal numeral of a length. *)
Definition showNat (n : nat) : string :=
  NilZero.string_of_uint (Nat.to_uint n).

(** *** The interpreter's methods as state transformers *)

Definition I : Type -> Type := ES t Exc.

Definition liftOutcome {A} (o : Outcome Exc A) : I A := fun i => (o, i).

(** [new Environment(enclosing)] *)
Definition newEnvironment (encl : option nat) : I nat :=
  fun i =>
    let (ref, h) := Environment.new encl (envs i) in
    (Normal ref, set_envs h i).

Definition env_define (env : nat) (name : string) (value : Value) : I unit :=
  modify (fun i => set_envs (Environment.define env name value (envs i)) i).

Definition env_get (env : nat) (name : Token) : I Value :=
  fun i => (Environment.get (envs i) env name, i).

Definition env_assign (env : nat) (name : Token) (value : Value) : I unit :=
  fun i =>
    let (o, h) := Environment.assign (envs i) env name value in
    (o, set_envs h i).

Definition env_getAt (env : nat) (distance : nat) (name : string) : I Value :=
  fun i => (Environment.getAt (envs i) env distance name, i).

Definition env_assignAt (env : nat) (distance : nat) (name : Token)
    (value : Value) : I unit :=
  fun i =>
    let (o, h) := Environment.assignAt (envs i) env distance name value in
    (o, set_envs h i).

Definition freshOid : I nat :=
  fun i => (Normal (nextOid i), set_nextOid (S (nextOid i)) i).

(** [new LoxFunction(declaration, closure, isInitializer)] *)
Definition newLoxFunction (declaration : FunctionStmt) (closure : nat)
    (isInitializer : bool) : I LoxFunction :=
  o ← freshOid;
  ret (mkLoxFunction o declaration closure isInitializer).

(** [new LoxClass(name, superclass, methods)] *)
Definition newLoxClass (name : string) (superclass : option LoxClass)
    (methods : gmap string LoxFunction) : I LoxClass :=
  o ← freshOid;
  ret (mkLoxClass o name superclass methods).

(** [new LoxInstance(klass)] *)
Definition newLoxInstance (k : LoxClass) : I nat :=
  fun i =>
    (Normal (length (instances i)),
     set_instances (instances i ++ [mkLoxInstance k ∅])%list i).

(** [fn.bind(instance)] *)
Definition bind_ (fn : LoxFunction) (instance : Value) : I LoxFunction :=
  env ← newEnvironment (Some (fun_closure fn));
  env_define env "this" instance;;
  newLoxFunction (fun_declaration fn) env (fun_isInitializer fn).

(** [instance.get(name)] for the instance at [ref]. *)
Definition LoxInstance_get (ref : nat) (name : Token) : I Value :=
  i ← get_state;
  match instances i !! ref with
  | None => throw TypeError
  | Some inst =>
      let value := map_get (fields inst) (lexeme name) in
      if negb (is_undefined value) then ret value
      else
        match findMethod (klass inst) (lexeme name) with
        | Some method =>
            f ← bind_ method (VInstance ref);
            ret (VFunction f)
        | None =>
            throw (RuntimeError name
                     ("Undefined property '" ++ lexeme name ++ "'."))
        end
  end.

(** [instance.set(name, value)] *)
Definition LoxInstance_set (ref : nat) (name : Token) (value : Value)
  : I unit :=
  i ← get_state;
  match instances i !! ref with
  | None => throw TypeError
  | Some inst =>
      modify (set_instances
                (<[ref := mkLoxInstance (klass inst)
                            (<[lexeme name := value]> (fields inst))]>
                   (instances i)))
  end.

(** [callee.arity()] *)
Definition arity (callee : Value) : nat :=
  match callee with
  | VFunction f => length (fn_params (fun_declaration f))
  | VClass c =>
      match findMethod c "init" with
      | Some initializer => length (fn_params (fun_declaration initializer))
      | None => 0
      end
  | _ => 0
  end.

Fixpoint forEach {A} (l : list A) (f : A -> I unit) : I unit :=
  match l with
  | [] => ret tt
  | x :: l' => f x;; forEach l' f
  end.

Fixpoint mapM {A B} (f : A -> I B) (l : list A) : I (list B) :=
  match l with
  | [] => ret []
  | x :: l' => y ← f x; ys ← mapM f l'; ret (y :: ys)
  end.

(** [args[i]] *)
Definition nth_arg (args : list Value) (i : nat) : Value :=
  match args !! i with
  | Some v => v
  | None => VUndefined
  end.

(** [for (i = 0; i < params.length; i++) env.define(params[i].lexeme,
    args[i])], from index [i]. *)
Fixpoint defineParams (env : nat) (params : list Token) (args : list Value)
    (i : nat) : I unit :=
  match params with
  | [] => ret tt
  | p :: params' =>
      env_define env (lexeme p) (nth_arg args i);;
      defineParams env params' args (S i)
  end.

Section Host.

(** The host functions the evaluator calls: [Number.prototype.toString]
    and [Date.now], the latter as the sequence of its results. *)
Variable Number_toString : number -> string.
Variable Date_now : nat -> number.

(** [stringify(value)] *)
Definition stringify (value : Value) : I string :=
  match value with
  | VNull => ret "nil"
  | VNumber n =>
      if Num.isNegZero n then ret "-0" else ret (Number_toString n)
  | VBool b => ret (if b then "true" else "false")
  | VString s => ret s
  | VNative => ret "<native fn>"
  | VFunction f =>
      ret ("<fn " ++ lexeme (fn_name (fun_declaration f)) ++ ">")
  | VClass c => ret (class_name c)
  | VInstance ref =>
      i ← get_state;
      match instances i !! ref with
      | Some inst => ret (class_name (klass inst) ++ " instance")
      | None => throw TypeError
      end
  | VUndefined => throw TypeError
  end.

Definition console_log (line : string) : I unit :=
  modify (fun i => set_stdout (stdout i ++ [line])%list i).

Section Recursion.

(** The methods [evaluate], [execute] and [executeBlock] as the bodies
    below call them. *)
Variable evaluate : Expr -> I Value.
Variable execute : Stmt -> I unit.
Variable executeBlock : list Stmt -> nat -> I unit.

(** [LoxFunction.call] *)
Definition LoxFunction_call (fn : LoxFunction) (args : list Value)
  : I Value :=
  let declaration := fun_declaration fn in
  env ← newEnvironment (Some (fun_closure fn));
  defineParams env (fn_params declaration) args 0;;
  r ← try_catch
        (executeBlock (fn_body declaration) env;; ret None)
        (fun e =>
           match e with
           | Return value =>
               if fun_isInitializer fn then
                 this ← env_getAt (fun_closure fn) 0 "this";
                 ret (Some this)
               else ret (Some value)
           | _ => throw e
           end);
  match r with
  | Some v => ret v
  | None =>
      if fun_isInitializer fn
      then env_getAt (fun_closure fn) 0 "this"
      else ret VNull
  end.

(** [LoxClass.call] *)
Definition LoxClass_call (c : LoxClass) (args : list Value) : I Value :=
  instance ← newLoxInstance c;
  match findMethod c "init" with
  | Some initializer =>
      f ← bind_ initializer (VInstance instance);
      LoxFunction_call f args;;
      ret (VInstance instance)
  | None => ret (VInstance instance)
  end.

(** [callee.call(this, args)] *)
Definition call (callee : Value) (args : list Value) : I Value :=
  match callee with
  | VNative =>
      fun i => (Normal (VNumber (Date_now (clockReads i))),
                set_clockReads (S (clockReads i)) i)
  | VFunction f => LoxFunction_call f args
  | VClass c => LoxClass_call c args
  | _ => throw TypeError
  end.

Definition lookUpVariable (name : Token) (expr : nat) : I Value :=
  i ← get_state;
  match locals i !! expr with
  | Some distance => env_getAt (environment i) distance (lexeme name)
  | None => env_get globals name
  end.

Definition evaluateAssignment (id : nat) (name : Token) (value : Expr)
  : I Value :=
  value ← evaluate value;
  i ← get_state;
  match locals i !! id with
  | Some distance => env_assignAt (environment i) distance name value
  | None => env_assign globals name value
  end;;
  ret value.

Definition evaluateBinary (left_ : Expr) (operator : Token)
    (right_ : Expr) : I Value :=
  l ← evaluate left_;
  r ← evaluate right_;
  match type operator with
  | T_minus =>
      match l, r with
      | VNumber x, VNumber y => ret (VNumber (Num.sub x y))
      | _, _ => throw (checkNumberOperandsError operator)
      end
  | T_plus =>
      match l, r with
      | VNumber x, VNumber y => ret (VNumber (Num.add x y))
      | VString x, VString y => ret (VString (x ++ y))
      | _, _ =>
          throw (RuntimeError operator
                   "Operands must be two numbers or two strings.")
      end
  | T_slash =>
      match l, r with
      | VNumber x, VNumber y => ret (VNumber (Num.div x y))
      | _, _ => throw (checkNumberOperandsError operator)
      end
  | T_star =>
      match l, r with
      | VNumber x, VNumber y => ret (VNumber (Num.mul x y))
      | _, _ => throw (checkNumberOperandsError operator)
      end
  | T_greater =>
      match l, r with
      | VNumber x, VNumber y => ret (VBool (Num.ltb y x))
      | _, _ => throw (checkNumberOperandsError operator)
      end
  | T_greater_equal =>
      match l, r with
      | VNumber x, VNumber y => ret (VBool (Num.leb y x))
      | _, _ => throw (checkNumberOperandsError operator)
      end
  | T_less =>
      match l, r with
      | VNumber x, VNumber y => ret (VBool (Num.ltb x y))
      | _, _ => throw (checkNumberOperandsError operator)
      end
  | T_less_equal =>
      match l, r with
      | VNumber x, VNumber y => ret (VBool (Num.leb x y))
      | _, _ => throw (checkNumberOperandsError operator)
      end
  | T_bang_equal => ret (VBool (negb (isEqual l r)))
  | T_equal_equal => ret (VBool (isEqual l r))
  | _ => ret VUndefined
  end.

Definition evaluateCall (callee : Expr) (paren : Token)
    (arguments : list Expr) : I Value :=
  callee ← evaluate callee;
  args ← mapM evaluate arguments;
  if negb (isCallable callee) then
    throw (RuntimeError paren "Can only call functions and classes.")
  else if negb (length args =? arity callee) then
    throw (RuntimeError paren
             ("Expected " ++ showNat (arity callee)
              ++ " arguments but got " ++ showNat (length args) ++ "."))
  else call callee args.

Definition evaluateGet (object : Expr) (name : Token) : I Value :=
  object ← evaluate object;
  match object with
  | VInstance ref => LoxInstance_get ref name
  | _ => throw (RuntimeError name "Only instances have properties.")
  end.

Definition evaluateGrouping (expression : Expr) : I Value :=
  evaluate expression.

Definition evaluateLiteral (value : LiteralValue) : I Value :=
  ret match value with
      | LVnumber n => VNumber n
      | LVstring s => VString s
      | LVbool b => VBool b
      | LVnull => VNull
      | LVundefined => VUndefined
      end.

Definition evaluateLogical (left_ : Expr) (operator : Token)
    (right_ : Expr) : I Value :=
  l ← evaluate left_;
  if tt_eqb (type operator) T_or then
    if isTruthy l then ret l else evaluate right_
  else
    if negb (isTruthy l) then ret l else evaluate right_.

Definition evaluateSet (object : Expr) (name : Token) (value : Expr)
  : I Value :=
  object ← evaluate object;
  match object with
  | VInstance ref =>
      value ← evaluate value;
      LoxInstance_set ref name value;;
      ret value
  | _ => throw (RuntimeError name "Only instances have fields.")
  end.

Definition evaluateSuper (id : nat) (method : Token) : I Value :=
  i ← get_state;
  let distance := locals i !! id in
  superclass ← env_getAt (environment i) (default 0 distance) "super";
  inst ← env_getAt (environment i) (default 0 distance - 1) "this";
  match superclass with
  | VClass sc =>
      match findMethod sc (lexeme method) with
      | None =>
          throw (RuntimeError method
                   ("Undefined property '" ++ lexeme method ++ "'."))
      | Some m => f ← bind_ m inst; ret (VFunction f)
      end
  | _ => throw TypeError
  end.

Definition evaluateThis (id : nat) (keyword : Token) : I Value :=
  lookUpVariable keyword id.

Definition evaluateUnary (operator : Token) (right_ : Expr) : I Value :=
  r ← evaluate right_;
  match type operator with
  | T_minus =>
      match r with
      | VNumber x => ret (VNumber (Num.neg x))
      | _ => throw (checkNumberOperandError operator)
      end
  | T_bang => ret (VBool (negb (isTruthy r)))
  | _ => ret VUndefined
  end.

Definition evaluateVariable (v : Variable_) : I Value :=
  lookUpVariable (var_name v) (var_id v).

(** The body of [evaluate]. *)
Definition evaluateWith (expr : Expr) : I Value :=
  match expr with
  | EAssignment id name value => evaluateAssignment id name value
  | EBinary l op r => evaluateBinary l op r
  | ECall callee paren arguments => evaluateCall callee paren arguments
  | EGet object name => evaluateGet object name
  | EGrouping expression => evaluateGrouping expression
  | ELiteral value => evaluateLiteral value
  | ELogical l op r => evaluateLogical l op r
  | ESet object name value => evaluateSet object name value
  | ESuper id _ method => evaluateSuper id method
  | EThis id keyword => evaluateThis id keyword
  | EUnary op r => evaluateUnary op r
  | EVariable v => evaluateVariable v
  end.

(** The [class] case of [execute]. *)
Definition executeClass (name : Token) (superclassExpr : option Variable_)
    (methodDecls : list FunctionStmt) : I unit :=
  superclass ←
    match superclassExpr with
    | Some v =>
        s ← evaluate (EVariable v);
        match s with
        | VClass c => ret (Some c)
        | _ => throw (RuntimeError (var_name v)
                        "Superclass must be a class.")
        end
    | None => ret None
    end;
  i ← get_state;
  env_define (environment i) (lexeme name) VNull;;
  match superclassExpr with
  | Some _ =>
      i ← get_state;
      env ← newEnvironment (Some (environment i));
      modify (set_environment env);;
      env_define env "super"
        match superclass with
        | Some c => VClass c
        | None => VNull
        end
  | None => ret tt
  end;;
  methods ←
    (fix build (l : list FunctionStmt) (methods : gmap string LoxFunction)
       : I (gmap string LoxFunction) :=
       match l with
       | [] => ret methods
       | method :: l' =>
           i ← get_state;
           fn ← newLoxFunction method (environment i)
                  (String.eqb (lexeme (fn_name method)) "init");
           build l' (<[lexeme (fn_name method) := fn]> methods)
       end) methodDecls ∅;
  k ← newLoxClass (lexeme name) superclass methods;
  match superclass with
  | Some _ =>
      i ← get_state;
      match envs i !! environment i with
      | Some f =>
          match Environment.enclosing f with
          | Some e => modify (set_environment e)
          | None => throw TypeError
          end
      | None => throw TypeError
      end
  | None => ret tt
  end;;
  i ← get_state;
  env_assign (environment i) name (VClass k).

(** The body of [execute]; [fuel] bounds the iterations of [while]. *)
Definition executeWith (fuel : nat) (stmt : Stmt) : I unit :=
  match stmt with
  | SBlock statements =>
      i ← get_state;
      env ← newEnvironment (Some (environment i));
      executeBlock statements env
  | SClass name superclass methods =>
      executeClass name superclass methods
  | SExpression expression => evaluate expression;; ret tt
  | SFunction fn =>
      i ← get_state;
      func ← newLoxFunction fn (environment i) false;
      env_define (environment i) (lexeme (fn_name fn)) (VFunction func)
  | SIf condition thenBranch elseBranch =>
      c ← evaluate condition;
      if isTruthy c then execute thenBranch
      else
        match elseBranch with
        | Some e => execute e
        | None => ret tt
        end
  | SPrint expression =>
      value ← evaluate expression;
      text ← stringify value;
      console_log text
  | SReturn _ value =>
      v ← match value with
          | Some e => evaluate e
          | None => ret VNull
          end;
      throw (Return v)
  | SVar name initializer =>
      value ← match initializer with
              | Some e => evaluate e
              | None => ret VNull
              end;
      i ← get_state;
      env_define (environment i) (lexeme name) value
  | SWhile condition body =>
      loop OutOfFuel fuel
        (fun _ : unit =>
           c ← evaluate condition;
           if isTruthy c then execute body;; ret (inl tt)
           else ret (inr tt))
        tt
  end.

(** The body of [executeBlock]. *)
Definition executeBlockWith (statements : list Stmt) (env : nat)
  : I unit :=
  previous ← gets environment;
  try_finally
    (modify (set_environment env);;
     forEach statements execute)
    (set_environment previous).

End Recursion.

Fixpoint evaluate (fuel : nat) (expr : Expr) : I Value :=
  match fuel with
  | 0 => throw OutOfFuel
  | S n => evaluateWith (evaluate n) (executeBlock n) expr
  end

with execute (fuel : nat) (stmt : Stmt) : I unit :=
  match fuel with
  | 0 => throw OutOfFuel
  | S n => executeWith (evaluate n) (execute n) (executeBlock n) n stmt
  end

with executeBlock (fuel : nat) (statements : list Stmt) (env : nat)
  : I unit :=
  match fuel with
  | 0 => throw OutOfFuel
  | S n => executeBlockWith (execute n) statements env
  end.

(** [runtimeError(e)] of [run.ts] *)
Definition runtimeError (token : Token) (message : string) : I unit :=
  modify (fun i => set_stderr (stderr i ++ [(message, line token)])%list i).

(** [interpreter.interpret(statements)] *)
Definition interpret (fuel : nat) (statements : list Stmt) : I unit :=
  try_catch
    (forEach statements (execute fuel))
    (fun e =>
       match e with
       | RuntimeError token message => runtimeError token message
       | _ => throw e
       end).

End Host.

End Interpreter.

(** ** The resolver ([resolver.ts]) *)

Module Resolver.

Inductive FunctionType : Type :=
  | FT_none | FT_function | FT_method | FT_initializer.

Inductive ClassType : Type :=
  | CT_none | CT_class | CT_subclass.

#[global] Instance FunctionType_eq_dec : EqDecision FunctionType.
Proof. solve_decision. Defined.
#[global] Instance ClassType_eq_dec : EqDecision ClassType.
Proof. solve_decision. Defined.

(** The innermost scope is the last element of [scopes], as in the
    array. *)
Record t : Type := mk {
  interpreter : Interpreter.t;
  scopes : list (gmap string bool);
  currentFunction : FunctionType;
  currentClass : ClassType;
  log : list Report               (* the error stream written by [error] *)
}.

(** [new Resolver(interpreter)], writing to an error stream that holds
    [lg]. *)
Definition new (i : Interpreter.t) (lg : list Report) : t :=
  mk i [] FT_none CT_none lg.

Definition set_interpreter (i : Interpreter.t) (r : t) : t :=
  mk i (scopes r) (currentFunction r) (currentClass r) (log r).
Definition set_scopes (s : list (gmap string bool)) (r : t) : t :=
  mk (interpreter r) s (currentFunction r) (currentClass r) (log r).
Definition set_currentFunction (f : FunctionType) (r : t) : t :=
  mk (interpreter r) (scopes r) f (currentClass r) (log r).
Definition set_currentClass (c : ClassType) (r : t) : t :=
  mk (interpreter r) (scopes r) (currentFunction r) c (log r).

Definition error (token : Token) (message : string) (r : t) : t :=
  mk (interpreter r) (scopes r) (currentFunction r) (currentClass r)
     (error_token token message (log r)).

Definition beginScope (r : t) : t :=
  set_scopes (scopes r ++ [∅])%list r.

Definition endScope (r : t) : t :=
  set_scopes (removelast (scopes r)) r.

(** [this.currScope()], [None] for [undefined]. *)
Definition currScope (r : t) : option (gmap string bool) :=
  match length (scopes r) with
  | 0 => None
  | S i => scopes r !! i
  end.

(** [this.currScope().set(name, b)]; every caller has pushed a scope or
    checked [scopes.length] before. *)
Definition currScope_set (name : string) (b : bool) (r : t) : t :=
  match currScope r with
  | Some sc =>
      set_scopes (<[length (scopes r) - 1 := <[name := b]> sc]> (scopes r)) r
  | None => r
  end.

Definition declare (name : Token) (r : t) : t :=
  if length (scopes r) =? 0 then r
  else
    let r :=
      match currScope r with
      | Some scope =>
          if map_has scope (lexeme name)
          then error name "Already a variable with this name in this scope." r
          else r
      | None => r
      end in
    currScope_set (lexeme name) false r.

Definition define (name : Token) (r : t) : t :=
  if length (scopes r) =? 0 then r
  else currScope_set (lexeme name) true r.

(** The loop of [resolveLocal]; [k] is [i + 1] for the loop variable
    [i]. *)
Fixpoint resolveLocal_loop (k : nat) (expr : nat) (name : Token) (r : t)
  : t :=
  match k with
  | 0 => r
  | S i =>
      match scopes r !! i with
      | Some scope =>
          if map_has scope (lexeme name)
          then set_interpreter
                 (Interpreter.resolve expr (length (scopes r) - 1 - i)
                    (interpreter r)) r
          else resolveLocal_loop i expr name r
      | None => resolveLocal_loop i expr name r
      end
  end.

Definition resolveLocal (expr : nat) (name : Token) (r : t) : t :=
  resolveLocal_loop (length (scopes r)) expr name r.

Fixpoint resolveExpr (expr : Expr) (r : t) : t :=
  match expr with
  | EAssignment id name value =>
      let r := resolveExpr value r in
      resolveLocal id name r
  | EBinary left_ _ right_ =>
      let r := resolveExpr left_ r in
      resolveExpr right_ r
  | ECall callee _ arguments =>
      let r := resolveExpr callee r in
      fold_left (fun r arg => resolveExpr arg r) arguments r
  | EGet object _ => resolveExpr object r
  | EGrouping expression => resolveExpr expression r
  | ELiteral _ => r
  | ELogical left_ _ right_ =>
      let r := resolveExpr left_ r in
      resolveExpr right_ r
  | ESet object _ value =>
      let r := resolveExpr value r in
      resolveExpr object r
  | ESuper id keyword _ =>
      let r :=
        if decide (currentClass r = CT_none)
        then error keyword "Can't use 'super' outside of a class." r
        else if decide (currentClass r <> CT_subclass)
        then error keyword
               "Can't use 'super' in a class with no superclass." r
        else r in
      resolveLocal id keyword r
  | EThis id keyword =>
      if decide (currentClass r = CT_none)
      then error keyword "Can't use 'this' outside of a class." r
      else resolveLocal id keyword r
  | EUnary _ right_ => resolveExpr right_ r
  | EVariable v =>
      let r :=
        if (0 <? length (scopes r))
           && match currScope r with
              | Some scope =>
                  bool_decide (scope !! lexeme (var_name v) = Some false)
              | None => false
              end
        then error (var_name v)
               "Can't read local variable in its own initializer." r
        else r in
      resolveLocal (var_id v) (var_name v) r
  end.

Fixpoint resolveStmt (stmt : Stmt) (r : t) : t :=
  match stmt with
  | SBlock statements =>
      let r := beginScope r in
      let r := fold_left (fun r s => resolveStmt s r) statements r in
      endScope r
  | SClass name superclass methods =>
      let enclosingClass := currentClass r in
      let r := set_currentClass CT_class r in
      let r := declare name r in
      let r := define name r in
      let r :=
        match superclass with
        | Some sup =>
            if String.eqb (lexeme name) (lexeme (var_name sup))
            then error (var_name sup) "A class can't inherit from itself." r
            else r
        | None => r
        end in
      let r :=
        match superclass with
        | Some sup =>
            let r := set_currentClass CT_subclass r in
            resolveExpr (EVariable sup) r
        | None => r
        end in
      let r :=
        match superclass with
        | Some _ =>
            let r := beginScope r in
            currScope_set "super" true r
        | None => r
        end in
      let r := beginScope r in
      let r := currScope_set "this" true r in
      let r :=
        fold_left
          (fun r method =>
             let declaration :=
               if String.eqb (lexeme (fn_name method)) "init"
               then FT_initializer else FT_method in
             resolveFunction method declaration r)
          methods r in
      let r := endScope r in
      let r :=
        match superclass with
        | Some _ => endScope r
        | None => r
        end in
      set_currentClass enclosingClass r
  | SExpression expression => resolveExpr expression r
  | SFunction fn =>
      let r := declare (fn_name fn) r in
      let r := define (fn_name fn) r in
      resolveFunction fn FT_function r
  | SIf condition thenBranch elseBranch =>
      let r := resolveExpr condition r in
      let r := resolveStmt thenBranch r in
      match elseBranch with
      | Some e => resolveStmt e r
      | None => r
      end
  | SPrint expression => resolveExpr expression r
  | SReturn keyword value =>
      let r :=
        if decide (currentFunction r = FT_none)
        then error keyword "Can't return from top-level code." r
        else r in
      match value with
      | Some v =>
          let r :=
            if decide (currentFunction r = FT_initializer)
            then error keyword "Can't return a value from an initializer." r
            else r in
          resolveExpr v r
      | None => r
      end
  | SVar name initializer =>
      let r := declare name r in
      let r :=
        match initializer with
        | Some e => resolveExpr e r
        | None => r
        end in
      define name r
  | SWhile condition body =>
      let r := resolveExpr condition r in
      resolveStmt body r
  end

with resolveFunction (fn : FunctionStmt) (type : FunctionType) (r : t) : t :=
  match fn with
  | mkFunctionStmt _ params body =>
      let enclosingFunction := currentFunction r in
      let r := set_currentFunction type r in
      let r := beginScope r in
      let r := fold_left (fun r param => define param (declare param r)) params r in
      let r := fold_left (fun r s => resolveStmt s r) body r in
      let r := endScope r in
      set_currentFunction enclosingFunction r
  end.

Definition resolveStmts (stmts : list Stmt) (r : t) : t :=
  fold_left (fun r s => resolveStmt s r) stmts r.

End Resolver.

(** ** The driver ([run.ts])

    [run(source)] in a process whose [hadError] flag is clear. The result is
    the error stream of the three static phases and, when none of them
    reported, what [interpret] left behind. *)

Module Run.

Inductive Result : Type :=
  | CompileError (log : list Report)
  | ParserThrew (e : Parser.Exc)
  | Ran (o : Outcome Exc unit) (i : Interpreter.t).

Definition scanSource (source : string) : Scanner.t :=
  Scanner.scanTokens (Scanner.new source []).

Section Host.
Variable Number_toString : number -> string.
Variable Date_now : nat -> number.

Definition run (fuel : nat) (source : string) : Result :=
  let sc := scanSource source in
  if hadError (Scanner.log sc) then CompileError (Scanner.log sc)
  else
    match Parser.parseTokens (Scanner.tokens sc) (Scanner.log sc) with
    | (Throw e, _) => ParserThrew e
    | (Normal statements, p) =>
        if hadError (Parser.log p) then CompileError (Parser.log p)
        else
          let r := Resolver.resolveStmts statements
                     (Resolver.new Interpreter.new (Parser.log p)) in
          if hadError (Resolver.log r) then CompileError (Resolver.log r)
          else
            let (o, i) :=
              Interpreter.interpret Number_toString Date_now fuel
                statements (Resolver.interpreter r) in
            Ran o i
    end.
End Host.

(** The exit code of [runFile]. *)
Definition exitCode (r : Result) : option nat :=
  match r with
  | CompileError _ => Some 65
  | ParserThrew _ => None
  | Ran (Normal _) i =>
      match Interpreter.stderr i with
      | [] => Some 0
      | _ => Some 70
      end
  | Ran (Throw _) _ => None
  end.

End Run.

(** A host for running examples: [Number.prototype.toString] on the values
    the examples print (integral doubles, [NaN] and the infinities), and a
    clock that stands still. *)
Module ExampleHost.

Definition integral (x : number) : option Z :=
  match x with
  | S754_zero _ => Some 0%Z
  | S754_finite s m e =>
      let z := if s then Zneg m else Zpos m in
      match e with
      | Zneg k =>
          if (z mod 2 ^ Zpos k =? 0)%Z then Some (z / 2 ^ Zpos k)%Z else None
      | _ => Some (z * 2 ^ e)%Z
      end
  | _ => None
  end.

Definition Number_toString (x : number) : string :=
  match x with
  | S754_nan => "NaN"
  | S754_infinity s => if s then "-Infinity" else "Infinity"
  | _ =>
      match integral x with
      | Some z => NilZero.string_of_int (Z.to_int z)
      | None => "<fraction>"
      end
  end.

Definition Date_now (n : nat) : number := Num.ofZ 0.

Definition run : nat -> string -> Run.Result :=
  Run.run Number_toString Date_now.

Definition output (r : Run.Result) : list string * list (string * nat) :=
  match r with
  | Run.Ran _ i => (Interpreter.stdout i, Interpreter.stderr i)
  | _ => ([], [])
  end.

End ExampleHost.

(** ** Notions used in the statements *)

(** The text of [s] from index [n] on. *)
Fixpoint skip (n : nat) (s : string) : string :=
  match n, s with
  | 0, _ => s
  | S n', String _ s' => skip n' s'
  | S _, EmptyString => EmptyString
  end.

(** No character of [s] is the double quote. *)
Fixpoint noQuote (s : string) : bool :=
  match s with
  | EmptyString => true
  | String a s' => negb (Ascii.eqb a (ascii_of_nat 34)) && noQuote s'
  end.

(** The number of newline characters of [s]. *)
Fixpoint countLF (s : string) : nat :=
  match s with
  | EmptyString => 0
  | String a s' => (if Ascii.eqb a (ascii_of_nat 10) then 1 else 0) + countLF s'
  end.

(** The desugaring of [for] in the words of the specification: a [While]
    whose condition is the given one or the literal [true], whose body has
    the increment appended in a block when there is one, the whole wrapped
    in a block after the initializer when there is one. *)
Definition desugarFor (initializer : option Stmt)
    (condition increment : option Expr) (body : Stmt) : Stmt :=
  let loopBody :=
    match increment with
    | Some inc => SBlock [body; SExpression inc]
    | None => body
    end in
  let loop_ := SWhile (default (ELiteral (LVbool true)) condition) loopBody in
  match initializer with
  | Some init => SBlock [init; loop_]
  | None => loop_
  end.

(** The parser just after the keyword [for] of
    [for (var i = 0; i < 3; i = i + 1) print i;]. *)
Definition src_for : string := "for (var i = 0; i < 3; i = i + 1) print i;".

Definition parser_after_for : Parser.t :=
  Parser.set_current 1
    (Parser.new (Scanner.tokens (Run.scanSource src_for)) []).

(** The loop that this [for] stands for: the declaration of [i], then the
    [While] on [i < 3] whose body prints [i] and then assigns [i + 1]; and
    the parser behind the twenty tokens of the statement, five expression
    nodes made. *)
Definition for_stmt : Stmt :=
  let i := mkToken T_identifier "i" TLundefined 1 in
  SBlock
    [SVar i (Some (ELiteral (LVnumber (Num.ofZ 0))));
     SWhile
       (EBinary (EVariable (mkVariable 0 i))
          (mkToken T_less "<" TLundefined 1)
          (ELiteral (LVnumber (Num.ofZ 3))))
       (SBlock
          [SPrint (EVariable (mkVariable 4 i));
           SExpression
             (EAssignment 3 i
                (EBinary (EVariable (mkVariable 2 i))
                   (mkToken T_plus "+" TLundefined 1)
                   (ELiteral (LVnumber (Num.ofZ 1)))))])].

Definition for_parser : Parser.t :=
  Parser.mk (Parser.tokens parser_after_for) 20 5 [].

(** The token at the parser's position has the type [ty]. *)
Definition atToken (ty : TokenType) (p : Parser.t) : bool :=
  match Parser.tokens p !! Parser.current p with
  | Some tok => tt_eqb (type tok) ty
  | None => false
  end.

(** There is a token at the parser's position and its type is not [ty]. *)
Definition atOther (ty : TokenType) (p : Parser.t) : bool :=
  match Parser.tokens p !! Parser.current p with
  | Some tok => negb (tt_eqb (type tok) ty)
  | None => false
  end.

(** The parser one token further. *)
Definition pastToken (p : Parser.t) : Parser.t :=
  Parser.set_current (S (Parser.current p)) p.

(** The resolver state with its interpreter replaced through [gI] and its
    error stream through [h]; nothing the resolver branches on changes. *)
Definition transport (gI : Interpreter.t -> Interpreter.t)
    (h : list Report -> list Report) (r : Resolver.t) : Resolver.t :=
  Resolver.mk (gI (Resolver.interpreter r)) (Resolver.scopes r)
    (Resolver.currentFunction r) (Resolver.currentClass r)
    (h (Resolver.log r)).

(** The side-table a run of the resolver writes from an empty one, and the
    errors it reports. *)
Definition written (stmts : list Stmt) : gmap nat nat :=
  Interpreter.locals
    (Resolver.interpreter
       (Resolver.resolveStmts stmts (Resolver.new Interpreter.new []))).

Definition reported (stmts : list Stmt) : list Report :=
  Resolver.log (Resolver.resolveStmts stmts (Resolver.new Interpreter.new [])).

(** An identifier token, and a resolver inside three scopes of which the
    outermost declares [a]. *)
Definition ident (name : string) : Token := mkToken T_identifier name TLundefined 1.

Definition resolver_in_scopes : Resolver.t :=
  Resolver.mk Interpreter.new [ {[ "a" := true ]}; {[ "b" := true ]}; ∅ ]
    Resolver.FT_none Resolver.CT_none [].

(** The statements the parser makes of a source text, and a text with a
    [this] outside of a class and one inside of a method. *)
Definition parsed (source : string) : list Stmt :=
  match Parser.parseTokens (Scanner.tokens (Run.scanSource source)) [] with
  | (Normal statements, _) => statements
  | (Throw _, _) => []
  end.

Definition program_this : string :=
  "print this; class A { me() { return this; } } fun f(a) { var b = a; { print this; } }".

(** [a] is the frame reached from [env] by following [enclosing] exactly
    [d] times. *)
Inductive ancestorAt (h : Environment.store) : nat -> nat -> nat -> Prop :=
  | ancestorAt_here env : ancestorAt h env 0 env
  | ancestorAt_up env d f e a :
      h !! env = Some f ->
      Environment.enclosing f = Some e ->
      ancestorAt h e d a ->
      ancestorAt h env (S d) a.

(** Two frames: the global one, which binds [x], and a child, which binds
    [y]. *)
Definition two_frames : Environment.store :=
  [ Environment.mk None {[ "x" := VNumber (Num.ofZ 1) ]};
    Environment.mk (Some 0) {[ "y" := VBool true ]} ].

(** The classes from [c] up its superclass chain. *)
Fixpoint superchain (c : LoxClass) : list LoxClass :=
  match c with
  | mkLoxClass _ _ superclass _ =>
      c :: match superclass with
           | Some s => superchain s
           | None => []
           end
  end.

(** Structural equality of two values of the same tag, in the words of the
    specification: the same content, with numbers compared by IEEE equality;
    an instance is its class and its fields, a function its declaration,
    closure and initializer flag, a class its name, superclass and methods. *)
Definition structurallyEqual (i : Interpreter.t) (a b : Value) : Prop :=
  match a, b with
  | VNull, VNull => True
  | VBool x, VBool y => x = y
  | VString x, VString y => x = y
  | VNumber x, VNumber y => Num.eqb x y = true
  | VNative, VNative => True
  | VFunction f, VFunction g =>
      fun_declaration f = fun_declaration g
      /\ fun_closure f = fun_closure g
      /\ fun_isInitializer f = fun_isInitializer g
  | VClass c, VClass d =>
      class_name c = class_name d
      /\ class_superclass c = class_superclass d
      /\ class_methods c = class_methods d
  | VInstance r, VInstance r' =>
      exists x y,
        Interpreter.instances i !! r = Some x
        /\ Interpreter.instances i !! r' = Some y
        /\ klass x = klass y /\ fields x = fields y
  | VUndefined, VUndefined => True
  | _, _ => False
  end.

(** The interpreter after a program has run on the example host. *)
Definition stateAfter (fuel : nat) (source : string) : Interpreter.t :=
  match ExampleHost.run fuel source with
  | Run.Ran _ i => i
  | _ => Interpreter.new
  end.

(** Two instances of a class without fields, compared by the program. *)
Definition two_instances : Interpreter.t :=
  stateAfter 50 "class A {} var a = A(); var b = A(); print a == b;".

(** An instance of [B], subclass of [A], with a field [f]; [A] declares
    the methods [m] and [n], [B] declares [n] again. *)
Definition instance_with_field : Interpreter.t :=
  stateAfter 50
    "class A { m() { return 1; } n() { return 2; } } class B < A { n() { return 3; } } var b = B(); b.f = 4;".

(** A class whose initializer leaves through a bare [return], and an
    instance of it. *)
Definition program_init : string :=
  "class A { init(x) { this.x = x; if (x > 1) return; this.x = 0; } } var a = A(5); print a.x; print a.init(7) == a; print a.x;".

Definition after_init : Interpreter.t := stateAfter 50 program_init.

Definition globalValue (i : Interpreter.t) (name : string) : Value :=
  match Interpreter.envs i !! 0 with
  | Some f => map_get (Environment.values f) name
  | None => VUndefined
  end.

Definition class_A : LoxClass :=
  match globalValue after_init "A" with
  | VClass c => c
  | _ => mkLoxClass 0 "" None ∅
  end.

Definition one : number := Num.ofZ 1.
Definition seven : number := Num.ofZ 7.

(** The method [init] of [class_A] bound to the instance [a] (at index 0)
    and the state the binding leaves. *)
Definition bound_init : LoxFunction :=
  match Interpreter.LoxInstance_get 0 (ident "init") after_init with
  | (Normal (VFunction f), _) => f
  | _ => mkLoxFunction 0 (mkFunctionStmt (ident "") [] []) 0 false
  end.

Definition after_bind : Interpreter.t :=
  snd (Interpreter.LoxInstance_get 0 (ident "init") after_init).

(** A [Set] expression whose object is a number and whose value would
    declare nothing but print: [1.name = (print-free call of clock)]. *)
Definition set_on_number : Expr :=
  ESet (ELiteral (LVnumber one)) (ident "name")
       (ECall (EVariable (mkVariable 0 (ident "clock")))
              (mkToken T_right_paren ")" TLundefined 1) []).

(** The first steps of [LoxFunction.call]: the frame of the call, child of
    the closure, with the parameters defined in it. *)
Definition enterCall (fn : LoxFunction) (args : list Value)
  : Interpreter.I nat :=
  bind (Interpreter.newEnvironment (Some (fun_closure fn)))
    (fun env =>
       bind (Interpreter.defineParams env
               (fn_params (fun_declaration fn)) args 0)
         (fun _ => ret env)).

(** The method [init] as the class holds it, unbound. *)
Definition class_init : LoxFunction :=
  match findMethod class_A "init" with
  | Some m => m
  | None => mkLoxFunction 0 (mkFunctionStmt (ident "") [] []) 0 false
  end.

(** The state in which the bound initializer has been called with 7. *)
Definition after_call : Interpreter.t :=
  snd (Interpreter.LoxFunction_call
         (Interpreter.executeBlock ExampleHost.Number_toString
            ExampleHost.Date_now 50)
         bound_init [VNumber seven] after_bind).

(** An interpreter with one frame below the global one, and three blocks to
    run in that frame: one that completes, one that returns and one that
    raises a runtime error; each declares a variable first. *)
Definition with_child_frame : Interpreter.t :=
  snd (Interpreter.newEnvironment (Some 0) Interpreter.new).

Definition declare_x : Stmt := SVar (ident "x") (Some (ELiteral (LVnumber one))).

Definition block_completes : list Stmt := [declare_x].

Definition block_returns : list Stmt :=
  [declare_x; SReturn (mkToken T_return "return" TLundefined 1) None].

Definition block_raises : list Stmt :=
  [declare_x;
   SExpression (EUnary (mkToken T_minus "-" TLundefined 1)
                  (ELiteral (LVstring "s")))].

Definition runBlock (statements : list Stmt)
  : Outcome Exc unit * Interpreter.t :=
  Interpreter.executeBlock ExampleHost.Number_toString ExampleHost.Date_now 5
    statements 1 with_child_frame.

(** The progress a step of the scanner makes: the source is kept and no
    character is given back. *)
Definition advances (s s' : Scanner.t) : Prop :=
  Scanner.source s' = Scanner.source s
  /\ Scanner.current s <= Scanner.current s'.

(** No token that names a binding or an assignment target is spelled
    [this]: the scanner makes [this] a keyword, so no identifier token it
    produces is. The token of a [This] expression is the keyword. *)
Definition notThis (name : Token) : bool := negb (String.eqb (lexeme name) "this").

Fixpoint okExpr (e : Expr) : bool :=
  match e with
  | EAssignment _ name value => notThis name && okExpr value
  | EBinary l _ r => okExpr l && okExpr r
  | ECall callee _ arguments => okExpr callee && forallb okExpr arguments
  | EGet object _ => okExpr object
  | EGrouping expression => okExpr expression
  | ELiteral _ => true
  | ELogical l _ r => okExpr l && okExpr r
  | ESet object _ value => okExpr object && okExpr value
  | ESuper _ _ _ => true
  | EThis _ keyword => String.eqb (lexeme keyword) "this"
  | EUnary _ r => okExpr r
  | EVariable _ => true
  end.

Definition okOptExpr (e : option Expr) : bool :=
  match e with
  | Some e => okExpr e
  | None => true
  end.

Fixpoint okStmt (s : Stmt) : bool :=
  match s with
  | SBlock statements => forallb okStmt statements
  | SClass name _ methods => notThis name && forallb okFn methods
  | SExpression e => okExpr e
  | SFunction fn => okFn fn
  | SIf c t e =>
      okExpr c && okStmt t
      && match e with
         | Some s' => okStmt s'
         | None => true
         end
  | SPrint e => okExpr e
  | SReturn _ value => okOptExpr value
  | SVar name initializer => notThis name && okOptExpr initializer
  | SWhile c body => okExpr c && okStmt body
  end

with okFn (fn : FunctionStmt) : bool :=
  match fn with
  | mkFunctionStmt name params body =>
      notThis name && forallb notThis params && forallb okStmt body
  end.

(** The same for the code held by runtime values and by the stores. *)
Definition okAll {A} (p : A -> bool) (m : gmap string A) : bool :=
  forallb (fun kv => p (snd kv)) (map_to_list m).

Definition okFun (f : LoxFunction) : bool := okFn (fun_declaration f).

Fixpoint okClass (c : LoxClass) : bool :=
  match c with
  | mkLoxClass _ _ superclass methods =>
      okAll okFun methods
      && match superclass with
         | Some s => okClass s
         | None => true
         end
  end.

Definition okValue (v : Value) : bool :=
  match v with
  | VFunction f => okFun f
  | VClass c => okClass c
  | _ => true
  end.

Definition okState (i : Interpreter.t) : bool :=
  forallb (fun f => okAll okValue (Environment.values f)) (Interpreter.envs i)
  && forallb (fun inst => okClass (klass inst) && okAll okValue (fields inst))
       (Interpreter.instances i).

(** What a computation may throw: a [Return] signal carries a value. *)
Definition okExc (e : Exc) : bool :=
  match e with
  | Return v => okValue v
  | _ => true
  end.

Definition okOutcome {A} (okA : A -> bool) (o : Outcome Exc A) : bool :=
  match o with
  | Normal a => okA a
  | Throw e => okExc e
  end.

(** Every frame of [i] is still there in [i'] and binds [this] as before. *)
Definition thisStable (i i' : Interpreter.t) : Prop :=
  forall b f,
    Interpreter.envs i !! b = Some f ->
    exists f',
      Interpreter.envs i' !! b = Some f'
      /\ Environment.values f' !! "this" = Environment.values f !! "this".

(** A computation keeps the stores free of code that names [this], keeps
    every binding of [this], and yields such a value. *)
Definition sound {A} (okA : A -> bool) (m : Interpreter.I A) : Prop :=
  forall i o i',
    okState i = true -> m i = (o, i') ->
    okState i' = true /\ thisStable i i' /\ okOutcome okA o = true.

(** A predicate that asks nothing. *)
Definition anything {A} (_ : A) : bool := true.

(** [okState] on the two stores, and [thisStable] on the frames. *)
Definition okEnvs (h : list Environment.t) : bool :=
  forallb (fun f => okAll okValue (Environment.values f)) h.

Definition okInsts (l : list LoxInstance) : bool :=
  forallb (fun inst => okClass (klass inst) && okAll okValue (fields inst)) l.

Definition stableEnvs (h h' : list Environment.t) : Prop :=
  forall b f,
    h !! b = Some f ->
    exists f',
      h' !! b = Some f'
      /\ Environment.values f' !! "this" = Environment.values f !! "this".

(** What the [try] of [LoxFunction.call] yields: a returned value or
    nothing. *)
Definition okOpt (r : option Value) : bool :=
  match r with
  | Some v => okValue v
  | None => true
  end.

(** The resolver in the words of the specification: as [Resolver], except
    that every [This] expression walks the scopes, also after the error
    reported for a [this] outside of a class. *)
Module SpecResolver.
Import Resolver.

Fixpoint resolveExpr (expr : Expr) (r : t) : t :=
  match expr with
  | EAssignment id name value => resolveLocal id name (resolveExpr value r)
  | EBinary left_ _ right_ => resolveExpr right_ (resolveExpr left_ r)
  | ECall callee _ arguments =>
      fold_left (fun r arg => resolveExpr arg r) arguments (resolveExpr callee r)
  | EGet object _ => resolveExpr object r
  | EGrouping expression => resolveExpr expression r
  | ELiteral _ => r
  | ELogical left_ _ right_ => resolveExpr right_ (resolveExpr left_ r)
  | ESet object _ value => resolveExpr object (resolveExpr value r)
  | EThis id keyword =>
      let r :=
        if decide (currentClass r = CT_none)
        then error keyword "Can't use 'this' outside of a class." r
        else r in
      resolveLocal id keyword r
  | EUnary _ right_ => resolveExpr right_ r
  | ESuper _ _ _ | EVariable _ => Resolver.resolveExpr expr r
  end.

Fixpoint resolveStmt (stmt : Stmt) (r : t) : t :=
  match stmt with
  | SBlock statements =>
      endScope (fold_left (fun r s => resolveStmt s r) statements (beginScope r))
  | SClass name superclass methods =>
      let enclosingClass := currentClass r in
      let r := define name (declare name (set_currentClass CT_class r)) in
      let r :=
        match superclass with
        | Some sup =>
            let r :=
              if String.eqb (lexeme name) (lexeme (var_name sup))
              then error (var_name sup) "A class can't inherit from itself." r
              else r in
            let r := resolveExpr (EVariable sup) (set_currentClass CT_subclass r) in
            currScope_set "super" true (beginScope r)
        | None => r
        end in
      let r := currScope_set "this" true (beginScope r) in
      let r :=
        fold_left
          (fun r method =>
             resolveFunction method
               (if String.eqb (lexeme (fn_name method)) "init"
                then FT_initializer else FT_method) r)
          methods r in
      let r := endScope r in
      let r :=
        match superclass with
        | Some _ => endScope r
        | None => r
        end in
      set_currentClass enclosingClass r
  | SExpression expression => resolveExpr expression r
  | SFunction fn =>
      resolveFunction fn FT_function (define (fn_name fn) (declare (fn_name fn) r))
  | SIf condition thenBranch elseBranch =>
      let r := resolveStmt thenBranch (resolveExpr condition r) in
      match elseBranch with
      | Some e => resolveStmt e r
      | None => r
      end
  | SPrint expression => resolveExpr expression r
  | SReturn keyword value =>
      let r :=
        if decide (currentFunction r = FT_none)
        then error keyword "Can't return from top-level code." r
        else r in
      match value with
      | Some v =>
          let r :=
            if decide (currentFunction r = FT_initializer)
            then error keyword "Can't return a value from an initializer." r
            else r in
          resolveExpr v r
      | None => r
      end
  | SVar name initializer =>
      let r := declare name r in
      let r :=
        match initializer with
        | Some e => resolveExpr e r
        | None => r
        end in
      define name r
  | SWhile condition body => resolveStmt body (resolveExpr condition r)
  end

with resolveFunction (fn : FunctionStmt) (type : FunctionType) (r : t) : t :=
  match fn with
  | mkFunctionStmt _ params body =>
      let enclosingFunction := currentFunction r in
      let r := beginScope (set_currentFunction type r) in
      let r := fold_left (fun r param => define param (declare param r)) params r in
      let r := fold_left (fun r s => resolveStmt s r) body r in
      set_currentFunction enclosingFunction (endScope r)
  end.

Definition resolveStmts (stmts : list Stmt) (r : t) : t :=
  fold_left (fun r s => resolveStmt s r) stmts r.

End SpecResolver.

(** No scope of [r] binds [this] unless [r] is inside a class. *)
Definition thisOnlyInClass (r : Resolver.t) : Prop :=
  Resolver.currentClass r = Resolver.CT_none ->
  forall j scope, Resolver.scopes r !! j = Some scope ->
                  map_has scope "this" = false.

(** [r'] has as many scopes as [r], and each binds [this] if and only if
    the scope of [r] at the same place does. *)
Definition sameScopes (r r' : Resolver.t) : Prop :=
  length (Resolver.scopes r') = length (Resolver.scopes r)
  /\ forall j scope',
       Resolver.scopes r' !! j = Some scope' ->
       exists scope,
         Resolver.scopes r !! j = Some scope
         /\ map_has scope' "this" = map_has scope "this".

(** A step of the resolver that leaves the scope stack as deep as it was,
    changes no binding of [this], and ends in the class and the function it
    started in. *)
Definition balanced (r r' : Resolver.t) : Prop :=
  sameScopes r r'
  /\ Resolver.currentClass r' = Resolver.currentClass r
  /\ Resolver.currentFunction r' = Resolver.currentFunction r.

(** ** Notions used in the further properties *)

(** Every frame of the store was created after the frame it encloses: the
    constructor of [Environment] is given an existing frame, and no frame
    is ever removed or re-linked. *)
Definition wfStore (h : Environment.store) : Prop :=
  forall b f e,
    h !! b = Some f -> Environment.enclosing f = Some e -> e < b.

(** The message of [get] and [assign] for a name no frame binds. *)
Definition undefinedVariable (name : Token) : Exc :=
  RuntimeError name ("Undefined variable '" ++ lexeme name ++ "'.").

(** The operators of [evaluateBinary] that ask for two numbers. *)
Definition numericOps : list TokenType :=
  [T_minus; T_slash; T_star; T_greater; T_greater_equal; T_less;
   T_less_equal].

Definition is_number (v : Value) : bool :=
  match v with VNumber _ => true | _ => false end.

Definition is_string (v : Value) : bool :=
  match v with VString _ => true | _ => false end.

Definition is_class (v : Value) : bool :=
  match v with VClass _ => true | _ => false end.

(** The message of [evaluateCall] for a wrong number of arguments. *)
Definition arityMessage (expected got : nat) : string :=
  "Expected " ++ Interpreter.showNat expected ++ " arguments but got "
  ++ Interpreter.showNat got ++ ".".

(** An operator token, and a few literals. *)
Definition op (ty : TokenType) (text : string) : Token :=
  mkToken ty text TLundefined 1.

Definition lit_a : Expr := ELiteral (LVstring "a").
Definition lit_one : Expr := ELiteral (LVnumber one).
Definition lit_nil : Expr := ELiteral LVnull.
Definition var_clock : Variable_ := mkVariable 0 (ident "clock").

(** A class without initializer and a function that returns, after the
    program that declares them has run. *)
Definition after_plain : Interpreter.t :=
  stateAfter 50 "class P {} fun f(n) { return n; print n; }".

Definition class_P : LoxClass :=
  match globalValue after_plain "P" with
  | VClass c => c
  | _ => mkLoxClass 0 "" None ∅
  end.

Definition fun_f : LoxFunction :=
  match globalValue after_plain "f" with
  | VFunction f => f
  | _ => mkLoxFunction 0 (mkFunctionStmt (ident "") [] []) 0 false
  end.

(** [print "a"; print -"x"; print "b";] *)
Definition print_a : Stmt := SPrint lit_a.
Definition print_neg_x : Stmt :=
  SPrint (EUnary (op T_minus "-") (ELiteral (LVstring "x"))).
Definition print_b : Stmt := SPrint (ELiteral (LVstring "b")).

(** [k] rounds of a loop: in each the condition is evaluated to a truthy
    value and the body completes normally; the state after the last of
    them, if all of them go so. *)
Fixpoint whileRounds (condition : Interpreter.I Value)
    (body : Interpreter.I unit) (k : nat) (i : Interpreter.t)
  : option Interpreter.t :=
  match k with
  | 0 => Some i
  | S k' =>
      match condition i with
      | (Normal v, i1) =>
          if Interpreter.isTruthy v then
            match body i1 with
            | (Normal _, i2) => whileRounds condition body k' i2
            | (Throw _, _) => None
            end
          else None
      | (Throw _, _) => None
      end
  end.

(** [i < 2] and [i = i + 1;], and the state after [var i = 0;]. *)
Definition cond_i_less_2 : Expr :=
  EBinary (EVariable (mkVariable 0 (ident "i"))) (op T_less "<")
    (ELiteral (LVnumber (Num.ofZ 2))).
Definition incr_i : Stmt :=
  SExpression
    (EAssignment 1 (ident "i")
       (EBinary (EVariable (mkVariable 2 (ident "i"))) (op T_plus "+")
          lit_one)).
Definition after_var_i : Interpreter.t := stateAfter 50 "var i = 0;".

(** What a run of the evaluator may do to the interpreter and its stores:
    it adds frames, instances and lines of output, and it rebinds names and
    fields. It does not write the side-table or the error stream, take back
    a line of output, remove a frame or change the frame around it, or
    change the class of an instance. *)
Definition storesGrow (i i' : Interpreter.t) : Prop :=
  Interpreter.locals i' = Interpreter.locals i
  /\ (exists out,
        Interpreter.stdout i' = (Interpreter.stdout i ++ out)%list)
  /\ Interpreter.stderr i' = Interpreter.stderr i
  /\ Interpreter.nextOid i <= Interpreter.nextOid i'
  /\ Interpreter.clockReads i <= Interpreter.clockReads i'
  /\ (forall b f,
        Interpreter.envs i !! b = Some f ->
        exists f',
          Interpreter.envs i' !! b = Some f'
          /\ Environment.enclosing f' = Environment.enclosing f)
  /\ (forall r inst,
        Interpreter.instances i !! r = Some inst ->
        exists inst',
          Interpreter.instances i' !! r = Some inst'
          /\ klass inst' = klass inst).

(** The same for a method that also ends in the environment in which it
    started. *)
Definition grows (i i' : Interpreter.t) : Prop :=
  storesGrow i i'
  /\ Interpreter.environment i' = Interpreter.environment i.

(** A method all of whose runs are of this kind, however they end. *)
Definition keeps {A} (m : Interpreter.I A) : Prop :=
  forall i, grows i (snd (m i)).



(** Every character of [s] satisfies [p]. *)
Fixpoint allChars (p : ascii -> bool) (s : string) : bool :=
  match s with
  | EmptyString => true
  | String a s' => p a && allChars p s'
  end.

(** [s] is empty or its first character does not satisfy [p]. *)
Definition headFails (p : ascii -> bool) (s : string) : bool :=
  match s with
  | EmptyString => true
  | String a _ => negb (p a)
  end.

(** The scanner's character classes, on a character. *)
Definition alnum (a : ascii) : bool :=
  Scanner.isAlphaNumeric (String a EmptyString).

Definition digit (a : ascii) : bool :=
  Scanner.isDigit (String a EmptyString).

Definition notLF (a : ascii) : bool := negb (Ascii.eqb a (ascii_of_nat 10)).

(** The characters [scanToken] has no case for. *)
Definition unexpected (a : ascii) : bool :=
  negb (existsb (Ascii.eqb a)
          (list_ascii_of_string "(){},.-+;*!=<>/ "
           ++ [ascii_of_nat 13; ascii_of_nat 9; ascii_of_nat 10;
               ascii_of_nat 34]))
  && negb (alnum a).

(** The double quote and the newline as characters, and scanners at the
    start of four sources: a string literal over two lines, a comment, a
    name that begins with a keyword, and a character of no use. *)
Definition quote : ascii := ascii_of_nat 34.
Definition newline : ascii := ascii_of_nat 10.

Definition at_string : Scanner.t :=
  Scanner.new
    (String quote ("a" ++ String newline ("b" ++ String quote " x"))) [].

Definition at_comment : Scanner.t :=
  Scanner.new ("// hi" ++ String newline "x") [].

Definition at_classy : Scanner.t := Scanner.new "classy = 1;" [].

Definition at_at : Scanner.t := Scanner.new "@x" [].

(** The resolver is where it was: as many scopes on the stack, the same
    kind of function and of class around it. *)
Definition sameDepth (r r' : Resolver.t) : Prop :=
  length (Resolver.scopes r') = length (Resolver.scopes r)
  /\ Resolver.currentClass r' = Resolver.currentClass r
  /\ Resolver.currentFunction r' = Resolver.currentFunction r.

(** A token list as the scanner makes it: its last token is the
    end-of-file token. *)
Definition terminated (toks : list Token) : Prop :=
  exists pre eof, toks = (pre ++ [eof])%list /\ type eof = T_eof.

(** The parser's position is the index of a token of such a list. *)
Definition onTokens (p : Parser.t) : Prop :=
  terminated (Parser.tokens p)
  /\ Parser.current p < length (Parser.tokens p).

(** What a method of the parser leaves when it is started on a token: the
    token list untouched, a position on a token and not before the one it
    started at, reports only added, a report for a [ParseError] it throws,
    and no read outside of the token list. *)
Definition stays {A} (p : Parser.t) (r : Outcome Parser.Exc A * Parser.t)
  : Prop :=
  onTokens (snd r)
  /\ Parser.tokens (snd r) = Parser.tokens p
  /\ Parser.current p <= Parser.current (snd r)
  /\ Parser.nextId p <= Parser.nextId (snd r)
  /\ (exists errs,
        Parser.log (snd r) = (Parser.log p ++ errs)%list
        /\ (fst r = Throw Parser.ParseError -> errs <> []))
  /\ fst r <> Throw Parser.TypeError.

(** A method that stays on the tokens from every position at or after
    [c]; [previous] needs a token before the position, so [c = 1]. *)
Definition safe {A} (c : nat) (m : Parser.P A) : Prop :=
  forall p, onTokens p -> c <= Parser.current p -> stays p (m p).

(** The position is on an end-of-file token. *)
Definition atEnd (p : Parser.t) : Prop :=
  exists tok,
    Parser.tokens p !! Parser.current p = Some tok /\ type tok = T_eof.

(** A method of the parser that lets no [ParseError] out. *)
Definition quiet {A} (m : Parser.P A) : Prop :=
  forall p, fst (m p) <> Throw Parser.ParseError.

(** The token types at which [synchronize] stops: each begins a
    statement. *)
Definition statementStarts : list TokenType :=
  [T_class; T_fun; T_var; T_for; T_if; T_while; T_print; T_return].

(** Where [synchronize] leaves the parser: at the end, just after a
    semicolon, or in front of a token that begins a statement. *)
Definition atBoundary (p : Parser.t) : Prop :=
  atEnd p
  \/ (exists prev,
        Parser.previous_opt p = Some prev /\ type prev = T_semicolon)
  \/ (exists tok,
        Parser.tokens p !! Parser.current p = Some tok
        /\ In (type tok) statementStarts).

(** An expression that can stand on the left of [=]. *)
Definition assignable (e : Expr) : bool :=
  match e with
  | EVariable _ | EGet _ _ => true
  | _ => false
  end.

(** The parser at the start of [1 = 2;] and of [print 1 2; 3 var x;]
    after the error at [2]. *)
Definition at_bad_assignment : Parser.t :=
  Parser.new (Scanner.tokens (Run.scanSource "1 = 2;")) [].

Definition at_bad_print : Parser.t :=
  Parser.set_current 2
    (Parser.new (Scanner.tokens (Run.scanSource "print 1 2; 3 var x;")) []).

(** * Properties *)

(** ** Outcomes of sequenced computations *)

Lemma bind_Normal {S E A B} (m : ES S E A) (f : A -> ES S E B) s b s' :
  bind m f s = (Normal b, s') ->
  exists a s1, m s = (Normal a, s1) /\ f a s1 = (Normal b, s').
Proof.
  unfold bind. destruct (m s) as [[a|e] s1]; intros H.
  - eauto.
  - discriminate.
Qed.

Lemma bind_Throw {S E A B} (m : ES S E A) (f : A -> ES S E B) s e s' :
  bind m f s = (Throw e, s') ->
  m s = (Throw e, s')
  \/ exists a s1, m s = (Normal a, s1) /\ f a s1 = (Throw e, s').
Proof.
  unfold bind. destruct (m s) as [[a|e0] s1]; intros H.
  - right; eauto.
  - left; congruence.
Qed.

Lemma bind_eq_Normal {S E A B} (m : ES S E A) (f : A -> ES S E B) s a s1 :
  m s = (Normal a, s1) -> bind m f s = f a s1.
Proof. unfold bind. now intros ->. Qed.

Lemma bind_eq_Throw {S E A B} (m : ES S E A) (f : A -> ES S E B) s e s1 :
  m s = (Throw e, s1) -> bind m f s = (Throw e, s1).
Proof. unfold bind. now intros ->. Qed.

Lemma ret_Normal {S E A} (a b : A) (s s' : S) :
  @ret S E A a s = (Normal b, s') -> a = b /\ s = s'.
Proof. unfold ret. intros H; inversion H; auto. Qed.

Ltac bind_inv H :=
  let a := fresh "a" in
  let s := fresh "s" in
  let Ha := fresh "Hm" in
  apply bind_Normal in H as (a & s & Ha & H).

Ltac ret_inv H :=
  apply ret_Normal in H as [? ?]; subst.

(** ** The scanner: unterminated strings *)

Section ScannerFacts.
Import Scanner.

Lemma skip_length n s : String.length (skip n s) = String.length s - n.
Proof.
  revert s; induction n as [|n IH]; intros [|a s]; simpl; auto.
Qed.

Lemma skip_S n s a rest : skip n s = String a rest -> skip (S n) s = rest.
Proof.
  revert s; induction n as [|n IH]; intros [|b s] H; simpl in *;
    try discriminate.
  - now inversion H.
  - now apply IH.
Qed.

Lemma charAt_skip s n :
  charAt s n = match skip n s with
               | String a _ => String a EmptyString
               | EmptyString => EmptyString
               end.
Proof.
  unfold charAt. revert s; induction n as [|n IH]; intros [|a s]; simpl; auto.
Qed.

Lemma chr_eqb a n :
  String.eqb (String a EmptyString) (chr n) = Ascii.eqb a (ascii_of_nat n).
Proof.
  unfold chr. simpl. now destruct (Ascii.eqb a (ascii_of_nat n)).
Qed.

(** The loop of [string()] over a text without closing quote runs to the
    end of the source and counts its newlines. *)
Lemma string_loop_unterminated rest :
  forall fuel sc,
    skip (current sc) (source sc) = rest ->
    noQuote rest = true ->
    String.length rest <= fuel ->
    while fuel
      (fun s => negb (String.eqb (peek s) DQUOTE) && negb (isAtEnd s))
      (fun s =>
         snd (advance (if String.eqb (peek s) LF
                       then set_line (S (line s)) s else s)))
      sc
    = set_line (line sc + countLF rest)
        (set_current (current sc + String.length rest) sc).
Proof.
  induction rest as [|a rest IH]; intros fuel sc Hskip Hq Hfuel.
  - assert (Hend : isAtEnd sc = true).
    { unfold isAtEnd. apply Nat.leb_le.
      pose proof (skip_length (current sc) (source sc)) as Hl.
      rewrite Hskip in Hl. simpl in Hl. lia. }
    destruct sc as [src toks st cur ln lg]; simpl in *.
    destruct fuel as [|fuel]; simpl; rewrite ?Hend, ?andb_false_r;
      unfold set_line, set_current; simpl; f_equal; lia.
  - simpl in Hq. apply andb_true_iff in Hq as [Ha Hq].
    destruct fuel as [|fuel]; [simpl in Hfuel; lia|].
    assert (Hend : isAtEnd sc = false).
    { unfold isAtEnd. apply Nat.leb_gt.
      pose proof (skip_length (current sc) (source sc)) as Hl.
      rewrite Hskip in Hl. simpl in Hl. lia. }
    assert (Hpeek : peek sc = String a EmptyString).
    { unfold peek. rewrite Hend, charAt_skip, Hskip. reflexivity. }
    simpl while. rewrite Hpeek, Hend.
    unfold DQUOTE, LF. rewrite !chr_eqb.
    apply negb_true_iff in Ha. rewrite Ha. simpl negb. simpl andb.
    destruct sc as [src toks st cur ln lg]; simpl in *.
    destruct (Ascii.eqb a (ascii_of_nat 10)); simpl.
    + rewrite IH; simpl; auto.
      * unfold set_line, set_current; simpl. f_equal; lia.
      * eapply skip_S; eauto.
      * lia.
    + rewrite IH; simpl; auto.
      * unfold set_line, set_current; simpl. f_equal; lia.
      * eapply skip_S; eauto.
      * lia.
Qed.

End ScannerFacts.

(** ** The scanner: every loop ends within its bound *)

Section ScannerLoops.
Import Scanner.

Lemma advances_refl s : advances s s.
Proof. split; auto. Qed.

Lemma advances_trans a b c : advances a b -> advances b c -> advances a c.
Proof. intros [? ?] [? ?]. split; [congruence|lia]. Qed.

Lemma while_advances fuel cond body :
  (forall s, advances s (body s)) ->
  forall sc, advances sc (while fuel cond body sc).
Proof.
  intros Hbody. induction fuel as [|fuel IH]; intros sc; simpl.
  - apply advances_refl.
  - destruct (cond sc); [|apply advances_refl].
    eapply advances_trans; [apply Hbody|apply IH].
Qed.

(** A loop whose every iteration reads at least one character stops by
    itself, its condition false, within as many iterations as there are
    characters left. *)
Lemma while_exhausts fuel cond body :
  (forall s, cond s = true -> remaining (body s) < remaining s) ->
  forall sc, remaining sc <= fuel -> cond (while fuel cond body sc) = false.
Proof.
  intros Hbody. induction fuel as [|fuel IH]; intros sc Hfuel; simpl.
  - destruct (cond sc) eqn:E; [|reflexivity].
    specialize (Hbody sc E). lia.
  - destruct (cond sc) eqn:E; [|exact E].
    apply IH. specialize (Hbody sc E). lia.
Qed.

Lemma advance_advances s : advances s (snd (advance s)).
Proof. split; simpl; auto. Qed.

Lemma addToken_advances ty lit s : advances s (addToken ty lit s).
Proof. split; reflexivity. Qed.

Lemma match_advances c s : advances s (snd (match_ c s)).
Proof.
  unfold match_. destruct (isAtEnd s); [apply advances_refl|].
  destruct (negb _); [apply advances_refl|]. split; simpl; auto.
Qed.

Lemma addToken2_advances c y n s : advances s (addToken2 c y n s).
Proof.
  unfold addToken2. pose proof (match_advances c s) as H.
  destruct (match_ c s) as [m s']. simpl in H.
  eapply advances_trans; [exact H|apply addToken_advances].
Qed.

Lemma number_advances s : advances s (number_ s).
Proof.
  unfold number_.
  eapply advances_trans; [|apply addToken_advances].
  eapply advances_trans;
    [apply while_advances; intros; apply advance_advances|].
  destruct (_ && _); [|apply advances_refl].
  eapply advances_trans; [apply advance_advances|].
  apply while_advances; intros; apply advance_advances.
Qed.

Lemma identifier_advances s : advances s (identifier s).
Proof.
  unfold identifier.
  eapply advances_trans; [|apply addToken_advances].
  apply while_advances; intros; apply advance_advances.
Qed.

Lemma string_advances s : advances s (string_ s).
Proof.
  unfold string_.
  match goal with
  | |- context [while ?f ?c ?b s] =>
      assert (H : advances s (while f c b s))
  end.
  { apply while_advances. intros s0.
    destruct (String.eqb (peek s0) LF); split; simpl; auto. }
  destruct (isAtEnd _).
  - eapply advances_trans; [exact H|]. split; reflexivity.
  - eapply advances_trans; [exact H|].
    eapply advances_trans; [apply advance_advances|apply addToken_advances].
Qed.

(** [scanToken] reads at least one character. *)
Lemma scanToken_progress s :
  source (scanToken s) = source s /\ current s < current (scanToken s).
Proof.
  assert (H : forall s', advances (snd (advance s)) s' ->
               source s' = source s /\ current s < current s').
  { intros s' [H1 H2]. simpl in *. split; [congruence|lia]. }
  unfold scanToken, advance in *. simpl snd in H.
  set (c := charAt (source s) (current s)). clearbody c.
  set (s1 := set_current (S (current s)) s) in *. clearbody s1.
  assert (Hdefault :
            source (if isDigit c then number_ s1
                    else if isAlpha c then identifier s1
                    else error (line s1) "Unexpected character." s1)
            = source s
            /\ current s
               < current (if isDigit c then number_ s1
                          else if isAlpha c then identifier s1
                          else error (line s1) "Unexpected character." s1)).
  { apply H. destruct (isDigit c); [apply number_advances|].
    destruct (isAlpha c); [apply identifier_advances|]. split; reflexivity. }
  assert (Hcomment : forall (m : bool) s2,
            advances s1 s2 ->
            source (if m then
                      while (remaining s2)
                        (fun s => negb (String.eqb (peek s) LF)
                                  && negb (isAtEnd s))
                        (fun s => snd (advance s)) s2
                    else addToken T_slash TLundefined s2)
            = source s
            /\ current s
               < current (if m then
                            while (remaining s2)
                              (fun s => negb (String.eqb (peek s) LF)
                                        && negb (isAtEnd s))
                              (fun s => snd (advance s)) s2
                          else addToken T_slash TLundefined s2)).
  { intros m s2 Hs2. apply H. eapply advances_trans; [exact Hs2|].
    destruct m; [|apply addToken_advances].
    apply while_advances; intros; apply advance_advances. }
  destruct c as [|a [|b c']]; try exact Hdefault.
  - destruct a as [[] [] [] [] [] [] [] []]; try exact Hdefault;
      try (apply H;
           first [apply addToken_advances | apply addToken2_advances
                 | apply string_advances | apply advances_refl
                 | split; reflexivity]).
    pose proof (match_advances "/" s1) as Hm.
    destruct (match_ "/" s1) as [m s2]. exact (Hcomment m s2 Hm).
  - destruct a as [[] [] [] [] [] [] [] []]; exact Hdefault.
Qed.

Lemma peek_not_at_end (p : string -> bool) s :
  p NUL = false -> p (peek s) = true -> current s < String.length (source s).
Proof.
  unfold peek, isAtEnd. intros Hnul Hp.
  destruct (String.length (source s) <=? current s) eqn:E.
  - congruence.
  - now apply Nat.leb_gt in E.
Qed.

Lemma advance_remaining s :
  current s < String.length (source s) ->
  remaining (snd (advance s)) < remaining s.
Proof. unfold remaining; simpl. lia. Qed.

(** The scanner is total: within their bounds, the loops of [number],
    [identifier] and the line comment stop with their condition false, and
    [scanTokens] stops at the end of the source, which it leaves unchanged,
    after adding the end-of-file token. *)
Lemma scanner_loops_complete sc :
  isDigit (peek (while (remaining sc) (fun s => isDigit (peek s))
                   (fun s => snd (advance s)) sc)) = false
  /\ isAlphaNumeric (peek (while (remaining sc)
                             (fun s => isAlphaNumeric (peek s))
                             (fun s => snd (advance s)) sc)) = false
  /\ (let sc' := while (remaining sc)
                   (fun s => negb (String.eqb (peek s) LF) && negb (isAtEnd s))
                   (fun s => snd (advance s)) sc in
      negb (String.eqb (peek sc') LF) && negb (isAtEnd sc') = false)
  /\ isAtEnd (scanTokens sc) = true
  /\ source (scanTokens sc) = source sc
  /\ exists toks ln,
       tokens (scanTokens sc)
       = (toks ++ [mkToken T_eof "" TLundefined ln])%list.
Proof.
  split; [|split; [|split]].
  - apply (while_exhausts (remaining sc) (fun s => isDigit (peek s))); auto.
    intros s Hs. apply advance_remaining.
    now apply (peek_not_at_end isDigit).
  - apply (while_exhausts (remaining sc) (fun s => isAlphaNumeric (peek s)));
      auto.
    intros s Hs. apply advance_remaining.
    now apply (peek_not_at_end isAlphaNumeric).
  - apply (while_exhausts (remaining sc)
             (fun s => negb (String.eqb (peek s) LF) && negb (isAtEnd s)));
      auto.
    intros s Hs. apply advance_remaining.
    apply andb_true_iff in Hs as [_ Hs]. apply negb_true_iff in Hs.
    unfold isAtEnd in Hs. now apply Nat.leb_gt in Hs.
  - unfold scanTokens.
    set (body := fun s => scanToken (set_start (current s) s)).
    set (cond := fun s => negb (isAtEnd s)).
    assert (Hend : cond (while (S (remaining sc)) cond body sc) = false).
    { apply while_exhausts; [|lia].
      intros s Hs. unfold body.
      destruct (scanToken_progress (set_start (current s) s)) as [H1 H2].
      unfold cond in Hs. apply negb_true_iff in Hs.
      unfold isAtEnd in Hs. apply Nat.leb_gt in Hs.
      unfold remaining. rewrite H1. simpl in *. lia. }
    assert (Hsrc : source (while (S (remaining sc)) cond body sc) = source sc).
    { apply (while_advances (S (remaining sc)) cond body).
      intros s. unfold body.
      destruct (scanToken_progress (set_start (current s) s)) as [H1 H2].
      split; simpl in *; [exact H1|lia]. }
    split; [|split].
    + unfold cond in Hend. apply negb_false_iff in Hend. exact Hend.
    + exact Hsrc.
    + eexists _, _. reflexivity.
Qed.

End ScannerLoops.

Section UnterminatedString.
Import Scanner.

(** What [string()] does when the text after the opening quote has no
    closing quote. *)
Lemma string_unterminated sc rest :
  skip (current sc) (source sc) = rest ->
  noQuote rest = true ->
  string_ sc
  = error (line sc + countLF rest) "Unterminated string."
      (set_line (line sc + countLF rest)
         (set_current (current sc + String.length rest) sc)).
Proof.
  intros Hskip Hq. unfold string_.
  assert (Hrem : remaining sc = String.length rest).
  { unfold remaining. rewrite <- Hskip. now rewrite skip_length. }
  rewrite (string_loop_unterminated rest (remaining sc) sc Hskip Hq)
    by (rewrite Hrem; lia).
  assert (Hend : isAtEnd (set_line (line sc + countLF rest)
             (set_current (current sc + String.length rest) sc)) = true).
  { unfold isAtEnd; simpl. apply Nat.leb_le.
    pose proof (skip_length (current sc) (source sc)) as Hl.
    rewrite Hskip in Hl. lia. }
  rewrite Hend. reflexivity.
Qed.

(** C7 (as amended): when the scanner meets an opening quote on line
    [line sc] and the rest of the source holds no closing quote, the token
    scan reports "Unterminated string." once, at the line reached at the
    end of the input, that is the line of the opening quote plus the
    number of newlines in the unterminated text; no token is added and the
    scanner is at the end of the source. *)
Theorem unterminated_string_reported_at_end_line sc rest :
  skip (current sc) (source sc) = String (ascii_of_nat 34) rest ->
  noQuote rest = true ->
  let sc' := scanToken (set_start (current sc) sc) in
  log sc' = (log sc ++ [mkReport (line sc + countLF rest) ""
                          "Unterminated string."])%list
  /\ tokens sc' = tokens sc
  /\ isAtEnd sc' = true.
Proof.
  intros Hskip Hq sc'. subst sc'.
  unfold scanToken, advance.
  assert (Hc : charAt (source (set_start (current sc) sc))
                 (current (set_start (current sc) sc))
               = String (ascii_of_nat 34) EmptyString).
  { simpl. rewrite charAt_skip, Hskip. reflexivity. }
  rewrite Hc. cbv iota beta. simpl ascii_of_nat.
  cbv iota beta.
  rewrite (string_unterminated _ rest).
  - simpl. repeat split.
    unfold isAtEnd; simpl. apply Nat.leb_le.
    pose proof (skip_length (current sc) (source sc)) as Hl.
    rewrite Hskip in Hl. simpl in Hl. lia.
  - simpl. eapply skip_S; eauto.
  - assumption.
Qed.

(** A string opened on line 1 that runs over one newline to the end of the
    input. *)
Lemma unterminated_string_reported_at_end_line_witness :
  let sc := new (DQUOTE ++ "a" ++ LF ++ "b") [] in
  let sc' := scanToken (set_start (current sc) sc) in
  log sc' = [mkReport 2 "" "Unterminated string."]
  /\ tokens sc' = []
  /\ isAtEnd sc' = true.
Proof.
  apply (unterminated_string_reported_at_end_line
           (new (DQUOTE ++ "a" ++ LF ++ "b") []) ("a" ++ LF ++ "b")).
  - reflexivity.
  - reflexivity.
Defined.

(** C7 as stated fails: the opening quote is on line 1, the text runs over
    a newline, and the error is reported at line 2, not at line 1. *)
Lemma unterminated_string_start_line_counterexample :
  let src := DQUOTE ++ "a" ++ LF ++ "b" in
  let sc := scanTokens (new src []) in
  charAt src 0 = DQUOTE
  /\ line (new src []) = 1
  /\ log sc = [mkReport 2 "" "Unterminated string."]
  /\ log sc <> [mkReport 1 "" "Unterminated string."]
  /\ map type (tokens sc) = [T_eof].
Proof.
  vm_compute. repeat split; try reflexivity. discriminate.
Qed.

End UnterminatedString.

(** ** The parser: [for] is desugared *)

Section ForStatement.
Import Parser.

(** A computation that is sequenced and then continued. *)
Lemma bind_bind_eq_Normal {S E A B C} (m : ES S E A) (f : A -> ES S E B)
    (g : B -> ES S E C) s b s1 :
  bind m f s = (Normal b, s1) ->
  bind m (fun a => bind (f a) g) s = g b s1.
Proof.
  unfold bind. destruct (m s) as [[a|e] s']; [|discriminate].
  now intros ->.
Qed.

(** [check], [advance], [match] and [consume] on a token type other than
    end-of-file, by the token at the position. *)
Lemma check_iff ty p b p' :
  ty <> T_eof ->
  check ty p = (Normal b, p')
  <-> p' = p /\ (if b then atToken ty p else atOther ty p) = true.
Proof.
  intros Hty. unfold check, isAtEnd, peek, atToken, atOther, bind, ret, tt_eqb.
  destruct (tokens p !! current p) as [tok|] eqn:Htok; simpl.
  - destruct (bool_decide (type tok = T_eof)) eqn:E; simpl.
    + apply bool_decide_eq_true in E.
      assert (Hne : bool_decide (type tok = ty) = false)
        by (apply bool_decide_eq_false; congruence).
      rewrite Hne. simpl. split.
      * intros H; inversion H; subst; split; reflexivity.
      * intros [-> H]. destruct b; [discriminate|reflexivity].
    + rewrite Htok.
      destruct (bool_decide (type tok = ty)); simpl; split.
      * intros H; inversion H; subst; split; reflexivity.
      * intros [-> H]. destruct b; [reflexivity|discriminate].
      * intros H; inversion H; subst; split; reflexivity.
      * intros [-> H]. destruct b; [discriminate|reflexivity].
  - split; [discriminate|]. intros [_ H]. destruct b; discriminate.
Qed.

Lemma advance_atToken ty p :
  ty <> T_eof -> atToken ty p = true ->
  exists tok, tokens p !! current p = Some tok /\ type tok = ty
              /\ advance p = (Normal (Some tok), pastToken p).
Proof.
  intros Hty. unfold atToken, advance, isAtEnd, peek, bind, ret, tt_eqb.
  destruct (tokens p !! current p) as [tok|] eqn:Htok; [|discriminate].
  intros H%bool_decide_eq_true. exists tok. split; [reflexivity|].
  split; [exact H|].
  assert (Hne : bool_decide (type tok = T_eof) = false)
    by (apply bool_decide_eq_false; congruence).
  rewrite Hne. simpl. unfold gets, previous_opt, pastToken. simpl.
  now rewrite Htok.
Qed.

Lemma match1_iff ty p b p' :
  ty <> T_eof ->
  match_ [ty] p = (Normal b, p')
  <-> (b = true /\ atToken ty p = true /\ p' = pastToken p)
      \/ (b = false /\ atOther ty p = true /\ p' = p).
Proof.
  intros Hty. cbn [match_]. split.
  - intros H. bind_inv H. apply (check_iff ty p a s Hty) in Hm as [-> Hc].
    destruct a.
    + bind_inv H. ret_inv H. left.
      destruct (advance_atToken ty p Hty Hc) as (tok & _ & _ & Ha).
      rewrite Ha in Hm. inversion Hm; subst. auto.
    + ret_inv H. right. auto.
  - intros [(-> & Hc & ->)|(-> & Hc & ->)].
    + rewrite (bind_eq_Normal _ _ _ _ _ (proj2 (check_iff ty p true p Hty)
                                          (conj eq_refl Hc))).
      destruct (advance_atToken ty p Hty Hc) as (tok & _ & _ & Ha).
      now rewrite (bind_eq_Normal _ _ _ _ _ Ha).
    + now rewrite (bind_eq_Normal _ _ _ _ _ (proj2 (check_iff ty p false p Hty)
                                          (conj eq_refl Hc))).
Qed.

Lemma consume_iff ty message p p' :
  ty <> T_eof ->
  (exists tok, consume ty message p = (Normal tok, p'))
  <-> atToken ty p = true /\ p' = pastToken p.
Proof.
  intros Hty. unfold consume. split.
  - intros [tok H]. bind_inv H.
    apply (check_iff ty p a s Hty) in Hm as [-> Hc]. destruct a.
    + destruct (advance_atToken ty p Hty Hc) as (tok' & _ & _ & Ha).
      rewrite (bind_eq_Normal _ _ _ _ _ Ha) in H. ret_inv H. auto.
    + bind_inv H. bind_inv H. discriminate.
  - intros [Hc ->].
    rewrite (bind_eq_Normal _ _ _ _ _ (proj2 (check_iff ty p true p Hty)
                                          (conj eq_refl Hc))).
    destruct (advance_atToken ty p Hty Hc) as (tok & _ & _ & Ha).
    rewrite (bind_eq_Normal _ _ _ _ _ Ha). now exists tok.
Qed.

(** C6: a [for] statement is desugared entirely at parse time.
    [forStatement] returns a statement exactly when the tokens are those of
    a [for]: a left parenthesis; then a semicolon (no initializer), or
    [var] and a declaration read by [varDeclaration], or otherwise a
    statement read by [expressionStatement]; then a semicolon at once (no
    condition) or an expression read by [expression] and a semicolon; then
    a right parenthesis at once (no increment) or an expression and a right
    parenthesis; then the body read by [statement]. The statement returned
    is then the desugaring of these clauses in the words of the
    specification: the [While] on the condition, or on the literal [true]
    when there is none, whose body has the increment appended in a block
    when there is one, the whole in an outer block after the initializer
    when there is one. The statement type has no node for [for]. *)
Theorem forStatement_desugars fuel p s p' :
  forStatement fuel p = (Normal s, p')
  <-> exists n initializer condition increment body p2 p3 p5,
        fuel = S n
        /\ atToken T_left_paren p = true
        /\ ((atToken T_semicolon (pastToken p) = true
             /\ initializer = None /\ p2 = pastToken (pastToken p))
            \/ (atToken T_var (pastToken p) = true
                /\ exists init,
                     varDeclaration n (pastToken (pastToken p))
                     = (Normal init, p2)
                     /\ initializer = Some init)
            \/ (atOther T_semicolon (pastToken p) = true
                /\ atOther T_var (pastToken p) = true
                /\ exists init,
                     expressionStatement n (pastToken p) = (Normal init, p2)
                     /\ initializer = Some init))
        /\ ((atToken T_semicolon p2 = true /\ condition = None /\ p3 = p2)
            \/ (atOther T_semicolon p2 = true
                /\ exists c,
                     expression n p2 = (Normal c, p3) /\ condition = Some c))
        /\ atToken T_semicolon p3 = true
        /\ ((atToken T_right_paren (pastToken p3) = true
             /\ increment = None /\ p5 = pastToken p3)
            \/ (atOther T_right_paren (pastToken p3) = true
                /\ exists inc,
                     expression n (pastToken p3) = (Normal inc, p5)
                     /\ increment = Some inc))
        /\ atToken T_right_paren p5 = true
        /\ statement n (pastToken p5) = (Normal body, p')
        /\ s = desugarFor initializer condition increment body.
Proof.
  assert (Hlp : T_left_paren <> T_eof) by discriminate.
  assert (Hsc : T_semicolon <> T_eof) by discriminate.
  assert (Hvar : T_var <> T_eof) by discriminate.
  assert (Hrp : T_right_paren <> T_eof) by discriminate.
  split.
  - destruct fuel as [|n]; [discriminate|].
    cbn [forStatement]. intros H.
    bind_inv H.
    destruct (proj1 (consume_iff _ _ _ _ Hlp) (ex_intro _ _ Hm))
      as [Hlparen ->]; clear Hm.
    bind_inv H. bind_inv H. bind_inv H. bind_inv H. bind_inv H. bind_inv H.
    bind_inv H. bind_inv H. bind_inv H. ret_inv H.
    apply (check_iff _ _ _ _ Hsc) in Hm1 as [-> Hc1].
    destruct (proj1 (consume_iff _ _ _ _ Hsc) (ex_intro _ _ Hm3))
      as [Hsemi ->]; clear Hm3.
    apply (check_iff _ _ _ _ Hrp) in Hm4 as [-> Hc2].
    destruct (proj1 (consume_iff _ _ _ _ Hrp) (ex_intro _ _ Hm6))
      as [Hrparen ->]; clear Hm6.
    exists n, a1, a3, a6, a8, s1, s3, s6.
    split; [reflexivity|]. split; [exact Hlparen|].
    split; [|split; [|split; [exact Hsemi|split;
      [|split; [exact Hrparen|split; [exact Hm7|reflexivity]]]]]].
    + apply (match1_iff _ _ _ _ Hsc) in Hm
        as [(-> & Hi & ->)|(-> & Hi & ->)].
      * left. ret_inv Hm0. auto.
      * right. bind_inv Hm0.
        apply (match1_iff _ _ _ _ Hvar) in Hm
          as [(-> & Hv & ->)|(-> & Hv & ->)].
        -- left. bind_inv Hm0. ret_inv Hm0. eauto.
        -- right. bind_inv Hm0. ret_inv Hm0. eauto.
    + destruct a2; simpl in Hm2.
      * left. ret_inv Hm2. auto.
      * right. bind_inv Hm2. ret_inv Hm2. eauto.
    + destruct a5; simpl in Hm5.
      * left. ret_inv Hm5. auto.
      * right. bind_inv Hm5. ret_inv Hm5. eauto.
  - intros (n & initializer & condition & increment & body & p2 & p3 & p5
            & -> & Hlparen & Hinit & Hcond & Hsemi & Hinc & Hrparen & Hbody
            & ->).
    cbn [forStatement].
    destruct (proj2 (consume_iff _ "Expect '(' after 'for'." _ _ Hlp)
                (conj Hlparen eq_refl)) as [lp Hc].
    rewrite (bind_eq_Normal _ _ _ _ _ Hc).
    assert (H1 : (m ← match_ [T_semicolon];
                  if m then ret None
                  else
                    m ← match_ [T_var];
                    if m then s ← varDeclaration n; ret (Some s)
                    else s ← expressionStatement n; ret (Some s))
                   (pastToken p)
                 = (Normal initializer, p2)).
    { destruct Hinit as [(Hi & -> & ->)|[(Hi & init & Hd & ->)
                                        |(Hi & Hv & init & Hd & ->)]].
      - rewrite (bind_eq_Normal _ _ _ _ _
                   (proj2 (match1_iff _ _ _ _ Hsc)
                      (or_introl (conj eq_refl (conj Hi eq_refl))))).
        reflexivity.
      - assert (Ho : atOther T_semicolon (pastToken p) = true).
        { revert Hi. unfold atToken, atOther.
          destruct (tokens (pastToken p) !! current (pastToken p));
            [|discriminate].
          unfold tt_eqb. intros H%bool_decide_eq_true. rewrite H.
          reflexivity. }
        rewrite (bind_eq_Normal _ _ _ _ _
                   (proj2 (match1_iff _ _ _ _ Hsc)
                      (or_intror (conj eq_refl (conj Ho eq_refl))))).
        cbv beta iota.
        rewrite (bind_eq_Normal _ _ _ _ _
                   (proj2 (match1_iff _ _ _ _ Hvar)
                      (or_introl (conj eq_refl (conj Hi eq_refl))))).
        cbv beta iota. now rewrite (bind_eq_Normal _ _ _ _ _ Hd).
      - rewrite (bind_eq_Normal _ _ _ _ _
                   (proj2 (match1_iff _ _ _ _ Hsc)
                      (or_intror (conj eq_refl (conj Hi eq_refl))))).
        cbv beta iota.
        rewrite (bind_eq_Normal _ _ _ _ _
                   (proj2 (match1_iff _ _ _ _ Hvar)
                      (or_intror (conj eq_refl (conj Hv eq_refl))))).
        cbv beta iota. now rewrite (bind_eq_Normal _ _ _ _ _ Hd). }
    rewrite (bind_bind_eq_Normal _ _ _ _ _ _ H1). clear H1 Hinit.
    assert (H2 : (c ← check T_semicolon;
                  if negb c then e ← expression n; ret (Some e)
                  else ret None) p2
                 = (Normal condition, p3)).
    { destruct Hcond as [(Hi & -> & ->)|(Hi & c & He & ->)].
      - now rewrite (bind_eq_Normal _ _ _ _ _
                       (proj2 (check_iff _ _ true _ Hsc) (conj eq_refl Hi))).
      - rewrite (bind_eq_Normal _ _ _ _ _
                   (proj2 (check_iff _ _ false _ Hsc) (conj eq_refl Hi))).
        cbv beta iota. change (negb false) with true. cbv beta iota.
        now rewrite (bind_eq_Normal _ _ _ _ _ He). }
    rewrite (bind_bind_eq_Normal _ _ _ _ _ _ H2). clear H2 Hcond.
    destruct (proj2 (consume_iff _ "Expect ';' after loop condition." _ _ Hsc)
                (conj Hsemi eq_refl)) as [sc Hc2].
    rewrite (bind_eq_Normal _ _ _ _ _ Hc2).
    assert (H3 : (c ← check T_right_paren;
                  if negb c then e ← expression n; ret (Some e)
                  else ret None) (pastToken p3)
                 = (Normal increment, p5)).
    { destruct Hinc as [(Hi & -> & ->)|(Hi & c & He & ->)].
      - now rewrite (bind_eq_Normal _ _ _ _ _
                       (proj2 (check_iff _ _ true _ Hrp) (conj eq_refl Hi))).
      - rewrite (bind_eq_Normal _ _ _ _ _
                   (proj2 (check_iff _ _ false _ Hrp) (conj eq_refl Hi))).
        cbv beta iota. change (negb false) with true. cbv beta iota.
        now rewrite (bind_eq_Normal _ _ _ _ _ He). }
    rewrite (bind_bind_eq_Normal _ _ _ _ _ _ H3). clear H3 Hinc.
    destruct (proj2 (consume_iff _ "Expect ')' after for clauses." _ _ Hrp)
                (conj Hrparen eq_refl)) as [rp Hc3].
    rewrite (bind_eq_Normal _ _ _ _ _ Hc3).
    rewrite (bind_eq_Normal _ _ _ _ _ Hbody).
    reflexivity.
Qed.

(** [for (var i = 0; i < 3; i = i + 1) print i;], read from behind the
    keyword: all three clauses are present. *)
Lemma forStatement_desugars_witness :
  forStatement 100 parser_after_for = (Normal for_stmt, for_parser)
  /\ exists n initializer condition increment body p2 p3 p5,
        100 = S n
        /\ atToken T_left_paren parser_after_for = true
        /\ ((atToken T_semicolon (pastToken parser_after_for) = true
             /\ initializer = None
             /\ p2 = pastToken (pastToken parser_after_for))
            \/ (atToken T_var (pastToken parser_after_for) = true
                /\ exists init,
                     varDeclaration n (pastToken (pastToken parser_after_for))
                     = (Normal init, p2)
                     /\ initializer = Some init)
            \/ (atOther T_semicolon (pastToken parser_after_for) = true
                /\ atOther T_var (pastToken parser_after_for) = true
                /\ exists init,
                     expressionStatement n (pastToken parser_after_for)
                     = (Normal init, p2)
                     /\ initializer = Some init))
        /\ ((atToken T_semicolon p2 = true /\ condition = None /\ p3 = p2)
            \/ (atOther T_semicolon p2 = true
                /\ exists c,
                     expression n p2 = (Normal c, p3) /\ condition = Some c))
        /\ atToken T_semicolon p3 = true
        /\ ((atToken T_right_paren (pastToken p3) = true
             /\ increment = None /\ p5 = pastToken p3)
            \/ (atOther T_right_paren (pastToken p3) = true
                /\ exists inc,
                     expression n (pastToken p3) = (Normal inc, p5)
                     /\ increment = Some inc))
        /\ atToken T_right_paren p5 = true
        /\ statement n (pastToken p5) = (Normal body, for_parser)
        /\ for_stmt = desugarFor initializer condition increment body.
Proof.
  assert (H : forStatement 100 parser_after_for
              = (Normal for_stmt, for_parser)) by (vm_compute; reflexivity).
  split; [exact H|].
  exact (proj1 (forStatement_desugars 100 parser_after_for for_stmt
                  for_parser) H).
Defined.

(** The loop of [src_for]: initializer, condition and increment are all
    present. *)
Example for_stmt_shape :
  match for_stmt with
  | SBlock [SVar _ (Some _);
            SWhile (EBinary _ _ _)
              (SBlock [SPrint _; SExpression (EAssignment _ _ _)])] => True
  | _ => False
  end.
Proof. exact I. Qed.

End ForStatement.

(** ** Induction over syntax trees *)

Lemma Expr_ind_nested (P : Expr -> Prop)
  (HAssignment : forall id name value, P value -> P (EAssignment id name value))
  (HBinary : forall l op r, P l -> P r -> P (EBinary l op r))
  (HCall : forall callee paren args,
      P callee -> Forall P args -> P (ECall callee paren args))
  (HGet : forall object name, P object -> P (EGet object name))
  (HGrouping : forall e, P e -> P (EGrouping e))
  (HLiteral : forall v, P (ELiteral v))
  (HLogical : forall l op r, P l -> P r -> P (ELogical l op r))
  (HSet : forall object name value,
      P object -> P value -> P (ESet object name value))
  (HSuper : forall id keyword method, P (ESuper id keyword method))
  (HThis : forall id keyword, P (EThis id keyword))
  (HUnary : forall op r, P r -> P (EUnary op r))
  (HVariable : forall v, P (EVariable v)) :
  forall e, P e.
Proof.
  fix IH 1. intros e. destruct e.
  - apply HAssignment, IH.
  - apply HBinary; apply IH.
  - apply HCall; [apply IH|].
    induction arguments as [|a args IHargs]; constructor; [apply IH|exact IHargs].
  - apply HGet, IH.
  - apply HGrouping, IH.
  - apply HLiteral.
  - apply HLogical; apply IH.
  - apply HSet; apply IH.
  - apply HSuper.
  - apply HThis.
  - apply HUnary, IH.
  - apply HVariable.
Qed.

Lemma Stmt_ind_nested (P : Stmt -> Prop)
  (HBlock : forall statements, Forall P statements -> P (SBlock statements))
  (HClass : forall name superclass methods,
      Forall (fun m => Forall P (fn_body m)) methods ->
      P (SClass name superclass methods))
  (HExpression : forall e, P (SExpression e))
  (HFunction : forall fn, Forall P (fn_body fn) -> P (SFunction fn))
  (HIf : forall c t e,
      P t -> (forall s, e = Some s -> P s) -> P (SIf c t e))
  (HPrint : forall e, P (SPrint e))
  (HReturn : forall keyword value, P (SReturn keyword value))
  (HVar : forall name initializer, P (SVar name initializer))
  (HWhile : forall c body, P body -> P (SWhile c body)) :
  forall s, P s.
Proof.
  fix IH 1. intros s. destruct s.
  - apply HBlock.
    induction statements as [|a l IHl]; constructor; [apply IH|exact IHl].
  - apply HClass.
    induction methods as [|m l IHl]; constructor; [|exact IHl].
    destruct m as [n ps body]. simpl.
    induction body as [|a b IHb]; constructor; [apply IH|exact IHb].
  - apply HExpression.
  - apply HFunction. destruct fn as [n ps body]. simpl.
    induction body as [|a b IHb]; constructor; [apply IH|exact IHb].
  - apply HIf; [apply IH|].
    destruct elseBranch as [s'|]; intros s'' Hs; [|discriminate].
    injection Hs as <-. apply IH.
  - apply HPrint.
  - apply HReturn.
  - apply HVar.
  - apply HWhile, IH.
Qed.

(** ** The resolver never reads the side-table

    Whatever is done to the interpreter and to the error stream before a
    run, provided it commutes with [resolve] and with [error], can as well be
    done after it. *)

Section ResolverTransport.
Import Resolver.

Variable gI : Interpreter.t -> Interpreter.t.
Variable h : list Report -> list Report.
Hypothesis gI_resolve :
  forall id d j, gI (Interpreter.resolve id d j) = Interpreter.resolve id d (gI j).
Hypothesis h_error :
  forall tok msg l, h (error_token tok msg l) = error_token tok msg (h l).

Local Abbreviation T := (transport gI h).

Lemma error_transport tok msg r : error tok msg (T r) = T (error tok msg r).
Proof. unfold error, transport; simpl. now rewrite h_error. Qed.

Lemma beginScope_transport r : beginScope (T r) = T (beginScope r).
Proof. reflexivity. Qed.

Lemma endScope_transport r : endScope (T r) = T (endScope r).
Proof. reflexivity. Qed.

Lemma currScope_set_transport name b r :
  currScope_set name b (T r) = T (currScope_set name b r).
Proof.
  unfold currScope_set, currScope; simpl.
  destruct (length (scopes r)); [reflexivity|].
  destruct (scopes r !! n); reflexivity.
Qed.

Lemma set_currentClass_transport c r :
  set_currentClass c (T r) = T (set_currentClass c r).
Proof. reflexivity. Qed.

Lemma set_currentFunction_transport f r :
  set_currentFunction f (T r) = T (set_currentFunction f r).
Proof. reflexivity. Qed.

Lemma declare_transport name r : declare name (T r) = T (declare name r).
Proof.
  unfold declare, currScope; simpl.
  destruct (length (scopes r) =? 0); [reflexivity|].
  destruct (length (scopes r)); [now rewrite currScope_set_transport|].
  destruct (scopes r !! n) as [sc|]; [|now rewrite currScope_set_transport].
  destruct (map_has sc (lexeme name));
    now rewrite ?error_transport, currScope_set_transport.
Qed.

Lemma define_transport name r : define name (T r) = T (define name r).
Proof.
  unfold define; simpl.
  destruct (length (scopes r) =? 0); [reflexivity|].
  apply currScope_set_transport.
Qed.

Lemma resolveLocal_loop_transport k id name r :
  resolveLocal_loop k id name (T r) = T (resolveLocal_loop k id name r).
Proof.
  induction k as [|i IH]; simpl; [reflexivity|].
  destruct (scopes r !! i) as [sc|]; [|exact IH].
  destruct (map_has sc (lexeme name)); [|exact IH].
  unfold set_interpreter, transport; simpl. now rewrite gI_resolve.
Qed.

Lemma resolveLocal_transport id name r :
  resolveLocal id name (T r) = T (resolveLocal id name r).
Proof. apply resolveLocal_loop_transport. Qed.

Lemma fold_left_transport {A} (f : A -> t -> t) (l : list A) :
  Forall (fun a => forall r, f a (T r) = T (f a r)) l ->
  forall r,
    fold_left (fun r a => f a r) l (T r) = T (fold_left (fun r a => f a r) l r).
Proof.
  induction 1 as [|a l Ha _ IH]; intros r; simpl; [reflexivity|].
  now rewrite Ha, IH.
Qed.

Lemma resolveExpr_transport e :
  forall r, resolveExpr e (T r) = T (resolveExpr e r).
Proof.
  induction e using Expr_ind_nested; intros r0; simpl.
  - now rewrite IHe, resolveLocal_transport.
  - now rewrite IHe1, IHe2.
  - rewrite IHe. now apply (fold_left_transport (fun a r => resolveExpr a r)).
  - apply IHe.
  - apply IHe.
  - reflexivity.
  - now rewrite IHe1, IHe2.
  - now rewrite IHe2, IHe1.
  - destruct (decide (currentClass r0 = CT_none)).
    + now rewrite error_transport, resolveLocal_transport.
    + destruct (decide (currentClass r0 <> CT_subclass));
        now rewrite ?error_transport, resolveLocal_transport.
  - destruct (decide (currentClass r0 = CT_none)).
    + apply error_transport.
    + apply resolveLocal_transport.
  - apply IHe.
  - unfold currScope; simpl.
    destruct ((0 <? length (scopes r0)) && _);
      now rewrite ?error_transport, resolveLocal_transport.
Qed.

Lemma resolveParams_transport params r :
  fold_left (fun r param => define param (declare param r)) params (T r)
  = T (fold_left (fun r param => define param (declare param r)) params r).
Proof.
  apply (fold_left_transport (fun param r => define param (declare param r))).
  apply Forall_forall. intros a _ r'.
  now rewrite declare_transport, define_transport.
Qed.

Lemma resolveFunction_transport fn ty :
  Forall (fun s => forall r, resolveStmt s (T r) = T (resolveStmt s r))
    (fn_body fn) ->
  forall r, resolveFunction fn ty (T r) = T (resolveFunction fn ty r).
Proof.
  destruct fn as [name params body]; simpl. intros Hbody r.
  rewrite set_currentFunction_transport, beginScope_transport,
    resolveParams_transport.
  now rewrite (fold_left_transport (fun s r => resolveStmt s r) body Hbody).
Qed.

Lemma resolveStmt_transport s :
  forall r, resolveStmt s (T r) = T (resolveStmt s r).
Proof.
  induction s using Stmt_ind_nested; intros r0.
  - simpl.
    now rewrite beginScope_transport,
      (fold_left_transport (fun s r => resolveStmt s r) statements H).
  - cbn [resolveStmt].
    assert (Hm : forall r,
      fold_left
        (fun r method =>
           resolveFunction method
             (if String.eqb (lexeme (fn_name method)) "init"
              then FT_initializer else FT_method) r)
        methods (T r)
      = T (fold_left
             (fun r method =>
                resolveFunction method
                  (if String.eqb (lexeme (fn_name method)) "init"
                   then FT_initializer else FT_method) r)
             methods r)).
    { apply (fold_left_transport
               (fun method r =>
                  resolveFunction method
                    (if String.eqb (lexeme (fn_name method)) "init"
                     then FT_initializer else FT_method) r)).
      eapply Forall_impl; [exact H|].
      intros m Hbody r. now apply resolveFunction_transport. }
    rewrite set_currentClass_transport, declare_transport, define_transport.
    destruct superclass as [sup|].
    + destruct (String.eqb (lexeme name) (lexeme (var_name sup)));
        rewrite ?error_transport, set_currentClass_transport,
          resolveExpr_transport, beginScope_transport,
          currScope_set_transport, beginScope_transport,
          currScope_set_transport, Hm; reflexivity.
    + rewrite beginScope_transport, currScope_set_transport, Hm.
      reflexivity.
  - simpl. apply resolveExpr_transport.
  - cbn [resolveStmt].
    rewrite declare_transport, define_transport.
    now apply resolveFunction_transport.
  - simpl. rewrite resolveExpr_transport, IHs.
    destruct e as [s'|]; [|reflexivity].
    now apply H.
  - simpl. apply resolveExpr_transport.
  - simpl. destruct (decide (currentFunction r0 = FT_none)).
    + rewrite error_transport. destruct value as [v|]; [|reflexivity].
      simpl. destruct (decide (currentFunction r0 = FT_initializer)).
      * rewrite error_transport. now rewrite resolveExpr_transport.
      * now rewrite resolveExpr_transport.
    + destruct value as [v|]; [|reflexivity].
      simpl. destruct (decide (currentFunction r0 = FT_initializer));
        now rewrite ?error_transport, resolveExpr_transport.
  - simpl. rewrite declare_transport.
    destruct initializer as [e|];
      now rewrite ?resolveExpr_transport, define_transport.
  - simpl. now rewrite resolveExpr_transport, IHs.
Qed.

Lemma resolveStmts_transport stmts r :
  resolveStmts stmts (T r) = T (resolveStmts stmts r).
Proof.
  apply (fold_left_transport (fun s r => resolveStmt s r)).
  apply Forall_forall. intros s _. apply resolveStmt_transport.
Qed.

End ResolverTransport.

(** ** The resolver: depths recorded by [resolveLocal] *)

Section ResolveLocal.
Import Resolver.

Lemma resolveLocal_loop_hit k id name r i scope :
  i < k ->
  scopes r !! i = Some scope ->
  map_has scope (lexeme name) = true ->
  (forall j scope', i < j -> j < k -> scopes r !! j = Some scope' ->
                    map_has scope' (lexeme name) = false) ->
  resolveLocal_loop k id name r
  = set_interpreter
      (Interpreter.resolve id (length (scopes r) - 1 - i) (interpreter r)) r.
Proof.
  induction k as [|k IH]; intros Hik Hi Hhas Habove; [lia|].
  simpl. destruct (decide (i = k)) as [->|Hne].
  - now rewrite Hi, Hhas.
  - destruct (scopes r !! k) as [sc|] eqn:Hk.
    + rewrite (Habove k sc) by (auto; lia).
      apply IH; auto; try lia.
      intros j sc' ? ? ?. apply (Habove j sc'); auto; lia.
    + apply IH; auto; try lia.
      intros j sc' ? ? ?. apply (Habove j sc'); auto; lia.
Qed.

Lemma resolveLocal_loop_miss k id name r :
  (forall j scope', j < k -> scopes r !! j = Some scope' ->
                    map_has scope' (lexeme name) = false) ->
  resolveLocal_loop k id name r = r.
Proof.
  induction k as [|k IH]; intros Hnone; [reflexivity|].
  simpl. destruct (scopes r !! k) as [sc|] eqn:Hk.
  - rewrite (Hnone k sc) by (auto; lia). apply IH.
    intros j sc' ? ?. apply (Hnone j sc'); auto.
  - apply IH. intros j sc' ? ?. apply (Hnone j sc'); auto.
Qed.

(** Reporting an error does not change what [resolveLocal] records. *)
Lemma resolveLocal_loop_error k id name tok msg r :
  resolveLocal_loop k id name (error tok msg r)
  = error tok msg (resolveLocal_loop k id name r).
Proof.
  induction k as [|k IH]; simpl; [reflexivity|].
  destruct (scopes r !! k) as [sc|]; [|exact IH].
  destruct (map_has sc (lexeme name)); [reflexivity|exact IH].
Qed.

Lemma resolveLocal_error id name tok msg r :
  interpreter (resolveLocal id name (error tok msg r))
  = interpreter (resolveLocal id name r).
Proof.
  unfold resolveLocal. simpl scopes.
  now rewrite resolveLocal_loop_error.
Qed.

(** *** Every [This] expression walks the scopes

    Outside of a class the resolver reports a [This] expression and returns
    without the walk. No scope binds [this] there: the only scope that does
    is the one a class declaration pushes, and it is popped when the
    declaration ends. So the walk would have found nothing. *)

Lemma notThis_ne name : notThis name = true -> lexeme name <> "this".
Proof.
  unfold notThis. intros H%negb_true_iff. now apply String.eqb_neq in H.
Qed.

Lemma sameScopes_refl r : sameScopes r r.
Proof. split; eauto. Qed.

Lemma sameScopes_trans a b c : sameScopes a b -> sameScopes b c -> sameScopes a c.
Proof.
  intros [L1 H1] [L2 H2]. split; [congruence|].
  intros j sc Hj. destruct (H2 j sc Hj) as (sc1 & Hj1 & E1).
  destruct (H1 j sc1 Hj1) as (sc0 & Hj0 & E0). exists sc0. split; congruence.
Qed.

Lemma sameScopes_eq r r' : scopes r' = scopes r -> sameScopes r r'.
Proof. intros E. split; rewrite E; eauto. Qed.

Lemma balanced_refl r : balanced r r.
Proof. repeat split; eauto. Qed.

Lemma balanced_trans a b c : balanced a b -> balanced b c -> balanced a c.
Proof.
  intros (S1 & C1 & F1) (S2 & C2 & F2).
  split; [eapply sameScopes_trans; eauto|]. split; congruence.
Qed.

Lemma balanced_eq r r' :
  scopes r' = scopes r -> currentClass r' = currentClass r ->
  currentFunction r' = currentFunction r -> balanced r r'.
Proof. intros. split; [now apply sameScopes_eq|auto]. Qed.

Lemma thisOnlyInClass_balanced r r' :
  balanced r r' -> thisOnlyInClass r -> thisOnlyInClass r'.
Proof.
  intros ([_ Hs] & Hc & _) Hinv Hnone j sc Hj.
  destruct (Hs j sc Hj) as (sc0 & Hj0 & E). rewrite E.
  apply (Hinv ltac:(congruence) j sc0 Hj0).
Qed.

Lemma map_has_insert_ne {A} (m : gmap string A) k k' v :
  k <> k' -> map_has (<[k := v]> m) k' = map_has m k'.
Proof. intros Hne. unfold map_has. now rewrite lookup_insert_ne. Qed.

Lemma currScope_set_balanced name b r :
  name <> "this" -> balanced r (currScope_set name b r).
Proof.
  intros Hne. unfold currScope_set, currScope.
  destruct (length (scopes r)) as [|n] eqn:El; [apply balanced_refl|].
  destruct (scopes r !! n) as [sc|] eqn:En; [|apply balanced_refl].
  split; [|split; reflexivity].
  split; simpl; [now rewrite length_insert|].
  intros j sc' Hj. simpl in Hj. rewrite ?Nat.sub_0_r in Hj.
  destruct (decide (j = n)) as [->|Hjn].
  - rewrite list_lookup_insert_eq in Hj by (eapply lookup_lt_Some; eauto).
    injection Hj as <-. exists sc. split; auto.
    now apply map_has_insert_ne.
  - rewrite list_lookup_insert_ne in Hj by auto. eauto.
Qed.

Lemma error_balanced tok msg r : balanced r (error tok msg r).
Proof. now apply balanced_eq. Qed.

Lemma declare_balanced name r :
  lexeme name <> "this" -> balanced r (declare name r).
Proof.
  intros Hne. unfold declare.
  destruct (length (scopes r) =? 0); [apply balanced_refl|].
  eapply balanced_trans; [|now apply currScope_set_balanced].
  destruct (currScope r) as [sc|]; [|apply balanced_refl].
  destruct (map_has sc (lexeme name));
    [apply error_balanced|apply balanced_refl].
Qed.

Lemma define_balanced name r :
  lexeme name <> "this" -> balanced r (define name r).
Proof.
  intros Hne. unfold define.
  destruct (length (scopes r) =? 0); [apply balanced_refl|].
  now apply currScope_set_balanced.
Qed.

Lemma resolveLocal_balanced id name r : balanced r (resolveLocal id name r).
Proof.
  unfold resolveLocal. generalize (length (scopes r)) at 1.
  intros k. induction k as [|k IH]; simpl; [apply balanced_refl|].
  destruct (scopes r !! k) as [sc|]; [|exact IH].
  destruct (map_has sc (lexeme name)); [now apply balanced_eq|exact IH].
Qed.

Lemma fold_left_balanced {A} (f : A -> t -> t) (l : list A) :
  Forall (fun a => forall r, balanced r (f a r)) l ->
  forall r, balanced r (fold_left (fun r a => f a r) l r).
Proof.
  induction 1 as [|a l Ha _ IH]; intros r; simpl; [apply balanced_refl|].
  eapply balanced_trans; [apply Ha|apply IH].
Qed.

(** Resolving an expression leaves the scopes, the class and the function
    alone. *)
Lemma resolveExpr_balanced e : forall r, balanced r (Resolver.resolveExpr e r).
Proof.
  induction e using Expr_ind_nested; intros r0; simpl.
  - eapply balanced_trans; [apply IHe|apply resolveLocal_balanced].
  - eapply balanced_trans; [apply IHe1|apply IHe2].
  - eapply balanced_trans; [apply IHe|].
    now apply (fold_left_balanced (fun a r => Resolver.resolveExpr a r)).
  - apply IHe.
  - apply IHe.
  - apply balanced_refl.
  - eapply balanced_trans; [apply IHe1|apply IHe2].
  - eapply balanced_trans; [apply IHe2|apply IHe1].
  - eapply balanced_trans; [|apply resolveLocal_balanced].
    destruct (decide _); [apply error_balanced|].
    destruct (decide _); [apply error_balanced|apply balanced_refl].
  - destruct (decide _); [apply error_balanced|apply resolveLocal_balanced].
  - apply IHe.
  - eapply balanced_trans; [|apply resolveLocal_balanced].
    destruct (_ && _); [apply error_balanced|apply balanced_refl].
Qed.

(** Pushing a scope, a run that keeps the scopes and popping the scope keep
    the scopes; [inside] is the state after the push. *)
Lemma push_pop_sameScopes r inside r' x :
  scopes inside = (scopes r ++ [x])%list ->
  sameScopes inside r' ->
  sameScopes r (endScope r').
Proof.
  intros Hin [Hlen Hs].
  assert (Hl : length (scopes inside) = S (length (scopes r))).
  { rewrite Hin, length_app. simpl. lia. }
  destruct (scopes r') as [|y l _] eqn:Er' using rev_ind;
    [simpl in Hlen; lia|].
  rewrite length_app in Hlen. simpl in Hlen.
  split; simpl; rewrite Er', removelast_last.
  - lia.
  - intros j sc' Hj.
    assert (Hjlt : j < length l) by (eapply lookup_lt_Some; eauto).
    destruct (Hs j sc') as (sc & Hsc & E).
    { rewrite lookup_app_l; auto. }
    exists sc. split; auto.
    rewrite Hin in Hsc. rewrite lookup_app_l in Hsc; auto. lia.
Qed.

Lemma Forall_ok {A} (ok : A -> bool) (P : A -> Prop) (l : list A) :
  Forall (fun a => ok a = true -> P a) l -> forallb ok l = true -> Forall P l.
Proof.
  induction 1 as [|a l Ha _ IH]; simpl; intros H; constructor;
    apply andb_true_iff in H as [H1 H2]; auto.
Qed.

Lemma params_balanced params r :
  forallb notThis params = true ->
  balanced r
    (fold_left (fun r param => define param (declare param r)) params r).
Proof.
  intros H.
  apply (fold_left_balanced (fun param r => define param (declare param r))).
  apply Forall_forall. intros p Hp r'.
  rewrite forallb_forall in H. apply list_elem_of_In in Hp.
  specialize (H p Hp). apply notThis_ne in H. simpl.
  apply balanced_trans with (declare p r');
    [now apply declare_balanced|now apply define_balanced].
Qed.

Lemma resolveFunction_balanced fn ty :
  okFn fn = true ->
  Forall (fun s => okStmt s = true ->
                   forall r, balanced r (Resolver.resolveStmt s r))
    (fn_body fn) ->
  forall r, balanced r (Resolver.resolveFunction fn ty r).
Proof.
  destruct fn as [name params body]. cbn [okFn fn_body Resolver.resolveFunction].
  intros [[_ Hp]%andb_true_iff Hb]%andb_true_iff IH r.
  set (r1 := beginScope (set_currentFunction ty r)).
  assert (Hin : balanced r1
            (fold_left (fun r s => Resolver.resolveStmt s r) body
               (fold_left (fun r param => define param (declare param r))
                  params r1))).
  { eapply balanced_trans; [exact (params_balanced params r1 Hp)|].
    apply (fold_left_balanced (fun s r => Resolver.resolveStmt s r)).
    eapply Forall_ok; eauto. }
  destruct Hin as (Hs & Hc & Hf).
  split; [|split].
  - apply sameScopes_trans with
      (endScope (fold_left (fun r s => Resolver.resolveStmt s r) body
                   (fold_left (fun r param => define param (declare param r))
                      params r1))).
    + eapply (push_pop_sameScopes r r1); [reflexivity|exact Hs].
    + now apply sameScopes_eq.
  - simpl. exact Hc.
  - reflexivity.
Qed.

Lemma resolveStmt_balanced s :
  okStmt s = true -> forall r, balanced r (Resolver.resolveStmt s r).
Proof.
  induction s using Stmt_ind_nested; cbn [okStmt]; intros Hok r0.
  - (* block *)
    cbn [Resolver.resolveStmt].
    assert (Hin : balanced (beginScope r0)
              (fold_left (fun r s => Resolver.resolveStmt s r) statements
                 (beginScope r0))).
    { apply (fold_left_balanced (fun s r => Resolver.resolveStmt s r)).
      eapply Forall_ok; eauto. }
    destruct Hin as (Hs & Hc & Hf).
    split; [|split; simpl; assumption].
    eapply (push_pop_sameScopes r0 (beginScope r0)); [reflexivity|exact Hs].
  - (* class *)
    apply andb_true_iff in Hok as [Hn Hm]. apply notThis_ne in Hn.
    cbn [Resolver.resolveStmt].
    set (r1 := define name (declare name (set_currentClass CT_class r0))).
    assert (B1 : sameScopes r0 r1 /\ currentFunction r1 = currentFunction r0).
    { assert (B : balanced (set_currentClass CT_class r0) r1).
      { eapply balanced_trans;
          [exact (declare_balanced name _ Hn)|exact (define_balanced name _ Hn)]. }
      destruct B as (Bs & _ & Bf). split; [|exact Bf].
      eapply sameScopes_trans; [|exact Bs]. now apply sameScopes_eq. }
    assert (Hmethods : forall r,
               balanced r
                 (fold_left
                    (fun r method =>
                       Resolver.resolveFunction method
                         (if String.eqb (lexeme (fn_name method)) "init"
                          then FT_initializer else FT_method) r)
                    methods r)).
    { apply (fold_left_balanced
               (fun method r =>
                  Resolver.resolveFunction method
                    (if String.eqb (lexeme (fn_name method)) "init"
                     then FT_initializer else FT_method) r)).
      apply Forall_forall. intros m Hin r.
      rewrite forallb_forall in Hm. rewrite Forall_forall in H.
      apply resolveFunction_balanced; [|now apply H].
      now apply Hm, list_elem_of_In. }
    destruct B1 as [B1s B1f].
    destruct superclass as [sup|].
    + set (r2 := Resolver.resolveExpr (EVariable sup)
                   (set_currentClass CT_subclass
                      (if String.eqb (lexeme name) (lexeme (var_name sup))
                       then error (var_name sup)
                              "A class can't inherit from itself." r1
                       else r1))).
      assert (B2 : sameScopes r1 r2 /\ currentFunction r2 = currentFunction r1).
      { destruct (resolveExpr_balanced (EVariable sup)
                    (set_currentClass CT_subclass
                       (if String.eqb (lexeme name) (lexeme (var_name sup))
                        then error (var_name sup)
                               "A class can't inherit from itself." r1
                        else r1))) as (Bs & _ & Bf).
        fold r2 in Bs, Bf. split.
        - eapply sameScopes_trans; [|exact Bs].
          apply sameScopes_eq. simpl. now destruct (String.eqb _ _).
        - rewrite Bf. simpl. now destruct (String.eqb _ _). }
      destruct B2 as [B2s B2f].
      set (r3 := currScope_set "super" true (beginScope r2)).
      set (r4 := currScope_set "this" true (beginScope r3)).
      destruct (Hmethods r4) as (Ms & Mc & Mf).
      assert (E3 : exists x, scopes r3 = (scopes r2 ++ [x])%list
                             /\ currentFunction r3 = currentFunction r2).
      { unfold r3, currScope_set, currScope, beginScope. simpl.
        rewrite length_app. simpl. rewrite Nat.add_1_r.
        rewrite lookup_app_r by lia. rewrite Nat.sub_diag. simpl.
        eexists. split; [|reflexivity].
        rewrite Nat.sub_0_r. rewrite insert_app_r_alt by lia.
        rewrite Nat.sub_diag. reflexivity. }
      assert (E4 : exists x, scopes r4 = (scopes r3 ++ [x])%list
                             /\ currentFunction r4 = currentFunction r3
                             /\ currentClass r4 = currentClass r3).
      { unfold r4, currScope_set, currScope, beginScope. simpl.
        rewrite length_app. simpl. rewrite Nat.add_1_r.
        rewrite lookup_app_r by lia. rewrite Nat.sub_diag. simpl.
        eexists. split; [|split; reflexivity].
        rewrite Nat.sub_0_r. rewrite insert_app_r_alt by lia.
        rewrite Nat.sub_diag. reflexivity. }
      destruct E3 as (x3 & E3 & F3). destruct E4 as (x4 & E4 & F4 & C4).
      split; [|split].
      * eapply sameScopes_trans; [exact B1s|].
        eapply sameScopes_trans; [exact B2s|].
        apply sameScopes_trans with
          (endScope (endScope
             (fold_left
                (fun r method =>
                   Resolver.resolveFunction method
                     (if String.eqb (lexeme (fn_name method)) "init"
                      then FT_initializer else FT_method) r) methods r4)));
          [|now apply sameScopes_eq].
        eapply (push_pop_sameScopes r2 r3 _ x3); [exact E3|].
        eapply (push_pop_sameScopes r3 r4 _ x4); [exact E4|exact Ms].
      * reflexivity.
      * simpl. rewrite Mf, F4, F3, B2f, B1f. reflexivity.
    + set (r4 := currScope_set "this" true (beginScope r1)).
      destruct (Hmethods r4) as (Ms & Mc & Mf).
      assert (E4 : exists x, scopes r4 = (scopes r1 ++ [x])%list
                             /\ currentFunction r4 = currentFunction r1).
      { unfold r4, currScope_set, currScope, beginScope. simpl.
        rewrite length_app. simpl. rewrite Nat.add_1_r.
        rewrite lookup_app_r by lia. rewrite Nat.sub_diag. simpl.
        eexists. split; [|reflexivity].
        rewrite Nat.sub_0_r. rewrite insert_app_r_alt by lia.
        rewrite Nat.sub_diag. reflexivity. }
      destruct E4 as (x4 & E4 & F4).
      split; [|split].
      * eapply sameScopes_trans; [exact B1s|].
        apply sameScopes_trans with
          (endScope
             (fold_left
                (fun r method =>
                   Resolver.resolveFunction method
                     (if String.eqb (lexeme (fn_name method)) "init"
                      then FT_initializer else FT_method) r) methods r4));
          [|now apply sameScopes_eq].
        eapply (push_pop_sameScopes r1 r4 _ x4); [exact E4|exact Ms].
      * reflexivity.
      * simpl. rewrite Mf, F4, B1f. reflexivity.
  - (* expression *)
    apply resolveExpr_balanced.
  - (* function *)
    cbn [Resolver.resolveStmt].
    assert (Hn : lexeme (fn_name fn) <> "this").
    { destruct fn as [name params body]. simpl in *.
      apply andb_true_iff in Hok as [[Hn _]%andb_true_iff _].
      now apply notThis_ne. }
    eapply balanced_trans; [exact (declare_balanced _ _ Hn)|].
    eapply balanced_trans; [exact (define_balanced _ _ Hn)|].
    now apply resolveFunction_balanced.
  - (* if *)
    apply andb_true_iff in Hok as [[H1 H2]%andb_true_iff H3].
    cbn [Resolver.resolveStmt].
    eapply balanced_trans; [apply resolveExpr_balanced|].
    destruct e as [s'|].
    + eapply balanced_trans; [now apply IHs|]. now apply H.
    + now apply IHs.
  - apply resolveExpr_balanced.
  - (* return *)
    cbn [Resolver.resolveStmt]. cbv zeta.
    set (r1 := if decide (currentFunction r0 = FT_none)
               then error keyword "Can't return from top-level code." r0
               else r0).
    assert (B1 : balanced r0 r1).
    { unfold r1. destruct (decide _); [apply error_balanced|apply balanced_refl]. }
    clearbody r1.
    destruct value as [v|]; [|exact B1].
    eapply balanced_trans; [exact B1|].
    eapply balanced_trans; [|apply resolveExpr_balanced].
    destruct (decide _); [apply error_balanced|apply balanced_refl].
  - (* var *)
    apply andb_true_iff in Hok as [Hn _]. apply notThis_ne in Hn.
    cbn [Resolver.resolveStmt].
    eapply balanced_trans; [exact (declare_balanced _ _ Hn)|].
    eapply balanced_trans; [|exact (define_balanced _ _ Hn)].
    destruct initializer; [apply resolveExpr_balanced|apply balanced_refl].
  - (* while *)
    apply andb_true_iff in Hok as [_ H2]. cbn [Resolver.resolveStmt].
    eapply balanced_trans; [apply resolveExpr_balanced|now apply IHs].
Qed.

Lemma thisOnlyInClass_inClass r :
  currentClass r <> CT_none -> thisOnlyInClass r.
Proof. intros Hc Hnone. contradiction. Qed.

Lemma thisOnlyInClass_beginScope r :
  thisOnlyInClass r -> thisOnlyInClass (beginScope r).
Proof.
  intros Hinv Hnone j sc Hj. simpl in Hj.
  destruct (decide (j < length (scopes r))) as [Hlt|Hge].
  - rewrite lookup_app_l in Hj by exact Hlt. now apply (Hinv Hnone j).
  - rewrite lookup_app_r in Hj by lia.
    destruct (j - length (scopes r)) as [|n]; simpl in Hj; [|discriminate].
    now injection Hj as <-.
Qed.

Lemma thisOnlyInClass_error tok msg r :
  thisOnlyInClass r -> thisOnlyInClass (error tok msg r).
Proof. intros Hinv. exact Hinv. Qed.

Lemma currScope_set_currentClass name b r :
  currentClass (currScope_set name b r) = currentClass r.
Proof.
  unfold currScope_set. destruct (currScope r); reflexivity.
Qed.

Lemma beginScope_currentClass r :
  currentClass (beginScope r) = currentClass r.
Proof. reflexivity. Qed.

Lemma fold_left_spec {A} (f g : A -> t -> t) (l : list A) :
  Forall (fun a => forall r, balanced r (f a r)) l ->
  Forall (fun a => forall r, thisOnlyInClass r -> f a r = g a r) l ->
  forall r, thisOnlyInClass r ->
            fold_left (fun r a => f a r) l r = fold_left (fun r a => g a r) l r.
Proof.
  induction 1 as [|a l Ha _ IH]; intros Heq r Hinv; simpl; [reflexivity|].
  inversion Heq as [|? ? Hfa Hl]; subst.
  rewrite <- (Hfa r Hinv). apply IH; [exact Hl|].
  eapply thisOnlyInClass_balanced; [apply Ha|exact Hinv].
Qed.

(** On an expression whose [this] tokens are spelled [this], the resolver
    does what the specification says, from any state in which [this] is
    bound only inside of a class. *)
Lemma resolveExpr_spec e :
  okExpr e = true ->
  forall r, thisOnlyInClass r ->
            Resolver.resolveExpr e r = SpecResolver.resolveExpr e r.
Proof.
  induction e using Expr_ind_nested; cbn [okExpr]; intros Hok r0 Hinv;
    cbn [Resolver.resolveExpr SpecResolver.resolveExpr]; cbv zeta.
  - apply andb_true_iff in Hok as [_ Hv]. now rewrite IHe.
  - apply andb_true_iff in Hok as [H1 H2]. rewrite <- (IHe1 H1 r0 Hinv).
    apply IHe2; [exact H2|].
    eapply thisOnlyInClass_balanced; [apply resolveExpr_balanced|exact Hinv].
  - apply andb_true_iff in Hok as [H1 H2]. rewrite <- (IHe H1 r0 Hinv).
    apply (fold_left_spec (fun a r => Resolver.resolveExpr a r)
             (fun a r => SpecResolver.resolveExpr a r)).
    + apply Forall_true. intros a r. apply resolveExpr_balanced.
    + eapply Forall_ok; [|exact H2]. exact H.
    + eapply thisOnlyInClass_balanced; [apply resolveExpr_balanced|exact Hinv].
  - now apply IHe.
  - now apply IHe.
  - reflexivity.
  - apply andb_true_iff in Hok as [H1 H2]. rewrite <- (IHe1 H1 r0 Hinv).
    apply IHe2; [exact H2|].
    eapply thisOnlyInClass_balanced; [apply resolveExpr_balanced|exact Hinv].
  - apply andb_true_iff in Hok as [H1 H2]. rewrite <- (IHe2 H2 r0 Hinv).
    apply IHe1; [exact H1|].
    eapply thisOnlyInClass_balanced; [apply resolveExpr_balanced|exact Hinv].
  - reflexivity.
  - apply String.eqb_eq in Hok.
    destruct (decide (currentClass r0 = CT_none)) as [Hnone|Hin];
      [|reflexivity].
    symmetry. unfold resolveLocal. apply resolveLocal_loop_miss.
    intros j sc' _ Hj. rewrite Hok. exact (Hinv Hnone j sc' Hj).
  - now apply IHe.
  - reflexivity.
Qed.

Lemma resolveFunction_spec fn ty :
  okFn fn = true ->
  Forall (fun s => okStmt s = true ->
                   forall r, thisOnlyInClass r ->
                             Resolver.resolveStmt s r
                             = SpecResolver.resolveStmt s r)
    (fn_body fn) ->
  forall r, thisOnlyInClass r ->
            Resolver.resolveFunction fn ty r
            = SpecResolver.resolveFunction fn ty r.
Proof.
  destruct fn as [name params body].
  cbn [okFn fn_body Resolver.resolveFunction SpecResolver.resolveFunction].
  intros [[_ Hp]%andb_true_iff Hb]%andb_true_iff IH r Hinv. cbv zeta.
  do 2 f_equal.
  apply (fold_left_spec (fun s r => Resolver.resolveStmt s r)
           (fun s r => SpecResolver.resolveStmt s r)).
  - rewrite forallb_forall in Hb. apply Forall_forall. intros s Hs.
    apply resolveStmt_balanced, Hb. now apply list_elem_of_In.
  - eapply Forall_ok; [|exact Hb]. exact IH.
  - eapply thisOnlyInClass_balanced; [now apply params_balanced|].
    now apply thisOnlyInClass_beginScope.
Qed.

(** The same for a statement in which no declared name is spelled [this]. *)
Lemma resolveStmt_spec s :
  okStmt s = true ->
  forall r, thisOnlyInClass r ->
            Resolver.resolveStmt s r = SpecResolver.resolveStmt s r.
Proof.
  induction s using Stmt_ind_nested; cbn [okStmt]; intros Hok r0 Hinv;
    cbn [Resolver.resolveStmt SpecResolver.resolveStmt]; cbv zeta.
  - (* block *)
    f_equal.
    apply (fold_left_spec (fun s r => Resolver.resolveStmt s r)
             (fun s r => SpecResolver.resolveStmt s r)).
    + rewrite forallb_forall in Hok. apply Forall_forall. intros s Hs.
      apply resolveStmt_balanced, Hok. now apply list_elem_of_In.
    + eapply Forall_ok; [|exact Hok]. exact H.
    + now apply thisOnlyInClass_beginScope.
  - (* class *)
    apply andb_true_iff in Hok as [Hn Hm]. apply notThis_ne in Hn.
    assert (Hmethods : forall r,
               currentClass r <> CT_none ->
               fold_left
                 (fun r method =>
                    Resolver.resolveFunction method
                      (if String.eqb (lexeme (fn_name method)) "init"
                       then FT_initializer else FT_method) r)
                 methods r
               = fold_left
                   (fun r method =>
                      SpecResolver.resolveFunction method
                        (if String.eqb (lexeme (fn_name method)) "init"
                         then FT_initializer else FT_method) r)
                   methods r).
    { intros r Hr.
      apply (fold_left_spec
               (fun method r =>
                  Resolver.resolveFunction method
                    (if String.eqb (lexeme (fn_name method)) "init"
                     then FT_initializer else FT_method) r)
               (fun method r =>
                  SpecResolver.resolveFunction method
                    (if String.eqb (lexeme (fn_name method)) "init"
                     then FT_initializer else FT_method) r)).
      - rewrite forallb_forall in Hm. rewrite Forall_forall in H.
        apply Forall_forall. intros m Hin r'.
        apply resolveFunction_balanced; [now apply Hm, list_elem_of_In|].
        eapply Forall_impl; [apply (H m Hin)|].
        intros s Hs Hoks r''. now apply resolveStmt_balanced.
      - rewrite forallb_forall in Hm. rewrite Forall_forall in H.
        apply Forall_forall. intros m Hin r' Hr'.
        apply resolveFunction_spec;
          [now apply Hm, list_elem_of_In|now apply H|exact Hr'].
      - now apply thisOnlyInClass_inClass. }
    assert (C1 : forall r,
               currentClass (define name (declare name r)) = currentClass r).
    { intros r.
      destruct (define_balanced name (declare name r) Hn) as (_ & -> & _).
      now destruct (declare_balanced name r Hn) as (_ & -> & _). }
    destruct superclass as [sup|]; cbv beta iota.
    + rewrite Hmethods; [reflexivity|].
      rewrite currScope_set_currentClass, beginScope_currentClass,
        currScope_set_currentClass, beginScope_currentClass.
      destruct (resolveExpr_balanced (EVariable sup)
                  (set_currentClass CT_subclass
                     (if String.eqb (lexeme name) (lexeme (var_name sup))
                      then error (var_name sup)
                             "A class can't inherit from itself."
                             (define name
                                (declare name (set_currentClass CT_class r0)))
                      else define name
                             (declare name (set_currentClass CT_class r0)))))
        as (_ & -> & _).
      simpl. discriminate.
    + rewrite Hmethods; [reflexivity|].
      rewrite currScope_set_currentClass, beginScope_currentClass, C1. simpl.
      discriminate.
  - (* expression *)
    now apply resolveExpr_spec.
  - (* function *)
    assert (Hn : lexeme (fn_name fn) <> "this").
    { destruct fn as [name params body]. simpl in *.
      apply andb_true_iff in Hok as [[Hn _]%andb_true_iff _].
      now apply notThis_ne. }
    apply resolveFunction_spec; [exact Hok|exact H|].
    eapply thisOnlyInClass_balanced; [exact (define_balanced _ _ Hn)|].
    eapply thisOnlyInClass_balanced; [exact (declare_balanced _ _ Hn)|].
    exact Hinv.
  - (* if *)
    apply andb_true_iff in Hok as [[H1 H2]%andb_true_iff H3].
    rewrite <- (resolveExpr_spec _ H1 r0 Hinv).
    assert (Hc : thisOnlyInClass (Resolver.resolveExpr c r0)).
    { eapply thisOnlyInClass_balanced; [apply resolveExpr_balanced|exact Hinv]. }
    rewrite <- (IHs H2 _ Hc).
    destruct e as [s'|]; [|reflexivity].
    apply (H s' eq_refl H3).
    eapply thisOnlyInClass_balanced; [now apply resolveStmt_balanced|exact Hc].
  - (* print *)
    now apply resolveExpr_spec.
  - (* return *)
    destruct value as [v|]; [|reflexivity].
    apply resolveExpr_spec; [exact Hok|].
    repeat destruct (decide _); repeat apply thisOnlyInClass_error; exact Hinv.
  - (* var *)
    apply andb_true_iff in Hok as [Hn Hi]. apply notThis_ne in Hn.
    f_equal. destruct initializer as [e|]; [|reflexivity].
    apply resolveExpr_spec; [exact Hi|].
    eapply thisOnlyInClass_balanced; [exact (declare_balanced _ _ Hn)|exact Hinv].
  - (* while *)
    apply andb_true_iff in Hok as [H1 H2].
    rewrite <- (resolveExpr_spec _ H1 r0 Hinv). apply IHs; [exact H2|].
    eapply thisOnlyInClass_balanced; [apply resolveExpr_balanced|exact Hinv].
Qed.

Lemma thisOnlyInClass_new i lg : thisOnlyInClass (Resolver.new i lg).
Proof. intros _ j sc Hj. discriminate. Qed.

Lemma resolveStmts_spec stmts i lg :
  forallb okStmt stmts = true ->
  Resolver.resolveStmts stmts (Resolver.new i lg)
  = SpecResolver.resolveStmts stmts (Resolver.new i lg).
Proof.
  intros Hok. unfold Resolver.resolveStmts, SpecResolver.resolveStmts.
  rewrite forallb_forall in Hok.
  apply (fold_left_spec (fun s r => Resolver.resolveStmt s r)
           (fun s r => SpecResolver.resolveStmt s r)).
  - apply Forall_forall. intros s Hs.
    apply resolveStmt_balanced, Hok. now apply list_elem_of_In.
  - apply Forall_forall. intros s Hs r Hr.
    apply resolveStmt_spec; [|exact Hr]. now apply Hok, list_elem_of_In.
  - apply thisOnlyInClass_new.
Qed.

(** C4: [resolveLocal] walks the scopes from the innermost one outward.
    On the first scope [i] that contains the name it records
    [scopes.length - 1 - i] for the expression in the interpreter's
    side-table and changes nothing else; when no scope contains the name it
    changes nothing, so no entry is written. The resolver reaches
    [resolveLocal] with the expression's own name for every [Variable],
    [Assign] (after its value) and [Super] expression, and for every [This]
    expression unless it stands outside of any class, where no scope holds
    the name and no entry is written either. So a whole run of the resolver,
    over statements in which the scanner's keyword [this] names no binding,
    is the run of [SpecResolver], which walks the scopes for every [This]
    expression. *)
Theorem resolveLocal_records_depth :
  (forall r id name i scope,
      scopes r !! i = Some scope ->
      map_has scope (lexeme name) = true ->
      (forall j scope', i < j -> scopes r !! j = Some scope' ->
                        map_has scope' (lexeme name) = false) ->
      resolveLocal id name r
      = set_interpreter
          (Interpreter.resolve id (length (scopes r) - 1 - i) (interpreter r))
          r
      /\ Interpreter.locals (interpreter (resolveLocal id name r))
         = <[id := length (scopes r) - 1 - i]>
             (Interpreter.locals (interpreter r)))
  /\ (forall r id name,
         (forall j scope', scopes r !! j = Some scope' ->
                           map_has scope' (lexeme name) = false) ->
         resolveLocal id name r = r)
  /\ (forall v r,
         interpreter (resolveExpr (EVariable v) r)
         = interpreter (resolveLocal (var_id v) (var_name v) r))
  /\ (forall id name value r,
         resolveExpr (EAssignment id name value) r
         = resolveLocal id name (resolveExpr value r))
  /\ (forall id keyword method r,
         interpreter (resolveExpr (ESuper id keyword method) r)
         = interpreter (resolveLocal id keyword r))
  /\ (forall id keyword r,
         (currentClass r = CT_none ->
          forall j scope', scopes r !! j = Some scope' ->
                           map_has scope' (lexeme keyword) = false) ->
         interpreter (resolveExpr (EThis id keyword) r)
         = interpreter (resolveLocal id keyword r))
  /\ (forall stmts i lg,
         forallb okStmt stmts = true ->
         resolveStmts stmts (new i lg)
         = SpecResolver.resolveStmts stmts (new i lg)).
Proof.
  split; [|split; [|split; [|split; [|split; [|split]]]]].
  - intros r id name i scope Hi Hhas Habove.
    assert (Hlt : i < length (scopes r)) by (eapply lookup_lt_Some; eauto).
    assert (E : resolveLocal id name r
                = set_interpreter
                    (Interpreter.resolve id (length (scopes r) - 1 - i)
                       (interpreter r)) r).
    { unfold resolveLocal.
      eapply resolveLocal_loop_hit; eauto. }
    split; [exact E|]. rewrite E. reflexivity.
  - intros r id name Hnone. unfold resolveLocal.
    apply resolveLocal_loop_miss. eauto.
  - intros v r. simpl.
    destruct ((0 <? length (scopes r)) && _); [|reflexivity].
    apply resolveLocal_error.
  - reflexivity.
  - intros id keyword method r. simpl.
    destruct (decide (currentClass r = CT_none)).
    + apply resolveLocal_error.
    + destruct (decide (currentClass r <> CT_subclass)); [|reflexivity].
      apply resolveLocal_error.
  - intros id keyword r Hinv. simpl.
    destruct (decide (currentClass r = CT_none)) as [Hc|Hc]; [|reflexivity].
    unfold resolveLocal.
    rewrite resolveLocal_loop_miss by (intros; eapply Hinv; eauto).
    reflexivity.
  - intros stmts i lg Hok. now apply resolveStmts_spec.
Qed.

End ResolveLocal.

(** ** The resolver: running it twice *)

Section ResolverIdempotent.
Import Resolver.

(** A run only adds its entries to the table it finds, on top of what is
    there, and its reports to the stream. *)
Lemma resolveStmts_adds stmts (K : Interpreter.t) (X : gmap nat nat) lg :
  let r := resolveStmts stmts (new (Interpreter.set_locals X K) lg) in
  interpreter r = Interpreter.set_locals (written stmts ∪ X) K
  /\ log r = (lg ++ reported stmts)%list.
Proof.
  intros r. subst r.
  pose (gI := fun j : Interpreter.t =>
                Interpreter.set_locals (Interpreter.locals j ∪ X) K).
  pose (h := fun l : list Report => (lg ++ l)%list).
  assert (Hstart : new (Interpreter.set_locals X K) lg
                   = transport gI h (new Interpreter.new [])).
  { unfold transport, new, gI, h; simpl.
    rewrite app_nil_r. f_equal. f_equal. symmetry. apply (left_id_L ∅ (∪)). }
  rewrite Hstart, (resolveStmts_transport gI h).
  - split; reflexivity.
  - intros id d j. unfold gI, Interpreter.resolve, Interpreter.set_locals.
    simpl. f_equal. symmetry. apply insert_union_l.
  - intros tok msg l. unfold h, error_token, report.
    destruct (tt_eqb (type tok) T_eof); now rewrite app_assoc.
Qed.

Lemma set_locals_eta (i : Interpreter.t) :
  Interpreter.set_locals (Interpreter.locals i) i = i.
Proof. now destruct i. Qed.

(** C8: a second run of the resolver over the same statements, from a fresh
    resolver on the interpreter the first run has filled, leaves the
    side-table as the first run left it: the same expressions with the same
    depths. The table does not depend on what the error stream held
    either, so two runs on two fresh interpreters agree as well. *)
Theorem resolver_idempotent stmts i lg lg' :
  let r1 := resolveStmts stmts (new i lg) in
  let r2 := resolveStmts stmts (new (interpreter r1) lg') in
  Interpreter.locals (interpreter r2) = Interpreter.locals (interpreter r1)
  /\ interpreter r2 = interpreter r1
  /\ Interpreter.locals
       (interpreter (resolveStmts stmts (new Interpreter.new lg)))
     = Interpreter.locals
         (interpreter (resolveStmts stmts (new Interpreter.new lg'))).
Proof.
  intros r1 r2.
  assert (H1 : interpreter r1
               = Interpreter.set_locals
                   (written stmts ∪ Interpreter.locals i) i).
  { subst r1. rewrite <- (set_locals_eta i) at 1.
    apply resolveStmts_adds. }
  assert (H2 : interpreter r2 = interpreter r1).
  { subst r2. rewrite H1.
    destruct (resolveStmts_adds stmts i
                (written stmts ∪ Interpreter.locals i) lg') as [-> _].
    f_equal. rewrite (assoc_L (∪)). f_equal. apply (idemp_L (∪)). }
  split; [now rewrite H2|]. split; [exact H2|].
  rewrite <- (set_locals_eta Interpreter.new).
  destruct (resolveStmts_adds stmts Interpreter.new
              (Interpreter.locals Interpreter.new) lg) as [-> _].
  destruct (resolveStmts_adds stmts Interpreter.new
              (Interpreter.locals Interpreter.new) lg') as [-> _].
  reflexivity.
Qed.

End ResolverIdempotent.

Lemma resolveLocal_records_depth_witness :
  Interpreter.locals
    (Resolver.interpreter (Resolver.resolveLocal 7 (ident "a") resolver_in_scopes))
  = <[7 := 2]> (Interpreter.locals (Resolver.interpreter resolver_in_scopes))
  /\ length (parsed program_this) = 3
  /\ Resolver.resolveStmts (parsed program_this)
       (Resolver.new Interpreter.new [])
     = SpecResolver.resolveStmts (parsed program_this)
         (Resolver.new Interpreter.new []).
Proof.
  split; [|split].
  - refine (proj2 (proj1 resolveLocal_records_depth resolver_in_scopes 7
                     (ident "a") 0 {[ "a" := true ]} eq_refl eq_refl _)).
    intros [|[|[|j]]] scope' Hj Hs; simpl in Hs; try lia;
      try discriminate; injection Hs as <-; reflexivity.
  - vm_compute. reflexivity.
  - apply (proj2 (proj2 (proj2 (proj2 (proj2 (proj2
             resolveLocal_records_depth)))))).
    vm_compute. reflexivity.
Defined.

(** ** Environments: [getAt] *)

Section GetAt.
Import Environment.

Lemma ancestor_ancestorAt h env d a :
  ancestorAt h env d a -> ancestor h (Some env) d = Normal (Some a).
Proof.
  induction 1 as [env|env d f e a Hf He _ IH]; simpl; [reflexivity|].
  now rewrite Hf, He.
Qed.

Lemma ancestor_throws h env d e :
  ancestor h env d = Throw e -> e = TypeError.
Proof.
  revert env; induction d as [|d IH]; intros env; simpl; [discriminate|].
  destruct env as [x|]; [|now intros [= <-]].
  destruct (h !! x) as [f|]; [apply IH|now intros [= <-]].
Qed.

(** C9: [getAt(d, name)] reads the frame exactly [d] ancestors up and
    nothing else: its result is what the value map of that frame gives for
    the name, whatever the nearer and the farther frames bind. There is no
    existence check: it never raises a runtime error, "Undefined variable"
    or other, and when the name is absent from that frame the result is
    [undefined], passed on as a value; when the frame binds the name, as
    the resolver's depth promises, the result is the bound value. [get],
    by contrast, raises "Undefined variable" for a name no frame of the
    chain binds. *)
Theorem getAt_reads_frame_at_distance :
  (forall h env d name a f,
      ancestorAt h env d a -> h !! a = Some f ->
      getAt h env d name = Normal (map_get (values f) name))
  /\ (forall h env d name token message,
         getAt h env d name <> Throw (RuntimeError token message))
  /\ (forall h env d name a f,
         ancestorAt h env d a -> h !! a = Some f ->
         values f !! name = None ->
         getAt h env d name = Normal VUndefined)
  /\ (forall h env d name a f v,
         ancestorAt h env d a -> h !! a = Some f ->
         values f !! name = Some v ->
         getAt h env d name = Normal v)
  /\ (forall h env name f,
         h !! env = Some f -> enclosing f = None ->
         values f !! lexeme name = None ->
         get h env name
         = Throw (RuntimeError name
                    ("Undefined variable '" ++ lexeme name ++ "'."))).
Proof.
  assert (H1 : forall h env d name a f,
             ancestorAt h env d a -> h !! a = Some f ->
             getAt h env d name = Normal (map_get (values f) name)).
  { intros h env d name a f Ha Hf. unfold getAt.
    now rewrite (ancestor_ancestorAt _ _ _ _ Ha), Hf. }
  split; [exact H1|]. split; [|split; [|split]].
  - intros h env d name token message. unfold getAt.
    destruct (ancestor h (Some env) d) as [[a|]|e] eqn:E.
    + destruct (h !! a); discriminate.
    + discriminate.
    + apply ancestor_throws in E. subst e. discriminate.
  - intros h env d name a f Ha Hf Hn.
    rewrite (H1 _ _ _ _ _ _ Ha Hf). unfold map_get. now rewrite Hn.
  - intros h env d name a f v Ha Hf Hn.
    rewrite (H1 _ _ _ _ _ _ Ha Hf). unfold map_get. now rewrite Hn.
  - intros h env name f Hf He Hn. unfold get. simpl.
    rewrite Hf. unfold map_get. rewrite Hn. simpl. now rewrite He.
Qed.

(** From the child frame of [two_frames], one frame up: [x] is found, [y],
    bound in the child only, is [undefined]. *)
Lemma getAt_reads_frame_at_distance_witness :
  getAt two_frames 1 1 "x" = Normal (VNumber (Num.ofZ 1))
  /\ getAt two_frames 1 1 "y" = Normal VUndefined.
Proof.
  assert (Ha : ancestorAt two_frames 1 1 0).
  { eapply ancestorAt_up; [reflexivity|reflexivity|constructor]. }
  split.
  - exact (proj1 (proj2 (proj2 (proj2 getAt_reads_frame_at_distance)))
             two_frames 1 1 "x" 0 _ _ Ha eq_refl eq_refl).
  - exact (proj1 (proj2 (proj2 getAt_reads_frame_at_distance))
             two_frames 1 1 "y" 0 _ Ha eq_refl eq_refl).
Defined.

End GetAt.

(** ** Classes: method lookup *)

Lemma LoxClass_ind_nested (P : LoxClass -> Prop)
  (Hroot : forall oid name methods, P (mkLoxClass oid name None methods))
  (Hsub : forall oid name s methods,
      P s -> P (mkLoxClass oid name (Some s) methods)) :
  forall c, P c.
Proof.
  fix IH 1. intros [oid name [s|] methods].
  - apply Hsub, IH.
  - apply Hroot.
Qed.

Lemma map_has_lookup {A} (m : gmap string A) k :
  map_has m k = true <-> is_Some (m !! k).
Proof.
  unfold map_has. destruct (m !! k); split; intros H; eauto;
    try discriminate. destruct H; discriminate.
Qed.

(** [findMethod] returns the method of the first class of the chain that
    declares the name. *)
Lemma findMethod_first_hit c name m :
  findMethod c name = Some m <->
  exists i k,
    superchain c !! i = Some k
    /\ class_methods k !! name = Some m
    /\ forall j k', j < i -> superchain c !! j = Some k' ->
                    class_methods k' !! name = None.
Proof.
  induction c as [oid cname methods|oid cname s methods IH]
    using LoxClass_ind_nested.
  - simpl. unfold map_has. destruct (methods !! name) as [f|] eqn:E.
    + split.
      * intros [= <-]. exists 0, (mkLoxClass oid cname None methods).
        repeat split; auto. intros; lia.
      * intros (i & k & Hi & Hk & Hfirst). destruct i as [|i].
        -- simpl in Hi. injection Hi as <-. simpl in Hk. congruence.
        -- discriminate.
    + split; [discriminate|].
      intros (i & k & Hi & Hk & Hfirst). destruct i as [|i].
      * simpl in Hi. injection Hi as <-. simpl in Hk. congruence.
      * discriminate.
  - simpl. unfold map_has. destruct (methods !! name) as [f|] eqn:E.
    + split.
      * intros [= <-]. exists 0, (mkLoxClass oid cname (Some s) methods).
        repeat split; auto. intros; lia.
      * intros (i & k & Hi & Hk & Hfirst). destruct i as [|i].
        -- simpl in Hi. injection Hi as <-. simpl in Hk. congruence.
        -- specialize (Hfirst 0 (mkLoxClass oid cname (Some s) methods)).
           simpl in Hfirst. rewrite Hfirst in E; [discriminate|lia|auto].
    + rewrite IH. split.
      * intros (i & k & Hi & Hk & Hfirst). exists (S i), k.
        repeat split; auto.
        intros [|j] k' Hj Hk'.
        -- simpl in Hk'. injection Hk' as <-. exact E.
        -- simpl in Hk'. apply (Hfirst j k'); auto. lia.
      * intros (i & k & Hi & Hk & Hfirst). destruct i as [|i].
        -- simpl in Hi. injection Hi as <-. simpl in Hk. congruence.
        -- exists i, k. repeat split; auto.
           intros j k' Hj Hk'. apply (Hfirst (S j) k'); auto. lia.
Qed.

Lemma findMethod_miss c name :
  findMethod c name = None <->
  forall k, k ∈ superchain c -> class_methods k !! name = None.
Proof.
  induction c as [oid cname methods|oid cname s methods IH]
    using LoxClass_ind_nested.
  - simpl. unfold map_has. destruct (methods !! name) as [f|] eqn:E.
    + split; [discriminate|]. intros H.
      specialize (H (mkLoxClass oid cname None methods)).
      simpl in H. rewrite H in E; [discriminate|]. apply list_elem_of_here.
    + split; auto. intros _ k Hk.
      apply list_elem_of_singleton in Hk. now subst k.
  - simpl. unfold map_has. destruct (methods !! name) as [f|] eqn:E.
    + split; [discriminate|]. intros H.
      specialize (H (mkLoxClass oid cname (Some s) methods)).
      simpl in H. rewrite H in E; [discriminate|]. apply list_elem_of_here.
    + rewrite IH. split.
      * intros H k Hk. apply elem_of_cons in Hk as [->|Hk]; auto.
      * intros H k Hk. apply H. now apply list_elem_of_further.
Qed.

(** ** Instances: property lookup *)

Section PropertyLookup.
Import Interpreter.

Lemma define_fresh (h : Environment.store) encl name v :
  Environment.define (length h) name v (h ++ [Environment.mk encl ∅])%list
  = (h ++ [Environment.mk encl {[ name := v ]}])%list.
Proof.
  unfold Environment.define.
  rewrite lookup_app_r by lia. rewrite Nat.sub_diag. simpl.
  rewrite insert_app_r_alt by lia. rewrite Nat.sub_diag. simpl.
  now rewrite insert_empty.
Qed.

(** [fn.bind(instance)] allocates one frame, which holds [this] and whose
    parent is the closure of [fn], and one function object. *)
Lemma bind_fresh fn instance i :
  bind_ fn instance i
  = (Normal (mkLoxFunction (nextOid i) (fun_declaration fn)
               (length (envs i)) (fun_isInitializer fn)),
     set_nextOid (S (nextOid i))
       (set_envs
          (envs i ++ [Environment.mk (Some (fun_closure fn))
                        {[ "this" := instance ]}])%list i)).
Proof.
  unfold bind_, bind, newEnvironment, env_define, modify, newLoxFunction,
    freshOid, ret, Environment.new, bind. simpl.
  rewrite define_fresh. reflexivity.
Qed.

(** C3: property access on an instance looks at the instance's own fields
    first and returns the field's value on a hit, leaving the state as it
    was. Only on a miss does it ask the class: [findMethod] returns the
    method of the first class along the superclass chain that declares the
    name, and the access returns a fresh function, bound to the instance by
    a fresh frame that holds [this]. When the fields and the whole chain
    miss, the runtime error "Undefined property 'name'." is raised. *)
Theorem LoxInstance_get_fields_then_methods ref name i inst :
  instances i !! ref = Some inst ->
  (forall v,
      fields inst !! lexeme name = Some v -> v <> VUndefined ->
      LoxInstance_get ref name i = (Normal v, i))
  /\ (forall m,
         map_get (fields inst) (lexeme name) = VUndefined ->
         findMethod (klass inst) (lexeme name) = Some m ->
         LoxInstance_get ref name i
         = (Normal (VFunction
                      (mkLoxFunction (nextOid i) (fun_declaration m)
                         (length (envs i)) (fun_isInitializer m))),
            set_nextOid (S (nextOid i))
              (set_envs
                 (envs i ++ [Environment.mk (Some (fun_closure m))
                               {[ "this" := VInstance ref ]}])%list i)))
  /\ (map_get (fields inst) (lexeme name) = VUndefined ->
      findMethod (klass inst) (lexeme name) = None ->
      LoxInstance_get ref name i
      = (Throw (RuntimeError name
                  ("Undefined property '" ++ lexeme name ++ "'.")), i))
  /\ (forall m,
         findMethod (klass inst) (lexeme name) = Some m <->
         exists n k,
           superchain (klass inst) !! n = Some k
           /\ class_methods k !! lexeme name = Some m
           /\ forall j k', j < n -> superchain (klass inst) !! j = Some k' ->
                           class_methods k' !! lexeme name = None)
  /\ (findMethod (klass inst) (lexeme name) = None <->
      forall k, k ∈ superchain (klass inst) ->
                class_methods k !! lexeme name = None)
  /\ (forall evaluate object i0,
         evaluate object i0 = (Normal (VInstance ref), i) ->
         evaluateGet evaluate object name i0 = LoxInstance_get ref name i).
Proof.
  intros Hinst.
  assert (Hget : forall k : Value -> I Value,
             LoxInstance_get ref name i
             = (let value := map_get (fields inst) (lexeme name) in
                if negb (is_undefined value) then ret value
                else
                  match findMethod (klass inst) (lexeme name) with
                  | Some method =>
                      bind (bind_ method (VInstance ref))
                        (fun f => ret (VFunction f))
                  | None =>
                      throw (RuntimeError name
                               ("Undefined property '" ++ lexeme name ++ "'."))
                  end) i).
  { intros _. unfold LoxInstance_get, bind, get_state. now rewrite Hinst. }
  specialize (Hget ret).
  split; [|split; [|split; [|split; [|split]]]].
  - intros v Hv Hdef. rewrite Hget. unfold map_get. rewrite Hv.
    destruct v; try reflexivity. contradiction.
  - intros m Hmiss Hm. rewrite Hget. cbv zeta. rewrite Hmiss, Hm. simpl.
    unfold bind. now rewrite bind_fresh.
  - intros Hmiss Hm. rewrite Hget. cbv zeta. now rewrite Hmiss, Hm.
  - intros m. apply findMethod_first_hit.
  - apply findMethod_miss.
  - intros evaluate object i0 Hobj. unfold evaluateGet.
    now rewrite (bind_eq_Normal _ _ _ _ _ Hobj).
Qed.

(** On [instance_with_field]: the field [f] is found; [m] comes from the
    superclass [A], bound to the instance; [zz] is undefined. *)
Lemma LoxInstance_get_fields_then_methods_witness :
  LoxInstance_get 0 (ident "f") instance_with_field
  = (Normal (VNumber (Num.ofZ 4)), instance_with_field)
  /\ (exists f i',
         LoxInstance_get 0 (ident "m") instance_with_field
         = (Normal (VFunction f), i')
         /\ fun_closure f = length (envs instance_with_field)
         /\ Environment.getAt (envs i') (fun_closure f) 0 "this"
            = Normal (VInstance 0))
  /\ LoxInstance_get 0 (ident "zz") instance_with_field
     = (Throw (RuntimeError (ident "zz") "Undefined property 'zz'."),
        instance_with_field).
Proof.
  destruct (instances instance_with_field !! 0) as [inst|] eqn:Hinst;
    [|vm_compute in Hinst; discriminate].
  assert (Hi : inst = mkLoxInstance (klass inst) (fields inst))
    by now destruct inst.
  vm_compute in Hinst. injection Hinst as Hinst.
  split; [|split].
  - refine (proj1 (LoxInstance_get_fields_then_methods 0 (ident "f")
                     instance_with_field inst _) (VNumber (Num.ofZ 4)) _ _).
    + subst inst. reflexivity.
    + subst inst. reflexivity.
    + discriminate.
  - destruct (findMethod (klass inst) "m") as [m|] eqn:Hm;
      [|subst inst; vm_compute in Hm; discriminate].
    eexists _, _. split; [|split].
    + refine (proj1 (proj2 (LoxInstance_get_fields_then_methods 0
                              (ident "m") instance_with_field inst _))
                m _ Hm).
      * subst inst. reflexivity.
      * subst inst. reflexivity.
    + reflexivity.
    + vm_compute. reflexivity.
  - refine (proj1 (proj2 (proj2 (LoxInstance_get_fields_then_methods 0
                                   (ident "zz") instance_with_field inst _)))
              _ _).
    + subst inst. reflexivity.
    + subst inst. reflexivity.
    + subst inst. reflexivity.
Defined.

End PropertyLookup.

(** ** Equality of values *)

Section Equality.
Import Interpreter.

(** C2 as stated fails on references: the two instances the program
    [class A {} var a = A(); var b = A(); print a == b;] creates have the
    same class and the same (empty) fields, so they are structurally equal
    values of the same tag, and they are not equal to the evaluator, which
    prints [false]. *)
Lemma isEqual_structural_counterexample :
  structurallyEqual two_instances (VInstance 0) (VInstance 1)
  /\ isEqual (VInstance 0) (VInstance 1) = false
  /\ stdout two_instances = ["false"].
Proof.
  split; [|split; vm_compute; reflexivity].
  unfold structurallyEqual.
  exists (mkLoxInstance (mkLoxClass 0 "A" None ∅) ∅),
         (mkLoxInstance (mkLoxClass 0 "A" None ∅) ∅).
  repeat split; vm_compute; reflexivity.
Qed.

(** C2 (as amended): [nil == nil] is true and [nil] is equal to nothing
    else; otherwise two values are equal exactly when they have the same
    tag and are the same boolean, the same string, numbers equal by IEEE
    comparison (so [NaN != NaN] and [-0 == 0]), or the same object:
    callables and instances are compared by identity, not by content.
    Once both operands have values, [==] and [!=] return a boolean and
    never raise. *)
Theorem isEqual_rule :
  (forall a b,
      isEqual a b = true <->
        (a = VNull /\ b = VNull)
        \/ (exists x, a = VBool x /\ b = VBool x)
        \/ (exists s, a = VString s /\ b = VString s)
        \/ (exists x y, a = VNumber x /\ b = VNumber y /\ SFeqb x y = true)
        \/ (a = VNative /\ b = VNative)
        \/ (exists f g, a = VFunction f /\ b = VFunction g
                        /\ fun_oid f = fun_oid g)
        \/ (exists c d, a = VClass c /\ b = VClass d
                        /\ class_oid c = class_oid d)
        \/ (exists r, a = VInstance r /\ b = VInstance r)
        \/ (a = VUndefined /\ b = VUndefined))
  /\ isEqual (VNumber S754_nan) (VNumber S754_nan) = false
  /\ isEqual (VNumber (S754_zero true)) (VNumber (S754_zero false)) = true
  /\ (forall Number_toString Date_now fuel l op r i a i1 b i2,
         evaluate Number_toString Date_now fuel l i = (Normal a, i1) ->
         evaluate Number_toString Date_now fuel r i1 = (Normal b, i2) ->
         (type op = T_equal_equal ->
          evaluate Number_toString Date_now (S fuel) (EBinary l op r) i
          = (Normal (VBool (isEqual a b)), i2))
         /\ (type op = T_bang_equal ->
             evaluate Number_toString Date_now (S fuel) (EBinary l op r) i
             = (Normal (VBool (negb (isEqual a b))), i2))).
Proof.
  split; [|split; [reflexivity|split; [reflexivity|]]].
  - intros a b. split.
    + destruct a, b; unfold isEqual; simpl; intros H; try discriminate.
      * left; auto.
      * apply Bool.eqb_prop in H as ->. right; left; eauto.
      * apply String.eqb_eq in H as ->. do 2 right; left; eauto.
      * do 3 right; left; eauto.
      * do 4 right; left; eauto.
      * apply Nat.eqb_eq in H. do 5 right; left; eauto.
      * apply Nat.eqb_eq in H. do 6 right; left; eauto.
      * apply Nat.eqb_eq in H as ->. do 7 right; left; eauto.
      * do 8 right; auto.
    + intros [(-> & ->)|[(x & -> & ->)|[(s & -> & ->)|[(x & y & -> & -> & H)|
              [(-> & ->)|[(f & g & -> & -> & H)|[(c & d & -> & -> & H)|
              [(r & -> & ->)|(-> & ->)]]]]]]]]; unfold isEqual; simpl; auto.
      * apply Bool.eqb_reflx.
      * apply String.eqb_refl.
      * now apply Nat.eqb_eq.
      * now apply Nat.eqb_eq.
      * apply Nat.eqb_refl.
  - intros nts dn fuel l op r i a i1 b i2 Hl Hr.
    cbn [evaluate evaluateWith]. unfold evaluateBinary.
    rewrite (bind_eq_Normal _ _ _ _ _ Hl), (bind_eq_Normal _ _ _ _ _ Hr).
    split; intros ->; reflexivity.
Qed.

(** [0/0 == 0/0], evaluated. *)
Lemma isEqual_rule_witness :
  let nan := ELiteral (LVnumber S754_nan) in
  let eq := mkToken T_equal_equal "==" TLundefined 1 in
  evaluate ExampleHost.Number_toString ExampleHost.Date_now 2
    (EBinary nan eq nan) Interpreter.new
  = (Normal (VBool false), Interpreter.new).
Proof.
  exact (proj1 (proj2 (proj2 (proj2 isEqual_rule))
                  ExampleHost.Number_toString ExampleHost.Date_now 1
                  (ELiteral (LVnumber S754_nan))
                  (mkToken T_equal_equal "==" TLundefined 1)
                  (ELiteral (LVnumber S754_nan))
                  Interpreter.new _ _ _ _ eq_refl eq_refl) eq_refl).
Defined.

End Equality.

(** ** Setting a property of a value that is no instance *)

Section SetOnNonInstance.
Import Interpreter.

(** C10: in [object.name = value] the object is evaluated first. When its
    value is not an instance, the runtime error "Only instances have
    fields." is raised at once, in the state the object expression left:
    the value expression is not evaluated and none of its effects occur.
    When the object is an instance, the value expression is evaluated
    next and the field is set. *)
Theorem evaluateSet_checks_object_first
    Number_toString Date_now fuel object name value i o i1 :
  evaluate Number_toString Date_now fuel object i = (Normal o, i1) ->
  ((forall ref, o <> VInstance ref) ->
   evaluate Number_toString Date_now (S fuel) (ESet object name value) i
   = (Throw (RuntimeError name "Only instances have fields."), i1))
  /\ (forall ref, o = VInstance ref ->
      evaluate Number_toString Date_now (S fuel) (ESet object name value) i
      = bind (evaluate Number_toString Date_now fuel value)
          (fun v => bind (LoxInstance_set ref name v) (fun _ => ret v)) i1).
Proof.
  intros Hobj. cbn [evaluate evaluateWith]. unfold evaluateSet.
  rewrite (bind_eq_Normal _ _ _ _ _ Hobj).
  split.
  - intros Hno. destruct o; try reflexivity. now destruct (Hno ref).
  - intros ref ->. reflexivity.
Qed.

(** [1.name = clock()]: the call of [clock], which would count one more
    read of the clock, does not happen. *)
Lemma evaluateSet_checks_object_first_witness :
  evaluate ExampleHost.Number_toString ExampleHost.Date_now 5 set_on_number
    Interpreter.new
  = (Throw (RuntimeError (ident "name") "Only instances have fields."),
     Interpreter.new).
Proof.
  refine (proj1 (evaluateSet_checks_object_first
                   ExampleHost.Number_toString ExampleHost.Date_now 4
                   (ELiteral (LVnumber one)) (ident "name") _
                   Interpreter.new (VNumber one) Interpreter.new eq_refl) _).
  intros ref. discriminate.
Defined.

End SetOnNonInstance.

(** ** Blocks restore the environment *)

Section ExecuteBlock.
Import Interpreter.

(** C5: whatever the statements and the environment handed to
    [executeBlock], and however the block is left (normal completion, a
    [Return] signal, a [RuntimeError] or any other exception passing
    through), the interpreter's [environment] field is afterwards what it
    was before the call. *)
Theorem executeBlock_restores_environment
    Number_toString Date_now fuel statements env i :
  environment (snd (executeBlock Number_toString Date_now fuel statements
                      env i))
  = environment i.
Proof.
  destruct fuel as [|n]; [reflexivity|].
  cbn [executeBlock]. unfold executeBlockWith, bind, gets, try_finally.
  simpl. now case_match.
Qed.

End ExecuteBlock.

(** ** Code that never names [this] keeps every binding of [this] *)

Section Soundness.
Import Interpreter.

Lemma okAll_spec {A} (p : A -> bool) (m : gmap string A) :
  okAll p m = true <-> forall k v, m !! k = Some v -> p v = true.
Proof.
  unfold okAll. rewrite forallb_forall. split.
  - intros H k v Hk. apply (H (k, v)).
    apply list_elem_of_In. now apply elem_of_map_to_list.
  - intros H [k v] Hin. apply list_elem_of_In in Hin.
    apply elem_of_map_to_list in Hin. simpl. eauto.
Qed.

Lemma okAll_empty {A} (p : A -> bool) : okAll p ∅ = true.
Proof. apply okAll_spec. intros k v. now rewrite lookup_empty. Qed.

Lemma okAll_insert {A} (p : A -> bool) (m : gmap string A) k v :
  okAll p m = true -> p v = true -> okAll p (<[k := v]> m) = true.
Proof.
  rewrite !okAll_spec. intros Hm Hv k' v'.
  rewrite lookup_insert. case_decide.
  - now intros [= <-].
  - apply Hm.
Qed.

Lemma okAll_lookup {A} (p : A -> bool) (m : gmap string A) k v :
  okAll p m = true -> m !! k = Some v -> p v = true.
Proof. rewrite okAll_spec. eauto. Qed.

Lemma forallb_lookup {A} (p : A -> bool) (l : list A) n x :
  forallb p l = true -> l !! n = Some x -> p x = true.
Proof.
  rewrite forallb_forall. intros H Hn. apply H.
  apply list_elem_of_In. eapply list_elem_of_lookup_2; eauto.
Qed.

Lemma forallb_insert {A} (p : A -> bool) (l : list A) n x :
  forallb p l = true -> p x = true -> forallb p (<[n := x]> l) = true.
Proof.
  revert n; induction l as [|a l IH]; intros n H Hx; simpl; auto.
  simpl in H. apply andb_true_iff in H as [Ha Hl].
  destruct n; simpl.
  - now rewrite Hx.
  - rewrite Ha. simpl. now apply IH.
Qed.

Lemma forallb_snoc {A} (p : A -> bool) (l : list A) x :
  forallb p l = true -> p x = true -> forallb p (l ++ [x])%list = true.
Proof. intros. rewrite forallb_app. simpl. now rewrite H, H0. Qed.

Lemma okState_envs i : okState i = true ->
  forallb (fun f => okAll okValue (Environment.values f)) (envs i) = true.
Proof. unfold okState. now intros [? ?]%andb_true_iff. Qed.

Lemma okState_instances i : okState i = true ->
  forallb (fun inst => okClass (klass inst) && okAll okValue (fields inst))
    (instances i) = true.
Proof. unfold okState. now intros [? ?]%andb_true_iff. Qed.

Lemma thisStable_refl i : thisStable i i.
Proof. intros b f Hf. eauto. Qed.

Lemma thisStable_trans a b c :
  thisStable a b -> thisStable b c -> thisStable a c.
Proof.
  intros H1 H2 n f Hf. destruct (H1 n f Hf) as (f' & Hf' & E1).
  destruct (H2 n f' Hf') as (f'' & Hf'' & E2). exists f''. split; congruence.
Qed.

Lemma thisStable_same_envs i i' : envs i' = envs i -> thisStable i i'.
Proof. intros E b f Hf. rewrite E. eauto. Qed.

(** *** Combinators *)

Lemma sound_ret {A} (okA : A -> bool) a : okA a = true -> sound okA (ret a).
Proof.
  intros Ha i o i' Hi [= <- <-]. auto using thisStable_refl.
Qed.

Lemma sound_throw {A} (okA : A -> bool) e :
  okExc e = true -> sound okA (throw e).
Proof.
  intros He i o i' Hi [= <- <-]. auto using thisStable_refl.
Qed.

Lemma sound_bind {A B} (okA : A -> bool) (okB : B -> bool) m f :
  sound okA m -> (forall a, okA a = true -> sound okB (f a)) ->
  sound okB (bind m f).
Proof.
  intros Hm Hf i o i' Hi. unfold bind.
  destruct (m i) as [[a|e] i1] eqn:E; intros H.
  - destruct (Hm _ _ _ Hi E) as (Hi1 & Hs1 & Ha).
    destruct (Hf a Ha _ _ _ Hi1 H) as (Hi' & Hs' & Ho).
    eauto using thisStable_trans.
  - injection H as <- <-.
    destruct (Hm _ _ _ Hi E) as (Hi1 & Hs1 & Ha). auto.
Qed.

Lemma sound_weaken {A} (okA okA' : A -> bool) m :
  (forall a, okA a = true -> okA' a = true) -> sound okA m -> sound okA' m.
Proof.
  intros Hw Hm i o i' Hi E. destruct (Hm _ _ _ Hi E) as (H1 & H2 & H3).
  repeat split; auto. destruct o; simpl in *; auto.
Qed.

Lemma sound_with_state {B} (okB : B -> bool) (k : t -> I B) :
  (forall j, okState j = true -> sound okB (k j)) ->
  sound okB (bind get_state k).
Proof.
  intros H i o i' Hi E. unfold bind, get_state in E. exact (H i Hi i o i' Hi E).
Qed.

Lemma sound_modify (f : t -> t) :
  (forall i, okState i = true -> okState (f i) = true /\ thisStable i (f i)) ->
  sound anything (modify f).
Proof.
  intros H i o i' Hi [= <- <-]. destruct (H i Hi). auto.
Qed.

Lemma sound_try_catch {A} (okA : A -> bool) m h :
  sound okA m -> (forall e, okExc e = true -> sound okA (h e)) ->
  sound okA (try_catch m h).
Proof.
  intros Hm Hh i o i' Hi. unfold try_catch.
  destruct (m i) as [[a|e] i1] eqn:E; intros H.
  - injection H as <- <-. apply (Hm _ _ _ Hi E).
  - destruct (Hm _ _ _ Hi E) as (Hi1 & Hs1 & He).
    destruct (Hh e He _ _ _ Hi1 H) as (Hi' & Hs' & Ho).
    eauto using thisStable_trans.
Qed.

Lemma sound_try_finally {A} (okA : A -> bool) m cleanup :
  sound okA m ->
  (forall i, okState i = true ->
     okState (cleanup i) = true /\ thisStable i (cleanup i)) ->
  sound okA (try_finally m cleanup).
Proof.
  intros Hm Hc i o i' Hi. unfold try_finally.
  destruct (m i) as [r i1] eqn:E. intros [= <- <-].
  destruct (Hm _ _ _ Hi E) as (Hi1 & Hs1 & Ho).
  destruct (Hc i1 Hi1). eauto using thisStable_trans.
Qed.

Lemma sound_loop {A} (okA : A -> bool) exhausted fuel step :
  okExc exhausted = true ->
  (forall a, okA a = true ->
     sound (fun r => match r with inl a' | inr a' => okA a' end) (step a)) ->
  forall a, okA a = true -> sound okA (loop exhausted fuel step a).
Proof.
  intros Hex Hstep. induction fuel as [|fuel IH]; intros a Ha; simpl.
  - now apply sound_throw.
  - eapply sound_bind; [apply Hstep, Ha|].
    intros [a'|a'] Ha'; [now apply IH|now apply sound_ret].
Qed.

Lemma sound_forEach {A} (l : list A) (f : A -> I unit) :
  (forall x, In x l -> sound anything (f x)) -> sound anything (forEach l f).
Proof.
  induction l as [|x l IH]; intros H; simpl.
  - now apply sound_ret.
  - eapply sound_bind; [apply H; now left|].
    intros _ _. apply IH. intros y Hy. apply H. now right.
Qed.

Lemma sound_mapM {A B} (okB : B -> bool) (f : A -> I B) (l : list A) :
  (forall x, In x l -> sound okB (f x)) -> sound (forallb okB) (mapM f l).
Proof.
  induction l as [|x l IH]; intros H; simpl.
  - now apply sound_ret.
  - eapply sound_bind; [apply H; now left|].
    intros y Hy. eapply sound_bind; [apply IH; intros z Hz; apply H; now right|].
    intros ys Hys. apply sound_ret. simpl. now rewrite Hy, Hys.
Qed.

(** *** The stores *)

Lemma okState_split i :
  okState i = true <-> okEnvs (envs i) = true /\ okInsts (instances i) = true.
Proof. unfold okState. apply andb_true_iff. Qed.

Lemma new_ok encl h :
  okEnvs h = true -> okEnvs (snd (Environment.new encl h)) = true.
Proof. intros H. simpl. apply forallb_snoc; auto using okAll_empty. Qed.

Lemma new_stable encl h : stableEnvs h (snd (Environment.new encl h)).
Proof.
  intros b f Hf. exists f. split; auto. simpl.
  rewrite lookup_app_l; auto. eapply lookup_lt_Some; eauto.
Qed.

Lemma define_ok env name v h :
  okEnvs h = true -> okValue v = true ->
  okEnvs (Environment.define env name v h) = true.
Proof.
  intros Hh Hv. unfold Environment.define.
  destruct (h !! env) as [f|] eqn:E; auto.
  apply forallb_insert; auto. simpl.
  apply okAll_insert; auto.
  apply (forallb_lookup _ _ _ _ Hh E).
Qed.

Lemma define_stable env name v h :
  name <> "this" -> stableEnvs h (Environment.define env name v h).
Proof.
  intros Hne b f Hf. unfold Environment.define.
  destruct (h !! env) as [g|] eqn:E; [|eauto].
  destruct (decide (b = env)) as [->|Hb].
  - rewrite list_lookup_insert_eq by (eapply lookup_lt_Some; eauto).
    eexists; split; [reflexivity|]. simpl.
    rewrite lookup_insert_ne by auto. congruence.
  - rewrite list_lookup_insert_ne by auto. eauto.
Qed.

Lemma stableEnvs_refl h : stableEnvs h h.
Proof. intros b f Hf. eauto. Qed.

Lemma get_from_ok fuel h env name v :
  okEnvs h = true -> Environment.get_from fuel h env name = Normal v ->
  okValue v = true.
Proof.
  intros Hh. revert env. induction fuel as [|fuel IH]; intros env; simpl;
    [discriminate|].
  destruct (h !! env) as [f|] eqn:E; [|discriminate].
  destruct (negb _) eqn:Hu.
  - intros [= <-]. unfold map_get.
    destruct (Environment.values f !! lexeme name) as [v|] eqn:Ev; auto.
    eapply okAll_lookup; [|exact Ev].
    apply (forallb_lookup _ _ _ _ Hh E).
  - destruct (Environment.enclosing f); [apply IH|discriminate].
Qed.

Lemma getAt_ok h env d name v :
  okEnvs h = true -> Environment.getAt h env d name = Normal v ->
  okValue v = true.
Proof.
  intros Hh. unfold Environment.getAt.
  destruct (Environment.ancestor h (Some env) d) as [[a|]|e];
    try discriminate.
  destruct (h !! a) as [f|] eqn:E; [|discriminate].
  intros [= <-]. unfold map_get.
  destruct (Environment.values f !! name) as [v|] eqn:Ev; auto.
  eapply okAll_lookup; [|exact Ev].
  apply (forallb_lookup _ _ _ _ Hh E).
Qed.

Lemma assign_from_ok fuel h env name v :
  okEnvs h = true -> okValue v = true -> lexeme name <> "this" ->
  okEnvs (snd (Environment.assign_from fuel h env name v)) = true
  /\ stableEnvs h (snd (Environment.assign_from fuel h env name v)).
Proof.
  intros Hh Hv Hne. revert env. induction fuel as [|fuel IH]; intros env;
    simpl; [auto using stableEnvs_refl|].
  destruct (h !! env) as [f|]; [|auto using stableEnvs_refl].
  destruct (map_has _ _); simpl.
  - split; [now apply define_ok|now apply define_stable].
  - destruct (Environment.enclosing f); [apply IH|auto using stableEnvs_refl].
Qed.

Lemma assignAt_ok h env d name v :
  okEnvs h = true -> okValue v = true -> lexeme name <> "this" ->
  okEnvs (snd (Environment.assignAt h env d name v)) = true
  /\ stableEnvs h (snd (Environment.assignAt h env d name v)).
Proof.
  intros Hh Hv Hne. unfold Environment.assignAt.
  destruct (Environment.ancestor h (Some env) d) as [[a|]|e];
    simpl; auto using stableEnvs_refl.
  destruct (h !! a); simpl; auto using stableEnvs_refl.
  split; [now apply define_ok|now apply define_stable].
Qed.

(** *** The interpreter's primitive steps *)

Lemma sound_newEnvironment encl : sound anything (newEnvironment encl).
Proof.
  intros i o i' Hi. unfold newEnvironment. simpl. intros [= <- <-].
  apply okState_split in Hi as [He Hn].
  repeat split; auto.
  - apply okState_split. split; auto. simpl. now apply (new_ok encl).
  - exact (new_stable encl (envs i)).
Qed.

Lemma sound_env_define env name v :
  name <> "this" -> okValue v = true -> sound anything (env_define env name v).
Proof.
  intros Hne Hv. apply sound_modify. intros i Hi.
  apply okState_split in Hi as [He Hn]. split.
  - apply okState_split. split; auto. simpl. now apply define_ok.
  - exact (define_stable env name v (envs i) Hne).
Qed.

Lemma sound_env_get env name : sound okValue (env_get env name).
Proof.
  intros i o i' Hi. unfold env_get. intros [= <- <-].
  repeat split; auto using thisStable_refl.
  destruct (Environment.get (envs i) env name) as [v|e] eqn:E; simpl.
  - apply okState_split in Hi as [He _]. eapply get_from_ok; eauto.
  - unfold Environment.get in E. revert E. generalize (S (length (envs i))).
    intros n. revert env. induction n as [|n IH]; intros env; simpl.
    + now intros [= <-].
    + destruct (envs i !! env) as [f|]; [|now intros [= <-]].
      destruct (negb _); [discriminate|].
      destruct (Environment.enclosing f); [apply IH|now intros [= <-]].
Qed.

Lemma getAt_throws h env d name e :
  Environment.getAt h env d name = Throw e -> e = TypeError.
Proof.
  unfold Environment.getAt.
  destruct (Environment.ancestor h (Some env) d) as [[a|]|e'] eqn:E.
  - destruct (h !! a); [discriminate|now intros [= <-]].
  - now intros [= <-].
  - intros [= <-]. eapply ancestor_throws; eauto.
Qed.

Lemma sound_env_getAt env d name : sound okValue (env_getAt env d name).
Proof.
  intros i o i' Hi. unfold env_getAt. intros [= <- <-].
  repeat split; auto using thisStable_refl.
  destruct (Environment.getAt (envs i) env d name) as [v|e] eqn:E; simpl.
  - apply okState_split in Hi as [He _]. eapply getAt_ok; eauto.
  - now rewrite (getAt_throws _ _ _ _ _ E).
Qed.

Lemma assign_from_throws fuel h env name v e :
  fst (Environment.assign_from fuel h env name v) = Throw e -> okExc e = true.
Proof.
  revert env. induction fuel as [|fuel IH]; intros env; simpl.
  - now intros [= <-].
  - destruct (h !! env) as [f|]; [|now intros [= <-]].
    destruct (map_has _ _); [discriminate|].
    destruct (Environment.enclosing f); [apply IH|now intros [= <-]].
Qed.

Lemma sound_env_assign env name v :
  lexeme name <> "this" -> okValue v = true ->
  sound anything (env_assign env name v).
Proof.
  intros Hne Hv i o i' Hi. unfold env_assign.
  destruct (Environment.assign (envs i) env name v) as [o' h'] eqn:E.
  intros [= <- <-]. apply okState_split in Hi as [He Hn].
  destruct (assign_from_ok (S (length (envs i))) (envs i) env name v He Hv Hne)
    as [H1 H2].
  unfold Environment.assign in E. rewrite E in H1, H2. simpl in H1, H2.
  repeat split.
  - apply okState_split. split; auto.
  - exact H2.
  - destruct o' as [[]|e]; auto. simpl.
    apply (assign_from_throws (S (length (envs i))) (envs i) env name v).
    now rewrite E.
Qed.

Lemma sound_env_assignAt env d name v :
  lexeme name <> "this" -> okValue v = true ->
  sound anything (env_assignAt env d name v).
Proof.
  intros Hne Hv i o i' Hi. unfold env_assignAt.
  destruct (Environment.assignAt (envs i) env d name v) as [o' h'] eqn:E.
  intros [= <- <-]. apply okState_split in Hi as [He Hn].
  destruct (assignAt_ok (envs i) env d name v He Hv Hne) as [H1 H2].
  rewrite E in H1, H2. simpl in H1, H2.
  repeat split.
  - apply okState_split. split; auto.
  - exact H2.
  - destruct o' as [[]|e]; auto. simpl.
    unfold Environment.assignAt in E.
    destruct (Environment.ancestor (envs i) (Some env) d) as [[a|]|e'] eqn:Ea.
    + destruct (envs i !! a); inversion E; subst; auto.
    + inversion E; subst; auto.
    + inversion E; subst. now rewrite (ancestor_throws _ _ _ _ Ea).
Qed.

Lemma sound_state_only {A} (okA : A -> bool) (m : I A) :
  (forall i, envs (snd (m i)) = envs i
             /\ instances (snd (m i)) = instances i
             /\ okOutcome okA (fst (m i)) = true) ->
  sound okA m.
Proof.
  intros H i o i' Hi E. destruct (H i) as (H1 & H2 & H3).
  rewrite E in H1, H2, H3. simpl in *.
  apply okState_split in Hi as [He Hn].
  repeat split; auto.
  - apply okState_split. now rewrite H1, H2.
  - now apply thisStable_same_envs.
Qed.

Lemma sound_newLoxFunction declaration closure isInitializer :
  okFn declaration = true ->
  sound okFun (newLoxFunction declaration closure isInitializer).
Proof. intros H. apply sound_state_only. intros i. simpl. auto. Qed.

Lemma sound_newLoxClass name superclass methods :
  okAll okFun methods = true ->
  match superclass with Some s => okClass s | None => true end = true ->
  sound okClass (newLoxClass name superclass methods).
Proof.
  intros H1 H2. apply sound_state_only. intros i. simpl.
  repeat split; auto. now rewrite H1, H2.
Qed.

Lemma sound_newLoxInstance c :
  okClass c = true -> sound anything (newLoxInstance c).
Proof.
  intros Hc i o i' Hi. unfold newLoxInstance. intros [= <- <-].
  apply okState_split in Hi as [He Hn].
  repeat split; auto using thisStable_same_envs.
  apply okState_split. split; auto. simpl.
  apply forallb_snoc; auto. simpl. now rewrite Hc, okAll_empty.
Qed.

Lemma sound_bind_ fn instance :
  okFun fn = true -> okValue instance = true ->
  sound okFun (bind_ fn instance).
Proof.
  intros Hf Hv i o i' Hi. rewrite bind_fresh. intros [= <- <-].
  apply okState_split in Hi as [He Hn].
  repeat split; auto.
  - apply okState_split. split; auto. simpl.
    apply forallb_snoc; auto. simpl.
    unfold singletonM, map_singleton. apply okAll_insert; auto using okAll_empty.
  - intros b f Hb. exists f. split; auto. simpl.
    rewrite lookup_app_l; auto. eapply lookup_lt_Some; eauto.
Qed.

Lemma findMethod_ok c name m :
  okClass c = true -> findMethod c name = Some m -> okFun m = true.
Proof.
  induction c as [oid cname methods|oid cname s methods IH]
    using LoxClass_ind_nested; simpl;
    intros [Hm Hs]%andb_true_iff; unfold map_has;
    destruct (methods !! name) as [f|] eqn:E; try discriminate.
  - intros [= <-]. eapply okAll_lookup; eauto.
  - intros [= <-]. eapply okAll_lookup; eauto.
  - now apply IH.
Qed.

Lemma sound_LoxInstance_get ref name : sound okValue (LoxInstance_get ref name).
Proof.
  unfold LoxInstance_get. apply sound_with_state. intros j Hj.
  destruct (instances j !! ref) as [inst|] eqn:E.
  - pose proof (proj2 (proj1 (okState_split j) Hj)) as Hn.
    pose proof (forallb_lookup _ _ _ _ Hn E) as Hinst. simpl in Hinst.
    apply andb_true_iff in Hinst as [Hk Hf].
    cbv zeta. destruct (negb _) eqn:Hu.
    + apply sound_ret; auto. unfold map_get.
      destruct (fields inst !! lexeme name) as [v|] eqn:Ev; auto.
      eapply okAll_lookup; eauto.
    + destruct (findMethod (klass inst) (lexeme name)) as [m|] eqn:Em.
      * eapply sound_bind; [apply sound_bind_; auto|].
        -- eapply findMethod_ok; eauto.
        -- intros f Hf'. now apply sound_ret.
      * now apply sound_throw.
  - now apply sound_throw.
Qed.

Lemma sound_LoxInstance_set ref name v :
  okValue v = true -> sound anything (LoxInstance_set ref name v).
Proof.
  intros Hv. unfold LoxInstance_set. apply sound_with_state. intros j Hj.
  destruct (instances j !! ref) as [inst|] eqn:E.
  - apply sound_modify; auto. intros i Hi. split.
    + apply okState_split in Hi as [He Hn]. apply okState_split in Hj as [_ Hjn].
      apply okState_split. split; auto. simpl.
      apply forallb_insert; auto. simpl.
      pose proof (forallb_lookup _ _ _ _ Hjn E) as Hinst. simpl in Hinst.
      apply andb_true_iff in Hinst as [Hk Hf].
      rewrite Hk. simpl. now apply okAll_insert.
    + now apply thisStable_same_envs.
  - now apply sound_throw.
Qed.

Lemma nth_arg_ok args k :
  forallb okValue args = true -> okValue (nth_arg args k) = true.
Proof.
  intros H. unfold nth_arg. destruct (args !! k) as [v|] eqn:E; auto.
  eapply forallb_lookup; eauto.
Qed.

Lemma sound_defineParams env params args k :
  forallb notThis params = true -> forallb okValue args = true ->
  sound anything (defineParams env params args k).
Proof.
  revert k; induction params as [|p params IH]; intros k Hp Ha; simpl.
  - now apply sound_ret.
  - simpl in Hp. apply andb_true_iff in Hp as [Hp1 Hp2].
    eapply sound_bind.
    + apply sound_env_define; [now apply notThis_ne|now apply nth_arg_ok].
    + intros _ _. now apply IH.
Qed.

Lemma okFun_parts fn :
  okFun fn = true ->
  forallb notThis (fn_params (fun_declaration fn)) = true
  /\ forallb okStmt (fn_body (fun_declaration fn)) = true.
Proof.
  unfold okFun. destruct (fun_declaration fn) as [name params body]. simpl.
  intros [[_ H1]%andb_true_iff H2]%andb_true_iff. auto.
Qed.

Section Recursion.

Variable Number_toString : number -> string.
Variable Date_now : nat -> number.
Variable evaluate : Expr -> I Value.
Variable execute : Stmt -> I unit.
Variable executeBlock : list Stmt -> nat -> I unit.

Hypothesis evaluate_sound :
  forall e, okExpr e = true -> sound okValue (evaluate e).
Hypothesis execute_sound :
  forall s, okStmt s = true -> sound anything (execute s).
Hypothesis executeBlock_sound :
  forall ss env, forallb okStmt ss = true -> sound anything (executeBlock ss env).

Lemma sound_LoxFunction_call fn args :
  okFun fn = true -> forallb okValue args = true ->
  sound okValue (LoxFunction_call executeBlock fn args).
Proof.
  intros Hfn Hargs. destruct (okFun_parts fn Hfn) as [Hp Hb].
  unfold LoxFunction_call. cbv zeta.
  eapply sound_bind; [apply sound_newEnvironment|]. intros env _.
  eapply sound_bind; [now apply sound_defineParams|]. intros _ _.
  eapply (sound_bind okOpt).
  - apply sound_try_catch.
    + eapply sound_bind; [now apply executeBlock_sound|].
      intros _ _. now apply sound_ret.
    + intros e He. destruct e; try now apply sound_throw.
      destruct (fun_isInitializer fn).
      * eapply sound_bind; [apply sound_env_getAt|].
        intros v Hv. now apply sound_ret.
      * now apply sound_ret.
  - intros [v|] Hr; [now apply sound_ret|].
    destruct (fun_isInitializer fn); [apply sound_env_getAt|now apply sound_ret].
Qed.

Lemma sound_LoxClass_call c args :
  okClass c = true -> forallb okValue args = true ->
  sound okValue (LoxClass_call executeBlock c args).
Proof.
  intros Hc Hargs. unfold LoxClass_call.
  eapply sound_bind; [now apply sound_newLoxInstance|]. intros instance _.
  destruct (findMethod c "init") as [m|] eqn:Em; [|now apply sound_ret].
  eapply sound_bind; [apply sound_bind_; auto; eapply findMethod_ok; eauto|].
  intros f Hf.
  eapply sound_bind; [now apply sound_LoxFunction_call|].
  intros _ _. now apply sound_ret.
Qed.

Lemma sound_call callee args :
  okValue callee = true -> forallb okValue args = true ->
  sound okValue (call Date_now executeBlock callee args).
Proof.
  intros Hc Hargs. destruct callee; simpl; try now apply sound_throw.
  - apply sound_state_only. intros i. simpl. auto.
  - now apply sound_LoxFunction_call.
  - now apply sound_LoxClass_call.
Qed.

Lemma sound_lookUpVariable name id : sound okValue (lookUpVariable name id).
Proof.
  unfold lookUpVariable. apply sound_with_state. intros j _.
  destruct (locals j !! id); [apply sound_env_getAt|apply sound_env_get].
Qed.

Lemma sound_evaluateWith e :
  okExpr e = true ->
  sound okValue (evaluateWith Date_now evaluate executeBlock e).
Proof.
  destruct e; simpl; intros He.
  - (* assignment *)
    apply andb_true_iff in He as [Hn Hv]. unfold evaluateAssignment.
    eapply sound_bind; [now apply evaluate_sound|]. intros v Hv'.
    apply sound_with_state. intros j _.
    eapply (sound_bind anything); [|intros _ _; now apply sound_ret].
    destruct (locals j !! id).
    + apply sound_env_assignAt; auto using notThis_ne.
    + apply sound_env_assign; auto using notThis_ne.
  - (* binary *)
    apply andb_true_iff in He as [H1 H2]. unfold evaluateBinary.
    eapply sound_bind; [now apply evaluate_sound|]. intros l _.
    eapply sound_bind; [now apply evaluate_sound|]. intros r _.
    destruct (type operator); try (now apply sound_ret);
      destruct l; try (now apply sound_throw);
      destruct r; try (now apply sound_throw); now apply sound_ret.
  - (* call *)
    apply andb_true_iff in He as [H1 H2]. unfold evaluateCall.
    eapply sound_bind; [now apply evaluate_sound|]. intros c Hc.
    eapply sound_bind.
    { apply sound_mapM. intros x Hx. apply evaluate_sound.
      rewrite forallb_forall in H2. auto. }
    intros args Hargs.
    destruct (negb (isCallable c)); [now apply sound_throw|].
    destruct (negb _); [now apply sound_throw|].
    now apply sound_call.
  - (* get *)
    unfold evaluateGet.
    eapply sound_bind; [now apply evaluate_sound|]. intros o _.
    destruct o; try now apply sound_throw. apply sound_LoxInstance_get.
  - (* grouping *)
    now apply evaluate_sound.
  - (* literal *)
    unfold evaluateLiteral. apply sound_ret. now destruct value.
  - (* logical *)
    apply andb_true_iff in He as [H1 H2]. unfold evaluateLogical.
    eapply sound_bind; [now apply evaluate_sound|]. intros l Hl.
    destruct (tt_eqb _ _).
    + destruct (isTruthy l); [now apply sound_ret|now apply evaluate_sound].
    + destruct (negb _); [now apply sound_ret|now apply evaluate_sound].
  - (* set *)
    apply andb_true_iff in He as [H1 H2]. unfold evaluateSet.
    eapply sound_bind; [now apply evaluate_sound|]. intros o _.
    destruct o; try now apply sound_throw.
    eapply sound_bind; [now apply evaluate_sound|]. intros v Hv.
    eapply sound_bind; [now apply sound_LoxInstance_set|].
    intros _ _. now apply sound_ret.
  - (* super *)
    unfold evaluateSuper. apply sound_with_state. intros j _. cbv zeta.
    eapply sound_bind; [apply sound_env_getAt|]. intros sc Hsc.
    eapply sound_bind; [apply sound_env_getAt|]. intros inst Hinst.
    destruct sc; try now apply sound_throw.
    destruct (findMethod c (lexeme method)) as [m|] eqn:Em;
      [|now apply sound_throw].
    eapply sound_bind; [apply sound_bind_; auto; eapply findMethod_ok; eauto|].
    intros f Hf. now apply sound_ret.
  - (* this *)
    apply sound_lookUpVariable.
  - (* unary *)
    unfold evaluateUnary.
    eapply sound_bind; [now apply evaluate_sound|]. intros r _.
    destruct (type operator); try (now apply sound_ret).
    destruct r; try (now apply sound_throw); now apply sound_ret.
  - (* variable *)
    apply sound_lookUpVariable.
Qed.

Lemma sound_set_environment e : sound anything (modify (set_environment e)).
Proof.
  apply sound_modify. intros i Hi. split; [exact Hi|].
  now apply thisStable_same_envs.
Qed.

Lemma sound_executeClass name superclassExpr methodDecls :
  notThis name = true -> forallb okFn methodDecls = true ->
  sound anything (executeClass evaluate name superclassExpr methodDecls).
Proof.
  intros Hn Hm. unfold executeClass.
  eapply (sound_bind
            (fun sc : option LoxClass =>
               match sc with Some c => okClass c | None => true end)).
  { destruct superclassExpr as [v|]; [|now apply sound_ret].
    eapply sound_bind; [now apply evaluate_sound|]. intros s Hs.
    destruct s; try now apply sound_throw. now apply sound_ret. }
  intros superclass Hsup.
  apply sound_with_state. intros j _.
  eapply sound_bind; [apply sound_env_define; auto using notThis_ne|].
  intros _ _.
  eapply (sound_bind anything).
  { destruct superclassExpr as [v|]; [|now apply sound_ret].
    apply sound_with_state. intros j1 _.
    eapply sound_bind; [apply sound_newEnvironment|]. intros env _.
    eapply sound_bind; [apply sound_set_environment|]. intros _ _.
    apply sound_env_define; [discriminate|]. now destruct superclass. }
  intros _ _.
  eapply (sound_bind (okAll okFun)).
  { assert (H0 : okAll okFun (∅ : gmap string LoxFunction) = true)
      by apply okAll_empty.
    revert H0. generalize (∅ : gmap string LoxFunction).
    induction methodDecls as [|m l IH]; intros acc Hacc.
    - now apply sound_ret.
    - simpl in Hm. apply andb_true_iff in Hm as [Hm1 Hm2].
      apply sound_with_state. intros j2 _.
      eapply sound_bind; [now apply sound_newLoxFunction|]. intros fn Hfn.
      apply IH; auto. now apply okAll_insert. }
  intros methods Hmethods.
  eapply sound_bind; [now apply sound_newLoxClass|]. intros k Hk.
  eapply (sound_bind anything).
  { destruct superclass; [|now apply sound_ret].
    apply sound_with_state. intros j3 _.
    destruct (envs j3 !! environment j3) as [f|]; [|now apply sound_throw].
    destruct (Environment.enclosing f);
      [apply sound_set_environment|now apply sound_throw]. }
  intros _ _. apply sound_with_state. intros j4 _.
  apply sound_env_assign; auto using notThis_ne.
Qed.

Lemma sound_stringify v : sound anything (stringify Number_toString v).
Proof.
  destruct v; simpl; try (now apply sound_ret); try (now apply sound_throw).
  - destruct (Num.isNegZero n); now apply sound_ret.
  - apply sound_with_state. intros j _.
    destruct (instances j !! ref); [now apply sound_ret|now apply sound_throw].
Qed.

Lemma sound_executeWith fuel s :
  okStmt s = true ->
  sound anything
    (executeWith Number_toString evaluate execute executeBlock fuel s).
Proof.
  destruct s; simpl; intros Hs.
  - (* block *)
    apply sound_with_state. intros j _.
    eapply sound_bind; [apply sound_newEnvironment|]. intros env _.
    now apply executeBlock_sound.
  - (* class *)
    apply andb_true_iff in Hs as [H1 H2]. now apply sound_executeClass.
  - (* expression *)
    eapply sound_bind; [now apply evaluate_sound|].
    intros _ _. now apply sound_ret.
  - (* function *)
    apply sound_with_state. intros j _.
    eapply sound_bind; [now apply sound_newLoxFunction|]. intros f Hf.
    apply sound_env_define; auto.
    destruct fn as [name params body]. simpl in *.
    apply andb_true_iff in Hs as [[Hn _]%andb_true_iff _].
    now apply notThis_ne.
  - (* if *)
    apply andb_true_iff in Hs as [[H1 H2]%andb_true_iff H3].
    eapply sound_bind; [now apply evaluate_sound|]. intros c _.
    destruct (isTruthy c); [now apply execute_sound|].
    destruct elseBranch; [now apply execute_sound|now apply sound_ret].
  - (* print *)
    eapply sound_bind; [now apply evaluate_sound|]. intros v _.
    eapply sound_bind; [apply sound_stringify|]. intros text _.
    apply sound_modify. intros i Hi. split; [exact Hi|].
    now apply thisStable_same_envs.
  - (* return *)
    eapply (sound_bind okValue).
    + destruct value as [e|]; [now apply evaluate_sound|now apply sound_ret].
    + intros v Hv. now apply sound_throw.
  - (* var *)
    apply andb_true_iff in Hs as [H1 H2].
    eapply (sound_bind okValue).
    + destruct initializer as [e|];
        [now apply evaluate_sound|now apply sound_ret].
    + intros v Hv. apply sound_with_state. intros j _.
      apply sound_env_define; auto using notThis_ne.
  - (* while *)
    apply andb_true_iff in Hs as [H1 H2].
    apply (sound_loop anything); auto.
    intros [] _.
    eapply sound_bind; [now apply evaluate_sound|]. intros c _.
    destruct (isTruthy c); [|now apply sound_ret].
    eapply sound_bind; [now apply execute_sound|].
    intros _ _. now apply sound_ret.
Qed.

Lemma sound_executeBlockWith statements env :
  forallb okStmt statements = true ->
  sound anything (executeBlockWith execute statements env).
Proof.
  intros Hs. unfold executeBlockWith.
  eapply (sound_bind anything).
  { apply sound_state_only. intros i. auto. }
  intros previous _. apply sound_try_finally.
  - eapply sound_bind; [apply sound_set_environment|]. intros _ _.
    apply sound_forEach. intros s Hin. apply execute_sound.
    rewrite forallb_forall in Hs. auto.
  - intros i Hi. split; [exact Hi|]. now apply thisStable_same_envs.
Qed.

End Recursion.

(** Running code that never names [this] keeps the stores free of such code
    and keeps every binding of [this]. *)
Lemma evaluator_sound Number_toString Date_now fuel :
  (forall e, okExpr e = true ->
             sound okValue (evaluate Number_toString Date_now fuel e))
  /\ (forall s, okStmt s = true ->
                sound anything (execute Number_toString Date_now fuel s))
  /\ (forall ss env, forallb okStmt ss = true ->
                     sound anything
                       (executeBlock Number_toString Date_now fuel ss env)).
Proof.
  induction fuel as [|n (IHe & IHs & IHb)].
  - split; [|split]; intros; simpl; now apply sound_throw.
  - split; [|split]; intros; cbn [evaluate execute executeBlock].
    + now apply sound_evaluateWith.
    + now apply sound_executeWith.
    + now apply sound_executeBlockWith.
Qed.

End Soundness.


(** ** Initializers return [this] *)

Section Initializer.
Import Interpreter.

Lemma defineParams_Normal env params args k i :
  exists i', defineParams env params args k i = (Normal tt, i').
Proof.
  revert k i; induction params as [|p params IH]; intros k i; simpl.
  - eexists; reflexivity.
  - unfold bind at 1. unfold env_define at 1, modify. apply IH.
Qed.

Lemma enterCall_Normal fn args i :
  exists i', enterCall fn args i = (Normal (length (envs i)), i').
Proof.
  unfold enterCall, bind at 1, newEnvironment. simpl.
  destruct (defineParams_Normal (length (envs i))
              (fn_params (fun_declaration fn)) args 0
              (set_envs (envs i ++ [Environment.mk (Some (fun_closure fn)) ∅])%list i))
    as [i' Hi'].
  exists i'. unfold bind. now rewrite Hi'.
Qed.

(** [LoxFunction.call] after the frame of the call is set up. *)
Lemma LoxFunction_call_enter executeBlock fn args i env i2 :
  enterCall fn args i = (Normal env, i2) ->
  LoxFunction_call executeBlock fn args i
  = match executeBlock (fn_body (fun_declaration fn)) env i2 with
    | (Normal _, i3) | (Throw (Return _), i3) =>
        if fun_isInitializer fn
        then (Environment.getAt (envs i3) (fun_closure fn) 0 "this", i3)
        else
          match executeBlock (fn_body (fun_declaration fn)) env i2 with
          | (Throw (Return value), _) => (Normal value, i3)
          | _ => (Normal VNull, i3)
          end
    | (Throw e, i3) => (Throw e, i3)
    end.
Proof.
  intros Henter. unfold enterCall in Henter.
  bind_inv Henter. bind_inv Henter. ret_inv Henter.
  unfold LoxFunction_call. cbv zeta.
  rewrite (bind_eq_Normal _ _ _ _ _ Hm), (bind_eq_Normal _ _ _ _ _ Hm0).
  unfold bind, try_catch, ret, throw, env_getAt.
  destruct (executeBlock (fn_body (fun_declaration fn)) env i2)
    as [[[]|ex] i3].
  - destruct (fun_isInitializer fn); reflexivity.
  - destruct ex; try reflexivity.
    destruct (fun_isInitializer fn); [|reflexivity].
    now destruct (Environment.getAt (envs i3) (fun_closure fn) 0 "this").
Qed.

(** Every frame that binds [this] to [v] still does after a stable run. *)
Lemma thisStable_getAt i i' b f v :
  thisStable i i' ->
  envs i !! b = Some f ->
  Environment.values f !! "this" = Some v ->
  Environment.getAt (envs i') b 0 "this" = Normal v.
Proof.
  intros Hst Hb Hv. destruct (Hst b f Hb) as (f' & Hb' & E).
  unfold Environment.getAt. simpl. rewrite Hb'. unfold map_get.
  now rewrite E, Hv.
Qed.

(** C1: a call of an initializer yields the [this] its closure binds,
    whatever [return] the body executes: when the body completes or leaves
    through the [Return] signal, the result of the call is what
    [closure.getAt(0, "this")] gives, not the signal's value and not nil,
    so every value the call returns is the bound [this]. Construction
    [ClassName(args)] returns the instance it has just created, with or
    without an [init] method and whatever [init] returns. For an
    initializer bound to an instance, in a program none of whose
    identifiers is spelled [this], the value returned is that very
    instance. *)
Theorem initializer_returns_this :
  (forall executeBlock fn args i env i2 x i3,
      fun_isInitializer fn = true ->
      enterCall fn args i = (Normal env, i2) ->
      executeBlock (fn_body (fun_declaration fn)) env i2
      = (Throw (Return x), i3) ->
      LoxFunction_call executeBlock fn args i
      = (Environment.getAt (envs i3) (fun_closure fn) 0 "this", i3))
  /\ (forall executeBlock fn args i env i2 i3,
         fun_isInitializer fn = true ->
         enterCall fn args i = (Normal env, i2) ->
         executeBlock (fn_body (fun_declaration fn)) env i2
         = (Normal tt, i3) ->
         LoxFunction_call executeBlock fn args i
         = (Environment.getAt (envs i3) (fun_closure fn) 0 "this", i3))
  /\ (forall Number_toString Date_now fuel fn args i v i',
         fun_isInitializer fn = true ->
         LoxFunction_call (executeBlock Number_toString Date_now fuel)
           fn args i = (Normal v, i') ->
         Environment.getAt (envs i') (fun_closure fn) 0 "this" = Normal v)
  /\ (forall Number_toString Date_now fuel c args i v i',
         LoxClass_call (executeBlock Number_toString Date_now fuel)
           c args i = (Normal v, i') ->
         v = VInstance (length (instances i))
         /\ fst (newLoxInstance c i) = Normal (length (instances i)))
  /\ (forall Number_toString Date_now fuel init ref args i f i1 v i',
         okState i = true ->
         okFun init = true ->
         forallb okValue args = true ->
         fun_isInitializer init = true ->
         bind_ init (VInstance ref) i = (Normal f, i1) ->
         LoxFunction_call (executeBlock Number_toString Date_now fuel)
           f args i1 = (Normal v, i') ->
         v = VInstance ref).
Proof.
  assert (H3 : forall Number_toString Date_now fuel fn args i v i',
             fun_isInitializer fn = true ->
             LoxFunction_call (executeBlock Number_toString Date_now fuel)
               fn args i = (Normal v, i') ->
             Environment.getAt (envs i') (fun_closure fn) 0 "this" = Normal v).
  { intros nts dn fuel fn args i v i' Hinit Hcall.
    destruct (enterCall_Normal fn args i) as [i2 Henter].
    rewrite (LoxFunction_call_enter _ _ _ _ _ _ Henter), Hinit in Hcall.
    destruct (executeBlock nts dn fuel (fn_body (fun_declaration fn))
                (length (envs i)) i2) as [[[]|ex] i3].
    + injection Hcall as H1 H2. now subst i3.
    + destruct ex; try discriminate.
      injection Hcall as H1 H2. now subst i3. }
  split; [|split; [|split; [exact H3|split]]].
  - intros eb fn args i env i2 x i3 Hinit Henter Hbody.
    rewrite (LoxFunction_call_enter _ _ _ _ _ _ Henter), Hbody, Hinit.
    reflexivity.
  - intros eb fn args i env i2 i3 Hinit Henter Hbody.
    rewrite (LoxFunction_call_enter _ _ _ _ _ _ Henter), Hbody, Hinit.
    reflexivity.
  - intros nts dn fuel c args i v i' Hcall.
    split; [|reflexivity].
    unfold LoxClass_call, bind at 1, newLoxInstance in Hcall.
    destruct (findMethod c "init") as [initializer|].
    + bind_inv Hcall. bind_inv Hcall. now ret_inv Hcall.
    + now ret_inv Hcall.
  - intros nts dn fuel init ref args i f i1 v i' Hi Hinit Hargs Hflag
      Hbind Hcall.
    destruct (sound_bind_ init (VInstance ref) Hinit eq_refl i _ _ Hi Hbind)
      as (Hi1 & _ & Hf). simpl in Hf.
    rewrite bind_fresh in Hbind. injection Hbind as <- <-.
    destruct (evaluator_sound nts dn fuel) as (_ & _ & Hblock).
    destruct (sound_LoxFunction_call _ Hblock _ args Hf Hargs _ _ _ Hi1 Hcall)
      as (_ & Hstable & _).
    apply H3 in Hcall; [|exact Hflag]. simpl in Hcall.
    rewrite (thisStable_getAt _ _ (length (envs i))
               (Environment.mk (Some (fun_closure init))
                  {[ "this" := VInstance ref ]}) (VInstance ref) Hstable)
      in Hcall.
    + now injection Hcall as <-.
    + simpl. rewrite lookup_app_r by lia. now rewrite Nat.sub_diag.
    + simpl. apply lookup_singleton_eq.
Qed.

(** The initializer of [program_init], bound to the instance [a] and
    called with 7, leaves through its bare [return] and yields [a]; the
    program prints that [a.init(7) == a]. *)
Lemma initializer_returns_this_witness :
  okState after_init = true
  /\ okFun class_init = true
  /\ fun_isInitializer class_init = true
  /\ bind_ class_init (VInstance 0) after_init = (Normal bound_init, after_bind)
  /\ LoxFunction_call
       (executeBlock ExampleHost.Number_toString ExampleHost.Date_now 50)
       bound_init [VNumber seven] after_bind
     = (Normal (VInstance 0), after_call)
  /\ VInstance 0 = VInstance 0
  /\ stdout after_init = ["5"; "true"; "7"].
Proof.
  assert (Hok : okState after_init = true) by (vm_compute; reflexivity).
  assert (Hinit : okFun class_init = true) by (vm_compute; reflexivity).
  assert (Hflag : fun_isInitializer class_init = true)
    by (vm_compute; reflexivity).
  assert (Hbind : bind_ class_init (VInstance 0) after_init
                  = (Normal bound_init, after_bind))
    by (vm_compute; reflexivity).
  assert (Hcall : LoxFunction_call
            (executeBlock ExampleHost.Number_toString ExampleHost.Date_now 50)
            bound_init [VNumber seven] after_bind
          = (Normal (VInstance 0), after_call))
    by (vm_compute; reflexivity).
  split; [exact Hok|]. split; [exact Hinit|]. split; [exact Hflag|].
  split; [exact Hbind|]. split; [exact Hcall|].
  split; [|vm_compute; reflexivity].
  exact (proj2 (proj2 (proj2 (proj2 initializer_returns_this)))
           ExampleHost.Number_toString ExampleHost.Date_now 50
           class_init 0 [VNumber seven] after_init bound_init after_bind
           (VInstance 0) after_call Hok Hinit eq_refl Hflag Hbind Hcall).
Defined.

End Initializer.

(** The three ways out of a block, run in the child frame (index 1) from the
    global environment (index 0): the variable lands in the child frame and
    the environment is the global one again. *)
Example executeBlock_exit_paths :
  Interpreter.environment with_child_frame = 0
  /\ fst (runBlock block_completes) = Normal tt
  /\ fst (runBlock block_returns) = Throw (Return VNull)
  /\ fst (runBlock block_raises)
     = Throw (RuntimeError (mkToken T_minus "-" TLundefined 1)
                "Operand must be a number.")
  /\ Forall
       (fun b =>
          Interpreter.environment (snd (runBlock b)) = 0
          /\ Environment.getAt (Interpreter.envs (snd (runBlock b))) 1 0 "x"
             = Normal (VNumber one))
       [block_completes; block_returns; block_raises].
Proof.
  split; [vm_compute; reflexivity|].
  split; [vm_compute; reflexivity|].
  split; [vm_compute; reflexivity|].
  split; [vm_compute; reflexivity|].
  constructor; [split; vm_compute; reflexivity|].
  constructor; [split; vm_compute; reflexivity|].
  constructor; [split; vm_compute; reflexivity|].
  constructor.
Qed.

(** * Further properties *)

(** ** Environments: definition, lookup and assignment *)

Section EnvironmentFacts.
Import Environment.

Lemma define_lookup env name v h f :
  h !! env = Some f ->
  define env name v h !! env
  = Some (mk (enclosing f) (<[name := v]> (values f))).
Proof.
  intros Hf. unfold define. rewrite Hf.
  apply list_lookup_insert_eq. eapply lookup_lt_Some; eauto.
Qed.

Lemma define_lookup_ne env name v h b :
  b <> env -> define env name v h !! b = h !! b.
Proof.
  intros Hne. unfold define. destruct (h !! env); [|reflexivity].
  now apply list_lookup_insert_ne.
Qed.

Lemma define_length env name v h : length (define env name v h) = length h.
Proof.
  unfold define. destruct (h !! env); [|reflexivity]. apply length_insert.
Qed.

Lemma define_enclosing env name v h b f :
  h !! b = Some f ->
  exists f', define env name v h !! b = Some f' /\ enclosing f' = enclosing f.
Proof.
  intros Hb. destruct (decide (b = env)) as [->|Hne].
  - rewrite (define_lookup _ _ _ _ _ Hb). eexists. split; reflexivity.
  - rewrite define_lookup_ne by exact Hne. eauto.
Qed.

Lemma map_get_insert (m : gmap string Value) name v :
  map_get (<[name := v]> m) name = v.
Proof. unfold map_get. now rewrite lookup_insert_eq. Qed.

Lemma map_get_insert_ne (m : gmap string Value) name name' v :
  name <> name' -> map_get (<[name := v]> m) name' = map_get m name'.
Proof. intros H. unfold map_get. now rewrite lookup_insert_ne. Qed.

Lemma map_has_false_get (m : gmap string Value) name :
  map_has m name = false -> map_get m name = VUndefined.
Proof. unfold map_has, map_get. now destruct (m !! name). Qed.

Lemma is_undefined_false v : v <> VUndefined -> is_undefined v = false.
Proof. now destruct v. Qed.

Lemma ancestorAt_older h env d a :
  wfStore h -> ancestorAt h env d a -> a + d <= env.
Proof.
  intros Hwf. induction 1 as [env|env d f e a Hf He _ IH]; [lia|].
  specialize (Hwf _ _ _ Hf He). lia.
Qed.

Lemma get_from_hit h name v :
  v <> VUndefined ->
  forall env d a, ancestorAt h env d a ->
  forall f fuel,
    d < fuel ->
    h !! a = Some f ->
    map_get (values f) (lexeme name) = v ->
    (forall d' a' f', d' < d -> ancestorAt h env d' a' -> h !! a' = Some f' ->
                      map_get (values f') (lexeme name) = VUndefined) ->
    get_from fuel h env name = Normal v.
Proof.
  intros Hv env d a Hanc.
  induction Hanc as [env|env d f0 e a Hf0 He Hanc IH];
    intros f fuel Hfuel Hf Hget Hnear.
  - destruct fuel as [|fuel]; [lia|]. simpl. rewrite Hf, Hget.
    now rewrite (is_undefined_false _ Hv).
  - destruct fuel as [|fuel]; [lia|]. simpl. rewrite Hf0.
    rewrite (Hnear 0 env f0) by (first [lia|assumption|constructor]). simpl.
    rewrite He. apply (IH f); [lia|assumption|assumption|].
    intros d' a' f' Hd' Ha' Hf'. apply (Hnear (S d') a' f'); [lia| |assumption].
    econstructor; eauto.
Qed.

Lemma get_from_miss h name :
  wfStore h ->
  forall env fuel f,
    env < fuel ->
    h !! env = Some f ->
    (forall d a f', ancestorAt h env d a -> h !! a = Some f' ->
                    map_get (values f') (lexeme name) = VUndefined) ->
    get_from fuel h env name = Throw (undefinedVariable name).
Proof.
  intros Hwf env. induction env as [env IH] using lt_wf_ind.
  intros fuel f Hfuel Hf Hnone.
  destruct fuel as [|fuel]; [lia|]. simpl. rewrite Hf.
  rewrite (Hnone 0 env f) by (first [assumption|constructor]). simpl.
  destruct (enclosing f) as [e|] eqn:He; [|reflexivity].
  pose proof (Hwf _ _ _ Hf He) as Hlt.
  destruct (h !! e) as [fe|] eqn:Hfe.
  - apply (IH e Hlt fuel fe); [lia|assumption|].
    intros d a f' Ha Hf'. apply (Hnone (S d) a f'); [|assumption].
    econstructor; eauto.
  - apply lookup_ge_None in Hfe. apply lookup_lt_Some in Hf. lia.
Qed.

Lemma assign_from_target fuel h env name v h' :
  assign_from fuel h env name v = (Normal tt, h') ->
  exists a f,
    h !! a = Some f
    /\ map_has (values f) (lexeme name) = true
    /\ h' = define a (lexeme name) v h.
Proof.
  revert env. induction fuel as [|fuel IH]; intros env; simpl;
    [discriminate|].
  destruct (h !! env) as [f|] eqn:Hf; [|discriminate].
  destruct (map_has (values f) (lexeme name)) eqn:Hhas.
  - intros [= <-]. eauto.
  - destruct (enclosing f) as [e|]; [apply IH|discriminate].
Qed.

Lemma assign_from_failure fuel h env name v o h' :
  assign_from fuel h env name v = (o, h') -> o <> Normal tt -> h' = h.
Proof.
  revert env. induction fuel as [|fuel IH]; intros env; simpl.
  - now intros [= <- <-].
  - destruct (h !! env) as [f|]; [|now intros [= <- <-]].
    destruct (map_has (values f) (lexeme name)).
    + intros [= <- <-] H. now contradict H.
    + destruct (enclosing f) as [e|]; [apply IH|now intros [= <- <-]].
Qed.

Lemma assign_from_get_from fuel h env name v h' :
  v <> VUndefined ->
  assign_from fuel h env name v = (Normal tt, h') ->
  get_from fuel h' env name = Normal v.
Proof.
  intros Hv. revert env. induction fuel as [|fuel IH]; intros env; simpl;
    [discriminate|].
  destruct (h !! env) as [f|] eqn:Hf; [|discriminate].
  destruct (map_has (values f) (lexeme name)) eqn:Hhas.
  - intros [= <-]. rewrite (define_lookup _ _ _ _ _ Hf). simpl.
    rewrite map_get_insert. now rewrite (is_undefined_false _ Hv).
  - destruct (enclosing f) as [e|] eqn:He; [|discriminate].
    intros Hassign.
    destruct (assign_from_target _ _ _ _ _ _ Hassign)
      as (a & fa & Hfa & Hhasa & ->).
    assert (Hne : env <> a) by (intros ->; congruence).
    rewrite define_lookup_ne by exact Hne. rewrite Hf.
    rewrite (map_has_false_get _ _ Hhas). simpl. rewrite He.
    now apply IH.
Qed.

Lemma assign_from_miss h name v :
  wfStore h ->
  forall env fuel f,
    env < fuel ->
    h !! env = Some f ->
    (forall d a f', ancestorAt h env d a -> h !! a = Some f' ->
                    map_has (values f') (lexeme name) = false) ->
    assign_from fuel h env name v = (Throw (undefinedVariable name), h).
Proof.
  intros Hwf env. induction env as [env IH] using lt_wf_ind.
  intros fuel f Hfuel Hf Hnone.
  destruct fuel as [|fuel]; [lia|]. simpl. rewrite Hf.
  rewrite (Hnone 0 env f) by (first [assumption|constructor]).
  destruct (enclosing f) as [e|] eqn:He; [|reflexivity].
  pose proof (Hwf _ _ _ Hf He) as Hlt.
  destruct (h !! e) as [fe|] eqn:Hfe.
  - apply (IH e Hlt fuel fe); [lia|assumption|].
    intros d a f' Ha Hf'. apply (Hnone (S d) a f'); [|assumption].
    econstructor; eauto.
  - apply lookup_ge_None in Hfe. apply lookup_lt_Some in Hf. lia.
Qed.

Lemma ancestor_define env name v h e d :
  ancestor (define env name v h) e d = ancestor h e d.
Proof.
  revert e. induction d as [|d IH]; intros e; simpl; [reflexivity|].
  destruct e as [x|]; [|reflexivity].
  destruct (h !! x) as [f|] eqn:Hx.
  - destruct (define_enclosing env name v h x f Hx) as (f' & -> & ->).
    apply IH.
  - assert (Hn : define env name v h !! x = None).
    { apply lookup_ge_None. rewrite define_length.
      now apply lookup_ge_None. }
    now rewrite Hn.
Qed.

(** X1: A value just defined in a frame is what [get] finds from that frame,
    whatever the name was bound to before (a second [define] replaces the
    first); no other frame and no other name of the frame changes. *)
Theorem define_then_get h env f name tok v :
  h !! env = Some f ->
  v <> VUndefined ->
  lexeme tok = name ->
  get (define env name v h) env tok = Normal v
  /\ (forall b, b <> env -> define env name v h !! b = h !! b)
  /\ exists f',
       define env name v h !! env = Some f'
       /\ enclosing f' = enclosing f
       /\ forall n, n <> name -> values f' !! n = values f !! n.
Proof.
  intros Hf Hv <-. split; [|split].
  - unfold get. simpl. rewrite (define_lookup _ _ _ _ _ Hf). simpl.
    rewrite map_get_insert. now rewrite (is_undefined_false _ Hv).
  - intros b Hb. now apply define_lookup_ne.
  - eexists. split; [exact (define_lookup _ _ _ _ _ Hf)|]. split; [reflexivity|].
    intros n Hn. simpl. now apply lookup_insert_ne.
Qed.

(** X2: [get] returns the binding of the innermost frame of the chain that
    binds the name to something: the frames nearer than it shadow nothing,
    the frames farther than it are shadowed. *)
Theorem get_innermost_binding h env d a f name v :
  wfStore h ->
  ancestorAt h env d a ->
  h !! a = Some f ->
  map_get (values f) (lexeme name) = v ->
  v <> VUndefined ->
  (forall d' a' f', d' < d -> ancestorAt h env d' a' -> h !! a' = Some f' ->
                    map_get (values f') (lexeme name) = VUndefined) ->
  get h env name = Normal v.
Proof.
  intros Hwf Hanc Hf Hget Hv Hnear. unfold get.
  apply (get_from_hit h name v Hv env d a Hanc f); auto.
  pose proof (ancestorAt_older _ _ _ _ Hwf Hanc) as Hle.
  assert (env < length h); [|lia].
  inversion Hanc; subst; eapply lookup_lt_Some; eauto.
Qed.

Lemma get_unbound h env f name :
  wfStore h ->
  h !! env = Some f ->
  (forall d a f', ancestorAt h env d a -> h !! a = Some f' ->
                  map_get (values f') (lexeme name) = VUndefined) ->
  get h env name = Throw (undefinedVariable name).
Proof.
  intros Hwf Hf Hnone. unfold get.
  apply (get_from_miss h name Hwf env _ f); auto.
  apply lookup_lt_Some in Hf. lia.
Qed.

(** X3: After a successful [assign], [get] from the same frame finds the
    assigned value; the store has the frames it had. *)
Theorem assign_then_get h env name v h' :
  v <> VUndefined ->
  assign h env name v = (Normal tt, h') ->
  get h' env name = Normal v /\ length h' = length h.
Proof.
  intros Hv Hassign. unfold assign in Hassign.
  destruct (assign_from_target _ _ _ _ _ _ Hassign)
    as (a & fa & _ & _ & Hh').
  assert (Hlen : length h' = length h) by (subst h'; apply define_length).
  split; [|exact Hlen].
  unfold get. rewrite Hlen. eapply assign_from_get_from; eauto.
Qed.

Lemma assign_unbound h env f name v :
  wfStore h ->
  h !! env = Some f ->
  (forall d a f', ancestorAt h env d a -> h !! a = Some f' ->
                  map_has (values f') (lexeme name) = false) ->
  assign h env name v = (Throw (undefinedVariable name), h).
Proof.
  intros Hwf Hf Hnone. unfold assign.
  apply (assign_from_miss h name v Hwf env _ f); auto.
  apply lookup_lt_Some in Hf. lia.
Qed.

(** X4: A name that no frame of the chain has is unbound: [get] raises
    "Undefined variable" for it after walking the whole chain, and so does
    [assign], which never creates a binding and leaves the store as it
    was. *)
Theorem unbound_name_raises h env f name v :
  wfStore h ->
  h !! env = Some f ->
  (forall d a f', ancestorAt h env d a -> h !! a = Some f' ->
                  map_has (values f') (lexeme name) = false) ->
  get h env name = Throw (undefinedVariable name)
  /\ assign h env name v = (Throw (undefinedVariable name), h).
Proof.
  intros Hwf Hf Hnone. split.
  - apply (get_unbound h env f name Hwf Hf).
    intros d a f' Ha Hf'. apply map_has_false_get. eauto.
  - now apply (assign_unbound h env f).
Qed.

(** X5: What [assignAt] writes at a distance, [getAt] reads back at that
    distance; the chain of frames is the same afterwards. *)
Theorem assignAt_then_getAt h env d name v h' :
  assignAt h env d name v = (Normal tt, h') ->
  getAt h' env d (lexeme name) = Normal v
  /\ forall e k, ancestor h' e k = ancestor h e k.
Proof.
  unfold assignAt, getAt.
  destruct (ancestor h (Some env) d) as [[a|]|] eqn:Ha; try discriminate.
  destruct (h !! a) as [f|] eqn:Hf; [|discriminate].
  intros [= <-]. split; [|intros; apply ancestor_define].
  rewrite ancestor_define, Ha, (define_lookup _ _ _ _ _ Hf). simpl.
  now rewrite map_get_insert.
Qed.

End EnvironmentFacts.

Section EnvironmentWitnesses.
Import Environment.

Lemma define_then_get_witness :
  get (define 1 "x" (VBool false) two_frames) 1 (ident "x")
  = Normal (VBool false).
Proof.
  refine (proj1 (define_then_get two_frames 1 _ "x" (ident "x") (VBool false)
                   eq_refl _ eq_refl)).
  discriminate.
Defined.

Lemma get_innermost_binding_witness :
  get two_frames 1 (ident "x") = Normal (VNumber (Num.ofZ 1)).
Proof.
  assert (Hwf : wfStore two_frames).
  { intros [|[|b]] f e Hf He; simpl in Hf; try discriminate;
      injection Hf as <-; simpl in He; try discriminate.
    injection He as <-. lia. }
  assert (Ha : ancestorAt two_frames 1 1 0).
  { eapply ancestorAt_up; [reflexivity|reflexivity|constructor]. }
  refine (get_innermost_binding two_frames 1 1 0 _ (ident "x") _
            Hwf Ha eq_refl eq_refl _ _).
  - discriminate.
  - intros d' a' f' Hd Hanc Hf.
    destruct d' as [|d']; [|lia].
    inversion Hanc; subst. simpl in Hf. injection Hf as <-. reflexivity.
Defined.

Lemma assign_then_get_witness :
  get (define 0 "x" (VBool false) two_frames) 1 (ident "x")
  = Normal (VBool false)
  /\ length (define 0 "x" (VBool false) two_frames) = length two_frames.
Proof.
  refine (assign_then_get two_frames 1 (ident "x") (VBool false) _ _ eq_refl).
  discriminate.
Defined.

Lemma unbound_name_raises_witness :
  get two_frames 1 (ident "z") = Throw (undefinedVariable (ident "z"))
  /\ assign two_frames 1 (ident "z") VNull
     = (Throw (undefinedVariable (ident "z")), two_frames).
Proof.
  assert (Hwf : wfStore two_frames).
  { intros [|[|b]] f e Hf He; simpl in Hf; try discriminate;
      injection Hf as <-; simpl in He; try discriminate.
    injection He as <-. lia. }
  refine (unbound_name_raises two_frames 1 _ (ident "z") VNull
            Hwf eq_refl _).
  intros d [|[|a]] f' _ Hf; simpl in Hf; try discriminate;
    injection Hf as <-; reflexivity.
Defined.

Lemma assignAt_then_getAt_witness :
  getAt (define 0 "x" (VBool false) two_frames) 1 1 "x"
  = Normal (VBool false).
Proof.
  exact (proj1 (assignAt_then_getAt two_frames 1 1 (ident "x") (VBool false)
                  _ eq_refl)).
Defined.

End EnvironmentWitnesses.

(** ** The evaluator: operators, calls, fields and statements *)

Section Operators.
Import Interpreter.

(** X6: [a or b] and [a and b] yield one of their operands, not a boolean.
    The right operand is evaluated only when the left one does not decide:
    for [or] when it is falsey, for any other operator when it is truthy;
    otherwise the result and the state are those of the left operand. *)
Theorem logical_short_circuit
    Number_toString Date_now fuel l op r i v i1 :
  evaluate Number_toString Date_now fuel l i = (Normal v, i1) ->
  (type op = T_or -> isTruthy v = true ->
   evaluate Number_toString Date_now (S fuel) (ELogical l op r) i
   = (Normal v, i1))
  /\ (type op <> T_or -> isTruthy v = false ->
      evaluate Number_toString Date_now (S fuel) (ELogical l op r) i
      = (Normal v, i1))
  /\ (type op = T_or -> isTruthy v = false ->
      evaluate Number_toString Date_now (S fuel) (ELogical l op r) i
      = evaluate Number_toString Date_now fuel r i1)
  /\ (type op <> T_or -> isTruthy v = true ->
      evaluate Number_toString Date_now (S fuel) (ELogical l op r) i
      = evaluate Number_toString Date_now fuel r i1).
Proof.
  intros Hl. cbn [evaluate evaluateWith]. unfold evaluateLogical.
  rewrite (bind_eq_Normal _ _ _ _ _ Hl).
  repeat split; intros Hop Hv.
  - rewrite Hop, Hv. reflexivity.
  - destruct (type op); try contradiction; simpl; rewrite Hv; reflexivity.
  - rewrite Hop, Hv. reflexivity.
  - destruct (type op); try contradiction; simpl; rewrite Hv; reflexivity.
Qed.

(** X7: The arithmetic and comparison operators evaluate both operands, left
    then right, and then check them: unless both are numbers the runtime
    error "Operands must be numbers." is raised, in the state the operands
    left. On two numbers none of them raises; division has no check of the
    divisor. *)
Theorem binary_numeric_operands
    Number_toString Date_now fuel l op r i vl i1 vr i2 :
  evaluate Number_toString Date_now fuel l i = (Normal vl, i1) ->
  evaluate Number_toString Date_now fuel r i1 = (Normal vr, i2) ->
  In (type op) numericOps ->
  (is_number vl && is_number vr = false ->
   evaluate Number_toString Date_now (S fuel) (EBinary l op r) i
   = (Throw (RuntimeError op "Operands must be numbers."), i2))
  /\ (forall x y,
         vl = VNumber x -> vr = VNumber y ->
         exists v,
           evaluate Number_toString Date_now (S fuel) (EBinary l op r) i
           = (Normal v, i2)
           /\ (is_number v = true \/ exists b, v = VBool b)
           /\ (type op = T_slash -> v = VNumber (Num.div x y))).
Proof.
  intros Hl Hr Hop. cbn [evaluate evaluateWith]. unfold evaluateBinary.
  rewrite (bind_eq_Normal _ _ _ _ _ Hl), (bind_eq_Normal _ _ _ _ _ Hr).
  unfold numericOps in Hop. simpl in Hop.
  split.
  - intros Hnum.
    destruct Hop as [<-|[<-|[<-|[<-|[<-|[<-|[<-|[]]]]]]]];
      destruct vl; try reflexivity; destruct vr; try reflexivity;
      discriminate.
  - intros x y -> ->.
    destruct Hop as [<-|[<-|[<-|[<-|[<-|[<-|[<-|[]]]]]]]];
      eexists; (split; [reflexivity|]); split;
      try (left; reflexivity); try (right; eexists; reflexivity);
      try discriminate; reflexivity.
Qed.

(** X8: [+] adds two numbers and concatenates two strings; for every other
    pair of operands, a string and a number among them, it raises
    "Operands must be two numbers or two strings.": nothing is
    converted. *)
Theorem plus_numbers_or_strings
    Number_toString Date_now fuel l op r i vl i1 vr i2 :
  evaluate Number_toString Date_now fuel l i = (Normal vl, i1) ->
  evaluate Number_toString Date_now fuel r i1 = (Normal vr, i2) ->
  type op = T_plus ->
  (forall x y, vl = VNumber x -> vr = VNumber y ->
     evaluate Number_toString Date_now (S fuel) (EBinary l op r) i
     = (Normal (VNumber (Num.add x y)), i2))
  /\ (forall x y, vl = VString x -> vr = VString y ->
        evaluate Number_toString Date_now (S fuel) (EBinary l op r) i
        = (Normal (VString (x ++ y)), i2))
  /\ ((is_number vl && is_number vr) || (is_string vl && is_string vr)
      = false ->
      evaluate Number_toString Date_now (S fuel) (EBinary l op r) i
      = (Throw (RuntimeError op
                  "Operands must be two numbers or two strings."), i2)).
Proof.
  intros Hl Hr Hop. cbn [evaluate evaluateWith]. unfold evaluateBinary.
  rewrite (bind_eq_Normal _ _ _ _ _ Hl), (bind_eq_Normal _ _ _ _ _ Hr), Hop.
  split; [|split].
  - now intros x y -> ->.
  - now intros x y -> ->.
  - intros Hkind.
    destruct vl; try reflexivity; destruct vr; try reflexivity;
      discriminate.
Qed.

(** X9: [!] never raises and yields the negation of the operand's truthiness,
    so [!!e] is the truthiness itself; [-] negates a number and raises
    "Operand must be a number." for everything else. *)
Theorem unary_operators
    Number_toString Date_now fuel op r i v i1 :
  evaluate Number_toString Date_now fuel r i = (Normal v, i1) ->
  (type op = T_bang ->
   evaluate Number_toString Date_now (S fuel) (EUnary op r) i
   = (Normal (VBool (negb (isTruthy v))), i1)
   /\ evaluate Number_toString Date_now (S (S fuel))
        (EUnary op (EUnary op r)) i
      = (Normal (VBool (isTruthy v)), i1))
  /\ (type op = T_minus ->
      (forall x, v = VNumber x ->
         evaluate Number_toString Date_now (S fuel) (EUnary op r) i
         = (Normal (VNumber (Num.neg x)), i1))
      /\ (is_number v = false ->
          evaluate Number_toString Date_now (S fuel) (EUnary op r) i
          = (Throw (RuntimeError op "Operand must be a number."), i1))).
Proof.
  intros Hr.
  assert (Hbang : type op = T_bang ->
            evaluate Number_toString Date_now (S fuel) (EUnary op r) i
            = (Normal (VBool (negb (isTruthy v))), i1)).
  { intros Hop. cbn [evaluate evaluateWith]. unfold evaluateUnary.
    now rewrite (bind_eq_Normal _ _ _ _ _ Hr), Hop. }
  split.
  - intros Hop. split; [now apply Hbang|].
    change (evaluate Number_toString Date_now (S (S fuel))
              (EUnary op (EUnary op r)))
      with (evaluateUnary (evaluate Number_toString Date_now (S fuel))
              op (EUnary op r)).
    unfold evaluateUnary at 1.
    rewrite (bind_eq_Normal _ _ _ _ _ (Hbang Hop)), Hop. simpl.
    now rewrite negb_involutive.
  - intros Hop. cbn [evaluate evaluateWith]. unfold evaluateUnary.
    rewrite (bind_eq_Normal _ _ _ _ _ Hr), Hop. split.
    + now intros x ->.
    + intros Hn. destruct v; try reflexivity. discriminate.
Qed.

End Operators.

Section Calls.
Import Interpreter.

Lemma mapM_length {A B} (f : A -> I B) (l : list A) i vs i' :
  mapM f l i = (Normal vs, i') -> length vs = length l.
Proof.
  revert i vs. induction l as [|x l IH]; intros i vs H; simpl in H.
  - ret_inv H. reflexivity.
  - bind_inv H. bind_inv H. ret_inv H. simpl. f_equal. eapply IH; eauto.
Qed.

(** X10: A call evaluates the callee and then every argument, left to right,
    before it looks at the callee. A callee that is no function and no
    class raises "Can only call functions and classes."; a callable whose
    arity is not the number of arguments raises "Expected n arguments but
    got m."; in both cases nothing of the callee runs: the state is the one
    the arguments left. *)
Theorem call_checks_callee_then_arity
    Number_toString Date_now fuel callee paren args i c i1 vs i2 :
  evaluate Number_toString Date_now fuel callee i = (Normal c, i1) ->
  mapM (evaluate Number_toString Date_now fuel) args i1 = (Normal vs, i2) ->
  (isCallable c = false ->
   evaluate Number_toString Date_now (S fuel) (ECall callee paren args) i
   = (Throw (RuntimeError paren "Can only call functions and classes."), i2))
  /\ (isCallable c = true ->
      length args <> arity c ->
      evaluate Number_toString Date_now (S fuel) (ECall callee paren args) i
      = (Throw (RuntimeError paren (arityMessage (arity c) (length args))),
         i2)).
Proof.
  intros Hc Hargs. pose proof (mapM_length _ _ _ _ _ Hargs) as Hlen.
  cbn [evaluate evaluateWith]. unfold evaluateCall.
  rewrite (bind_eq_Normal _ _ _ _ _ Hc), (bind_eq_Normal _ _ _ _ _ Hargs).
  split.
  - now intros ->.
  - intros -> Hne. simpl. rewrite Hlen.
    apply Nat.eqb_neq in Hne. rewrite Hne. reflexivity.
Qed.

(** X11: A class with no [init] method, its own or inherited, has arity 0, and
    calling it creates one instance of the class without fields and
    returns it; nothing else changes. *)
Theorem class_without_init
    Number_toString Date_now fuel callee paren i c i1 :
  evaluate Number_toString Date_now fuel callee i = (Normal (VClass c), i1) ->
  findMethod c "init" = None ->
  arity (VClass c) = 0
  /\ evaluate Number_toString Date_now (S fuel) (ECall callee paren []) i
     = (Normal (VInstance (length (instances i1))),
        set_instances (instances i1 ++ [mkLoxInstance c ∅])%list i1).
Proof.
  intros Hc Hinit. split; [simpl; now rewrite Hinit|].
  cbn [evaluate evaluateWith]. unfold evaluateCall.
  rewrite (bind_eq_Normal _ _ _ _ _ Hc).
  cbn [mapM bind ret isCallable negb arity length call]. rewrite Hinit.
  cbn [Nat.eqb negb]. unfold LoxClass_call. rewrite Hinit.
  reflexivity.
Qed.

(** X12: A function that is no initializer returns the value of the [return]
    that leaves its body, and [nil] when the body runs to its end; any
    other exception leaves the call as it is. *)
Theorem function_call_result executeBlock fn args i env i2 :
  fun_isInitializer fn = false ->
  enterCall fn args i = (Normal env, i2) ->
  (forall i3,
      executeBlock (fn_body (fun_declaration fn)) env i2 = (Normal tt, i3) ->
      LoxFunction_call executeBlock fn args i = (Normal VNull, i3))
  /\ (forall v i3,
         executeBlock (fn_body (fun_declaration fn)) env i2
         = (Throw (Return v), i3) ->
         LoxFunction_call executeBlock fn args i = (Normal v, i3))
  /\ (forall e i3,
         executeBlock (fn_body (fun_declaration fn)) env i2 = (Throw e, i3) ->
         (forall v, e <> Return v) ->
         LoxFunction_call executeBlock fn args i = (Throw e, i3)).
Proof.
  intros Hinit Henter.
  rewrite (LoxFunction_call_enter _ _ _ _ _ _ Henter), Hinit.
  split; [|split].
  - now intros i3 ->.
  - now intros v i3 ->.
  - intros e i3 -> Hne. destruct e; try reflexivity. now destruct (Hne value).
Qed.

End Calls.

Section Fields.
Import Interpreter.

(** X13: A field that was set is what [get] returns for the name, also when the
    class has a method of that name; the fields of the other instances and
    the environments are untouched. *)
Theorem field_set_then_get ref name name' v i i' :
  LoxInstance_set ref name v i = (Normal tt, i') ->
  v <> VUndefined ->
  lexeme name' = lexeme name ->
  LoxInstance_get ref name' i' = (Normal v, i')
  /\ (forall r, r <> ref -> instances i' !! r = instances i !! r)
  /\ envs i' = envs i.
Proof.
  unfold LoxInstance_set, LoxInstance_get, bind, get_state, modify.
  destruct (instances i !! ref) as [inst|] eqn:Hinst; [|discriminate].
  intros [= <-] Hv Hname. simpl.
  rewrite list_lookup_insert_eq by (eapply lookup_lt_Some; eauto).
  simpl. rewrite Hname. unfold map_get. rewrite lookup_insert_eq.
  split; [|split].
  - destruct v; try reflexivity. now contradict Hv.
  - intros r Hr. now apply list_lookup_insert_ne.
  - reflexivity.
Qed.

End Fields.

(** The loop of the [while] case, for any condition and body. *)

Section WhileLoop.
Import Interpreter.

Variable condition : I Value.
Variable body : I unit.

Local Abbreviation step :=
  (fun _ : unit =>
     c ← condition;
     if isTruthy c then body;; ret (inl tt)
     else ret (inr tt)).

(** One round of the loop. *)
Lemma loop_S m i :
  loop OutOfFuel (S m) step tt i
  = match condition i with
    | (Normal v, i1) =>
        if isTruthy v then
          match body i1 with
          | (Normal _, i2) => loop OutOfFuel m step tt i2
          | (Throw e, i2) => (Throw e, i2)
          end
        else (Normal tt, i1)
    | (Throw e, i1) => (Throw e, i1)
    end.
Proof.
  cbn [loop]. unfold bind, ret.
  destruct (condition i) as [[v|e] i1]; [|reflexivity].
  destruct (isTruthy v); [|reflexivity].
  destruct (body i1) as [[[]|e] i2]; reflexivity.
Qed.

(** After [k] full rounds the loop goes on from the state they left. *)
Lemma loop_after_rounds k :
  forall m i ik,
    whileRounds condition body k i = Some ik ->
    loop OutOfFuel (k + m) step tt i = loop OutOfFuel m step tt ik.
Proof.
  induction k as [|k IH]; intros m i ik H; simpl in H.
  - now inversion H.
  - change (S k + m) with (S (k + m)). rewrite loop_S.
    destruct (condition i) as [[v|e] i1]; [|discriminate].
    destruct (isTruthy v); [|discriminate].
    destruct (body i1) as [[[]|e] i2]; [|discriminate].
    now apply IH.
Qed.

(** However the loop ends, full rounds came first. *)
Lemma loop_rounds_inv m :
  forall i o i',
    loop OutOfFuel m step tt i = (o, i') ->
    exists k ik,
      whileRounds condition body k i = Some ik
      /\ ((k < m /\ o = Normal tt
           /\ exists v, condition ik = (Normal v, i') /\ isTruthy v = false)
          \/ (k < m /\ exists e, o = Throw e /\ condition ik = (Throw e, i'))
          \/ (k < m /\ exists e v i1,
                o = Throw e /\ condition ik = (Normal v, i1)
                /\ isTruthy v = true /\ body i1 = (Throw e, i'))
          \/ (k = m /\ o = Throw OutOfFuel /\ i' = ik)).
Proof.
  induction m as [|m IH]; intros i o i' H.
  - exists 0, i. split; [reflexivity|]. right. right. right.
    inversion H. auto.
  - rewrite loop_S in H.
    destruct (condition i) as [[v|e] i1] eqn:Hc.
    + destruct (isTruthy v) eqn:Hv.
      * destruct (body i1) as [[[]|e] i2] eqn:Hb.
        -- destruct (IH _ _ _ H) as (k & ik & Hk & Hcases).
           exists (S k), ik. split.
           { simpl. now rewrite Hc, Hv, Hb. }
           destruct Hcases as [(Hlt & Ho & Hex)|[(Hlt & Hex)
                                |[(Hlt & Hex)|(-> & Ho & Hi)]]].
           ++ left. split; [lia|auto].
           ++ right. left. split; [lia|auto].
           ++ right. right. left. split; [lia|auto].
           ++ right. right. right. auto.
        -- inversion H; subst. exists 0, i. split; [reflexivity|].
           right. right. left. split; [lia|]. exists e, v, i1. auto.
      * inversion H; subst. exists 0, i. split; [reflexivity|].
        left. split; [lia|]. split; [reflexivity|]. exists v. auto.
    + inversion H; subst. exists 0, i. split; [reflexivity|].
      right. left. split; [lia|]. exists e. auto.
Qed.

(** How a check of the condition can end the loop. *)
Lemma loop_once_more m ik :
  (forall v i1, condition ik = (Normal v, i1) -> isTruthy v = false ->
     loop OutOfFuel (S m) step tt ik = (Normal tt, i1))
  /\ (forall e i1, condition ik = (Throw e, i1) ->
        loop OutOfFuel (S m) step tt ik = (Throw e, i1))
  /\ (forall v i1 e i2, condition ik = (Normal v, i1) -> isTruthy v = true ->
        body i1 = (Throw e, i2) ->
        loop OutOfFuel (S m) step tt ik = (Throw e, i2)).
Proof.
  rewrite loop_S. repeat split.
  - intros v i1 Hc Hv. now rewrite Hc, Hv.
  - intros e i1 Hc. now rewrite Hc.
  - intros v i1 e i2 Hc Hv Hb. now rewrite Hc, Hv, Hb.
Qed.

End WhileLoop.

Section Statements.
Import Interpreter.

(** X14: A class declaration evaluates its superclass expression first; when the
    value is not a class it raises "Superclass must be a class." before the
    name of the class is defined: the state is the one the expression
    left. *)
Theorem superclass_must_be_class
    Number_toString Date_now fuel name v methods i s i1 :
  evaluate Number_toString Date_now fuel (EVariable v) i = (Normal s, i1) ->
  is_class s = false ->
  execute Number_toString Date_now (S fuel) (SClass name (Some v) methods) i
  = (Throw (RuntimeError (var_name v) "Superclass must be a class."), i1).
Proof.
  intros Hs Hno. cbn [execute executeWith]. unfold executeClass.
  match goal with
  | |- bind ?m _ i = _ =>
      assert (H1 : m i = (Throw (RuntimeError (var_name v)
                                   "Superclass must be a class."), i1))
  end.
  { rewrite (bind_eq_Normal _ _ _ _ _ Hs).
    destruct s; try reflexivity. discriminate. }
  now rewrite (bind_eq_Throw _ _ _ _ _ H1).
Qed.

(** X15: [while] checks its condition before every round. After any number
    of rounds, each with a truthy condition and a body that completes, the
    next check decides: a falsey value ends the statement normally in the
    state the check left, an exception of the condition or of the body, a
    [Return] among them, leaves the loop at once with that exception.
    Conversely the statement completes only by a falsey check after such
    rounds, and throws only what a condition or a body threw after such
    rounds (or the bound on the rounds of the embedding). *)
Theorem while_condition_and_exit Number_toString Date_now fuel c body i :
  let condition := evaluate Number_toString Date_now fuel c in
  let round := execute Number_toString Date_now fuel body in
  let run := execute Number_toString Date_now (S fuel) (SWhile c body) i in
  (forall k ik,
      whileRounds condition round k i = Some ik -> k < fuel ->
      (forall v i1,
          condition ik = (Normal v, i1) -> isTruthy v = false ->
          run = (Normal tt, i1))
      /\ (forall e i1, condition ik = (Throw e, i1) -> run = (Throw e, i1))
      /\ (forall v i1 e i2,
             condition ik = (Normal v, i1) -> isTruthy v = true ->
             round i1 = (Throw e, i2) ->
             run = (Throw e, i2)))
  /\ (forall i',
         run = (Normal tt, i') ->
         exists k ik v,
           k < fuel
           /\ whileRounds condition round k i = Some ik
           /\ condition ik = (Normal v, i')
           /\ isTruthy v = false)
  /\ (forall e i',
         run = (Throw e, i') ->
         exists k ik,
           whileRounds condition round k i = Some ik
           /\ ((k < fuel /\ condition ik = (Throw e, i'))
               \/ (k < fuel
                   /\ exists v i1,
                        condition ik = (Normal v, i1) /\ isTruthy v = true
                        /\ round i1 = (Throw e, i'))
               \/ (k = fuel /\ e = OutOfFuel /\ i' = ik))).
Proof.
  intros condition round run.
  assert (Hrun : run
                 = loop OutOfFuel fuel
                     (fun _ : unit =>
                        v ← condition;
                        if isTruthy v then round;; ret (inl tt)
                        else ret (inr tt))
                     tt i) by reflexivity.
  rewrite Hrun. clear Hrun run.
  split; [|split].
  - intros k ik Hk Hlt.
    pose proof (loop_after_rounds condition round k (S (fuel - S k)) i ik Hk)
      as Hk'.
    replace (k + S (fuel - S k)) with fuel in Hk' by lia.
    rewrite Hk'. apply loop_once_more.
  - intros i' H.
    destruct (loop_rounds_inv condition round fuel i _ _ H)
      as (k & ik & Hk & [(Hlt & _ & v & Hc & Hv)|[(_ & e & He & _)
            |[(_ & e & v & i1 & He & _)|(_ & He & _)]]]);
      try discriminate.
    exists k, ik, v. auto.
  - intros e i' H.
    destruct (loop_rounds_inv condition round fuel i _ _ H)
      as (k & ik & Hk & [(_ & He & _)|[(Hlt & e' & He & Hc)
            |[(Hlt & e' & v & i1 & He & Hc & Hv & Hb)|(-> & He & ->)]]]);
      try discriminate.
    + inversion He; subst e'. exists k, ik. split; [exact Hk|]. left. auto.
    + inversion He; subst e'. exists k, ik. split; [exact Hk|].
      right. left. split; [exact Hlt|]. exists v, i1. auto.
    + inversion He; subst e. exists fuel, ik. split; [exact Hk|].
      right. right. auto.
Qed.

Lemma forEach_app_Throw {A} (f : A -> I unit) before s after i i1 e i2 :
  forEach before f i = (Normal tt, i1) ->
  f s i1 = (Throw e, i2) ->
  forEach (before ++ s :: after) f i = (Throw e, i2).
Proof.
  revert i. induction before as [|x l IH]; intros i Hb Hs; simpl in *.
  - ret_inv Hb. now rewrite (bind_eq_Throw _ _ _ _ _ Hs).
  - bind_inv Hb. rewrite (bind_eq_Normal _ _ _ _ _ Hm). now apply IH.
Qed.

(** X16: [interpret] runs the statements in order. The first runtime error
    ends the run: the statements after it are not executed, the effects of
    those before it stay, and the error is written to the error stream
    with the line of its token; [interpret] itself returns normally. *)
Theorem interpret_stops_at_runtime_error
    Number_toString Date_now fuel before s after i i1 token message i2 :
  forEach before (execute Number_toString Date_now fuel) i = (Normal tt, i1) ->
  execute Number_toString Date_now fuel s i1
  = (Throw (RuntimeError token message), i2) ->
  interpret Number_toString Date_now fuel (before ++ s :: after) i
  = (Normal tt, set_stderr (stderr i2 ++ [(message, line token)])%list i2).
Proof.
  intros Hb Hs. unfold interpret, try_catch.
  rewrite (forEach_app_Throw _ _ _ after _ _ _ _ Hb Hs). reflexivity.
Qed.

End Statements.

Section EvaluatorWitnesses.
Import Interpreter.

Local Abbreviation eval := (evaluate ExampleHost.Number_toString ExampleHost.Date_now).
Local Abbreviation exec := (execute ExampleHost.Number_toString ExampleHost.Date_now).

(** ["a" or nil] is ["a"]. *)
Lemma logical_short_circuit_witness :
  eval 2 (ELogical lit_a (op T_or "or") lit_nil) new
  = (Normal (VString "a"), new).
Proof.
  exact (proj1 (logical_short_circuit ExampleHost.Number_toString
                  ExampleHost.Date_now 1 lit_a (op T_or "or") lit_nil
                  new (VString "a") new eq_refl) eq_refl eq_refl).
Defined.

(** ["a" - 1] *)
Lemma binary_numeric_operands_witness :
  eval 2 (EBinary lit_a (op T_minus "-") lit_one) new
  = (Throw (RuntimeError (op T_minus "-") "Operands must be numbers."), new).
Proof.
  refine (proj1 (binary_numeric_operands ExampleHost.Number_toString
                   ExampleHost.Date_now 1 lit_a (op T_minus "-") lit_one
                   new (VString "a") new (VNumber one) new
                   eq_refl eq_refl _) eq_refl).
  simpl. auto.
Defined.

(** ["a" + 1] *)
Lemma plus_numbers_or_strings_witness :
  eval 2 (EBinary lit_a (op T_plus "+") lit_one) new
  = (Throw (RuntimeError (op T_plus "+")
              "Operands must be two numbers or two strings."), new).
Proof.
  exact (proj2 (proj2 (plus_numbers_or_strings ExampleHost.Number_toString
                         ExampleHost.Date_now 1 lit_a (op T_plus "+") lit_one
                         new (VString "a") new (VNumber one) new
                         eq_refl eq_refl eq_refl)) eq_refl).
Defined.

(** [!!nil] is [false]. *)
Lemma unary_operators_witness :
  eval 3 (EUnary (op T_bang "!") (EUnary (op T_bang "!") lit_nil)) new
  = (Normal (VBool false), new).
Proof.
  exact (proj2 (proj1 (unary_operators ExampleHost.Number_toString
                         ExampleHost.Date_now 1 (op T_bang "!") lit_nil
                         new VNull new eq_refl) eq_refl)).
Defined.

(** [clock(nil)] *)
Lemma call_checks_callee_then_arity_witness :
  eval 3 (ECall (EVariable var_clock) (op T_right_paren ")") [lit_nil]) new
  = (Throw (RuntimeError (op T_right_paren ")")
              "Expected 0 arguments but got 1."), new).
Proof.
  refine (proj2 (call_checks_callee_then_arity ExampleHost.Number_toString
                   ExampleHost.Date_now 2 (EVariable var_clock)
                   (op T_right_paren ")") [lit_nil] new VNative new
                   [VNull] new eq_refl eq_refl) eq_refl _).
  simpl. lia.
Defined.

(** [P()] *)
Lemma class_without_init_witness :
  eval 3 (ECall (EVariable (mkVariable 0 (ident "P")))
            (op T_right_paren ")") []) after_plain
  = (Normal (VInstance 0),
     set_instances [mkLoxInstance class_P ∅] after_plain).
Proof.
  exact (proj2 (class_without_init ExampleHost.Number_toString
                  ExampleHost.Date_now 2 (EVariable (mkVariable 0 (ident "P")))
                  (op T_right_paren ")") after_plain class_P after_plain
                  eq_refl eq_refl)).
Defined.

(** [f(1)] returns 1 and does not print. *)
Lemma function_call_result_witness :
  fst (LoxFunction_call
         (executeBlock ExampleHost.Number_toString ExampleHost.Date_now 20)
         fun_f [VNumber one] after_plain)
  = Normal (VNumber one).
Proof.
  assert (Henter : enterCall fun_f [VNumber one] after_plain
                   = (Normal 1, snd (enterCall fun_f [VNumber one] after_plain)))
    by (vm_compute; reflexivity).
  rewrite (proj1 (proj2 (function_call_result
                           (executeBlock ExampleHost.Number_toString
                              ExampleHost.Date_now 20)
                           fun_f [VNumber one] after_plain 1 _
                           eq_refl Henter))
             (VNumber one)
             (snd (executeBlock ExampleHost.Number_toString
                     ExampleHost.Date_now 20
                     (fn_body (fun_declaration fun_f)) 1
                     (snd (enterCall fun_f [VNumber one] after_plain))))).
  - reflexivity.
  - vm_compute. reflexivity.
Defined.

(** Setting [m], the name of a method, on the instance of [B]. *)
Lemma field_set_then_get_witness :
  LoxInstance_get 0 (ident "m")
    (snd (LoxInstance_set 0 (ident "m") (VBool true) instance_with_field))
  = (Normal (VBool true),
     snd (LoxInstance_set 0 (ident "m") (VBool true) instance_with_field)).
Proof.
  refine (proj1 (field_set_then_get 0 (ident "m") (ident "m") (VBool true)
                   instance_with_field _ _ _ eq_refl)).
  - vm_compute. reflexivity.
  - discriminate.
Defined.

(** [class B < clock {}] *)
Lemma superclass_must_be_class_witness :
  exec 3 (SClass (ident "B") (Some var_clock) []) new
  = (Throw (RuntimeError (ident "clock") "Superclass must be a class."), new).
Proof.
  exact (superclass_must_be_class ExampleHost.Number_toString
           ExampleHost.Date_now 2 (ident "B") var_clock [] new VNative new
           eq_refl eq_refl).
Defined.

(** [var i = 0; while (i < 2) i = i + 1;]: two rounds, and the third check
    of the condition ends the loop. *)
Lemma while_condition_and_exit_witness :
  exists ik,
    whileRounds (eval 5 cond_i_less_2) (exec 5 incr_i) 2 after_var_i = Some ik
    /\ whileRounds (eval 5 cond_i_less_2) (exec 5 incr_i) 3 after_var_i = None
    /\ globalValue ik "i" = VNumber (Num.ofZ 2)
    /\ exec 6 (SWhile cond_i_less_2 incr_i) after_var_i = (Normal tt, ik).
Proof.
  eexists. split; [vm_compute; reflexivity|]. split; [vm_compute; reflexivity|].
  split; [vm_compute; reflexivity|].
  refine (proj1 (proj1 (while_condition_and_exit ExampleHost.Number_toString
                   ExampleHost.Date_now 5 cond_i_less_2 incr_i after_var_i)
                   2 _ _ _) (VBool false) _ _ eq_refl).
  - vm_compute. reflexivity.
  - lia.
  - vm_compute. reflexivity.
Defined.

(** [print "a"; print -"x"; print "b";] prints [a] and reports the error. *)
Lemma interpret_stops_at_runtime_error_witness :
  interpret ExampleHost.Number_toString ExampleHost.Date_now 4
    [print_a; print_neg_x; print_b] new
  = (Normal tt,
     set_stderr [("Operand must be a number.", 1)] (set_stdout ["a"] new)).
Proof.
  exact (interpret_stops_at_runtime_error ExampleHost.Number_toString
           ExampleHost.Date_now 4 [print_a] print_neg_x [print_b] new
           (set_stdout ["a"] new) (op T_minus "-")
           "Operand must be a number." (set_stdout ["a"] new)
           eq_refl eq_refl).
Defined.

End EvaluatorWitnesses.

(** ** The evaluator: what no run changes *)

Section EvaluatorFrame.
Import Interpreter.

Lemma storesGrow_refl i : storesGrow i i.
Proof.
  repeat split; eauto.
  exists []. now rewrite app_nil_r.
Qed.

Lemma storesGrow_trans a b c :
  storesGrow a b -> storesGrow b c -> storesGrow a c.
Proof.
  intros (L1 & [o1 O1] & E1 & N1 & C1 & F1 & I1)
         (L2 & [o2 O2] & E2 & N2 & C2 & F2 & I2).
  split; [congruence|]. split.
  { exists (o1 ++ o2)%list. rewrite O2, O1. now rewrite app_assoc. }
  split; [congruence|]. split; [lia|]. split; [lia|]. split.
  - intros b0 f Hf. destruct (F1 _ _ Hf) as (f1 & Hf1 & Ef1).
    destruct (F2 _ _ Hf1) as (f2 & Hf2 & Ef2). exists f2. split; congruence.
  - intros r inst Hr. destruct (I1 _ _ Hr) as (x1 & Hx1 & Ex1).
    destruct (I2 _ _ Hx1) as (x2 & Hx2 & Ex2). exists x2. split; congruence.
Qed.

Lemma grows_refl i : grows i i.
Proof. split; [apply storesGrow_refl|reflexivity]. Qed.

Lemma grows_trans a b c : grows a b -> grows b c -> grows a c.
Proof.
  intros [S1 E1] [S2 E2]. split; [eapply storesGrow_trans; eauto|congruence].
Qed.

Lemma storesGrow_set_environment e i : storesGrow i (set_environment e i).
Proof.
  repeat split; simpl; eauto.
  exists []. now rewrite app_nil_r.
Qed.

Lemma storesGrow_set_envs h i :
  (forall b f, envs i !! b = Some f ->
               exists f', h !! b = Some f'
                          /\ Environment.enclosing f' = Environment.enclosing f) ->
  storesGrow i (set_envs h i).
Proof.
  intros H. repeat split; simpl; eauto.
  exists []. now rewrite app_nil_r.
Qed.

Lemma storesGrow_set_instances l i :
  (forall r inst, instances i !! r = Some inst ->
                  exists inst', l !! r = Some inst' /\ klass inst' = klass inst) ->
  storesGrow i (set_instances l i).
Proof.
  intros H. repeat split; simpl; eauto.
  exists []. now rewrite app_nil_r.
Qed.

(** *** The combinators *)

Lemma keeps_ret {A} (a : A) : keeps (ret a).
Proof. intros i. apply grows_refl. Qed.

Lemma keeps_throw {A} (e : Exc) : keeps (@throw _ _ A e).
Proof. intros i. apply grows_refl. Qed.

Lemma keeps_get_state : keeps get_state.
Proof. intros i. apply grows_refl. Qed.

Lemma keeps_gets {A} (f : t -> A) : keeps (gets f).
Proof. intros i. apply grows_refl. Qed.

Lemma keeps_liftOutcome {A} (o : Outcome Exc A) : keeps (liftOutcome o).
Proof. intros i. apply grows_refl. Qed.

Lemma keeps_bind {A B} (m : I A) (f : A -> I B) :
  keeps m -> (forall a, keeps (f a)) -> keeps (bind m f).
Proof.
  intros Hm Hf i. unfold bind. specialize (Hm i).
  destruct (m i) as [[a|e] i1]; simpl in *; [|exact Hm].
  eapply grows_trans; [exact Hm|apply Hf].
Qed.

Lemma keeps_try_catch {A} (m : I A) (handler : Exc -> I A) :
  keeps m -> (forall e, keeps (handler e)) -> keeps (try_catch m handler).
Proof.
  intros Hm Hh i. unfold try_catch. specialize (Hm i).
  destruct (m i) as [[a|e] i1]; simpl in *; [exact Hm|].
  eapply grows_trans; [exact Hm|apply Hh].
Qed.

Lemma keeps_loop {A} (exhausted : Exc) fuel (step : A -> I (A + A)) :
  (forall a, keeps (step a)) -> forall a, keeps (loop exhausted fuel step a).
Proof.
  intros Hstep. induction fuel as [|n IH]; intros a; simpl;
    [apply keeps_throw|].
  apply keeps_bind; [apply Hstep|]. intros [a'|a']; [apply IH|apply keeps_ret].
Qed.

Lemma keeps_forEach {A} (l : list A) (f : A -> I unit) :
  (forall a, keeps (f a)) -> keeps (forEach l f).
Proof.
  intros Hf. induction l as [|x l IH]; simpl; [apply keeps_ret|].
  apply keeps_bind; [apply Hf|]. intros _. exact IH.
Qed.

Lemma keeps_mapM {A B} (f : A -> I B) (l : list A) :
  (forall a, keeps (f a)) -> keeps (mapM f l).
Proof.
  intros Hf. induction l as [|x l IH]; simpl; [apply keeps_ret|].
  apply keeps_bind; [apply Hf|]. intros y.
  apply keeps_bind; [exact IH|]. intros ys. apply keeps_ret.
Qed.

(** *** The primitives *)

Lemma define_frames env name v h b f :
  h !! b = Some f ->
  exists f',
    Environment.define env name v h !! b = Some f'
    /\ Environment.enclosing f' = Environment.enclosing f.
Proof.
  intros Hb. unfold Environment.define.
  destruct (h !! env) as [fe|] eqn:He; [|eauto].
  destruct (decide (b = env)) as [->|Hne].
  - rewrite list_lookup_insert_eq by (eapply lookup_lt_Some; eauto).
    eexists. split; [reflexivity|]. simpl. congruence.
  - rewrite list_lookup_insert_ne by congruence. eauto.
Qed.

Lemma keeps_env_define env name v : keeps (env_define env name v).
Proof.
  intros i. split; [|reflexivity]. apply storesGrow_set_envs.
  intros b f. apply define_frames.
Qed.

Lemma keeps_env_get env name : keeps (env_get env name).
Proof. intros i. apply grows_refl. Qed.

Lemma keeps_env_getAt env d name : keeps (env_getAt env d name).
Proof. intros i. apply grows_refl. Qed.

Lemma assign_from_frames fuel h env name v b f :
  h !! b = Some f ->
  exists f',
    snd (Environment.assign_from fuel h env name v) !! b = Some f'
    /\ Environment.enclosing f' = Environment.enclosing f.
Proof.
  intros Hb. revert env. induction fuel as [|n IH]; intros env; simpl;
    [eauto|].
  destruct (h !! env) as [fe|]; [|simpl; eauto].
  destruct (map_has _ _); [simpl; now apply define_frames|].
  destruct (Environment.enclosing fe); [apply IH|simpl; eauto].
Qed.

Lemma keeps_env_assign env name v : keeps (env_assign env name v).
Proof.
  intros i. unfold env_assign, Environment.assign.
  pose proof (fun b f => assign_from_frames (S (length (envs i))) (envs i)
                           env name v b f) as H.
  destruct (Environment.assign_from _ _ _ _ _) as [o h]. simpl in *.
  split; [|reflexivity]. now apply storesGrow_set_envs.
Qed.

Lemma keeps_env_assignAt env d name v : keeps (env_assignAt env d name v).
Proof.
  intros i. unfold env_assignAt, Environment.assignAt.
  destruct (Environment.ancestor _ _ _) as [[a|]|e];
    [destruct (envs i !! a)|..]; simpl;
    (split; [apply storesGrow_set_envs|reflexivity]); eauto.
  intros b f. apply define_frames.
Qed.

Lemma keeps_newEnvironment encl : keeps (newEnvironment encl).
Proof.
  intros i. unfold newEnvironment, Environment.new. simpl.
  split; [|reflexivity]. apply storesGrow_set_envs.
  intros b f Hb. exists f. split; [|reflexivity].
  rewrite lookup_app_l; [exact Hb|]. eapply lookup_lt_Some; eauto.
Qed.

Lemma keeps_freshOid : keeps freshOid.
Proof.
  intros i. split; [|reflexivity]. repeat split; simpl; eauto.
  exists []. now rewrite app_nil_r.
Qed.

Lemma keeps_newLoxFunction d c b : keeps (newLoxFunction d c b).
Proof.
  apply keeps_bind; [apply keeps_freshOid|]. intros o. apply keeps_ret.
Qed.

Lemma keeps_newLoxClass n s m : keeps (newLoxClass n s m).
Proof.
  apply keeps_bind; [apply keeps_freshOid|]. intros o. apply keeps_ret.
Qed.

Lemma keeps_newLoxInstance k : keeps (newLoxInstance k).
Proof.
  intros i. split; [|reflexivity]. apply storesGrow_set_instances.
  intros r inst Hr. exists inst. split; [|reflexivity].
  rewrite lookup_app_l; [exact Hr|]. eapply lookup_lt_Some; eauto.
Qed.

Lemma keeps_bind_ fn v : keeps (bind_ fn v).
Proof.
  apply keeps_bind; [apply keeps_newEnvironment|]. intros env.
  apply keeps_bind; [apply keeps_env_define|]. intros _.
  apply keeps_newLoxFunction.
Qed.

Lemma keeps_LoxInstance_get ref name : keeps (LoxInstance_get ref name).
Proof.
  apply keeps_bind; [apply keeps_get_state|]. intros i. cbv beta zeta.
  destruct (instances i !! ref) as [inst|]; [|apply keeps_throw].
  destruct (negb (is_undefined _)); [apply keeps_ret|].
  destruct (findMethod _ _); [|apply keeps_throw].
  apply keeps_bind; [apply keeps_bind_|]. intros f. apply keeps_ret.
Qed.

Lemma keeps_LoxInstance_set ref name v : keeps (LoxInstance_set ref name v).
Proof.
  intros i. unfold LoxInstance_set, bind, get_state.
  destruct (instances i !! ref) as [inst|] eqn:Hinst; [|apply grows_refl].
  split; [|reflexivity]. apply storesGrow_set_instances.
  intros r x Hr. destruct (decide (r = ref)) as [->|Hne].
  - rewrite list_lookup_insert_eq by (eapply lookup_lt_Some; eauto).
    eexists. split; [reflexivity|]. simpl. congruence.
  - rewrite list_lookup_insert_ne by congruence. eauto.
Qed.

Lemma keeps_defineParams env params args k :
  keeps (defineParams env params args k).
Proof.
  revert k. induction params as [|p ps IH]; intros k; simpl;
    [apply keeps_ret|].
  apply keeps_bind; [apply keeps_env_define|]. intros _. apply IH.
Qed.

Lemma keeps_stringify Number_toString v : keeps (stringify Number_toString v).
Proof.
  destruct v; simpl; try apply keeps_ret; try apply keeps_throw.
  - destruct (Num.isNegZero n); apply keeps_ret.
  - apply keeps_bind; [apply keeps_get_state|]. intros i.
    destruct (instances i !! ref); [apply keeps_ret|apply keeps_throw].
Qed.

Lemma keeps_console_log text : keeps (console_log text).
Proof.
  intros i. split; [|reflexivity]. repeat split; simpl; eauto.
Qed.

Ltac keeps_auto :=
  repeat first
    [ progress intros
    | assumption
    | apply keeps_ret | apply keeps_throw | apply keeps_get_state
    | apply keeps_gets
    | apply keeps_env_define | apply keeps_env_get | apply keeps_env_getAt
    | apply keeps_env_assign | apply keeps_env_assignAt
    | apply keeps_newEnvironment | apply keeps_newLoxFunction
    | apply keeps_newLoxClass | apply keeps_newLoxInstance
    | apply keeps_bind_ | apply keeps_LoxInstance_get
    | apply keeps_LoxInstance_set | apply keeps_defineParams
    | apply keeps_stringify | apply keeps_console_log
    | apply keeps_mapM | apply keeps_forEach | apply keeps_loop
    | apply keeps_try_catch
    | apply keeps_bind
    | progress cbv beta zeta
    | match goal with
      | |- keeps (match ?x with _ => _ end) => destruct x
      | |- keeps (if ?x then _ else _) => destruct x
      | H : forall e, keeps (?ev e) |- keeps (?ev _) => apply H
      | H : forall s env, keeps (?ev s env) |- keeps (?ev _ _) => apply H
      end ].

Section Bodies.

Variable Number_toString : number -> string.
Variable Date_now : nat -> number.
Variable evaluate : Expr -> I Value.
Variable execute : Stmt -> I unit.
Variable executeBlock : list Stmt -> nat -> I unit.
Hypothesis Hev : forall e, keeps (evaluate e).
Hypothesis Hex : forall s, keeps (execute s).
Hypothesis Hbl : forall stmts env, keeps (executeBlock stmts env).

Lemma keeps_LoxFunction_call fn args :
  keeps (LoxFunction_call executeBlock fn args).
Proof. unfold LoxFunction_call. keeps_auto. Qed.

Lemma keeps_LoxClass_call c args : keeps (LoxClass_call executeBlock c args).
Proof.
  unfold LoxClass_call. keeps_auto; apply keeps_LoxFunction_call.
Qed.

Lemma keeps_call callee args : keeps (call Date_now executeBlock callee args).
Proof.
  destruct callee; simpl; keeps_auto;
    try apply keeps_LoxFunction_call; try apply keeps_LoxClass_call.
  intros i. split; [|reflexivity]. repeat split; simpl; eauto.
  exists []. now rewrite app_nil_r.
Qed.

Lemma keeps_evaluateWith e :
  keeps (evaluateWith Date_now evaluate executeBlock e).
Proof.
  destruct e; simpl;
    unfold evaluateAssignment, evaluateBinary, evaluateCall, evaluateGet,
      evaluateGrouping, evaluateLiteral, evaluateLogical, evaluateSet,
      evaluateSuper, evaluateThis, evaluateUnary, evaluateVariable,
      lookUpVariable;
    keeps_auto; apply keeps_call.
Qed.

Lemma keeps_executeBlockWith statements env :
  keeps (executeBlockWith execute statements env).
Proof.
  intros i. unfold executeBlockWith, bind at 1, gets, try_finally.
  pose proof (keeps_bind (modify (set_environment env))
                (fun _ => forEach statements execute)) as H.
  unfold keeps in H.
  assert (Hin : grows (set_environment env i)
                  (snd (forEach statements execute (set_environment env i)))).
  { apply keeps_forEach. exact Hex. }
  change (bind (modify (set_environment env))
            (fun _ => forEach statements execute) i)
    with (forEach statements execute (set_environment env i)).
  destruct (forEach statements execute (set_environment env i)) as [o i'].
  simpl in *. destruct Hin as [Hs He]. split; [|reflexivity].
  eapply storesGrow_trans; [apply (storesGrow_set_environment env)|].
  eapply storesGrow_trans; [exact Hs|apply storesGrow_set_environment].
Qed.

(** The methods of a class are made in the frame the declaration set
    up. *)
Lemma keeps_methods (l : list FunctionStmt) :
  forall methods,
    keeps
      ((fix build (l : list FunctionStmt) (methods : gmap string LoxFunction)
          : I (gmap string LoxFunction) :=
          match l with
          | [] => ret methods
          | method :: l' =>
              i ← get_state;
              fn ← newLoxFunction method (environment i)
                     (String.eqb (lexeme (fn_name method)) "init");
              build l' (<[lexeme (fn_name method) := fn]> methods)
          end) l methods).
Proof.
  induction l as [|m l IH]; intros methods; [apply keeps_ret|].
  apply keeps_bind; [apply keeps_get_state|]. intros i.
  apply keeps_bind; [apply keeps_newLoxFunction|]. intros fn. apply IH.
Qed.

Lemma methods_Normal (l : list FunctionStmt) :
  forall methods i,
    exists ms i',
      (fix build (l : list FunctionStmt) (methods : gmap string LoxFunction)
         : I (gmap string LoxFunction) :=
         match l with
         | [] => ret methods
         | method :: l' =>
             i ← get_state;
             fn ← newLoxFunction method (environment i)
                    (String.eqb (lexeme (fn_name method)) "init");
             build l' (<[lexeme (fn_name method) := fn]> methods)
         end) l methods i
      = (Normal ms, i').
Proof.
  induction l as [|m l IH]; intros methods i; [eexists _, _; reflexivity|].
  destruct (IH (<[lexeme (fn_name m)
                  := mkLoxFunction (nextOid i) m (environment i)
                       (String.eqb (lexeme (fn_name m)) "init")]> methods)
               (set_nextOid (S (nextOid i)) i)) as (ms & i' & E).
  exists ms, i'. exact E.
Qed.

Lemma keeps_executeClass name superclassExpr methods :
  keeps (executeClass evaluate name superclassExpr methods).
Proof.
  unfold executeClass. destruct superclassExpr as [v|].
  - (* with a superclass: a frame for [super] around the methods *)
    intros i. unfold bind at 1. unfold bind at 1.
    pose proof (Hev (EVariable v) i) as H0.
    destruct (evaluate (EVariable v) i) as [[s|e] i1]; simpl in H0;
      [|exact H0].
    destruct s; try exact H0.
    eapply grows_trans; [exact H0|]. clear H0 i.
    unfold ret at 1. cbv beta iota.
    (* the name is defined *)
    unfold bind at 1. unfold bind at 1. unfold get_state at 1.
    cbv beta iota.
    pose proof (keeps_env_define (environment i1) (lexeme name) VNull i1)
      as H1.
    destruct (env_define (environment i1) (lexeme name) VNull i1)
      as [[[]|e] i2] eqn:E2; simpl in H1; [|exact H1].
    (* the frame of [super] *)
    unfold bind at 1. unfold bind at 1. unfold get_state at 1.
    cbv beta iota. unfold bind at 1.
    unfold newEnvironment at 1, Environment.new. cbv beta iota zeta.
    unfold bind at 1. unfold modify at 1. cbv beta iota.
    set (env := length (envs i2)).
    set (i3 := set_environment env
                 (set_envs (envs i2 ++ [Environment.mk (Some (environment i2)) ∅])
                    i2)).
    pose proof (keeps_env_define env "super" (VClass c) i3) as H3.
    destruct (env_define env "super" (VClass c) i3) as [[[]|e] i4] eqn:E4;
      simpl in H3; [|discriminate E4].
    assert (Hframe : exists f, envs i4 !! env = Some f
                               /\ Environment.enclosing f
                                  = Some (environment i2)).
    { destruct H3 as [(_ & _ & _ & _ & _ & Hf & _) _].
      apply (Hf env (Environment.mk (Some (environment i2)) ∅)).
      unfold i3. simpl. rewrite lookup_app_r by (unfold env; lia).
      unfold env. now rewrite Nat.sub_diag. }
    assert (G24 : storesGrow i2 i4 /\ environment i4 = env).
    { destruct H3 as [Hs He]. split; [|exact He].
      eapply storesGrow_trans; [|exact Hs].
      unfold i3. eapply storesGrow_trans;
        [|apply storesGrow_set_environment].
      apply storesGrow_set_envs. intros b f Hb. exists f.
      split; [|reflexivity]. rewrite lookup_app_l; [exact Hb|].
      eapply lookup_lt_Some; eauto. }
    clearbody i3. clear E4 H3 i3.
    (* the methods and the class *)
    pose proof (keeps_methods methods ∅ i4) as H5.
    destruct (methods_Normal methods ∅ i4) as (ms & i5 & E5).
    rewrite E5 in H5. simpl in H5.
    rewrite (bind_eq_Normal _ _ _ _ _ E5).
    assert (E6 : newLoxClass (lexeme name) (Some c) ms i5
                 = (Normal (mkLoxClass (nextOid i5) (lexeme name) (Some c) ms),
                    set_nextOid (S (nextOid i5)) i5)) by reflexivity.
    pose proof (keeps_newLoxClass (lexeme name) (Some c) ms i5) as H6.
    rewrite E6 in H6. simpl in H6.
    rewrite (bind_eq_Normal _ _ _ _ _ E6).
    set (i6 := set_nextOid (S (nextOid i5)) i5) in *.
    set (k := mkLoxClass (nextOid i5) (lexeme name) (Some c) ms).
    assert (G46 : grows i4 i6) by (eapply grows_trans; eauto).
    clearbody i6. clear E5 E6 H5 H6.
    (* back to the frame of the declaration *)
    destruct Hframe as (f4 & Hf4 & Hencl4).
    destruct G24 as [S24 Henv4].
    destruct G46 as [S46 Henv6].
    assert (Hf6 : exists f6, envs i6 !! environment i6 = Some f6
                              /\ Environment.enclosing f6
                                 = Some (environment i2)).
    { destruct S46 as (_ & _ & _ & _ & _ & Hf & _).
      destruct (Hf _ _ Hf4) as (f6 & Hf6 & He6).
      exists f6. split; [congruence|congruence]. }
    destruct Hf6 as (f6 & Hf6 & Hencl6).
    match goal with
    | |- grows i1 (snd (bind ?m _ i6)) =>
        assert (E7 : m i6 = (Normal tt, set_environment (environment i2) i6))
    end.
    { unfold bind, get_state. now rewrite Hf6, Hencl6. }
    rewrite (bind_eq_Normal _ _ _ _ _ E7).
    unfold bind at 1, get_state at 1. cbv beta iota.
    pose proof (keeps_env_assign
                  (environment (set_environment (environment i2) i6))
                  name (VClass k) (set_environment (environment i2) i6))
      as H8.
    destruct H8 as [S8 E8]. destruct H1 as [S1 E1].
    split.
    + eapply storesGrow_trans; [exact S1|].
      eapply storesGrow_trans; [exact S24|].
      eapply storesGrow_trans; [exact S46|].
      eapply storesGrow_trans; [apply storesGrow_set_environment|exact S8].
    + rewrite E8. simpl. exact E1.
  - (* without *)
    intros i.
    match goal with
    | |- grows i (snd (bind (ret None) ?f i)) =>
        change (grows i (snd (f None i)))
    end.
    cbv beta.
    match goal with
    | |- grows i (snd (?m i)) => revert i; change (keeps m)
    end.
    apply keeps_bind; [apply keeps_get_state|]. intros i.
    apply keeps_bind; [apply keeps_env_define|]. intros _.
    apply keeps_bind; [apply keeps_ret|]. intros _.
    apply keeps_bind; [apply keeps_methods|]. intros ms.
    apply keeps_bind; [apply keeps_newLoxClass|]. intros k.
    apply keeps_bind; [apply keeps_ret|]. intros _.
    apply keeps_bind; [apply keeps_get_state|]. intros i'.
    apply keeps_env_assign.
Qed.

Lemma keeps_executeWith fuel s :
  keeps (executeWith Number_toString evaluate execute executeBlock fuel s).
Proof.
  destruct s; simpl; try apply keeps_executeClass; keeps_auto.
Qed.

End Bodies.

Lemma evaluator_keeps Number_toString Date_now fuel :
  (forall e, keeps (evaluate Number_toString Date_now fuel e))
  /\ (forall s, keeps (execute Number_toString Date_now fuel s))
  /\ (forall stmts env,
        keeps (executeBlock Number_toString Date_now fuel stmts env)).
Proof.
  induction fuel as [|n (Hev & Hex & Hbl)];
    [split; [|split]; intros; apply keeps_throw|].
  split; [|split].
  - intros e. cbn [evaluate]. now apply keeps_evaluateWith.
  - intros s. cbn [execute]. now apply keeps_executeWith.
  - intros stmts env. cbn [executeBlock]. now apply keeps_executeBlockWith.
Qed.

(** X17: Whatever an expression or a statement does and however it ends, by
    completing, by a [Return] or by a runtime error, the interpreter's
    current environment is afterwards the one it was before: a block, a
    call and a class declaration with a superclass all leave the frames
    they enter. *)
Theorem evaluator_restores_environment Number_toString Date_now fuel :
  (forall e i,
      environment (snd (evaluate Number_toString Date_now fuel e i))
      = environment i)
  /\ (forall s i,
         environment (snd (execute Number_toString Date_now fuel s i))
         = environment i)
  /\ (forall callee args i,
         environment
           (snd (call Date_now
                   (executeBlock Number_toString Date_now fuel)
                   callee args i))
         = environment i).
Proof.
  destruct (evaluator_keeps Number_toString Date_now fuel)
    as (Hev & Hex & Hbl).
  split; [|split].
  - intros e i. apply Hev.
  - intros s i. apply Hex.
  - intros callee args i. now apply keeps_call.
Qed.

(** X18: A run of the evaluator only adds to what there is: it does not write
    the resolver's side-table or the error stream, what was printed stays
    printed, no frame is removed or gets another enclosing frame, and no
    instance is removed or changes its class. [interpret] adds at most one
    report to the error stream. *)
Theorem evaluator_only_adds Number_toString Date_now fuel :
  (forall e i,
      storesGrow i (snd (evaluate Number_toString Date_now fuel e i)))
  /\ (forall s i,
         storesGrow i (snd (execute Number_toString Date_now fuel s i)))
  /\ (forall statements i,
         let i' := snd (interpret Number_toString Date_now fuel statements i)
         in
         locals i' = locals i
         /\ (exists out, stdout i' = (stdout i ++ out)%list)
         /\ (stderr i' = stderr i
             \/ exists message ln,
                  stderr i' = (stderr i ++ [(message, ln)])%list)).
Proof.
  destruct (evaluator_keeps Number_toString Date_now fuel)
    as (Hev & Hex & Hbl).
  split; [|split].
  - intros e i. apply Hev.
  - intros s i. apply Hex.
  - intros statements i. unfold interpret, try_catch.
    pose proof (keeps_forEach statements _ Hex i) as [H _].
    destruct (forEach statements
                (execute Number_toString Date_now fuel) i) as [[[]|e] i1];
      simpl in *.
    + destruct H as (L & O & E & _). auto.
    + destruct H as (L & O & E & _).
      destruct e; simpl; auto.
      split; [exact L|]. split; [exact O|]. right.
      exists message, (line token). now rewrite E.
Qed.

End EvaluatorFrame.

(** ** The scanner: the token list *)




Section ScannerTokens.
Import Scanner.

















End ScannerTokens.


(** ** The scanner: lexemes *)

Section ScannerLexemes.
Import Scanner.

Lemma substring_prefix x rest :
  String.substring 0 (String.length x) (x ++ rest) = x.
Proof.
  induction x as [|a x IH]; simpl; [now destruct rest|]. now rewrite IH.
Qed.

Lemma substring_of_skip n s x rest :
  skip n s = (x ++ rest)%string ->
  String.substring n (String.length x) s = x.
Proof.
  revert s. induction n as [|n IH]; intros s H; simpl in H.
  - subst s. apply substring_prefix.
  - destruct s as [|b s].
    + destruct x; [reflexivity|discriminate].
    + simpl. now apply IH.
Qed.

Lemma skip_add n m s : skip (n + m) s = skip m (skip n s).
Proof.
  revert s. induction n as [|n IH]; intros s; simpl; [reflexivity|].
  destruct s as [|a s]; [now destruct m|apply IH].
Qed.

Lemma skip_app x rest : skip (String.length x) (x ++ rest) = rest.
Proof. induction x as [|a x IH]; simpl; auto. Qed.

Lemma skip_remaining sc x :
  skip (current sc) (source sc) = x -> remaining sc = String.length x.
Proof.
  intros H. unfold remaining.
  pose proof (skip_length (current sc) (source sc)) as Hl.
  now rewrite H in Hl.
Qed.

Lemma peek_skip sc a r :
  skip (current sc) (source sc) = String a r ->
  peek sc = String a EmptyString /\ isAtEnd sc = false.
Proof.
  intros H. assert (Hend : isAtEnd sc = false).
  { unfold isAtEnd. apply Nat.leb_gt.
    pose proof (skip_remaining _ _ H) as Hr. unfold remaining in Hr.
    simpl in Hr. lia. }
  split; [|exact Hend]. unfold peek. now rewrite Hend, charAt_skip, H.
Qed.

Lemma peek_end sc :
  skip (current sc) (source sc) = EmptyString ->
  peek sc = NUL /\ isAtEnd sc = true.
Proof.
  intros H. assert (Hend : isAtEnd sc = true).
  { unfold isAtEnd. apply Nat.leb_le.
    pose proof (skip_remaining _ _ H) as Hr. unfold remaining in Hr.
    simpl in Hr. lia. }
  split; [|exact Hend]. unfold peek. now rewrite Hend.
Qed.

(** A loop of [advance] whose condition looks at the next character reads
    the longest run of characters that satisfy it. *)
Lemma while_reads_run (cond : t -> bool) (p : ascii -> bool) text rest :
  (forall s a r, skip (current s) (source s) = String a r -> cond s = p a) ->
  (forall s, skip (current s) (source s) = EmptyString -> cond s = false) ->
  allChars p text = true ->
  headFails p rest = true ->
  forall fuel sc,
    skip (current sc) (source sc) = (text ++ rest)%string ->
    String.length text <= fuel ->
    while fuel cond (fun s => snd (advance s)) sc
    = set_current (current sc + String.length text) sc.
Proof.
  intros Hchar Hend Hall Hrest.
  induction text as [|a text IH]; intros fuel sc Hskip Hfuel.
  - assert (Hc : cond sc = false).
    { simpl in Hskip. destruct rest as [|b r].
      - now apply Hend.
      - rewrite (Hchar _ _ _ Hskip). simpl in Hrest.
        now apply negb_true_iff in Hrest. }
    destruct sc as [src toks st cur ln lg]; simpl in *.
    destruct fuel as [|fuel]; simpl; rewrite ?Hc;
      unfold set_current; simpl; f_equal; lia.
  - simpl in Hall. apply andb_true_iff in Hall as [Ha Hall].
    destruct fuel as [|fuel]; [simpl in Hfuel; lia|].
    simpl in Hskip. simpl while. rewrite (Hchar _ _ _ Hskip), Ha.
    rewrite (IH Hall fuel).
    + destruct sc as [src toks st cur ln lg]; unfold set_current; simpl.
      f_equal; lia.
    + simpl. eapply skip_S; eauto.
    + simpl in Hfuel. lia.
Qed.

(** The loop of [string()] stops at the closing quote and counts the
    newlines before it. *)
Lemma string_loop_terminated text rest :
  forall fuel sc,
    skip (current sc) (source sc) = (text ++ String (ascii_of_nat 34) rest)%string ->
    noQuote text = true ->
    String.length text <= fuel ->
    while fuel
      (fun s => negb (String.eqb (peek s) DQUOTE) && negb (isAtEnd s))
      (fun s =>
         snd (advance (if String.eqb (peek s) LF
                       then set_line (S (line s)) s else s)))
      sc
    = set_line (line sc + countLF text)
        (set_current (current sc + String.length text) sc).
Proof.
  induction text as [|a text IH]; intros fuel sc Hskip Hq Hfuel.
  - simpl in Hskip. destruct (peek_skip _ _ _ Hskip) as [Hpeek Hend].
    assert (Hc : negb (String.eqb (peek sc) DQUOTE) && negb (isAtEnd sc)
                 = false).
    { rewrite Hpeek. unfold DQUOTE. rewrite chr_eqb, Ascii.eqb_refl.
      reflexivity. }
    destruct sc as [src toks st cur ln lg]; simpl in *.
    destruct fuel as [|fuel]; simpl; rewrite ?Hc;
      unfold set_line, set_current; simpl; f_equal; lia.
  - simpl in Hq. apply andb_true_iff in Hq as [Ha Hq].
    destruct fuel as [|fuel]; [simpl in Hfuel; lia|].
    simpl in Hskip. destruct (peek_skip _ _ _ Hskip) as [Hpeek Hend].
    simpl while. rewrite Hpeek, Hend.
    unfold DQUOTE, LF. rewrite !chr_eqb.
    apply negb_true_iff in Ha. rewrite Ha. simpl negb. simpl andb.
    destruct sc as [src toks st cur ln lg]; simpl in *.
    destruct (Ascii.eqb a (ascii_of_nat 10)); simpl.
    + rewrite IH; simpl; auto.
      * unfold set_line, set_current; simpl. f_equal; lia.
      * eapply skip_S; eauto.
      * lia.
    + rewrite IH; simpl; auto.
      * unfold set_line, set_current; simpl. f_equal; lia.
      * eapply skip_S; eauto.
      * lia.
Qed.

Lemma string_length_app x y :
  String.length (x ++ y) = String.length x + String.length y.
Proof. induction x as [|a x IH]; simpl; auto. Qed.

Lemma string_app_assoc x y z : ((x ++ y) ++ z = x ++ (y ++ z))%string.
Proof.
  induction x as [|a x IH]; [reflexivity|].
  change (String a ((x ++ y) ++ z) = String a (x ++ (y ++ z))).
  now rewrite IH.
Qed.

Lemma skip_source_length sc x :
  skip (current sc) (source sc) = x ->
  x <> EmptyString ->
  String.length (source sc) = current sc + String.length x.
Proof.
  intros H Hne. pose proof (skip_remaining _ _ H) as Hr.
  unfold remaining in Hr. destruct x; [contradiction|]. simpl in *. lia.
Qed.

(** X20: A string literal that is closed gives one token: its lexeme is the
    text with the quotes, its literal the text without them, and its line
    the line of the closing quote, the line counter having counted the
    newlines of the text; nothing is reported. *)
Theorem string_literal_token s text rest :
  start s = current s ->
  skip (current s) (source s)
  = String (ascii_of_nat 34) (text ++ String (ascii_of_nat 34) rest) ->
  noQuote text = true ->
  scanToken s
  = push_token
      (mkToken T_string
         (String (ascii_of_nat 34) (text ++ String (ascii_of_nat 34) ""))
         (TLstring text) (line s + countLF text))
      (set_line (line s + countLF text)
         (set_current (current s + String.length text + 2) s)).
Proof.
  intros Hstart Hskip Hq.
  pose proof (skip_source_length _ _ Hskip ltac:(discriminate)) as Hlen.
  simpl in Hlen. rewrite string_length_app in Hlen. simpl in Hlen.
  assert (Hlex : String.substring (current s) (String.length text + 2)
                   (source s)
                 = String (ascii_of_nat 34)
                     (text ++ String (ascii_of_nat 34) "")).
  { replace (String.length text + 2)
      with (String.length
              (String (ascii_of_nat 34) (text ++ String (ascii_of_nat 34) "")))
      by (simpl; rewrite string_length_app; simpl; lia).
    apply (substring_of_skip _ _ _ rest). rewrite Hskip.
    change (String (ascii_of_nat 34) (text ++ String (ascii_of_nat 34) rest)
            = String (ascii_of_nat 34)
                ((text ++ String (ascii_of_nat 34) "") ++ rest)).
    now rewrite string_app_assoc. }
  assert (Hlit : String.substring (S (current s)) (String.length text)
                   (source s) = text).
  { apply (substring_of_skip _ _ _ (String (ascii_of_nat 34) rest)).
    eapply skip_S; eauto. }
  unfold scanToken, advance. rewrite charAt_skip, Hskip.
  cbn [ascii_of_nat ascii_of_pos Pos.of_succ_nat Pos.succ
       ascii_of_N N.of_nat].
  change (string_ (set_current (S (current s)) s)
          = push_token
              (mkToken T_string
                 (String (ascii_of_nat 34)
                    (text ++ String (ascii_of_nat 34) ""))
                 (TLstring text) (line s + countLF text))
              (set_line (line s + countLF text)
                 (set_current (current s + String.length text + 2) s))).
  unfold string_.
  rewrite (string_loop_terminated text rest).
  - destruct s as [src toks st cur ln lg]. simpl in *. subst st.
    unfold isAtEnd. simpl.
    assert (E : (String.length src <=? S (cur + String.length text)) = false)
      by (apply Nat.leb_gt; lia).
    rewrite E. unfold addToken, advance, push_token, set_line, set_current,
      substring. simpl.
    replace (S (S (cur + String.length text)) - cur)
      with (String.length text + 2) by lia.
    replace (S (cur + String.length text) - (cur + 1))
      with (String.length text) by lia.
    replace (cur + 1) with (S cur) by lia.
    rewrite Hlex, Hlit. do 2 f_equal. lia.
  - simpl. eapply skip_S; eauto.
  - exact Hq.
  - assert (Hs1 : skip (S (current s)) (source s)
                  = (text ++ String (ascii_of_nat 34) rest)%string)
      by (eapply skip_S; eauto).
    unfold remaining. simpl. lia.
Qed.

(** X21: A line comment runs up to the end of the line or of the source: it
    gives no token and no report, the line counter is not touched, and the
    newline that ends it is left to be read next. *)
Theorem line_comment_is_skipped s text rest :
  skip (current s) (source s) = String "/" (String "/" (text ++ rest)) ->
  allChars notLF text = true ->
  headFails notLF rest = true ->
  scanToken s = set_current (current s + 2 + String.length text) s.
Proof.
  intros Hskip Hall Hrest.
  pose proof (skip_S _ _ _ _ Hskip) as Hskip1.
  pose proof (skip_S _ _ _ _ Hskip1) as Hskip2.
  unfold scanToken, advance. rewrite charAt_skip, Hskip.
  cbv beta iota.
  set (s1 := set_current (S (current s)) s).
  destruct (peek_skip s1 _ _ Hskip1) as [Hpeek1 Hend1].
  assert (Hm : match_ "/" s1 = (true, set_current (S (S (current s))) s)).
  { unfold match_. rewrite Hend1.
    unfold peek in Hpeek1. rewrite Hend1 in Hpeek1. rewrite Hpeek1.
    reflexivity. }
  rewrite Hm.
  rewrite (while_reads_run _ notLF text rest); auto.
  - destruct s as [src toks st cur ln lg]. unfold set_current. simpl.
    f_equal. lia.
  - intros s0 a r H0. destruct (peek_skip _ _ _ H0) as [-> ->].
    unfold LF. rewrite chr_eqb. unfold notLF. now rewrite andb_true_r.
  - intros s0 H0. destruct (peek_end _ H0) as [_ ->].
    now rewrite andb_false_r.
  - unfold remaining. simpl.
    pose proof (skip_length (S (S (current s))) (source s)) as Hl.
    rewrite Hskip2, string_length_app in Hl. lia.
Qed.

(** X22: An identifier is the longest run of letters, digits and underscores
    from its first letter on; only when the whole run is a reserved word
    is the token a keyword, so a name that begins with a keyword is a
    name. *)
Theorem identifier_maximal_munch s a word rest :
  start s = current s ->
  skip (current s) (source s) = String a (word ++ rest) ->
  isAlpha (String a EmptyString) = true ->
  allChars alnum word = true ->
  headFails alnum rest = true ->
  scanToken s
  = push_token
      (mkToken match isKeyword (String a word) with
               | Some kw => kw
               | None => T_identifier
               end
         (String a word) TLundefined (line s))
      (set_current (current s + S (String.length word)) s).
Proof.
  intros Hstart Hskip Halpha Hall Hrest.
  pose proof (skip_S _ _ _ _ Hskip) as Hskip1.
  assert (Hlex : String.substring (current s) (S (String.length word))
                   (source s) = String a word).
  { apply (substring_of_skip _ _ (String a word) rest). exact Hskip. }
  assert (Hid : identifier (set_current (S (current s)) s)
                = push_token
                    (mkToken match isKeyword (String a word) with
                             | Some kw => kw
                             | None => T_identifier
                             end
                       (String a word) TLundefined (line s))
                    (set_current (current s + S (String.length word)) s)).
  { unfold identifier.
    rewrite (while_reads_run _ alnum word rest); auto.
    - destruct s as [src toks st cur ln lg]. simpl in *. subst st.
      unfold addToken, push_token, set_current, substring. simpl.
      replace (S (cur + String.length word) - cur)
        with (S (String.length word)) by lia.
      rewrite Hlex. do 2 f_equal. lia.
    - intros s0 b r H0. destruct (peek_skip _ _ _ H0) as [-> _].
      reflexivity.
    - intros s0 H0. destruct (peek_end _ H0) as [-> _]. reflexivity.
    - unfold remaining. simpl.
      pose proof (skip_length (S (current s)) (source s)) as Hl.
      rewrite Hskip1, string_length_app in Hl. lia. }
  unfold scanToken, advance. rewrite charAt_skip, Hskip. cbv beta iota.
  rewrite <- Hid. clear Hid Hlex Hskip Hskip1.
  set (s1 := set_current (S (current s)) s). clearbody s1.
  destruct a as [[] [] [] [] [] [] [] []];
    try discriminate Halpha; reflexivity.
Qed.

(** X23: A character the language has no use for is reported as "Unexpected
    character." at the current line and skipped: no token is added and
    scanning goes on after it. *)
Theorem unexpected_character_reported s a rest :
  skip (current s) (source s) = String a rest ->
  unexpected a = true ->
  scanToken s
  = error (line s) "Unexpected character." (set_current (S (current s)) s).
Proof.
  intros Hskip Hun.
  unfold scanToken, advance. rewrite charAt_skip, Hskip. cbv beta iota.
  set (s1 := set_current (S (current s)) s).
  change (line s) with (line s1). clearbody s1.
  destruct a as [[] [] [] [] [] [] [] []];
    try discriminate Hun; reflexivity.
Qed.

End ScannerLexemes.

Section ScannerWitnesses.
Import Scanner.

Lemma string_literal_token_witness :
  scanToken at_string
  = push_token
      (mkToken T_string
         (String quote ("a" ++ String newline ("b" ++ String quote "")))
         (TLstring ("a" ++ String newline "b")) 2)
      (set_line 2 (set_current 5 at_string)).
Proof.
  exact (string_literal_token at_string ("a" ++ String newline "b") " x"
           eq_refl eq_refl eq_refl).
Defined.

Lemma line_comment_is_skipped_witness :
  scanToken at_comment = set_current 5 at_comment.
Proof.
  exact (line_comment_is_skipped at_comment " hi" (String newline "x")
           eq_refl eq_refl eq_refl).
Defined.

Lemma identifier_maximal_munch_witness :
  scanToken at_classy
  = push_token (mkToken T_identifier "classy" TLundefined 1)
      (set_current 6 at_classy).
Proof.
  exact (identifier_maximal_munch at_classy "c" "lassy" " = 1;"
           eq_refl eq_refl eq_refl eq_refl eq_refl).
Defined.

Lemma unexpected_character_reported_witness :
  scanToken at_at = error 1 "Unexpected character." (set_current 1 at_at).
Proof.
  exact (unexpected_character_reported at_at "@" "x" eq_refl eq_refl).
Defined.

End ScannerWitnesses.

(** ** The resolver: scopes and reports *)

Section ResolverDepth.
Import Resolver.

Lemma sameDepth_refl r : sameDepth r r.
Proof. repeat split. Qed.

Lemma sameDepth_trans a b c : sameDepth a b -> sameDepth b c -> sameDepth a c.
Proof. intros (? & ? & ?) (? & ? & ?). repeat split; congruence. Qed.

Lemma balanced_sameDepth r r' : balanced r r' -> sameDepth r r'.
Proof. intros ([H _] & ? & ?). repeat split; auto. Qed.

Lemma currScope_set_sameDepth name b r : sameDepth r (currScope_set name b r).
Proof.
  unfold currScope_set. destruct (currScope r); [|apply sameDepth_refl].
  repeat split. simpl. apply length_insert.
Qed.

Lemma declare_sameDepth name r : sameDepth r (declare name r).
Proof.
  unfold declare. destruct (length (scopes r) =? 0); [apply sameDepth_refl|].
  eapply sameDepth_trans; [|apply currScope_set_sameDepth].
  destruct (currScope r) as [sc|]; [|apply sameDepth_refl].
  destruct (map_has sc (lexeme name)); repeat split.
Qed.

Lemma define_sameDepth name r : sameDepth r (define name r).
Proof.
  unfold define. destruct (length (scopes r) =? 0); [apply sameDepth_refl|].
  apply currScope_set_sameDepth.
Qed.

Lemma resolveExpr_sameDepth e r : sameDepth r (Resolver.resolveExpr e r).
Proof. apply balanced_sameDepth, resolveExpr_balanced. Qed.

Lemma fold_left_sameDepth {A} (f : A -> t -> t) (l : list A) :
  Forall (fun a => forall r, sameDepth r (f a r)) l ->
  forall r, sameDepth r (fold_left (fun r a => f a r) l r).
Proof.
  induction 1 as [|a l Ha _ IH]; intros r; simpl; [apply sameDepth_refl|].
  eapply sameDepth_trans; [apply Ha|apply IH].
Qed.

Lemma length_removelast_app {A} (l : list A) n :
  length l = S n -> length (removelast l) = n.
Proof.
  destruct l as [|x l _] using rev_ind; [discriminate|].
  rewrite removelast_last, length_app. simpl. lia.
Qed.

(** A scope pushed before a run that keeps the depth is the one popped
    after it. *)
Lemma push_pop_sameDepth r inside r' :
  length (scopes inside) = S (length (scopes r)) ->
  sameDepth inside r' ->
  length (scopes (endScope r')) = length (scopes r).
Proof.
  intros Hin (Hlen & _ & _). simpl. apply length_removelast_app. congruence.
Qed.

Lemma beginScope_length r : length (scopes (beginScope r)) = S (length (scopes r)).
Proof. simpl. rewrite length_app. simpl. lia. Qed.

Lemma resolveFunction_sameDepth fn ty :
  Forall (fun s => forall r, sameDepth r (Resolver.resolveStmt s r))
    (fn_body fn) ->
  forall r, sameDepth r (Resolver.resolveFunction fn ty r).
Proof.
  destruct fn as [name params body]. cbn [fn_body Resolver.resolveFunction].
  intros IH r. cbv zeta.
  set (r1 := beginScope (set_currentFunction ty r)).
  assert (Hin : sameDepth r1
            (fold_left (fun r s => Resolver.resolveStmt s r) body
               (fold_left (fun r param => define param (declare param r))
                  params r1))).
  { eapply sameDepth_trans.
    - apply (fold_left_sameDepth
               (fun param r => define param (declare param r))).
      apply Forall_true. intros p r0.
      eapply sameDepth_trans; [apply declare_sameDepth|apply define_sameDepth].
    - apply (fold_left_sameDepth (fun s r => Resolver.resolveStmt s r)).
      exact IH. }
  split; [|split].
  - change (length (scopes (endScope
              (fold_left (fun r s => Resolver.resolveStmt s r) body
                 (fold_left (fun r param => define param (declare param r))
                    params r1))))
            = length (scopes r)).
    eapply (push_pop_sameDepth r r1);
      [exact (beginScope_length (set_currentFunction ty r))|exact Hin].
  - simpl. destruct Hin as (_ & Hc & _). exact Hc.
  - reflexivity.
Qed.

Lemma resolveStmt_sameDepth s :
  forall r, sameDepth r (Resolver.resolveStmt s r).
Proof.
  induction s using Stmt_ind_nested; intros r0;
    cbn [Resolver.resolveStmt]; cbv zeta.
  - (* block *)
    assert (Hin : sameDepth (beginScope r0)
              (fold_left (fun r s => Resolver.resolveStmt s r) statements
                 (beginScope r0))).
    { apply (fold_left_sameDepth (fun s r => Resolver.resolveStmt s r)).
      exact H. }
    split; [|split].
    + eapply (push_pop_sameDepth r0 (beginScope r0));
        [apply beginScope_length|exact Hin].
    + simpl. destruct Hin as (_ & Hc & _). exact Hc.
    + simpl. destruct Hin as (_ & _ & Hf). exact Hf.
  - (* class *)
    set (r1 := define name (declare name (set_currentClass CT_class r0))).
    assert (B1 : length (scopes r1) = length (scopes r0)
                 /\ currentFunction r1 = currentFunction r0).
    { assert (B : sameDepth (set_currentClass CT_class r0) r1).
      { eapply sameDepth_trans;
          [apply declare_sameDepth|apply define_sameDepth]. }
      destruct B as (Bl & _ & Bf). split; [exact Bl|exact Bf]. }
    destruct B1 as [B1l B1f].
    assert (Hmethods : forall r,
               sameDepth r
                 (fold_left
                    (fun r method =>
                       Resolver.resolveFunction method
                         (if String.eqb (lexeme (fn_name method)) "init"
                          then FT_initializer else FT_method) r)
                    methods r)).
    { apply (fold_left_sameDepth
               (fun method r =>
                  Resolver.resolveFunction method
                    (if String.eqb (lexeme (fn_name method)) "init"
                     then FT_initializer else FT_method) r)).
      eapply Forall_impl; [exact H|]. intros m Hm r.
      now apply resolveFunction_sameDepth. }
    destruct superclass as [sup|]; cbv beta iota.
    + set (r2 := Resolver.resolveExpr (EVariable sup)
                   (set_currentClass CT_subclass
                      (if String.eqb (lexeme name) (lexeme (var_name sup))
                       then error (var_name sup)
                              "A class can't inherit from itself." r1
                       else r1))).
      assert (B2 : length (scopes r2) = length (scopes r1)
                   /\ currentFunction r2 = currentFunction r1).
      { destruct (resolveExpr_sameDepth (EVariable sup)
                    (set_currentClass CT_subclass
                       (if String.eqb (lexeme name) (lexeme (var_name sup))
                        then error (var_name sup)
                               "A class can't inherit from itself." r1
                        else r1))) as (Bl & _ & Bf).
        fold r2 in Bl, Bf. rewrite Bl, Bf.
        destruct (String.eqb _ _); split; reflexivity. }
      destruct B2 as [B2l B2f].
      set (r3 := currScope_set "super" true (beginScope r2)).
      set (r4 := currScope_set "this" true (beginScope r3)).
      destruct (currScope_set_sameDepth "super" true (beginScope r2))
        as (L3 & _ & F3). fold r3 in L3, F3.
      destruct (currScope_set_sameDepth "this" true (beginScope r3))
        as (L4 & _ & F4). fold r4 in L4, F4.
      rewrite beginScope_length in L3, L4. simpl in F3, F4.
      destruct (Hmethods r4) as (Ml & Mc & Mf).
      split; [|split].
      * simpl. apply length_removelast_app. apply length_removelast_app.
        rewrite Ml, L4, L3. congruence.
      * reflexivity.
      * simpl. congruence.
    + set (r4 := currScope_set "this" true (beginScope r1)).
      destruct (currScope_set_sameDepth "this" true (beginScope r1))
        as (L4 & _ & F4). fold r4 in L4, F4.
      rewrite beginScope_length in L4. simpl in F4.
      destruct (Hmethods r4) as (Ml & Mc & Mf).
      split; [|split].
      * simpl. apply length_removelast_app. rewrite Ml, L4. congruence.
      * reflexivity.
      * simpl. congruence.
  - (* expression *)
    apply resolveExpr_sameDepth.
  - (* function *)
    eapply sameDepth_trans; [apply declare_sameDepth|].
    eapply sameDepth_trans; [apply define_sameDepth|].
    now apply resolveFunction_sameDepth.
  - (* if *)
    eapply sameDepth_trans; [apply resolveExpr_sameDepth|].
    destruct e as [s'|].
    + eapply sameDepth_trans; [apply IHs|]. now apply H.
    + apply IHs.
  - apply resolveExpr_sameDepth.
  - (* return *)
    set (r1 := if decide (currentFunction r0 = FT_none)
               then error keyword "Can't return from top-level code." r0
               else r0).
    assert (B1 : sameDepth r0 r1).
    { unfold r1. destruct (decide _); repeat split. }
    clearbody r1.
    destruct value as [v|]; [|exact B1].
    eapply sameDepth_trans; [exact B1|].
    eapply sameDepth_trans; [|apply resolveExpr_sameDepth].
    destruct (decide _); repeat split.
  - (* var *)
    eapply sameDepth_trans; [apply declare_sameDepth|].
    eapply sameDepth_trans; [|apply define_sameDepth].
    destruct initializer; [apply resolveExpr_sameDepth|apply sameDepth_refl].
  - (* while *)
    eapply sameDepth_trans; [apply resolveExpr_sameDepth|apply IHs].
Qed.

End ResolverDepth.

(** X24: Every statement leaves the resolver where it found it: the scopes it
    pushes it pops, and the function and class it enters it leaves. A run
    over a whole program therefore ends at the global scope, outside of
    any function and class. *)
Theorem resolver_scopes_balanced :
  (forall s r, sameDepth r (Resolver.resolveStmt s r))
  /\ (forall stmts i lg,
         let r := Resolver.resolveStmts stmts (Resolver.new i lg) in
         Resolver.scopes r = []
         /\ Resolver.currentFunction r = Resolver.FT_none
         /\ Resolver.currentClass r = Resolver.CT_none).
Proof.
  split; [intros s r; apply resolveStmt_sameDepth|].
  intros stmts i lg r.
  assert (H : sameDepth (Resolver.new i lg) r).
  { apply (fold_left_sameDepth (fun s r => Resolver.resolveStmt s r)).
    apply Forall_true. apply resolveStmt_sameDepth. }
  destruct H as (Hl & Hc & Hf). simpl in *.
  split; [now apply nil_length_inv|]. split; assumption.
Qed.

Section ResolverReports.
Import Resolver.

Lemma currScope_some r :
  scopes r <> [] -> exists sc, currScope r = Some sc.
Proof.
  intros Hne. unfold currScope.
  destruct (scopes r) as [|x l] eqn:E; [contradiction|]. simpl.
  destruct (lookup_lt_is_Some_2 (x :: l) (length l)) as [sc Hsc];
    [simpl; lia|]. eauto.
Qed.

Lemma currScope_set_log name b r : log (currScope_set name b r) = log r.
Proof. unfold currScope_set. now destruct (currScope r). Qed.

Lemma currScope_set_lookup name b r :
  scopes r <> [] ->
  exists sc, currScope (currScope_set name b r) = Some sc
             /\ sc !! name = Some b.
Proof.
  intros Hne. destruct (currScope_some r Hne) as [sc Hsc].
  unfold currScope_set. rewrite Hsc. unfold currScope in *. simpl.
  rewrite length_insert.
  destruct (length (scopes r)) as [|n] eqn:El; [discriminate|].
  simpl. rewrite Nat.sub_0_r.
  rewrite list_lookup_insert_eq by lia.
  eexists. split; [reflexivity|]. apply lookup_insert_eq.
Qed.

Lemma currScope_set_nonempty name b r :
  scopes r <> [] -> scopes (currScope_set name b r) <> [].
Proof.
  intros Hne H. apply (f_equal length) in H.
  destruct (currScope_set_sameDepth name b r) as (Hl & _).
  rewrite Hl in H. destruct (scopes r); [contradiction|discriminate].
Qed.

Lemma length_eqb_0 r : scopes r <> [] -> (length (scopes r) =? 0) = false.
Proof. intros H. apply Nat.eqb_neq. now destruct (scopes r). Qed.

Lemma declare_nonempty name r : scopes r <> [] -> scopes (declare name r) <> [].
Proof.
  intros Hne. unfold declare. rewrite (length_eqb_0 r Hne).
  apply currScope_set_nonempty.
  destruct (currScope r) as [sc|]; [|exact Hne].
  now destruct (map_has sc (lexeme name)).
Qed.

Lemma declare_lookup name r :
  scopes r <> [] ->
  exists sc, currScope (declare name r) = Some sc
             /\ sc !! lexeme name = Some false.
Proof.
  intros Hne. unfold declare. rewrite (length_eqb_0 r Hne).
  apply currScope_set_lookup.
  destruct (currScope r) as [sc|]; [|exact Hne].
  now destruct (map_has sc (lexeme name)).
Qed.

Lemma resolveLocal_log id name r : log (resolveLocal id name r) = log r.
Proof.
  unfold resolveLocal. generalize (length (scopes r)) at 1.
  intros k. induction k as [|k IH]; simpl; [reflexivity|].
  destruct (scopes r !! k) as [sc|]; [|exact IH].
  destruct (map_has sc (lexeme name)); [reflexivity|exact IH].
Qed.

(** X25: At the top level, where the scope stack is empty, [declare] and
    [define] record nothing, so a global may be declared again. Inside a
    scope, declaring a name the scope already has is reported as "Already
    a variable with this name in this scope."; the name is declared again
    all the same. *)
Theorem redeclaration_reported name r :
  (scopes r = [] -> declare name r = r /\ define name r = r)
  /\ (scopes r <> [] ->
      let r1 := define name (declare name r) in
      log (declare name r1)
      = error_token name "Already a variable with this name in this scope."
          (log r1)
      /\ exists sc, currScope (declare name r1) = Some sc
                    /\ sc !! lexeme name = Some false).
Proof.
  split.
  - intros Hnil. unfold declare, define. now rewrite Hnil.
  - intros Hne r1.
    assert (Hne1 : scopes r1 <> []).
    { unfold r1, define.
      rewrite (length_eqb_0 _ (declare_nonempty name r Hne)).
      apply currScope_set_nonempty. now apply declare_nonempty. }
    split; [|now apply declare_lookup].
    assert (Hsc : exists sc, currScope r1 = Some sc
                             /\ sc !! lexeme name = Some true).
    { unfold r1, define.
      rewrite (length_eqb_0 _ (declare_nonempty name r Hne)).
      apply currScope_set_lookup. now apply declare_nonempty. }
    destruct Hsc as (sc & Hsc & Hname).
    unfold declare. rewrite (length_eqb_0 _ Hne1), Hsc.
    unfold map_has. rewrite Hname. now rewrite currScope_set_log.
Qed.

(** X26: A local variable whose initializer reads the variable itself is
    reported as "Can't read local variable in its own initializer."; at
    the top level the same statement is accepted and the resolver records
    nothing for it. *)
Theorem own_initializer_reported name v r :
  lexeme (var_name v) = lexeme name ->
  (scopes r <> [] ->
   log (Resolver.resolveStmt (SVar name (Some (EVariable v))) r)
   = error_token (var_name v)
       "Can't read local variable in its own initializer."
       (log (declare name r)))
  /\ (scopes r = [] ->
      Resolver.resolveStmt (SVar name (Some (EVariable v))) r = r).
Proof.
  intros Hname. split.
  - intros Hne. cbn [Resolver.resolveStmt Resolver.resolveExpr]. cbv zeta.
    destruct (declare_lookup name r Hne) as (sc & Hsc & Hdecl).
    pose proof (declare_nonempty name r Hne) as Hne1.
    unfold define.
    match goal with
    | |- log (if ?c then _ else _) = _ => assert (Hc : c = false)
    end.
    { apply Nat.eqb_neq. intros H0.
      match type of H0 with
      | length (scopes (resolveLocal ?i ?n ?x)) = 0 =>
          destruct (resolveLocal_balanced i n x) as ([Hl _] & _)
      end.
      rewrite Hl in H0.
      match type of H0 with
      | length (scopes (if ?c then _ else _)) = 0 => destruct c
      end; simpl in H0; destruct (scopes (declare name r));
        try contradiction; discriminate. }
    rewrite Hc, currScope_set_log, resolveLocal_log.
    rewrite Hsc, Hname, Hdecl.
    assert (Hpos : (0 <? length (scopes (declare name r))) = true).
    { apply Nat.ltb_lt. destruct (scopes (declare name r));
        [contradiction|simpl; lia]. }
    rewrite Hpos. rewrite bool_decide_eq_true_2 by reflexivity. reflexivity.
  - intros Hnil. cbn [Resolver.resolveStmt Resolver.resolveExpr]. cbv zeta.
    assert (Hd : declare name r = r) by (unfold declare; now rewrite Hnil).
    assert (Hl : resolveLocal (var_id v) (var_name v) r = r)
      by (unfold resolveLocal; now rewrite Hnil).
    rewrite Hd, Hnil. cbn [length Nat.ltb Nat.leb andb]. rewrite Hl.
    unfold define. now rewrite Hnil.
Qed.

(** X27: A run of the resolver writes the side-table of the interpreter and
    the error stream and nothing else. What it writes depends on the
    statements only: the entries of the run are put over the table it
    finds, and its reports after the reports that are there. *)
Theorem resolver_writes_table_and_log stmts i lg :
  let r := Resolver.resolveStmts stmts (Resolver.new i lg) in
  interpreter r
  = Interpreter.set_locals (written stmts ∪ Interpreter.locals i) i
  /\ log r = (lg ++ reported stmts)%list.
Proof.
  intros r. unfold r.
  pose proof (resolveStmts_adds stmts i (Interpreter.locals i) lg) as H.
  cbv zeta in H.
  replace (Interpreter.set_locals (Interpreter.locals i) i) with i in H
    by now destruct i.
  exact H.
Qed.

End ResolverReports.

Section ResolverWitnesses.
Import Resolver.

Lemma redeclaration_reported_witness :
  log (declare (ident "c")
         (define (ident "c") (declare (ident "c") resolver_in_scopes)))
  = [mkReport 1 " at 'c'" "Already a variable with this name in this scope."].
Proof.
  refine (proj1 (proj2 (redeclaration_reported (ident "c") resolver_in_scopes)
                   _)).
  discriminate.
Defined.

Lemma own_initializer_reported_witness :
  log (Resolver.resolveStmt
         (SVar (ident "c") (Some (EVariable (mkVariable 0 (ident "c")))))
         resolver_in_scopes)
  = [mkReport 1 " at 'c'" "Can't read local variable in its own initializer."].
Proof.
  refine (proj1 (own_initializer_reported (ident "c")
                   (mkVariable 0 (ident "c")) resolver_in_scopes eq_refl) _).
  discriminate.
Defined.

End ResolverWitnesses.

(** ** The parser: positions, recovery and assignment targets *)

Section ParserSafety.
Import Parser.

Lemma stays_refl {A} p (o : Outcome Exc A) :
  onTokens p -> o <> Throw TypeError -> o <> Throw ParseError ->
  stays p (o, p).
Proof.
  intros Hp Ht He. unfold stays. simpl.
  split; [exact Hp|]. split; [reflexivity|]. split; [lia|]. split; [lia|].
  split; [|exact Ht]. exists []. rewrite app_nil_r. split; [reflexivity|].
  intros H. contradiction.
Qed.

Lemma stays_trans {A B} p p1 (a : A) (r : Outcome Exc B * t) :
  stays p (Normal a, p1) -> stays p1 r -> stays p r.
Proof.
  unfold stays. simpl.
  intros (I1 & T1 & C1 & N1 & (e1 & L1 & _) & _)
         (I2 & T2 & C2 & N2 & (e2 & L2 & E2) & X2).
  split; [exact I2|]. split; [congruence|]. split; [lia|]. split; [lia|].
  split; [|exact X2].
  exists (e1 ++ e2)%list. split; [rewrite L2, L1; now rewrite app_assoc|].
  intros H. specialize (E2 H). destruct e2; [contradiction|].
  now destruct e1.
Qed.

Lemma stays_Throw {A B} p e p1 :
  @stays A p (Throw e, p1) -> @stays B p (Throw e, p1).
Proof.
  unfold stays. simpl.
  intros (I1 & T1 & C1 & N1 & (e1 & L1 & E1) & X1).
  split; [exact I1|]. split; [exact T1|]. split; [exact C1|].
  split; [exact N1|]. split.
  - exists e1. split; [exact L1|]. intros [= ->]. now apply E1.
  - intros [= ->]. now apply X1.
Qed.

Lemma safe_weaken {A} c c' (m : P A) : c <= c' -> safe c m -> safe c' m.
Proof. intros Hc H p Hp Hcur. apply H; [exact Hp|lia]. Qed.

Lemma safe_ret {A} c (a : A) : safe c (ret a).
Proof. intros p Hp _. now apply stays_refl. Qed.

Lemma safe_throw_OutOfFuel {A} c : safe c (@throw _ _ A OutOfFuel).
Proof. intros p Hp _. now apply stays_refl. Qed.

Lemma safe_bind {A B} c (m : P A) (f : A -> P B) :
  safe c m -> (forall a, safe c (f a)) -> safe c (bind m f).
Proof.
  intros Hm Hf p Hp Hc. unfold bind. specialize (Hm p Hp Hc).
  destruct (m p) as [[a|e] p1].
  - eapply stays_trans; [exact Hm|].
    destruct Hm as (I1 & _ & C1 & _). simpl in *. apply Hf; [exact I1|lia].
  - exact (stays_Throw p e p1 Hm).
Qed.

Lemma safe_try_catch {A} c (m : P A) (handler : Exc -> P A) :
  safe c m ->
  (forall e, e <> TypeError -> safe c (handler e)) ->
  safe c (try_catch m handler).
Proof.
  intros Hm Hh p Hp Hc. unfold try_catch. specialize (Hm p Hp Hc).
  destruct (m p) as [[a|e] p1]; [exact Hm|].
  destruct Hm as (I1 & T1 & C1 & N1 & (e1 & L1 & _) & X1). simpl in *.
  assert (He : e <> TypeError) by congruence.
  specialize (Hh e He p1 I1 ltac:(lia)).
  destruct (handler e p1) as [o p2].
  destruct Hh as (I2 & T2 & C2 & N2 & (e2 & L2 & E2) & X2). simpl in *.
  split; [exact I2|]. split; [simpl; congruence|]. split; [simpl; lia|].
  split; [simpl; lia|]. split; [|exact X2].
  exists (e1 ++ e2)%list. simpl.
  split; [rewrite L2, L1; now rewrite app_assoc|].
  intros H. specialize (E2 H). destruct e2; [contradiction|].
  now destruct e1.
Qed.

Lemma safe_loop {A} c fuel (step : A -> P (A + A)) :
  (forall a, safe c (step a)) ->
  forall a, safe c (loop OutOfFuel fuel step a).
Proof.
  intros Hstep. induction fuel as [|n IH]; intros a; simpl;
    [apply safe_throw_OutOfFuel|].
  apply safe_bind; [apply Hstep|]. intros [a'|a']; [apply IH|apply safe_ret].
Qed.

Lemma safe_when c (b : bool) (m : P unit) : safe c m -> safe c (when_ b m).
Proof. intros H. destruct b; [exact H|apply safe_ret]. Qed.

(** *** The primitives *)

Lemma onTokens_token p :
  onTokens p -> exists tok, tokens p !! current p = Some tok.
Proof. intros [_ H]. now apply lookup_lt_is_Some_2. Qed.

(** A token that is not the end-of-file token is not the last one. *)
Lemma onTokens_next p tok :
  onTokens p ->
  tokens p !! current p = Some tok ->
  type tok <> T_eof ->
  S (current p) < length (tokens p).
Proof.
  intros [(pre & eof & Htoks & Heof) Hlt] Htok Hne.
  rewrite Htoks in *. rewrite length_app in *. simpl in *.
  destruct (decide (current p = length pre)) as [E|E]; [|lia].
  rewrite E, lookup_app_r in Htok by lia.
  rewrite Nat.sub_diag in Htok. simpl in Htok. congruence.
Qed.

Lemma peek_on p :
  onTokens p -> exists tok, tokens p !! current p = Some tok
                            /\ peek p = (Normal tok, p).
Proof.
  intros Hp. destruct (onTokens_token p Hp) as [tok Htok].
  exists tok. split; [exact Htok|]. unfold peek. now rewrite Htok.
Qed.

Lemma isAtEnd_on p :
  onTokens p -> exists tok, tokens p !! current p = Some tok
                            /\ isAtEnd p = (Normal (tt_eqb (type tok) T_eof), p).
Proof.
  intros Hp. destruct (peek_on p Hp) as (tok & Htok & Hpeek).
  exists tok. split; [exact Htok|]. unfold isAtEnd.
  now rewrite (bind_eq_Normal _ _ _ _ _ Hpeek).
Qed.

Lemma tt_eqb_false a b : tt_eqb a b = false -> a <> b.
Proof. unfold tt_eqb. now intros H%bool_decide_eq_false. Qed.

Lemma tt_eqb_true a b : tt_eqb a b = true -> a = b.
Proof. unfold tt_eqb. now intros H%bool_decide_eq_true. Qed.

Lemma onTokens_set_current p n :
  onTokens p -> n < length (tokens p) -> onTokens (set_current n p).
Proof. intros [H _] Hn. split; [exact H|exact Hn]. Qed.

(** A state that differs from [p] in the position only. *)
Lemma stays_moved {A} p n (o : Outcome Exc A) :
  onTokens p -> current p <= n -> n < length (tokens p) ->
  o <> Throw TypeError -> o <> Throw ParseError ->
  stays p (o, set_current n p).
Proof.
  intros Hp Hle Hlt Ht He. unfold stays. simpl.
  split; [now apply onTokens_set_current|]. split; [reflexivity|].
  split; [exact Hle|]. split; [lia|]. split; [|exact Ht].
  exists []. rewrite app_nil_r. split; [reflexivity|]. contradiction.
Qed.

Lemma advance_on p tok :
  onTokens p ->
  tokens p !! current p = Some tok ->
  (type tok <> T_eof ->
   advance p = (Normal (Some tok), set_current (S (current p)) p))
  /\ (type tok = T_eof -> advance p = (Normal (previous_opt p), p)).
Proof.
  intros Hp Htok. destruct (isAtEnd_on p Hp) as (tok' & Htok' & Hend).
  assert (tok' = tok) by congruence. subst tok'.
  unfold advance. rewrite (bind_eq_Normal _ _ _ _ _ Hend). split.
  - intros Hne. destruct (tt_eqb (type tok) T_eof) eqn:E.
    + apply tt_eqb_true in E. contradiction.
    + simpl. unfold bind, modify, gets, previous_opt. simpl.
      now rewrite Htok.
  - intros He. unfold tt_eqb. rewrite bool_decide_eq_true_2 by exact He.
    reflexivity.
Qed.

Lemma safe_peek c : safe c peek.
Proof.
  intros p Hp _. destruct (peek_on p Hp) as (tok & _ & ->).
  now apply stays_refl.
Qed.

Lemma safe_isAtEnd c : safe c isAtEnd.
Proof.
  intros p Hp _. destruct (isAtEnd_on p Hp) as (tok & _ & ->).
  now apply stays_refl.
Qed.

Lemma safe_check c ty : safe c (check ty).
Proof.
  unfold check. apply safe_bind; [apply safe_isAtEnd|]. intros e.
  destruct e; [apply safe_ret|].
  apply safe_bind; [apply safe_peek|]. intros tok. apply safe_ret.
Qed.

Lemma safe_advance c : safe c advance.
Proof.
  intros p Hp _. destruct (onTokens_token p Hp) as [tok Htok].
  destruct (advance_on p tok Hp Htok) as [Hmove Hstay].
  destruct (decide (type tok = T_eof)) as [E|E].
  - rewrite (Hstay E). now apply stays_refl.
  - rewrite (Hmove E).
    apply stays_moved; [exact Hp|lia| |discriminate|discriminate].
    now apply (onTokens_next p tok).
Qed.

Lemma safe_fresh c : safe c fresh.
Proof.
  intros p Hp _. unfold fresh, stays. simpl.
  split; [exact Hp|]. split; [reflexivity|]. split; [lia|]. split; [lia|].
  split; [|discriminate]. exists []. rewrite app_nil_r.
  split; [reflexivity|discriminate].
Qed.

Lemma error_token_app tok msg lg :
  exists r, error_token tok msg lg = (lg ++ [r])%list.
Proof.
  unfold error_token, report. destruct (tt_eqb _ _); eauto.
Qed.

Lemma safe_report_error c tok msg : safe c (report_error tok msg).
Proof.
  intros p Hp _. unfold report_error, modify, stays. simpl.
  split; [exact Hp|]. split; [reflexivity|]. split; [lia|]. split; [lia|].
  split; [|discriminate].
  destruct (error_token_app tok msg (log p)) as [r ->].
  exists [r]. split; [reflexivity|discriminate].
Qed.

Lemma safe_error c tok msg : safe c (error tok msg).
Proof.
  unfold error. apply safe_bind; [apply safe_report_error|].
  intros _. apply safe_ret.
Qed.

(** [throw this.error(token, message)] *)
Lemma safe_error_throw {A} c tok msg :
  safe c (bind (error tok msg) (fun e => @throw _ _ A e)).
Proof.
  intros p Hp _. unfold error, report_error, bind, modify, ret, throw, stays.
  simpl. split; [exact Hp|]. split; [reflexivity|]. split; [lia|].
  split; [lia|]. split; [|discriminate].
  destruct (error_token_app tok msg (log p)) as [r ->].
  exists [r]. split; [reflexivity|discriminate].
Qed.

Lemma check_on p ty tok :
  onTokens p ->
  tokens p !! current p = Some tok ->
  check ty p
  = (Normal (negb (tt_eqb (type tok) T_eof) && tt_eqb (type tok) ty), p).
Proof.
  intros Hp Htok. destruct (isAtEnd_on p Hp) as (tok' & Htok' & Hend).
  assert (tok' = tok) by congruence. subst tok'.
  unfold check. rewrite (bind_eq_Normal _ _ _ _ _ Hend).
  destruct (tt_eqb (type tok) T_eof); [reflexivity|].
  destruct (peek_on p Hp) as (tok' & Htok'' & Hpeek).
  assert (tok' = tok) by congruence. subst tok'.
  now rewrite (bind_eq_Normal _ _ _ _ _ Hpeek).
Qed.

(** [match] either reads one token and says [true], or reads nothing and
    says [false]. *)
Lemma match_on types p :
  onTokens p ->
  (match_ types p = (Normal true, set_current (S (current p)) p)
   /\ S (current p) < length (tokens p))
  \/ match_ types p = (Normal false, p).
Proof.
  intros Hp. destruct (onTokens_token p Hp) as [tok Htok].
  induction types as [|ty types IH]; [now right|].
  simpl. rewrite (bind_eq_Normal _ _ _ _ _ (check_on p ty tok Hp Htok)).
  destruct (tt_eqb (type tok) T_eof) eqn:E; simpl; [exact IH|].
  destruct (tt_eqb (type tok) ty); [|exact IH].
  apply tt_eqb_false in E.
  destruct (advance_on p tok Hp Htok) as [Hmove _].
  rewrite (bind_eq_Normal _ _ _ _ _ (Hmove E)). left.
  split; [reflexivity|]. now apply (onTokens_next p tok).
Qed.

Lemma safe_match c types : safe c (match_ types).
Proof.
  intros p Hp _. destruct (match_on types p Hp) as [[-> Hlt]| ->].
  - apply stays_moved; [exact Hp|lia|exact Hlt|discriminate|discriminate].
  - now apply stays_refl.
Qed.

Lemma safe_match_if {A} c types (kt kf : P A) :
  safe (S c) kt -> safe c kf ->
  safe c (bind (match_ types) (fun m : bool => if m then kt else kf)).
Proof.
  intros Ht Hf p Hp Hc. unfold bind.
  destruct (match_on types p Hp) as [[-> Hlt]| ->].
  - eapply (stays_trans p (set_current (S (current p)) p) true).
    + apply stays_moved; [exact Hp|lia|exact Hlt|discriminate|discriminate].
    + apply Ht; [now apply onTokens_set_current|simpl; lia].
  - now apply Hf.
Qed.

Lemma consume_on ty msg p :
  onTokens p ->
  (exists tok,
      consume ty msg p = (Normal tok, set_current (S (current p)) p)
      /\ S (current p) < length (tokens p))
  \/ (exists tok,
         consume ty msg p
         = (Throw ParseError,
            mk (tokens p) (current p) (nextId p)
               (error_token tok msg (log p)))).
Proof.
  intros Hp. destruct (onTokens_token p Hp) as [tok Htok].
  unfold consume. rewrite (bind_eq_Normal _ _ _ _ _ (check_on p ty tok Hp Htok)).
  destruct (tt_eqb (type tok) T_eof) eqn:E; simpl.
  - right. exists tok. destruct (peek_on p Hp) as (tok' & Htok' & Hpeek).
    assert (tok' = tok) by congruence. subst tok'.
    now rewrite (bind_eq_Normal _ _ _ _ _ Hpeek).
  - destruct (tt_eqb (type tok) ty).
    + left. exists tok. apply tt_eqb_false in E.
      destruct (advance_on p tok Hp Htok) as [Hmove _].
      rewrite (bind_eq_Normal _ _ _ _ _ (Hmove E)).
      split; [reflexivity|]. now apply (onTokens_next p tok).
    + right. exists tok. destruct (peek_on p Hp) as (tok' & Htok' & Hpeek).
      assert (tok' = tok) by congruence. subst tok'.
      now rewrite (bind_eq_Normal _ _ _ _ _ Hpeek).
Qed.

Lemma stays_consume_fails {A} p tok msg :
  onTokens p ->
  @stays A p (Throw ParseError,
              mk (tokens p) (current p) (nextId p)
                 (error_token tok msg (log p))).
Proof.
  intros Hp. unfold stays. simpl.
  split; [exact Hp|]. split; [reflexivity|]. split; [lia|]. split; [lia|].
  split; [|discriminate].
  destruct (error_token_app tok msg (log p)) as [r ->].
  exists [r]. split; [reflexivity|discriminate].
Qed.

Lemma safe_consume_bind {A} c ty msg (f : Token -> P A) :
  (forall tok, safe (S c) (f tok)) -> safe c (bind (consume ty msg) f).
Proof.
  intros Hf p Hp Hc. unfold bind.
  destruct (consume_on ty msg p Hp) as [(tok & -> & Hlt)|(tok & ->)].
  - eapply (stays_trans p (set_current (S (current p)) p) tok).
    + apply stays_moved; [exact Hp|lia|exact Hlt|discriminate|discriminate].
    + apply Hf; [now apply onTokens_set_current|simpl; lia].
  - now apply stays_consume_fails.
Qed.

Lemma safe_consume c ty msg : safe c (consume ty msg).
Proof.
  intros p Hp Hc.
  destruct (consume_on ty msg p Hp) as [(tok & -> & Hlt)|(tok & ->)].
  - apply stays_moved; [exact Hp|lia|exact Hlt|discriminate|discriminate].
  - now apply stays_consume_fails.
Qed.

Lemma safe_previous c : 1 <= c -> safe c previous.
Proof.
  intros Hc p Hp Hcur. unfold previous, previous_opt.
  destruct (current p) as [|i] eqn:E; [lia|].
  destruct (lookup_lt_is_Some_2 (tokens p) i) as [tok Htok].
  { destruct Hp as [_ Hlt]. lia. }
  rewrite Htok. now apply stays_refl.
Qed.

Local Opaque peek previous isAtEnd advance check match_ error consume
  fresh report_error.

Ltac safe_auto :=
  repeat first
    [ progress intros
    | assumption
    | apply safe_ret | apply safe_throw_OutOfFuel
    | apply safe_match | apply safe_consume | apply safe_check
    | apply safe_isAtEnd | apply safe_peek | apply safe_advance
    | apply safe_fresh | apply safe_report_error | apply safe_error
    | apply safe_previous; lia
    | apply safe_loop | apply safe_when | apply safe_try_catch
    | apply safe_error_throw
    | apply safe_match_if
    | apply safe_consume_bind
    | apply safe_bind
    | progress cbv beta zeta
    | match goal with
      | H : ?x <> ?x |- _ => now contradict H
      | |- safe _ (match ?x with _ => _ end) => destruct x
      | |- safe _ (if ?x then _ else _) => destruct x
      | H : forall c, safe c ?m |- safe _ ?m => apply H
      | H : forall c a, safe c (?m a) |- safe _ (?m _) => apply H
      end ].

Lemma safe_binaryLevel c fuel ops node (next : P Expr) :
  (forall c, safe c next) -> safe c (binaryLevel fuel ops node next).
Proof. intros Hn. unfold binaryLevel. safe_auto. Qed.

Lemma expressions_safe n :
  forall c,
    safe c (expression n) /\ safe c (assignment n) /\ safe c (or_ n)
    /\ safe c (and_ n) /\ safe c (equality n) /\ safe c (comparison n)
    /\ safe c (term n) /\ safe c (factor n) /\ safe c (unary n)
    /\ safe c (call n) /\ (forall callee, safe c (finishCall n callee))
    /\ safe c (primary n).
Proof.
  induction n as [|n IH].
  - intros c.
    repeat (split; [intros; apply safe_throw_OutOfFuel|]).
    apply safe_throw_OutOfFuel.
  - assert (He : forall c, safe c (expression n)) by (intros c; apply IH).
    assert (Ha : forall c, safe c (assignment n)) by (intros c; apply IH).
    assert (Ho : forall c, safe c (or_ n)) by (intros c; apply IH).
    assert (Hand : forall c, safe c (and_ n)) by (intros c; apply IH).
    assert (Heq : forall c, safe c (equality n)) by (intros c; apply IH).
    assert (Hcmp : forall c, safe c (comparison n)) by (intros c; apply IH).
    assert (Ht : forall c, safe c (term n)) by (intros c; apply IH).
    assert (Hf : forall c, safe c (factor n)) by (intros c; apply IH).
    assert (Hu : forall c, safe c (unary n)) by (intros c; apply IH).
    assert (Hc : forall c, safe c (call n)) by (intros c; apply IH).
    assert (Hfc : forall c callee, safe c (finishCall n callee))
      by (intros c; apply IH).
    assert (Hp : forall c, safe c (primary n)) by (intros c; apply IH).
    clear IH. intros c.
    split; [exact (Ha c)|].
    split; [cbn [assignment]; safe_auto|].
    split; [cbn [or_]; now apply safe_binaryLevel|].
    split; [cbn [and_]; now apply safe_binaryLevel|].
    split; [cbn [equality]; now apply safe_binaryLevel|].
    split; [cbn [comparison]; now apply safe_binaryLevel|].
    split; [cbn [term]; now apply safe_binaryLevel|].
    split; [cbn [factor]; now apply safe_binaryLevel|].
    split; [cbn [unary]; safe_auto|].
    split; [cbn [call]; safe_auto|].
    split; [intros callee; cbn [finishCall]; safe_auto|].
    cbn [primary]. safe_auto.
Qed.

(** [synchronize] looks at the token before the position only after it
    has seen that the position is not at the end, and then the position is
    past the first token: [advance] has moved it. *)
Lemma safe_loop_after_advance {A} fuel (step : A -> P (A + A)) :
  (forall a p, onTokens p -> atEnd p ->
               exists a', step a p = (Normal (inr a'), p)) ->
  (forall a, safe 1 (step a)) ->
  forall a p,
    onTokens p -> atEnd p \/ 1 <= current p ->
    stays p (loop OutOfFuel fuel step a p).
Proof.
  intros Hend Hsafe. induction fuel as [|n IH]; intros a p Hp HJ; simpl.
  - now apply stays_refl.
  - unfold bind. destruct HJ as [He|Hc].
    + destruct (Hend a p Hp He) as [a' ->]. now apply stays_refl.
    + pose proof (Hsafe a p Hp Hc) as H.
      destruct (step a p) as [[[a'|a']|e] p1].
      * eapply stays_trans; [exact H|].
        destruct H as (I1 & _ & C1 & _). simpl in *.
        apply IH; [exact I1|right; lia].
      * eapply stays_trans; [exact H|].
        destruct H as (I1 & _). now apply stays_refl.
      * exact (stays_Throw p e p1 H).
Qed.

Local Transparent advance isAtEnd.

Lemma safe_synchronize c : safe c synchronize.
Proof.
  intros p Hp _. unfold synchronize.
  destruct (onTokens_token p Hp) as [tok Htok].
  destruct (advance_on p tok Hp Htok) as [Hmove Hstay].
  assert (Hadv : exists r p1,
             advance p = (Normal r, p1)
             /\ stays p (@Normal Exc _ r, p1)
             /\ (atEnd p1 \/ 1 <= current p1)).
  { destruct (decide (type tok = T_eof)) as [E|E].
    - exists (previous_opt p), p. split; [now apply Hstay|].
      split; [now apply stays_refl|]. left. exists tok. auto.
    - exists (Some tok), (set_current (S (current p)) p).
      split; [now apply Hmove|]. split; [|right; simpl; lia].
      apply stays_moved; [exact Hp|lia| |discriminate|discriminate].
      now apply (onTokens_next p tok). }
  destruct Hadv as (r & p1 & Hadv & Hst & HJ).
  rewrite (bind_eq_Normal _ _ _ _ _ Hadv).
  unfold bind at 1, get_state at 1. cbv beta iota.
  eapply stays_trans; [exact Hst|].
  destruct Hst as (I1 & _). simpl in I1.
  apply safe_loop_after_advance; [| |exact I1|exact HJ].
  - intros [] q Hq (tq & Htq & Heof).
    destruct (isAtEnd_on q Hq) as (tq' & Htq' & Hend).
    assert (tq' = tq) by congruence. subst tq'.
    exists tt. rewrite (bind_eq_Normal _ _ _ _ _ Hend).
    unfold tt_eqb. now rewrite bool_decide_eq_true_2 by exact Heof.
  - intros [].
    apply safe_bind; [apply safe_isAtEnd|]. intros e.
    destruct e; [apply safe_ret|].
    apply safe_bind; [apply safe_previous; lia|]. intros prev.
    destruct (tt_eqb (type prev) T_semicolon); [apply safe_ret|].
    apply safe_bind; [apply safe_peek|]. intros tk.
    destruct (type tk); try apply safe_ret;
      (apply safe_bind; [apply safe_advance|intros; apply safe_ret]).
Qed.

Local Opaque advance isAtEnd synchronize.

Lemma safe_varDeclaration c n : safe c (varDeclaration n).
Proof.
  unfold varDeclaration.
  pose proof (fun c => proj1 (expressions_safe n c)) as He. safe_auto.
Qed.

Lemma safe_returnStatement c n : safe (S c) (returnStatement n).
Proof.
  unfold returnStatement.
  pose proof (fun c => proj1 (expressions_safe n c)) as He. safe_auto.
Qed.

Lemma safe_printStatement c n : safe c (printStatement n).
Proof.
  unfold printStatement.
  pose proof (fun c => proj1 (expressions_safe n c)) as He. safe_auto.
Qed.

Lemma safe_expressionStatement c n : safe c (expressionStatement n).
Proof.
  unfold expressionStatement.
  pose proof (fun c => proj1 (expressions_safe n c)) as He. safe_auto.
Qed.

Lemma declarations_safe n :
  forall c,
    safe c (declaration n) /\ safe c (classDeclaration n)
    /\ (forall kind, safe c (funcDeclaration n kind))
    /\ safe c (statement n) /\ safe c (block n)
    /\ safe c (forStatement n) /\ safe c (ifStatement n)
    /\ safe c (whileStatement n).
Proof.
  induction n as [|n IH].
  - intros c.
    repeat (split; [intros; apply safe_throw_OutOfFuel|]).
    apply safe_throw_OutOfFuel.
  - assert (Hd : forall c, safe c (declaration n)) by (intros c; apply IH).
    assert (Hc : forall c, safe c (classDeclaration n))
      by (intros c; apply IH).
    assert (Hf : forall c kind, safe c (funcDeclaration n kind))
      by (intros c; apply IH).
    assert (Hs : forall c, safe c (statement n)) by (intros c; apply IH).
    assert (Hb : forall c, safe c (block n)) by (intros c; apply IH).
    assert (Hfor : forall c, safe c (forStatement n)) by (intros c; apply IH).
    assert (Hif : forall c, safe c (ifStatement n)) by (intros c; apply IH).
    assert (Hw : forall c, safe c (whileStatement n)) by (intros c; apply IH).
    pose proof (fun c => proj1 (expressions_safe n c)) as He.
    pose proof (fun c => safe_varDeclaration c n) as Hvar.
    pose proof (fun c => safe_returnStatement c n) as Hret.
    pose proof (fun c => safe_printStatement c n) as Hprint.
    pose proof (fun c => safe_expressionStatement c n) as Hes.
    pose proof safe_synchronize as Hsync.
    clear IH. intros c.
    split; [cbn [declaration]; safe_auto; fail 0 "declaration"|].
    split; [cbn [classDeclaration]; safe_auto; fail 0 "class"|].
    split; [intros kind; cbn [funcDeclaration]; safe_auto; fail 0 "fun"|].
    split; [cbn [statement]; safe_auto; fail 0 "statement"|].
    split; [cbn [block]; safe_auto; fail 0 "block"|].
    split; [cbn [forStatement]; safe_auto; fail 0 "for"|].
    split; [cbn [ifStatement]; safe_auto; fail 0 "if"|].
    cbn [whileStatement]. safe_auto.
Qed.

Local Transparent advance isAtEnd synchronize peek previous.

(** No [ParseError] leaves [declaration]: it is caught there, and
    [synchronize] throws none. *)
Lemma quiet_bind {A B} (m : P A) (f : A -> P B) :
  quiet m -> (forall a, quiet (f a)) -> quiet (bind m f).
Proof.
  intros Hm Hf p. unfold bind. specialize (Hm p).
  destruct (m p) as [[a|e] p1]; [apply Hf|].
  simpl in *. congruence.
Qed.

Lemma quiet_ret {A} (a : A) : quiet (ret a).
Proof. intros p. discriminate. Qed.

Lemma quiet_loop {A} fuel (step : A -> P (A + A)) :
  (forall a, quiet (step a)) -> forall a, quiet (loop OutOfFuel fuel step a).
Proof.
  intros Hs. induction fuel as [|n IH]; intros a; simpl;
    [intros p; discriminate|].
  apply quiet_bind; [apply Hs|]. intros [a'|a']; [apply IH|apply quiet_ret].
Qed.

Lemma quiet_peek : quiet peek.
Proof. intros p. unfold peek. now destruct (tokens p !! current p). Qed.

Lemma quiet_previous : quiet previous.
Proof. intros p. unfold previous. now destruct (previous_opt p). Qed.

Lemma quiet_isAtEnd : quiet isAtEnd.
Proof.
  apply quiet_bind; [apply quiet_peek|]. intros tok. apply quiet_ret.
Qed.

Lemma quiet_advance : quiet advance.
Proof.
  apply quiet_bind; [apply quiet_isAtEnd|]. intros e.
  apply quiet_bind; [|intros; intros p; discriminate].
  destruct e; intros p; discriminate.
Qed.

Lemma quiet_synchronize : quiet synchronize.
Proof.
  apply quiet_bind; [apply quiet_advance|]. intros _.
  apply quiet_bind; [intros p; discriminate|]. intros p.
  apply quiet_loop. intros [].
  apply quiet_bind; [apply quiet_isAtEnd|]. intros e.
  destruct e; [apply quiet_ret|].
  apply quiet_bind; [apply quiet_previous|]. intros prev.
  destruct (tt_eqb (type prev) T_semicolon); [apply quiet_ret|].
  apply quiet_bind; [apply quiet_peek|]. intros tk.
  destruct (type tk); try apply quiet_ret;
    (apply quiet_bind; [apply quiet_advance|intros; apply quiet_ret]).
Qed.

Lemma quiet_declaration n : quiet (declaration n).
Proof.
  destruct n as [|n]; [intros p; discriminate|].
  intros p. cbn [declaration]. unfold try_catch.
  match goal with
  | |- context [match ?m p with _ => _ end] => destruct (m p) as [[a|e] p1]
  end; [discriminate|].
  destruct e; try discriminate.
  apply (quiet_bind synchronize (fun _ => ret None));
    [apply quiet_synchronize|intros; apply quiet_ret].
Qed.

Lemma quiet_parse fuel : quiet (parse fuel).
Proof.
  unfold parse. apply quiet_loop. intros stmts.
  apply quiet_bind; [apply quiet_isAtEnd|]. intros e.
  destruct (negb e); [|apply quiet_ret].
  apply quiet_bind; [apply quiet_declaration|].
  intros [st|]; apply quiet_ret.
Qed.

Local Opaque advance isAtEnd synchronize peek previous.

Lemma safe_parse c fuel : safe c (parse fuel).
Proof.
  unfold parse.
  pose proof (fun c => proj1 (declarations_safe fuel c)) as Hd. safe_auto.
Qed.

Lemma terminated_scanTokens sc :
  terminated (Scanner.tokens (Scanner.scanTokens sc)).
Proof.
  destruct (scanner_loops_complete sc) as (_ & _ & _ & _ & _ & toks & ln & H).
  exists toks, (mkToken T_eof "" TLundefined ln). split; [exact H|reflexivity].
Qed.

End ParserSafety.

(** X28: The scanner ends every token list with an end-of-file token, and on
    such a list the parser never reads outside of the list: its position
    stays on a token, it leaves the list as it is, and what it does to the
    error stream is to add reports. Every [ParseError] is caught by
    [declaration], so [parse] throws none. *)
Theorem parser_stays_on_tokens :
  (forall sc, terminated (Scanner.tokens (Scanner.scanTokens sc)))
  /\ (forall toks lg,
         terminated toks ->
         let r := Parser.parseTokens toks lg in
         fst r <> Throw Parser.TypeError
         /\ fst r <> Throw Parser.ParseError
         /\ Parser.tokens (snd r) = toks
         /\ Parser.current (snd r) < length toks
         /\ exists errs, Parser.log (snd r) = (lg ++ errs)%list).
Proof.
  split; [apply terminated_scanTokens|].
  intros toks lg Hterm r.
  assert (Hon : onTokens (Parser.new toks lg)).
  { split; [exact Hterm|]. destruct Hterm as (pre & eof & -> & _).
    simpl. rewrite length_app. simpl. lia. }
  pose proof (safe_parse 0 (Parser.fuelFor toks) (Parser.new toks lg) Hon
                ltac:(simpl; lia)) as H.
  pose proof (quiet_parse (Parser.fuelFor toks) (Parser.new toks lg)) as Hq.
  fold (Parser.parseTokens toks lg) in H, Hq. fold r in H, Hq.
  destruct H as ([_ Hlt] & Ht & _ & _ & (errs & Hl & _) & Hx).
  simpl in Ht, Hl. rewrite Ht in Hlt.
  split; [exact Hx|]. split; [exact Hq|]. split; [exact Ht|].
  split; [exact Hlt|]. exists errs. exact Hl.
Qed.

Section ParserRecovery.
Import Parser.

Lemma previous_on p :
  onTokens p -> 1 <= current p ->
  exists prev, previous p = (Normal prev, p) /\ previous_opt p = Some prev.
Proof.
  intros [_ Hlt] Hc. unfold previous, previous_opt.
  destruct (current p) as [|i]; [lia|].
  destruct (lookup_lt_is_Some_2 (tokens p) i) as [prev Hprev]; [lia|].
  exists prev. now rewrite Hprev.
Qed.

Lemma synchronize_loop fuel :
  forall p,
    onTokens p ->
    atEnd p \/ 1 <= current p ->
    length (tokens p) - current p <= fuel ->
    exists n,
      loop OutOfFuel fuel
        (fun _ : unit =>
           e ← isAtEnd;
           if e then ret (inr tt)
           else
             prev ← previous;
             if tt_eqb (type prev) T_semicolon then ret (inr tt)
             else
               tok ← peek;
               match type tok with
               | T_class | T_fun | T_var | T_for | T_if | T_while | T_print
               | T_return => ret (inr tt)
               | _ => advance;; ret (inl tt)
               end)
        tt p
      = (Normal tt, set_current n p)
      /\ current p <= n
      /\ n < length (tokens p)
      /\ atBoundary (set_current n p)
      /\ forall m, current p <= m -> m < n -> ~ atBoundary (set_current m p).
Proof.
  induction fuel as [|k IH]; intros p Hp HJ Hfuel.
  { destruct Hp as [_ Hlt]. lia. }
  assert (Hself : set_current (current p) p = p) by now destruct p.
  assert (Hlt : current p < length (tokens p)) by apply Hp.
  destruct (isAtEnd_on p Hp) as (tok & Htok & Hend).
  cbn [loop]. unfold bind at 1. unfold bind at 1. rewrite Hend.
  destruct (tt_eqb (type tok) T_eof) eqn:E.
  - apply tt_eqb_true in E. exists (current p). rewrite Hself.
    split; [reflexivity|]. split; [lia|]. split; [exact Hlt|].
    split; [|intros; lia].
    left. exists tok. auto.
  - apply tt_eqb_false in E.
    destruct HJ as [(tok' & Htok' & Heof)|Hc]; [congruence|].
    destruct (previous_on p Hp Hc) as (prev & Hprevious & Hprev).
    unfold bind at 1. rewrite Hprevious.
    destruct (tt_eqb (type prev) T_semicolon) eqn:Esemi.
    + apply tt_eqb_true in Esemi. exists (current p). rewrite Hself.
      split; [reflexivity|]. split; [lia|]. split; [exact Hlt|].
      split; [|intros; lia].
      right. left. exists prev. auto.
    + apply tt_eqb_false in Esemi.
      assert (Hpeek : peek p = (Normal tok, p)).
      { unfold peek. now rewrite Htok. }
      unfold bind at 1. rewrite Hpeek.
      assert (Hstop : In (type tok) statementStarts ->
                exists n, (@Normal Exc unit tt, p) = (Normal tt, set_current n p)
                          /\ current p <= n /\ n < length (tokens p)
                          /\ atBoundary (set_current n p)
                          /\ forall m, current p <= m -> m < n ->
                                       ~ atBoundary (set_current m p)).
      { intros Hin. exists (current p). rewrite Hself.
        split; [reflexivity|]. split; [lia|]. split; [exact Hlt|].
        split; [|intros; lia].
        right. right. exists tok. auto. }
      destruct (advance_on p tok Hp Htok) as [Hmove _].
      specialize (Hmove E).
      assert (Hnext : S (current p) < length (tokens p))
        by now apply (onTokens_next p tok).
      assert (Hgo : ~ In (type tok) statementStarts ->
               exists n,
                 loop OutOfFuel k
                   (fun _ : unit =>
                      e ← isAtEnd;
                      if e then ret (inr tt)
                      else
                        prev ← previous;
                        if tt_eqb (type prev) T_semicolon then ret (inr tt)
                        else
                          tok ← peek;
                          match type tok with
                          | T_class | T_fun | T_var | T_for | T_if | T_while
                          | T_print | T_return => ret (inr tt)
                          | _ => advance;; ret (inl tt)
                          end)
                   tt (set_current (S (current p)) p)
                 = (Normal tt, set_current n p)
                 /\ current p <= n /\ n < length (tokens p)
                 /\ atBoundary (set_current n p)
                 /\ forall m, current p <= m -> m < n ->
                              ~ atBoundary (set_current m p)).
      { intros Hno.
        destruct (IH (set_current (S (current p)) p))
          as (n & Hn & H1 & H2 & H3 & H4).
        - now apply onTokens_set_current.
        - right. simpl. lia.
        - simpl. lia.
        - exists n. simpl in *. split; [exact Hn|].
          split; [lia|]. split; [exact H2|]. split; [exact H3|].
          intros m Hm1 Hm2.
          destruct (decide (m = current p)) as [->|Hne].
          + rewrite Hself.
            intros [(t & Ht & Heof)|[(pv & Hpv & Hs)|(t & Ht & Hin)]].
            * congruence.
            * congruence.
            * apply Hno. assert (t = tok) by congruence. now subst t.
          + apply H4; lia. }
      destruct (type tok) eqn:Ety;
        try (apply Hstop; unfold statementStarts; simpl; tauto);
        (unfold bind at 1; rewrite Hmove; apply Hgo;
         unfold statementStarts; simpl; intuition discriminate).
Qed.

(** X29: After a parse error, [synchronize] always returns and changes
    nothing but the position. At the end of the tokens it stays where it
    is. Otherwise it skips the token at the error and stops at the first
    position behind it that is at the end of the tokens, just after a
    semicolon, or in front of a keyword that begins a statement: no
    position between the error and the one it stops at is such a
    boundary. *)
Theorem synchronize_stops_at_boundary p :
  onTokens p ->
  exists n,
    synchronize p = (Normal tt, set_current n p)
    /\ n < length (tokens p)
    /\ atBoundary (set_current n p)
    /\ (atEnd p -> n = current p)
    /\ (~ atEnd p -> current p < n)
    /\ (forall m, current p < m -> m < n -> ~ atBoundary (set_current m p)).
Proof.
  intros Hp. unfold synchronize.
  destruct (onTokens_token p Hp) as [tok Htok].
  destruct (advance_on p tok Hp Htok) as [Hmove Hstay].
  assert (Hself : set_current (current p) p = p) by now destruct p.
  destruct (decide (type tok = T_eof)) as [E|E].
  - rewrite (bind_eq_Normal _ _ _ _ _ (Hstay E)).
    unfold bind at 1, get_state at 1. cbv beta iota.
    assert (Hend : atEnd p) by (exists tok; auto).
    destruct (synchronize_loop (S (length (tokens p) - current p)) p Hp)
      as (n & Hn & H1 & H2 & H3 & H4); [left; exact Hend|lia|].
    assert (Hn' : n = current p).
    { destruct (decide (n = current p)) as [|Hne]; [assumption|].
      exfalso. apply (H4 (current p)); [lia|lia|].
      rewrite Hself. left. exact Hend. }
    exists n. split; [exact Hn|]. split; [exact H2|]. split; [exact H3|].
    split; [auto|]. split; [intros Hno; contradiction|].
    intros m Hm1 Hm2. lia.
  - rewrite (bind_eq_Normal _ _ _ _ _ (Hmove E)).
    unfold bind at 1, get_state at 1. cbv beta iota.
    assert (Hnext : S (current p) < length (tokens p))
      by now apply (onTokens_next p tok).
    destruct (synchronize_loop
                (S (length (tokens (set_current (S (current p)) p))
                    - current (set_current (S (current p)) p)))
                (set_current (S (current p)) p))
      as (n & Hn & H1 & H2 & H3 & H4).
    + now apply onTokens_set_current.
    + right. simpl. lia.
    + lia.
    + exists n. simpl in *. split; [exact Hn|]. split; [exact H2|].
      split; [exact H3|]. split.
      { intros (t & Ht & Heof). congruence. }
      split; [intros _; lia|].
      intros m Hm1 Hm2. apply H4; lia.
Qed.

(** X30: An [=] after an expression that is no variable and no property is
    reported as "Invalid assignment target." at the [=]; nothing is thrown,
    so the statement is parsed to its end: the right-hand side is read and
    dropped and the left-hand side is the result. *)
Theorem invalid_assignment_target n p expr p1 p2 equals value p3 :
  or_ n p = (Normal expr, p1) ->
  match_ [T_equal] p1 = (Normal true, p2) ->
  previous p2 = (Normal equals, p2) ->
  assignment n p2 = (Normal value, p3) ->
  assignable expr = false ->
  assignment (S n) p
  = (Normal expr,
     mk (tokens p3) (current p3) (nextId p3)
        (error_token equals "Invalid assignment target." (log p3))).
Proof.
  intros Ho Hm Hp Ha Hno. cbn [assignment].
  rewrite (bind_eq_Normal _ _ _ _ _ Ho), (bind_eq_Normal _ _ _ _ _ Hm).
  cbv beta iota.
  rewrite (bind_eq_Normal _ _ _ _ _ Hp), (bind_eq_Normal _ _ _ _ _ Ha).
  destruct expr; try discriminate Hno; reflexivity.
Qed.

End ParserRecovery.

Section ParserWitnesses.
Import Parser.

(** [print ;]: the error is reported, caught and recovered from. *)
Lemma parser_stays_on_tokens_witness :
  let r := parseTokens (Scanner.tokens (Run.scanSource "print ;")) [] in
  fst r <> Throw TypeError
  /\ fst r <> Throw ParseError
  /\ tokens (snd r) = Scanner.tokens (Run.scanSource "print ;")
  /\ current (snd r) < length (Scanner.tokens (Run.scanSource "print ;"))
  /\ exists errs, log (snd r) = ([] ++ errs)%list.
Proof.
  exact (proj2 parser_stays_on_tokens
           (Scanner.tokens (Run.scanSource "print ;")) []
           (proj1 parser_stays_on_tokens (Scanner.new "print ;" []))).
Defined.

(** After the error at [2] in [print 1 2; 3 var x;] the parser goes on
    behind the semicolon, at [3]. *)
Lemma synchronize_stops_at_boundary_witness :
  current at_bad_print = 2
  /\ synchronize at_bad_print = (Normal tt, set_current 4 at_bad_print)
  /\ exists n,
       synchronize at_bad_print = (Normal tt, set_current n at_bad_print)
       /\ n < length (tokens at_bad_print)
       /\ atBoundary (set_current n at_bad_print)
       /\ (atEnd at_bad_print -> n = current at_bad_print)
       /\ (~ atEnd at_bad_print -> current at_bad_print < n)
       /\ (forall m, current at_bad_print < m -> m < n ->
                     ~ atBoundary (set_current m at_bad_print)).
Proof.
  split; [reflexivity|]. split; [vm_compute; reflexivity|].
  apply synchronize_stops_at_boundary. split.
  - exists (removelast (tokens at_bad_print)),
      (mkToken T_eof "" TLundefined 1).
    split; vm_compute; reflexivity.
  - vm_compute. lia.
Defined.

(** [1 = 2;] *)
Lemma invalid_assignment_target_witness :
  fst (assignment 21 at_bad_assignment) = Normal (ELiteral (LVnumber one))
  /\ log (snd (assignment 21 at_bad_assignment))
     = [mkReport 1 " at '='" "Invalid assignment target."].
Proof.
  assert (H1 : or_ 20 at_bad_assignment
               = (Normal (ELiteral (LVnumber one)),
                  snd (or_ 20 at_bad_assignment)))
    by (vm_compute; reflexivity).
  assert (H2 : match_ [T_equal] (snd (or_ 20 at_bad_assignment))
               = (Normal true,
                  snd (match_ [T_equal] (snd (or_ 20 at_bad_assignment)))))
    by (vm_compute; reflexivity).
  assert (H3 : previous
                 (snd (match_ [T_equal] (snd (or_ 20 at_bad_assignment))))
               = (Normal (mkToken T_equal "=" TLundefined 1),
                  snd (match_ [T_equal] (snd (or_ 20 at_bad_assignment)))))
    by (vm_compute; reflexivity).
  assert (H4 : assignment 20
                 (snd (match_ [T_equal] (snd (or_ 20 at_bad_assignment))))
               = (Normal (ELiteral (LVnumber (Num.ofZ 2))),
                  snd (assignment 20
                         (snd (match_ [T_equal]
                                 (snd (or_ 20 at_bad_assignment)))))))
    by (vm_compute; reflexivity).
  rewrite (invalid_assignment_target 20 at_bad_assignment _ _ _ _ _ _
             H1 H2 H3 H4 eq_refl).
  split; [reflexivity|vm_compute; reflexivity].
Defined.

End ParserWitnesses.
